(** * Kriging utilities (smt/utils/kriging_utils.py): distance engine,
  correlation kernels, mixed-variable composer.

The numpy arrays of the source are embedded as lists of rows of real
numbers: float64 arithmetic is idealised as arithmetic in [R], and the one
place where the source leaves float64, the conversion to float32 in the
Gower normalizers, is the rounding of module [Float32].  Python exceptions
are an explicit [result] type; [while] loops carry fuel and the theorems show
that the fuel the loops need is finite. *)

From Stdlib Require Import String Reals Lra Lia List Arith PeanoNat Bool ZArith.
Import ListNotations.
Open Scope string_scope.
Open Scope list_scope.
Open Scope nat_scope.

Set Implicit Arguments.

(** ** Python exceptions and results *)

Inductive exn : Type :=
| ValueError (msg : string)
| IndexError
| TypeError
| NameError
| ZeroDivisionError
| FloatingPointError
| PlainException (msg : string).

(** [OutOfFuel] is not a Python outcome: it marks a [while] loop of the
  model that was cut before the source's loop condition became false. *)
Inductive result (A : Type) : Type :=
| Ok (a : A)
| Raise (e : exn)
| OutOfFuel.

Arguments Ok {A} a.
Arguments Raise {A} e.
Arguments OutOfFuel {A}.

Definition bind {A B} (m : result A) (k : A -> result B) : result B :=
  match m with
  | Ok a => k a
  | Raise e => Raise e
  | OutOfFuel => OutOfFuel
  end.

Notation "x <- m ;; k" := (bind m (fun x => k))
  (at level 61, m at next level, right associativity).
Notation "' p <- m ;; k" := (bind m (fun x => let 'p := x in k))
  (at level 61, p pattern, m at next level, right associativity).

(** A [for] loop that builds a list and stops at the first exception. *)
Fixpoint for_each {A B : Type} (f : A -> result B) (l : list A)
  : result (list B) :=
  match l with
  | [] => Ok []
  | a :: l' => b <- f a ;; bs <- for_each f l' ;; Ok (b :: bs)
  end.

(** ** Lists as one-dimensional arrays *)

Section Arrays.
Context {A B C : Type}.

Fixpoint map2 (f : A -> B -> C) (l1 : list A) (l2 : list B) : list C :=
  match l1, l2 with
  | a :: l1', b :: l2' => f a b :: map2 f l1' l2'
  | _, _ => []
  end.

(** [l[a:b]] *)
Definition slice (a b : nat) (l : list A) : list A :=
  firstn (b - a) (skipn a l).

(** [l[a:b] = v], for [v] as long as the slice *)
Definition set_slice (a b : nat) (v l : list A) : list A :=
  firstn a l ++ v ++ skipn b l.

(** [l[k] = x] for [k] in range *)
Definition set_nth (k : nat) (x : A) (l : list A) : list A :=
  firstn k l ++ x :: skipn (S k) l.
End Arrays.

(** [while i * nb_limit <= n: r = body i r; i += 1], from [i]; returns the
  final [i] and [r]. *)
Fixpoint while_chunks {St : Type} (fuel nb_limit n i : nat)
    (body : nat -> St -> St) (r : St) : result (nat * St) :=
  match fuel with
  | O => OutOfFuel
  | S fuel' =>
      if i * nb_limit <=? n
      then while_chunks fuel' nb_limit n (S i) body (body i r)
      else Ok (i, r)
  end.

(** [r[i*nb : (i+1)*nb] = g(data[i*nb : (i+1)*nb], r[i*nb : (i+1)*nb])],
  the right-hand side computed row by row. *)
Definition chunk_assign {A B : Type} (nb_limit : nat) (g : A -> B -> B)
    (data : list A) (i : nat) (r : list B) : list B :=
  set_slice (i * nb_limit) ((i + 1) * nb_limit)
            (map2 g (slice (i * nb_limit) ((i + 1) * nb_limit) data)
                    (slice (i * nb_limit) ((i + 1) * nb_limit) r))
            r.

(** A two-dimensional array: its second shape component and its rows. *)
Record matrix : Type := mk_matrix { ncols : nat; rows : list (list R) }.

Definition nrows (X : matrix) : nat := length (rows X).

Definition wf_matrix (X : matrix) : Prop :=
  Forall (fun r => length r = ncols X) (rows X).

(** [X[k]] for [k] in range *)
Definition row (X : matrix) (k : nat) : list R := nth k (rows X) [].

Definition row_sub (a b : list R) : list R := map2 Rminus a b.
Definition row_neg (a : list R) : list R := map Ropp a.

(** [np.zeros((n, m))] *)
Definition zeros (n m : nat) : list (list R) := repeat (repeat 0%R m) n.

(** ** Distance engine *)

Module Distance.

(** Modelled from the spec: sklearn's [check_pairwise_arrays] is not part
    of the sources; the spec says the call fails when the two point sets
    have mismatched column counts, and returns them otherwise. *)
Definition check_pairwise_arrays (X Y : matrix) : result (matrix * matrix) :=
  if ncols X =? ncols Y then Ok (X, Y)
  else Raise (ValueError "Incompatible dimension for X and Y matrices").

(** State of the self-mode loop: [ll_1], the two columns of [ij], [D]. *)
Definition self_state : Type := nat * (list nat * list nat) * list (list R).

(** One outer iteration of a loop over the pairs [(k, j)], [j > k]: the
  block [D[ll_0:ll_1]] receives [op Xr[k] Yr[j]] for [j = k+1 .. n-1]. *)
Definition pair_body (op : list R -> list R -> list R)
  (Xr Yr : list (list R)) (n_samples : nat) (st : self_state) (k : nat)
  : self_state :=
  let '(ll_1, (ij0, ij1), D) := st in
  let ll_0 := ll_1 in
  let ll_1 := ll_0 + n_samples - k - 1 in
  let ij0 := set_slice ll_0 ll_1
               (repeat k (length (slice ll_0 ll_1 ij0))) ij0 in
  let ij1 := set_slice ll_0 ll_1 (seq (k + 1) (n_samples - (k + 1))) ij1 in
  let D := set_slice ll_0 ll_1
             (map (op (nth k Xr [])) (slice (k + 1) n_samples Yr)) D in
  (ll_1, (ij0, ij1), D).

(** The same loop when it fills [D] alone. *)
Definition rows_body (op : list R -> list R -> list R)
  (Xr Yr : list (list R)) (n_samples : nat)
  (st : nat * list (list R)) (k : nat) : nat * list (list R) :=
  let '(ll_1, D) := st in
  let ll_0 := ll_1 in
  let ll_1 := ll_0 + n_samples - k - 1 in
  let D := set_slice ll_0 ll_1
             (map (op (nth k Xr [])) (slice (k + 1) n_samples Yr)) D in
  (ll_1, D).

(** [D[ll_0:ll_1] = X[k] - X[(k + 1) : n_samples]] *)
Definition self_body (X : matrix) (n_samples : nat) : self_state -> nat -> self_state :=
  pair_body row_sub (rows X) (rows X) n_samples.

Definition cross_body (X Y : matrix) (n_y : nat)
    (st : list (nat * nat) * list (list R)) (k : nat) :=
  let '(ij, D) := st in
  let xk := k / n_y in
  let yk := k mod n_y in
  let D := set_nth k (row_sub (row X xk) (row Y yk)) D in
  let ij := set_nth k (xk, snd (nth k ij (0, 0))) ij in
  let ij := set_nth k (fst (nth k ij (0, 0)), yk) ij in
  (ij, D).

Definition cross_distances (X : matrix) (y : option matrix)
  : result (list (list R) * list (nat * nat)) :=
  let n_samples := nrows X in
  let n_features := ncols X in
  match y with
  | None =>
      let n_nonzero_cross_dist := n_samples * (n_samples - 1) / 2 in
      let ij0 := repeat 0 n_nonzero_cross_dist in
      let ij1 := repeat 0 n_nonzero_cross_dist in
      let D := zeros n_nonzero_cross_dist n_features in
      let '(_, (ij0, ij1), D) :=
        fold_left (self_body X n_samples) (seq 0 (n_samples - 1))
                  (0, (ij0, ij1), D) in
      Ok (D, combine ij0 ij1)
  | Some y =>
      let n_y := nrows y in
      let n_features := ncols y in
      '(X, y) <- check_pairwise_arrays X y ;;
      let n_nonzero_cross_dist := n_samples * n_y in
      let ij := repeat (0, 0) n_nonzero_cross_dist in
      let D := zeros n_nonzero_cross_dist n_features in
      let '(ij, D) :=
        fold_left (cross_body X y n_y) (seq 0 n_nonzero_cross_dist) (ij, D) in
      Ok (D, ij)
  end.

(** [differences(X, Y)]: the dense Cartesian-product difference tensor,
    reshaped to [(n * m, d)]. *)
Definition differences (X Y : matrix) : result (list (list R)) :=
  '(X, Y) <- check_pairwise_arrays X Y ;;
  Ok (flat_map (fun x => map (fun y => row_sub x y) (rows Y)) (rows X)).

(** The pair enumerations the spec names. *)
Definition upper_pairs (n : nat) : list (nat * nat) :=
  flat_map (fun i => map (fun j => (i, j)) (seq (i + 1) (n - (i + 1))))
           (seq 0 n).

Definition all_pairs (n m : nat) : list (nat * nat) :=
  flat_map (fun i => map (fun j => (i, j)) (seq 0 m)) (seq 0 n).

End Distance.

(** ** Correlation kernels *)

Module Kernels.
Local Open Scope R_scope.

(** [int(1e4)] *)
Definition nb_limit : nat := 10 ^ 4.

Definition rsum (l : list R) : R := fold_right Rplus 0 l.
Definition rprod (l : list R) : R := fold_right Rmult 1 l.

(** What a kernel returns: [r] (the column [r[:, 0]]), the pair
    [(r, dr)], or the three-dimensional [d2r]. *)
Inductive kernel_out : Type :=
  | Corr (r : list R)
  | CorrJac (r : list R) (dr : list (list R))
  | Hess (d2r : list (list (list R))).

Definition reshape_error : exn :=
  ValueError "cannot reshape array".

(** Column [d[:, g]] of one row; the index is checked by the callers. *)
Definition col (g : nat) (drow : list R) : R := nth g drow 0.

(** [-np.einsum("i,ij->ij", r, dd)] *)
Definition neg_einsum (r : list R) (dd : matrix) : result (list (list R)) :=
  if (length r =? nrows dd)%nat
  then Ok (map2 (fun rk ddk => map (fun x => - (rk * x)) ddk) r (rows dd))
  else Raise (ValueError "operands could not be broadcast together").

(** *** abs_exp and squar_exp (the two share their value, gradient and
    Hessian passes in the source) *)

Definition exp_value (theta drow : list R) (_ : R) : R :=
  exp (- rsum (map2 Rmult theta drow)).

Definition exp_grad (g : nat) (drow : list R) (rk : R) : R :=
  - col g drow * rk.

(** The source fixes the chunk size to [nb_limit]; the kernels take it as
    [nb], so that the chunk size can be varied, and the fuel of their
    loops. *)
Section Chunked.
Variable nb : nat.
Variable fuel : nat.

(** One [while i * nb_limit <= d.shape[0]] pass over [r], from [i = 0]. *)
Definition pass {A : Type} (n : nat) (g : A -> R -> R) (data : list A)
    (r : list R) : result (list R) :=
  '(_, r) <- while_chunks fuel nb n 0 (chunk_assign nb g data) r ;;
  Ok r.

(** The three passes of abs_exp and squar_exp.  The reshape of [theta]
    and the column index are checked by numpy inside the first
    iteration of a pass, which always runs since [0 * nb_limit <= n]. *)
Definition exp_passes (theta : list R) (d : matrix)
    (grad_ind hess_ind : option nat) : result (list R) :=
  let r := repeat 0 (nrows d) in
  let n_components := ncols d in
  if negb (length theta =? n_components)%nat then Raise reshape_error else
  r <- pass (nrows d) (exp_value theta) (rows d) r ;;
  r <- match grad_ind with
       | Some g =>
           if (g <? n_components)%nat
           then pass (nrows d) (exp_grad g) (rows d) r
           else Raise IndexError
       | None => Ok r
       end ;;
  match hess_ind with
  | Some h =>
      if (h <? n_components)%nat
      then pass (nrows d) (exp_grad h) (rows d) r
      else Raise IndexError
  | None => Ok r
  end.

Definition abs_exp (theta : list R) (d : matrix)
    (grad_ind hess_ind : option nat) (derivative_params : option matrix)
  : result kernel_out :=
  r <- exp_passes theta d grad_ind hess_ind ;;
  match derivative_params with
  | Some dd =>
      dr <- neg_einsum r dd ;;
      Ok (CorrJac r dr)
  | None => Ok (Corr r)
  end.

(** [d2r[k, i, j] = v] where [v] is an array: numpy accepts an array
    with exactly one element and refuses any other. *)
Definition set_element (v : list R) : result R :=
  match v with
  | [x] => Ok x
  | _ => Raise (ValueError "setting an array element with a sequence.")
  end.

(** [dd[k, i]] *)
Definition at2 (dd : matrix) (k i : nat) : result R :=
  match nth_error (rows dd) k with
  | Some ddk =>
      if (i <? ncols dd)%nat then Ok (nth i ddk 0) else Raise IndexError
  | None => Raise IndexError
  end.

Definition squar_exp (theta : list R) (d : matrix)
    (grad_ind hess_ind : option nat)
    (derivative_params hess_params : option matrix)
  : result kernel_out :=
  let n_components := ncols d in
  r <- exp_passes theta d grad_ind hess_ind ;;
  match derivative_params, hess_params with
  | None, None => Ok (Corr r)
  | None, Some _ => Raise TypeError
  | Some dd, hess_params =>
      (* r = r.T : from now on [r] has shape (1, n) *)
      let rT := [r] in
      dr <- neg_einsum (nth 0 rT []) dd ;;
      match hess_params with
      | None => Ok (CorrJac r dr)
      | Some dd =>
          d2r <- for_each (fun k =>
            for_each (fun i =>
              for_each (fun j =>
                ddki <- at2 dd k i ;;
                if (i =? j)%nat
                then set_element
                       (map (fun rk => - (2 * nth i theta 0 - ddki * ddki) * rk)
                            (nth k rT []))
                else
                  ddkj <- at2 dd k j ;;
                  set_element
                    (map (fun rk => ddki * ddkj * rk) (nth k rT [])))
              (seq 0 n_components))
            (seq 0 n_components))
          (seq 0 (length rT)) ;;
          Ok (Hess d2r)
      end
  end.

(** *** matern52 (the call with [derivative_params=None]) *)

Definition m52_value (theta drow : list R) (_ : R) : R :=
  let ll := map2 Rmult theta drow in
  rprod (map (fun x => 1 + sqrt 5 * x + 5 / 3 * x ^ 2) ll)
  * exp (- sqrt 5 * rsum ll).

Definition m52_fact_1 (t dg : R) : R := sqrt 5 * dg + 10 / 3 * t * dg ^ 2.
Definition m52_fact_2 (t dg : R) : R :=
  1 + sqrt 5 * t * dg + 5 / 3 * t ^ 2 * dg ^ 2.
Definition m52_fact_3 (dg : R) : R := sqrt 5 * dg.

Definition m52_grad (theta : list R) (g : nat) (drow : list R) (rk : R) : R :=
  let t := nth g theta 0 in
  let dg := col g drow in
  (m52_fact_1 t dg / m52_fact_2 t dg - m52_fact_3 dg) * rk.

Definition m52_hess (theta : list R) (grad_ind h : nat)
    (row_m52 : list R * R) (rk : R) : R :=
  let '(drow, m52k) := row_m52 in
  let t := nth h theta 0 in
  let dh := col h drow in
  let rk := (m52_fact_1 t dh / m52_fact_2 t dh - m52_fact_3 dh) * rk in
  if (h =? grad_ind)%nat then
    let fact_4 := 10 / 3 * dh ^ 2 * m52_fact_2 t dh in
    (fact_4 - m52_fact_1 t dh ^ 2) / m52_fact_2 t dh ^ 2 * m52k + rk
  else rk.

Definition matern52 (theta : list R) (d : matrix)
    (grad_ind hess_ind : option nat) : result kernel_out :=
  let r := repeat 0 (nrows d) in
  let n_components := ncols d in
  if negb (length theta =? n_components)%nat then Raise reshape_error else
  r <- pass (nrows d) (m52_value theta) (rows d) r ;;
  let M52 := r in
  r <- match grad_ind with
       | Some g =>
           if (g <? n_components)%nat
           then pass (nrows d) (m52_grad theta g) (rows d) r
           else Raise IndexError
       | None => Ok r
       end ;;
  r <- match hess_ind with
       | Some h =>
           if (h <? n_components)%nat then
             match grad_ind with
             | Some g =>
                 pass (nrows d) (m52_hess theta g h) (combine (rows d) M52) r
             | None => Raise NameError  (* theta_r is not bound *)
             end
           else Raise IndexError
       | None => Ok r
       end ;;
  Ok (Corr r).

(** *** matern32 (the call with [derivative_params=None] and
    [hess_params=None]) *)

Definition m32_value (theta drow : list R) (_ : R) : R :=
  let ll := map2 Rmult theta drow in
  rprod (map (fun x => 1 + sqrt 3 * x) ll) * exp (- sqrt 3 * rsum ll).

Definition m32_grad (theta : list R) (g : nat) (drow : list R) (rk : R) : R :=
  let fact_1 := 1 / (1 + sqrt 3 * nth g theta 0 * col g drow) - 1 in
  fact_1 * rk * sqrt 3 * col g drow.

Definition m32_hess (theta : list R) (grad_ind : option nat) (h : nat)
    (row_m32 : list R * R) (rk : R) : R :=
  let '(drow, m32k) := row_m32 in
  let fact_2 := 1 / (1 + sqrt 3 * nth h theta 0 * col h drow) - 1 in
  let rk := rk * fact_2 * sqrt 3 * col h drow in
  match grad_ind with
  | Some g =>
      if (g =? h)%nat then
        let fact_3 :=
          3 * col h drow ^ 2 / (1 + sqrt 3 * nth h theta 0 * col h drow) ^ 2 in
        rk - fact_3 * m32k
      else rk
  | None => rk
  end.

Definition matern32 (theta : list R) (d : matrix)
    (grad_ind hess_ind : option nat) : result kernel_out :=
  let r := repeat 0 (nrows d) in
  let n_components := ncols d in
  if negb (length theta =? n_components)%nat then Raise reshape_error else
  r <- pass (nrows d) (m32_value theta) (rows d) r ;;
  let M32 := r in
  r <- match grad_ind with
       | Some g =>
           if (g <? n_components)%nat
           then pass (nrows d) (m32_grad theta g) (rows d) r
           else Raise IndexError
       | None => Ok r
       end ;;
  r <- match hess_ind with
       | Some h =>
           if (h <? n_components)%nat
           then pass (nrows d) (m32_hess theta grad_ind h)
                     (combine (rows d) M32) r
           else Raise IndexError
       | None => Ok r
       end ;;
  Ok (Corr r).

End Chunked.

(** *** act_exp (the call with [d_x=None]); it has no chunk loop *)

Definition not_available : exn :=
  ValueError "Jacobians are not available for this correlation kernel".

Definition act_exp (theta : list R) (d : matrix)
    (grad_ind hess_ind : option nat) (derivative_params : option matrix)
  : result kernel_out :=
  let n_components := ncols d in
  if (n_components =? 0)%nat then Raise ZeroDivisionError else
  if negb (length theta mod n_components =? 0)%nat
  then Raise (PlainException "Length of theta must be a multiple of n_components")
  else
  let n_small_components := (length theta / n_components)%nat in
  (* A = np.reshape(theta, (n_small_components, n_components)).T *)
  let A (c s : nat) := nth (s * n_components + c) theta 0 in
  let d_A :=
    map (fun drow =>
           map (fun s => rsum (map (fun c => nth c drow 0 * A c s)
                                   (seq 0 n_components)))
               (seq 0 n_small_components))
        (rows d) in
  let r := map (fun dAk => exp (- (1 / 2) * rsum (map (fun x => x ^ 2) dAk))) d_A in
  r <- match grad_ind with
       | Some g =>
           let d_grad_ind := (g mod n_components)%nat in
           let d_A_grad_ind := (g / n_components)%nat in
           match hess_ind with
           | None =>
               if (d_A_grad_ind <? n_small_components)%nat then
                 Ok (map2 (fun dd rk =>
                             - col d_grad_ind (fst dd)
                             * col d_A_grad_ind (snd dd) * rk)
                          (combine (rows d) d_A) r)
               else Raise IndexError
           | Some h =>
               let d_hess_ind := (h mod n_components)%nat in
               let d_A_hess_ind := (h / n_components)%nat in
               if ((d_A_grad_ind <? n_small_components)
                   && (d_A_hess_ind <? n_small_components))%nat%bool then
                 Ok (map2 (fun dd rk =>
                             let fact := - col d_A_grad_ind (snd dd)
                                         * col d_A_hess_ind (snd dd) in
                             let fact :=
                               if (d_A_hess_ind =? d_A_grad_ind)%nat
                               then 1 + fact else fact in
                             - col d_grad_ind (fst dd)
                             * col d_hess_ind (fst dd) * fact * rk)
                          (combine (rows d) d_A) r)
               else Raise IndexError
           end
       | None => Ok r
       end ;;
  match derivative_params with
  | Some _ => Raise not_available
  | None => Ok (Corr r)
  end.

End Kernels.

(** ** componentwise_distance and componentwise_distance_PLS *)

Module Componentwise.
Import Kernels.
Local Open Scope R_scope.

Definition missing_theta : exn :=
  ValueError "Missing theta to compute spatial derivative of theta cross-spatial correlation distance".

Definition not_implemented : exn :=
  ValueError "this option is not implemented for active learning".

Definition broadcast_error : exn :=
  ValueError "could not broadcast input array".

(** numpy assigns a block with [c] columns to a slice with [dim] columns
    when [c = dim], repeats the column when [c = 1], and raises
    otherwise. *)
Definition fits (c dim : nat) : bool := ((c =? dim) || (c =? 1))%nat.

Definition broadcast_to (dim : nat) (v : list R) : list R :=
  if (length v =? dim)%nat then v else repeat (nth 0 v 0) dim.

(** [der[i][j] = -1 if D[i][j] < 0 else 1] *)
Definition der_sign (x : R) : R := if Rlt_dec x 0 then -1 else 1.

(** The value-mode loop, [while True: if i * nb_limit > n: return D_corr
    else: ...; i += 1]: the test of [while_chunks], written negated.  The
    loop is returned with its final [i]. *)
Definition value_loop (fuel : nat) (n dim : nat)
    (f : list R -> list R) (D : matrix) : result (nat * list (list R)) :=
  let D_corr := zeros n dim in
  while_chunks fuel nb_limit n 0
    (chunk_assign nb_limit (fun drow _ => broadcast_to dim (f drow)) (rows D))
    D_corr.

Definition distance_of (corr : string) : R -> R :=
  if (corr =? "squar_exp")%string then (fun x => x ^ 2)
  else if (corr =? "act_exp")%string then (fun x => x)
  else Rabs.

Definition componentwise_distance (fuel : nat) (D : matrix) (corr : string)
    (dim : nat) (theta : option (list R)) (return_derivative : bool)
  : result (list (list R)) :=
  if negb return_derivative then
    (* the assignment of the first iteration checks the shapes *)
    if fits (ncols D) dim then
      '(_, D_corr) <- value_loop fuel (nrows D) dim
                        (map (distance_of corr)) D ;;
      Ok D_corr
    else Raise broadcast_error
  else
    match theta with
    | None => Raise missing_theta
    | Some theta =>
        if (corr =? "squar_exp")%string then
          if (length theta =? ncols D)%nat
          then Ok (map (fun drow => map2 (fun t x => 2 * (t * x)) theta drow)
                       (rows D))
          else Raise (ValueError "operands could not be broadcast together")
        else if (corr =? "act_exp")%string then Raise not_implemented
        else
          let der := map (map der_sign) (rows D) in
          if (length theta =? ncols D)%nat
          then Ok (map (fun drow => map2 Rmult theta drow) der)
          else Raise (ValueError "operands could not be broadcast together")
    end.

(** [np.dot(v, M)] for one row [v] *)
Definition dot_row (v : list R) (M : list (list R)) (c : nat) : list R :=
  map (fun l => rsum (map2 (fun x crow => x * nth l crow 0) v M)) (seq 0 c).

(** componentwise_distance_PLS, the call with [return_derivative=False]. *)
Definition componentwise_distance_PLS_loop (fuel : nat) (D : matrix)
    (corr : string) (n_comp : nat) (coeff_pls : matrix)
  : result (nat * list (list R)) :=
  if negb (ncols D =? nrows coeff_pls)%nat
  then Raise (ValueError "shapes not aligned")
  else if negb (fits (ncols coeff_pls) n_comp) then Raise broadcast_error
  else
    let f := if (corr =? "squar_exp")%string then (fun x => x ^ 2) else Rabs in
    value_loop fuel (nrows D) n_comp
      (fun drow => dot_row (map f drow) (map (map f) (rows coeff_pls))
                           (ncols coeff_pls))
      D.

Definition componentwise_distance_PLS (fuel : nat) (D : matrix)
    (corr : string) (n_comp : nat) (coeff_pls : matrix)
  : result (list (list R)) :=
  '(_, D_corr) <- componentwise_distance_PLS_loop fuel D corr n_comp coeff_pls ;;
  Ok D_corr.

End Componentwise.

(** ** The conversion to float32

numpy's [astype(np.float32)] and the division of two float32 scalars
round to the nearest binary32 number, the one with an even significand
when two are as near: 24 significant bits, exponents from -126 (below,
the subnormal numbers keep the spacing [2 ^ -149]) to 127.  A number
that would round to [2 ^ 128] or beyond becomes an infinity. *)

Module Float32.
Local Open Scope R_scope.

(** A float32 that may be an infinity; its sign is not kept, no result
    of the model depends on it. *)
Inductive xfloat : Type := Finite (x : R) | Infinite.

(** The integer nearest to [y], the even one when [y] is halfway
    between two. *)
Definition nearest_even (y : R) : Z :=
  let f := Int_part y in
  if Rlt_dec (frac_part y) (1 / 2) then f
  else if Rlt_dec (1 / 2) (frac_part y) then (f + 1)%Z
  else if Z.even f then f else (f + 1)%Z.

(** [floor (log2 a)], for [a > 0] *)
Definition ilog2 (a : R) : Z := Int_part (ln a / ln 2).

(** The exponent [e] with [2 ^ e <= |x| < 2 ^ (e + 1)], or that of the
    subnormal numbers. *)
Definition exponent (x : R) : Z := Z.max (ilog2 (Rabs x)) (-126).

(** The spacing of the binary32 numbers around [x]. *)
Definition ulp (x : R) : R := powerRZ 2 (exponent x - 23).

Definition round_value (x : R) : R := IZR (nearest_even (x / ulp x)) * ulp x.

(** Halfway between the largest binary32 number, [2 ^ 128 - 2 ^ 104], and
    [2 ^ 128]: from there on the rounding overflows. *)
Definition overflow_threshold : R := powerRZ 2 128 - powerRZ 2 103.

Definition round32 (x : R) : xfloat :=
  if Rle_dec overflow_threshold (Rabs x) then Infinite
  else Finite (round_value x).

(** One entry of [a.astype(np.float32)], stored again in an array of the
    model.  numpy answers an overflow with an infinity (and a warning);
    the arrays of the model hold real numbers only, and an infinite entry
    is an explicit failure of the model. *)
Definition float32 (x : R) : result R :=
  match round32 x with
  | Finite y => Ok y
  | Infinite => Raise FloatingPointError
  end.

(** [1 - q] in float64, for a float32 [q]. *)
Definition one_minus (q : xfloat) : xfloat :=
  match q with
  | Finite q => Finite (1 - q)
  | Infinite => Infinite
  end.

End Float32.

(** ** Gower distance, over a store of arrays

Python passes arrays by reference and gower_componentwise_distances
assigns into [X_norma] and [Y_norma], which are other names of [X] and
[Y]: the arrays live in a heap and the function returns the heap it
leaves. *)

Module Gower.
Import Distance Float32.
Local Open Scope R_scope.

Inductive xtype : Type := FLOAT | ORD | ENUM (levels : nat).

(** [not (xtype == "float_type" or xtype == "ord_type")] *)
Definition is_cat (t : xtype) : bool :=
  match t with
  | FLOAT | ORD => false
  | ENUM _ => true
  end.

Definition loc : Type := nat.
Definition heap : Type := list matrix.

(** The array a name is bound to; a location outside the heap is an
    unbound name. *)
Definition read (h : heap) (l : loc) : result matrix :=
  match nth_error h l with
  | Some m => Ok m
  | None => Raise NameError
  end.

(** A new array object *)
Definition alloc (h : heap) (m : matrix) : loc * heap := (length h, h ++ [m]).

(** Assignment into the array at [l] *)
Definition write (h : heap) (l : loc) (m : matrix) : heap := set_nth l m h.

(** [row[mask]] *)
Definition select (mask : list bool) (r : list R) : list R :=
  map snd (filter fst (combine mask r)).

(** [row[mask] = vals] *)
Fixpoint scatter (mask : list bool) (vals r : list R) : list R :=
  match mask, r with
  | true :: mask', x :: r' =>
      match vals with
      | v :: vals' => v :: scatter mask' vals' r'
      | [] => r
      end
  | false :: mask', x :: r' => x :: scatter mask' vals r'
  | _, _ => r
  end.

(** [np.nanmax] and [np.nanmin] of a column without NaN *)
Definition nanmax (l : list R) : result R :=
  match l with
  | [] => Raise (ValueError "zero-size array to reduction operation")
  | x :: l' => Ok (fold_left Rmax l' x)
  end.

Definition nanmin (l : list R) : result R :=
  match l with
  | [] => Raise (ValueError "zero-size array to reduction operation")
  | x :: l' => Ok (fold_left Rmin l' x)
  end.

(** A quotient whose divisor is zero, which numpy answers with NaN or Inf,
  is an explicit failure of the model. *)
Definition safe_div (a b : R) : result R :=
  if Req_dec_T b 0 then Raise ZeroDivisionError else Ok (a / b).

(** One entry of [np.divide(a, b, out=zeros, where=b != 0)]: numpy
  evaluates the quotient only where the mask holds and leaves the 0 of
  [out] elsewhere. *)
Definition divide_where (a b : R) : R :=
  if Req_dec_T b 0 then 0 else a / b.

Definition column (c : nat) (M : list (list R)) : list R :=
  map (fun r => nth c r 0) M.

(** One entry of [np.divide(a, num_ranges, out=zeros, where=num_ranges
  != 0)]: an infinite range is not zero, and the quotient of a number by
  it is a zero. *)
Definition divide_range (a : R) (b : xfloat) : R :=
  match b with
  | Finite b => divide_where a b
  | Infinite => 0
  end.

(** The body of [for col in range(num_cols)]: [(num_max[col],
  num_ranges[col])].  [max] and [min] are float32 scalars, so [min / max]
  is a float32 division; [1 - min / max], with the Python integer 1, is
  computed in float64.  The arrays of the model hold no NaN, so
  [np.isnan(max)] and [np.isnan(min)] are false. *)
Definition normalizer (Y_num : list (list R)) (col : nat)
    : result (R * xfloat) :=
  col_array <- for_each float32 (column col Y_num) ;;
  max <- nanmax col_array ;;
  min <- nanmin col_array ;;
  rng <- (if Req_dec_T max 0 then Ok (Finite 0)
          else q <- safe_div min max ;; Ok (one_minus (round32 q))) ;;
  Ok (max, rng).

(** [np.divide(np.abs(X_num[k] - Y_num[j]), num_ranges, ...)]; the
    [try / except: pass] around the assignment never fires, the masked
    division does not raise. *)
Definition num_distance (num_ranges : list xfloat) (xk yj : list R)
    : list R :=
  map2 divide_range (map Rabs (row_sub xk yj)) num_ranges.

(** [np.where(X_cat[k] == Y_cat[j], zeros, ones)] *)
Definition cat_distance (xk yj : list R) : list R :=
  map2 (fun a b => if Req_dec_T a b then 0 else 1) xk yj.

(** What the function returns: [(D, ij, X_cont)] when [y] is omitted, [D]
  alone otherwise. *)
Inductive gower_out : Type :=
| GSelf (D : list (list R)) (ij : list (nat * nat)) (X_cont : list (list R))
| GCross (D : list (list R)).


Definition gower_componentwise_distances (h : heap) (X : loc) (y : option loc)
    (xtypes : list xtype) : result (gower_out * heap) :=
  Xv <- read h X ;;
  (* X = X.astype(np.float): a new array *)
  let '(X, h) := alloc h Xv in
  let cat_features := map is_cat xtypes in
  let not_cat := map negb cat_features in
  (* x[:, np.logical_not(cat_features)]: one mask entry per column *)
  if negb (length cat_features =? ncols Xv)%nat then Raise IndexError else
  let X_cont := map (select not_cat) (rows Xv) in
  let Y := match y with None => X | Some y => y end in
  Yv <- read h Y ;;
  if negb (ncols Xv =? ncols Yv)%nat
  then Raise TypeError (* X and Y must have same y-dim! *)
  else
  let x_n_rows := nrows Xv in
  let y_n_rows := nrows Yv in
  let Z := rows Xv ++ rows Yv in
  let Z_num := map (select not_cat) Z in
  let Y_num := map (select not_cat) (rows Yv) in
  let num_cols := length (filter (fun b => b) not_cat) in
  norm <- for_each (normalizer Y_num) (seq 0 num_cols) ;;
  let num_max := map fst norm in
  let num_ranges := map snd norm in
  let Z_num := map (fun r => map2 divide_where r num_max) Z_num in
  let Z_cat := map (select cat_features) Z in
  let X_cat := slice 0 x_n_rows Z_cat in
  let X_num := slice 0 x_n_rows Z_num in
  let Y_cat := slice x_n_rows (x_n_rows + y_n_rows) Z_cat in
  let Y_num := slice x_n_rows (x_n_rows + y_n_rows) Z_num in
  (* X_norma = X; X_norma[:, not cat] = X_num *)
  Xcur <- read h X ;;
  let h := write h X (mk_matrix (ncols Xcur)
                                (map2 (scatter not_cat) X_num (rows Xcur))) in
  (* Y_norma = Y; Y_norma[:, not cat] = Y_num *)
  Ycur <- read h Y ;;
  let h := write h Y (mk_matrix (ncols Ycur)
                                (map2 (scatter not_cat) Y_num (rows Ycur))) in
  let n_samples := length X_num in
  let n_nonzero_cross_dist := (n_samples * (n_samples - 1) / 2)%nat in
  match y with
  | None =>
      let '(_, (ij0, ij1), D_num) :=
        fold_left (pair_body (num_distance num_ranges) X_num Y_num n_samples)
                  (seq 0 (n_samples - 1))
                  (0%nat, (repeat 0%nat n_nonzero_cross_dist,
                           repeat 0%nat n_nonzero_cross_dist),
                   zeros n_nonzero_cross_dist num_cols) in
      let n_samples := length X_cat in
      let n_nonzero_cross_dist := (n_samples * (n_samples - 1) / 2)%nat in
      let '(_, D_cat) :=
        fold_left (rows_body cat_distance X_cat Y_cat n_samples)
                  (seq 0 (n_samples - 1))
                  (0%nat,
                   zeros n_nonzero_cross_dist
                         (length (filter (fun b => b) cat_features))) in
      (* D = np.concatenate((D_cat, D_num), axis=1) * 0 *)
      let D := map2 (fun dc dn => map (fun x => x * 0) (dc ++ dn)) D_cat D_num in
      let D := map2 (scatter not_cat) D_num D in
      let D := map2 (scatter cat_features) D_cat D in
      Ok (GSelf D (combine ij0 ij1) X_cont, h)
  | Some _ =>
      X_norma <- read h X ;;
      Y_norma <- read h Y ;;
      let D := flat_map (fun x => map (fun y => map Rabs (row_sub x y))
                                      (rows Y_norma))
                        (rows X_norma) in
      let D := map (fun r =>
                      scatter cat_features
                        (map (fun v => if Rlt_dec (1 / 2) v then 1 else 0)
                             (select cat_features r)) r) D in
      let D := map (fun r =>
                      scatter not_cat
                        (map2 divide_range (select not_cat r) num_ranges) r) D in
      Ok (GCross D, h)
  end.

End Gower.

(** ** Mixed-variable composer: the block of a categorical factor *)

Module Composer.
Local Open Scope R_scope.

Inductive cat_kernel : Type := GOWER | HOMO_GAUSSIAN | FULL_GAUSSIAN.

(** A square array, [np.zeros((n, n))] and its assignments; only indices
  below [n] are read or written. *)
Definition square : Type := nat -> nat -> R.

Definition zeros2 : square := fun _ _ => 0.

(** [M[i, j] = v] *)
Definition upd (M : square) (i j : nat) (v : R) : square :=
  fun a b => if ((a =? i) && (b =? j))%nat%bool then v else M a b.

(** A [for] loop whose body can raise. *)
Fixpoint for_fold {A St : Type} (body : St -> A -> result St) (l : list A)
    (s : St) : result St :=
  match l with
  | [] => Ok s
  | a :: l' => s' <- body s a ;; for_fold body l' s'
  end.

(** [theta_cat[v]] *)
Definition theta_at (theta_cat : list R) (v : nat) : result R :=
  match nth_error theta_cat v with
  | Some x => Ok x
  | None => Raise IndexError
  end.

(** The scaling of the angles by [0.5 * np.pi / theta_bounds[1]]: all of
  them for the homoscedastic kernel, [theta_cat[: -nlevels]] for the full
  one.  The factor is computed before anything is scaled: with
  [theta_bounds[1] = 0] the two kernels divide by zero. *)
Definition scale_angles (kernel : cat_kernel) (bound : R) (nlevels : nat)
    (theta_cat : list R) : result (list R) :=
  match kernel with
  | FULL_GAUSSIAN =>
      c <- Gower.safe_div (1 / 2 * PI) bound ;;
      let m := if (nlevels =? 0)%nat then 0%nat
               else (length theta_cat - nlevels)%nat in
      Ok (map (fun x => x * c) (firstn m theta_cat) ++ skipn m theta_cat)
  | HOMO_GAUSSIAN =>
      c <- Gower.safe_div (1 / 2 * PI) bound ;;
      Ok (map (fun x => x * c) theta_cat)
  | GOWER => Ok theta_cat
  end.

(** The first pair of loops: [Theta_mat], filled from [theta_cat[v]]. *)
Definition theta_body (theta_cat : list R) (j : nat)
    (st : square * nat) (k : nat) : result (square * nat) :=
  let '(Theta_mat, v) := st in
  if (j =? k + j)%nat then Ok (upd Theta_mat j (k + j) 1, v)
  else
    t <- theta_at theta_cat v ;;
    let Theta_mat := upd Theta_mat j (k + j) t in
    t <- theta_at theta_cat v ;;
    let Theta_mat := upd Theta_mat (k + j) j t in
    Ok (Theta_mat, (v + 1)%nat).

Definition build_Theta_mat (nlevels : nat) (theta_cat : list R)
    : result (square * nat) :=
  for_fold (fun st j => for_fold (theta_body theta_cat j)
                                 (seq 0 (nlevels - j)) st)
           (seq 0 nlevels) (zeros2, 0%nat).

(** The second pair of loops: the lower-triangular [L]. *)
Definition L_body (Theta_mat : square) (j : nat) (L : square) (k : nat)
    : square :=
  let kj := (k + j)%nat in
  if (j =? kj)%nat then
    if (j =? 0)%nat then upd L j kj 1
    else
      fold_left (fun L l => upd L j kj (L j kj * sin (Theta_mat j l)))
                (seq 0 j) (upd L j kj 1)
  else
    if (j =? 0)%nat then upd L kj j (cos (Theta_mat k 0%nat))
    else
      fold_left (fun L l => upd L kj j (L kj j * sin (Theta_mat kj l)))
                (seq 0 j)
                (upd L kj j (cos (Theta_mat kj j))).

Definition build_L (nlevels : nat) (Theta_mat : square) : square :=
  fold_left (fun L j => fold_left (L_body Theta_mat j) (seq 0 (nlevels - j)) L)
            (seq 0 nlevels) zeros2.

(** [sum of f(c) for c < n] *)
Fixpoint sum_n (n : nat) (f : nat -> R) : R :=
  match n with
  | O => 0
  | S n' => sum_n n' f + f n'
  end.

(** [np.dot(L, L.T)] *)
Definition gram (nlevels : nat) (L : square) : square :=
  fun a b => sum_n nlevels (fun c => L a c * L b c).

(** The bounded exponential transform of [T]. *)
Definition transform (lower bound : R) (T : square) : square :=
  let T1 := fun a b => (T a b - 1) * bound / 2 in
  let T2 := fun a b => exp (2 * T1 a b) in
  let k := (1 + exp (- bound)) / exp (- lower) in
  fun a b => (T2 a b + exp (- bound)) / k.

(** The block of one categorical factor: [theta_cat] is the factor's slice
  of theta, [theta_bounds = (lower, bound)]. *)
Definition cat_block (kernel : cat_kernel) (lower bound : R) (nlevels : nat)
    (theta_cat : list R) : result square :=
  theta_cat <- scale_angles kernel bound nlevels theta_cat ;;
  '(Theta_mat, _) <- build_Theta_mat nlevels theta_cat ;;
  let L := build_L nlevels Theta_mat in
  let T := gram nlevels L in
  Ok (transform lower bound T).

(** [r_cat[k, 0]] for one pair of levels; [prev] is what the entry holds
  when neither kernel assigns it. *)
Definition r_cat_entry (kernel : cat_kernel) (nlevels : nat)
    (theta_cat : list R) (T : square) (prev : R) (indi indj : nat) : result R :=
  if (indi =? indj)%nat then Ok 1
  else
    match kernel with
    | FULL_GAUSSIAN =>
        a <- theta_at theta_cat (nlevels * (nlevels - 1) / 2 + indi) ;;
        b <- theta_at theta_cat (nlevels * (nlevels - 1) / 2 + indj) ;;
        Ok (exp (- a - b) * T indi indj)
    | HOMO_GAUSSIAN => Ok (T indi indj)
    | GOWER => Ok prev
    end.

End Composer.

(** ** Regression models *)

Module Regression.
Import Composer.
Local Open Scope R_scope.

(** [np.hstack([a, b])] of two-dimensional arrays *)
Definition hstack (a b : matrix) : result matrix :=
  if (nrows a =? nrows b)%nat
  then Ok (mk_matrix (ncols a + ncols b) (map2 (@app R) (rows a) (rows b)))
  else Raise (ValueError "all the input array dimensions except for the concatenation axis must match exactly").

(** [np.ones([n, m])] *)
Definition ones (n m : nat) : matrix := mk_matrix m (repeat (repeat 1 m) n).

Definition constant (x : matrix) : matrix :=
  let n_eval := nrows x in
  ones n_eval 1.

Definition linear (x : matrix) : result matrix :=
  let n_eval := nrows x in
  hstack (ones n_eval 1) x.

(** [x[:, k, np.newaxis] * x[:, k:]] *)
Definition products_from (k : nat) (x : matrix) : matrix :=
  mk_matrix (ncols x - k)
            (map (fun r => map (Rmult (nth k r 0)) (skipn k r)) (rows x)).

Definition quadratic (x : matrix) : result matrix :=
  let n_eval := nrows x in
  let n_features := ncols x in
  f <- hstack (ones n_eval 1) x ;;
  for_fold (fun f k => hstack f (products_from k x)) (seq 0 n_features) f.

End Regression.

(** ** standardization

A result that NumPy answers with NaN (the mean of no row, the sample
standard deviation of fewer than two rows) is an explicit failure of the
model. *)

Module Standardization.
Import Kernels Gower.
Local Open Scope R_scope.

(** [np.min] and [np.max] of one column *)
Definition amin (l : list R) : result R :=
  match l with
  | [] => Raise (ValueError "zero-size array to reduction operation minimum which has no identity")
  | x :: l' => Ok (fold_left Rmin l' x)
  end.

Definition amax (l : list R) : result R :=
  match l with
  | [] => Raise (ValueError "zero-size array to reduction operation maximum which has no identity")
  | x :: l' => Ok (fold_left Rmax l' x)
  end.

(** [np.mean] of one column *)
Definition mean (l : list R) : result R :=
  if (length l =? 0)%nat then Raise ZeroDivisionError
  else Ok (rsum l / INR (length l)).

(** [l.std(ddof=1)] of one column *)
Definition std1 (l : list R) : result R :=
  if (length l <=? 1)%nat then Raise ZeroDivisionError
  else
    let m := rsum l / INR (length l) in
    Ok (sqrt (rsum (map (fun x => (x - m) ^ 2) l) / INR (length l - 1))).

(** A reduction along [axis=0] *)
Definition per_column (f : list R -> result R) (X : matrix)
    : result (list R) :=
  for_each (fun c => f (column c (rows X))) (seq 0 (ncols X)).

(** [s[s == 0.0] = 1.0] *)
Definition fix_zero (s : list R) : list R :=
  map (fun x => if Req_dec_T x 0 then 1 else x) s.

(** [(X - offset) / scale] *)
Definition scale_rows (X : matrix) (offset scale : list R)
    : list (list R) :=
  map (fun r => map2 Rdiv (map2 Rminus r offset) scale) (rows X).

Record standardized : Type := mk_standardized {
  std_X : list (list R);
  std_y : list (list R);
  X_offset : list R;
  y_mean : list R;
  X_scale : list R;
  y_std : list R
}.

Definition standardization (X y : matrix) (scale_X_to_unit : bool)
    : result standardized :=
  '(X_offset, X_scale) <-
     (if scale_X_to_unit then
        X_offset <- per_column amin X ;;
        X_max <- per_column amax X ;;
        let X_scale := map2 Rminus X_max X_offset in
        Ok (X_offset, X_scale)
      else
        X_offset <- per_column mean X ;;
        X_scale <- per_column std1 X ;;
        Ok (X_offset, X_scale)) ;;
  let X_scale := fix_zero X_scale in
  y_mean <- per_column mean y ;;
  y_std <- per_column std1 y ;;
  let y_std := fix_zero y_std in
  let X := scale_rows X X_offset X_scale in
  let y := scale_rows y y_mean y_std in
  Ok (mk_standardized X y X_offset y_mean X_scale y_std).

End Standardization.

(** ** The Rosenbrock problem (smt/problems/rosenbrock.py)

[_evaluate] fills a complex array; on real evaluation points its values
are real and are modelled as such. *)

Module Rosenbrock.
Local Open Scope R_scope.

(** [y[:, 0] += term] where [term] is computed row by row *)
Definition add_column (y : list R) (x : matrix) (term : list R -> R)
    : list R :=
  map2 Rplus y (map term (rows x)).

(** [100.0 * (x[:, ix + 1] - x[:, ix] ** 2) ** 2 + (1 - x[:, ix]) ** 2] *)
Definition value_term (ix : nat) (r : list R) : R :=
  100 * (nth (ix + 1) r 0 - nth ix r 0 ^ 2) ^ 2 + (1 - nth ix r 0) ^ 2.

(** [-400.0 * (x[:, kx + 1] - x[:, kx] ** 2) * x[:, kx]
     - 2 * (1 - x[:, kx])] *)
Definition forward_term (kx : nat) (r : list R) : R :=
  -400 * (nth (kx + 1) r 0 - nth kx r 0 ^ 2) * nth kx r 0
  - 2 * (1 - nth kx r 0).

(** [200.0 * (x[:, kx] - x[:, kx - 1] ** 2)] *)
Definition backward_term (kx : nat) (r : list R) : R :=
  200 * (nth kx r 0 - nth (kx - 1) r 0 ^ 2).

(** The returned array has shape [(ne, 1)]; its column is returned. *)
Definition evaluate (x : matrix) (kx : option nat) : result (list R) :=
  let ne := nrows x in
  let nx := ncols x in
  let y := repeat 0 ne in
  match kx with
  | None =>
      Ok (fold_left (fun y ix => add_column y x (value_term ix))
                    (seq 0 (nx - 1)) y)
  | Some kx =>
      let y := if (kx <? nx - 1)%nat
               then add_column y x (forward_term kx) else y in
      if (0 <? kx)%nat then
        if (kx <? nx)%nat then Ok (add_column y x (backward_term kx))
        else Raise IndexError
      else Ok y
  end.

End Rosenbrock.

(** ** The spatial Jacobian of the Matern kernels

matern32 and matern52 called with [grad_ind=None], [hess_ind=None] and
[derivative_params = {"dx": dx}] (and, for matern32, [hess_params=None]):
the pair [(r, dr)]. *)

Module MaternSpatial.
Import Kernels Componentwise.
Local Open Scope R_scope.

(** [np.dot(abs_, theta)] for a one-dimensional theta: the columns of
    [dx] must be as many as the entries of theta. *)
Definition dot_theta (abs_ : list (list R)) (ncols_dx : nat)
    (theta : list R) : result (list R) :=
  if negb (ncols_dx =? length theta)%nat
  then Raise (ValueError "shapes not aligned")
  else Ok (map (fun a => rsum (map2 Rmult a theta)) abs_).

(** [dx[i][j]] inside [for j in range(n_components)] *)
Definition columns_ok (n_components ncols_dx nrows_dx : nat) : result unit :=
  if ((0 <? nrows_dx) && (ncols_dx <? n_components))%nat%bool
  then Raise IndexError else Ok tt.

(** [coef] after [for l in range(n_components): if l != k: coef = coef *
    factor(l)] *)
Definition coef_loop (n_components k : nat) (factor : nat -> R) : R :=
  fold_left (fun coef l => if (l =? k)%nat then coef else coef * factor l)
            (seq 0 n_components) 1.

(** One row of [dr], from the row [x] of [dx], [r[j]] and [A[j][0]]. *)
Definition m32_dr_row (theta : list R) (n_components : nat) (x : list R)
    (rj Aj : R) : list R :=
  let abs_ := map Rabs x in
  let der := map der_sign x in
  map (fun k =>
         let coef := coef_loop n_components k
                       (fun l => 1 + sqrt 3 * nth l abs_ 0 * nth l theta 0) in
         let dB := sqrt 3 * nth k theta 0 * nth k der 0 * coef in
         - sqrt 3 * nth k theta 0 * nth k der 0 * rj + Aj * dB)
      (seq 0 n_components).

Definition m52_dr_row (theta : list R) (n_components : nat) (x : list R)
    (rj Aj : R) : list R :=
  let abs_ := map Rabs x in
  let sqr := map (fun v => v ^ 2) x in
  let der := map der_sign x in
  map (fun k =>
         let coef := coef_loop n_components k
                       (fun l => 1 + sqrt 5 * nth l abs_ 0 * nth l theta 0
                                 + 5 / 3 * nth l sqr 0 * nth l theta 0 ^ 2) in
         let dB := (sqrt 5 * nth k theta 0 * nth k der 0
                    + 2 * (5 / 3) * nth k der 0 * nth k abs_ 0
                      * nth k theta 0 ^ 2) * coef in
         - sqrt 5 * nth k theta 0 * nth k der 0 * rj + Aj * dB)
      (seq 0 n_components).

(** The loops over the rows of [dx]; [r[j]] must exist.  [dr] has the
    shape of [dx]; its rows are given here on the [n_components] columns
    that the loops write, which are all of them: the reshape of theta in
    the value part and [np.dot] above leave only
    [dx.shape[1] = len(theta) = n_components]. *)
Definition jacobian_rows (dr_row : list R -> R -> R -> list R) (c : R)
    (dx : matrix) (abs_0 r : list R) : result (list (list R)) :=
  for_each (fun j =>
              match nth_error r j with
              | None => Raise IndexError
              | Some rj =>
                  let Aj := exp (- c * nth j abs_0 0) in
                  Ok (dr_row (nth j (rows dx) []) rj Aj)
              end)
           (seq 0 (nrows dx)).

Definition spatial (value : result kernel_out)
    (dr_row : list R -> R -> R -> list R) (c : R) (n_components : nat)
    (theta : list R) (dx : matrix) : result kernel_out :=
  out <- value ;;
  match out with
  | Corr r =>
      abs_0 <- dot_theta (map (map Rabs) (rows dx)) (ncols dx) theta ;;
      _ <- columns_ok n_components (ncols dx) (nrows dx) ;;
      dr <- jacobian_rows dr_row c dx abs_0 r ;;
      Ok (CorrJac r dr)
  | _ => Raise TypeError
  end.

Definition matern32_spatial (nb fuel : nat) (theta : list R) (d dx : matrix)
    : result kernel_out :=
  spatial (matern32 nb fuel theta d None None)
          (m32_dr_row theta (ncols d)) (sqrt 3) (ncols d) theta dx.

Definition matern52_spatial (nb fuel : nat) (theta : list R) (d dx : matrix)
    : result kernel_out :=
  spatial (matern52 nb fuel theta d None None)
          (m52_dr_row theta (ncols d)) (sqrt 5) (ncols d) theta dx.

End MaternSpatial.

(** ** The spatial Hessian of matern32

matern32 called with [derivative_params = {"dx": dx}] and a
[hess_params] that is not [None]: the array [d2r]. *)

Module MaternHessian.
Import Kernels Componentwise Gower MaternSpatial.
Local Open Scope R_scope.

(** [d2r[j]], from the row [x] of [dx], [r[j]] and [dr[j]]. *)
Definition m32_d2r_row (theta : list R) (n_components : nat) (x : list R)
    (rj : R) (drj : list R) : result (list (list R)) :=
  let abs_ := map Rabs x in
  let der := map der_sign x in
  for_each
    (fun i =>
       for_each
         (fun k =>
            q <- safe_div 1 (1 + sqrt 3 * nth i abs_ 0 * nth i theta 0) ;;
            let lead := (sqrt 3 * nth i theta 0 * nth i der 0) * (q - 1)
                        * nth k drj 0 in
            if (i =? k)%nat then
              q2 <- safe_div 1 ((1 + sqrt 3 * nth i abs_ 0 * nth i theta 0) ^ 2) ;;
              Ok (lead + - (3 * nth i theta 0 * nth i theta 0) * q2 * rj)
            else Ok lead)
         (seq 0 n_components))
    (seq 0 n_components).

Definition matern32_spatial_hessian (nb fuel : nat) (theta : list R)
    (d dx : matrix) : result (list (list (list R))) :=
  out <- matern32_spatial nb fuel theta d dx ;;
  match out with
  | CorrJac r dr =>
      for_each (fun j =>
                  match nth_error r j, nth_error dr j with
                  | Some rj, Some drj =>
                      m32_d2r_row theta (ncols d) (nth j (rows dx) []) rj drj
                  | _, _ => Raise IndexError
                  end)
               (seq 0 (nrows dx))
  | _ => Raise TypeError
  end.

End MaternHessian.

(** ** componentwise_distance_PLS with [return_derivative=True] *)

Module PLSDerivative.
Import Kernels Componentwise Composer.
Local Open Scope R_scope.

(** [coef] after [coef = 0; for l in range(n_comp): coef = coef +
    theta[l] * g(coeff_pls[j][l])] *)
Definition coef_of (g : R -> R) (n_comp : nat) (theta : list R)
    (coeff_pls : matrix) (j : nat) : result R :=
  for_fold (fun coef l =>
              match nth_error theta l with
              | None => Raise IndexError
              | Some t =>
                  match nth_error (rows coeff_pls) j with
                  | None => Raise IndexError
                  | Some crow =>
                      match nth_error crow l with
                      | None => Raise IndexError
                      | Some c => Ok (coef + t * g c)
                      end
                  end
              end)
           (seq 0 n_comp) 0.

(** The loops [for i, j in np.ndindex(D.shape)] of the two branches. *)
Definition componentwise_distance_PLS_derivative (D : matrix) (corr : string)
    (n_comp : nat) (coeff_pls : matrix) (theta : option (list R))
  : result (list (list R)) :=
  match theta with
  | None => Raise missing_theta
  | Some theta =>
      for_each
        (fun drow =>
           for_each
             (fun j =>
                if (corr =? "squar_exp")%string then
                  coef <- coef_of (fun c => c ^ 2) n_comp theta coeff_pls j ;;
                  let coef := 2 * coef in
                  Ok (coef * nth j drow 0)
                else
                  let der := der_sign (nth j drow 0) in
                  coef <- coef_of Rabs n_comp theta coeff_pls j ;;
                  Ok (coef * der))
             (seq 0 (ncols D)))
        (rows D)
  end.

End PLSDerivative.

(** ** Properties of slices and fills *)

Section ArrayFacts.
Context {A : Type}.
Implicit Types l v : list A.

Lemma firstn_app_exact l v : firstn (length l) (l ++ v) = l.
Proof. induction l; simpl; [destruct v|]; congruence. Qed.

Lemma skipn_app_exact l v : skipn (length l) (l ++ v) = v.
Proof. induction l; simpl; auto. Qed.

Lemma skipn_app_more l v k : skipn (length l + k) (l ++ v) = skipn k v.
Proof. induction l; simpl; auto. Qed.

Lemma skipn_repeat (x : A) k t : skipn k (repeat x t) = repeat x (t - k).
Proof.
  revert k; induction t; intros [|k]; simpl; auto.
Qed.

Lemma firstn_repeat (x : A) k t : firstn k (repeat x t) = repeat x (min k t).
Proof.
  revert k; induction t; intros [|k]; simpl; auto. now rewrite IHt.
Qed.

Lemma repeat_split (x : A) a b : repeat x (a + b) = repeat x a ++ repeat x b.
Proof. induction a; simpl; congruence. Qed.

(** Writing [v] at the frontier of a partially filled array. *)
Lemma set_slice_frontier l v (z : A) total b :
  length l <= b ->
  set_slice (length l) b v (l ++ repeat z (total - length l))
  = (l ++ v) ++ repeat z (total - b).
Proof.
  intros Hle. unfold set_slice.
  rewrite firstn_app_exact, <- app_assoc. do 2 f_equal.
  replace b with (length l + (b - length l)) at 1 by lia.
  rewrite skipn_app_more, skipn_repeat. f_equal. lia.
Qed.

Lemma slice_frontier l (z : A) total b :
  length l <= b ->
  slice (length l) b (l ++ repeat z (total - length l))
  = repeat z (min (b - length l) (total - length l)).
Proof.
  intros Hle. unfold slice.
  now rewrite skipn_app_exact, firstn_repeat.
Qed.

Lemma set_nth_frontier l (x z : A) total :
  length l < total ->
  set_nth (length l) x (l ++ repeat z (total - length l))
  = (l ++ [x]) ++ repeat z (total - S (length l)).
Proof.
  intros Hlt. unfold set_nth.
  rewrite firstn_app_exact, <- app_assoc. f_equal. cbn [app]. f_equal.
  replace (S (length l)) with (length l + 1) by lia.
  rewrite skipn_app_more, skipn_repeat. f_equal. lia.
Qed.

Lemma nth_frontier l (z d : A) total :
  length l < total ->
  nth (length l) (l ++ repeat z (total - length l)) d = z.
Proof.
  intros Hlt. rewrite app_nth2, Nat.sub_diag by lia.
  destruct (total - length l) eqn:E; [lia|reflexivity].
Qed.

Lemma firstn_app_at l v a : length l = a -> firstn a (l ++ v) = l.
Proof. intros <-. apply firstn_app_exact. Qed.

Lemma skipn_app_at l v a k :
  length l = a -> skipn (a + k) (l ++ v) = skipn k v.
Proof. intros <-. apply skipn_app_more. Qed.

Lemma skipn_app_at0 l v a : length l = a -> skipn a (l ++ v) = v.
Proof. intros <-. apply skipn_app_exact. Qed.

Lemma set_slice_at l v (z : A) total a b :
  length l = a -> a <= b ->
  set_slice a b v (l ++ repeat z (total - a)) = (l ++ v) ++ repeat z (total - b).
Proof. intros <-. apply set_slice_frontier. Qed.

Lemma slice_at l (z : A) total a b :
  length l = a -> a <= b ->
  slice a b (l ++ repeat z (total - a)) = repeat z (min (b - a) (total - a)).
Proof. intros <-. apply slice_frontier. Qed.

Lemma set_nth_at l (x z : A) total a :
  length l = a -> a < total ->
  set_nth a x (l ++ repeat z (total - a)) = (l ++ [x]) ++ repeat z (total - S a).
Proof. intros <-. apply set_nth_frontier. Qed.

Lemma nth_at l (z d : A) total a :
  length l = a -> a < total -> nth a (l ++ repeat z (total - a)) d = z.
Proof. intros <-. apply nth_frontier. Qed.

Lemma slice_nth_seq l (d : A) a :
  slice a (length l) l = map (fun j => nth j l d) (seq a (length l - a)).
Proof.
  unfold slice. rewrite firstn_all2 by (rewrite length_skipn; lia).
  revert a. induction l as [|x l IH]; intros a; simpl.
  - now destruct a.
  - destruct a as [|a]; simpl.
    + f_equal. specialize (IH 0). simpl in IH.
      rewrite Nat.sub_0_r in IH. rewrite IH at 1.
      rewrite <- seq_shift, map_map. reflexivity.
    + rewrite IH. rewrite <- seq_shift, map_map. reflexivity.
Qed.
End ArrayFacts.

Lemma map_const_repeat {A B} (x : B) (l : list A) :
  map (fun _ => x) l = repeat x (length l).
Proof. induction l; simpl; congruence. Qed.

(** ** The distance engine enumerates pairs in the documented order *)

Module DistanceFacts.
Import Distance.

(** Pairs whose first index is below [m], among [n] points. *)
Definition pairs_upto (n m : nat) : list (nat * nat) :=
  flat_map (fun i => map (fun j => (i, j)) (seq (i + 1) (n - (i + 1))))
           (seq 0 m).

Definition diff_of (X Y : matrix) (p : nat * nat) : list R :=
  row_sub (row X (fst p)) (row Y (snd p)).

Lemma pairs_upto_S n m :
  pairs_upto n (S m)
  = pairs_upto n m ++ map (fun j => (m, j)) (seq (m + 1) (n - (m + 1))).
Proof.
  unfold pairs_upto. rewrite seq_S, flat_map_app. simpl.
  now rewrite app_nil_r.
Qed.

Lemma pairs_upto_length n m :
  m <= n -> 2 * length (pairs_upto n m) = m * (2 * n - m - 1).
Proof.
  induction m as [|m IH]; intros Hm; [reflexivity|].
  rewrite pairs_upto_S, length_app, length_map, length_seq.
  specialize (IH ltac:(lia)).
  destruct (Nat.le_exists_sub (S m) n Hm) as (d & -> & _).
  replace (2 * (d + S m) - m - 1) with (m + 1 + 2 * d) in IH by lia.
  replace (2 * (d + S m) - S m - 1) with (m + 2 * d) by lia.
  replace (d + S m - (m + 1)) with d by lia.
  rewrite Nat.mul_add_distr_l, IH. ring.
Qed.

Lemma upper_pairs_length n : length (upper_pairs n) = n * (n - 1) / 2.
Proof.
  change (upper_pairs n) with (pairs_upto n n).
  pose proof (@pairs_upto_length n n (le_n n)) as H.
  apply Nat.div_unique_exact; [lia|].
  rewrite H. f_equal. lia.
Qed.

Lemma pairs_upto_pred n : pairs_upto n (n - 1) = upper_pairs n.
Proof.
  destruct n as [|n]; [reflexivity|].
  change (upper_pairs (S n)) with (pairs_upto (S n) (S n)).
  rewrite pairs_upto_S. replace (S n - 1) with n by lia.
  replace (S n - (n + 1)) with 0 by lia. simpl. now rewrite app_nil_r.
Qed.

Lemma pairs_upto_le n m : S m <= n - 1 ->
  length (pairs_upto n (S m)) <= n * (n - 1) / 2.
Proof.
  intros Hm. rewrite <- upper_pairs_length, <- pairs_upto_pred.
  pose proof (@pairs_upto_length n (S m) ltac:(lia)) as H1.
  pose proof (@pairs_upto_length n (n - 1) ltac:(lia)) as H2.
  destruct (Nat.le_exists_sub (S m) (n - 1) Hm) as (d & Hd & _).
  replace (2 * n - S m - 1) with (S m + 2 * d + 1) in H1 by lia.
  replace (2 * n - (n - 1) - 1) with (d + S m + 1) in H2 by lia.
  rewrite Hd in *.
  generalize dependent (length (pairs_upto n (S m))).
  generalize dependent (length (pairs_upto n (d + S m))).
  intros a Ha b Hb. nia.
Qed.

Lemma upper_pairs_In n i j : In (i, j) (upper_pairs n) <-> i < j < n.
Proof.
  unfold upper_pairs. rewrite in_flat_map. split.
  - intros (i' & Hi & Hin). apply in_map_iff in Hin as (j' & Heq & Hj).
    inversion Heq; subst. apply in_seq in Hi, Hj. lia.
  - intros H. exists i. split; [apply in_seq; lia|].
    apply in_map_iff. exists j. split; [reflexivity|apply in_seq; lia].
Qed.

Definition op_of (op : list R -> list R -> list R) (Xr Yr : list (list R))
  (p : nat * nat) : list R :=
  op (nth (fst p) Xr []) (nth (snd p) Yr []).

(** Invariant of a pair loop after [m] outer iterations. *)
Lemma pair_loop_invariant op Xr Yr zrow m :
  let n := length Yr in
  let total := n * (n - 1) / 2 in
  m <= n - 1 ->
  fold_left (pair_body op Xr Yr n) (seq 0 m)
            (0, (repeat 0 total, repeat 0 total), repeat zrow total)
  = (length (pairs_upto n m),
     (map fst (pairs_upto n m) ++ repeat 0 (total - length (pairs_upto n m)),
      map snd (pairs_upto n m) ++ repeat 0 (total - length (pairs_upto n m))),
     map (op_of op Xr Yr) (pairs_upto n m)
       ++ repeat zrow (total - length (pairs_upto n m))).
Proof.
  intros n total. induction m as [|m IH]; intros Hm.
  - simpl. now rewrite Nat.sub_0_r.
  - rewrite seq_S, fold_left_app, IH by lia. simpl fold_left.
    unfold pair_body.
    set (P := pairs_upto n m).
    assert (HS : length (pairs_upto n (S m)) = length P + (n - (m + 1))).
    { rewrite pairs_upto_S, length_app, length_map, length_seq. reflexivity. }
    assert (Hll : length P + n - m - 1 = length (pairs_upto n (S m))) by lia.
    rewrite Hll.
    pose proof (@pairs_upto_le n m Hm) as Hle. fold total in Hle.
    f_equal; [f_equal|].
    + f_equal.
      * rewrite (@slice_at _ (map fst P)), (@set_slice_at _ (map fst P))
          by (rewrite ?length_map; lia).
        rewrite repeat_length.
        replace (Nat.min _ _) with (n - (m + 1)) by lia.
        rewrite pairs_upto_S, map_app, map_map. simpl.
        do 2 f_equal.
        now rewrite map_const_repeat, length_seq.
      * rewrite (@set_slice_at _ (map snd P)) by (rewrite ?length_map; lia).
        rewrite pairs_upto_S, map_app, map_map. simpl.
        now rewrite map_id.
    + rewrite (@set_slice_at _ (map (op_of op Xr Yr) P))
        by (rewrite ?length_map; lia).
      rewrite pairs_upto_S, map_app, map_map. simpl.
      do 2 f_equal.
      unfold n. rewrite (slice_nth_seq Yr [] (m + 1)).
      rewrite map_map. reflexivity.
Qed.

Lemma combine_fst_snd {A B} (l : list (A * B)) :
  combine (map fst l) (map snd l) = l.
Proof. induction l as [|[a b] l IH]; simpl; congruence. Qed.

(** What a complete pair loop leaves. *)
Lemma pair_loop_result op Xr Yr zrow :
  let n := length Yr in
  fold_left (pair_body op Xr Yr n) (seq 0 (n - 1))
            (0, (repeat 0 (n * (n - 1) / 2), repeat 0 (n * (n - 1) / 2)),
             repeat zrow (n * (n - 1) / 2))
  = (n * (n - 1) / 2,
     (map fst (upper_pairs n), map snd (upper_pairs n)),
     map (op_of op Xr Yr) (upper_pairs n)).
Proof.
  intros n. subst n.
  rewrite (@pair_loop_invariant op Xr Yr zrow (length Yr - 1) (le_n _)).
  rewrite pairs_upto_pred, upper_pairs_length, Nat.sub_diag. simpl.
  now rewrite !app_nil_r.
Qed.

Lemma rows_loop_simulation op Xr Yr n l st :
  fold_left (rows_body op Xr Yr n) l (fst (fst st), snd st)
  = (fst (fst (fold_left (pair_body op Xr Yr n) l st)),
     snd (fold_left (pair_body op Xr Yr n) l st)).
Proof.
  revert st. induction l as [|k l IH]; intros [[ll [ij0 ij1]] D];
    [reflexivity|].
  cbn [fold_left]. rewrite <- IH. reflexivity.
Qed.

Lemma rows_loop_result op Xr Yr zrow :
  let n := length Yr in
  fold_left (rows_body op Xr Yr n) (seq 0 (n - 1))
            (0, repeat zrow (n * (n - 1) / 2))
  = (n * (n - 1) / 2, map (op_of op Xr Yr) (upper_pairs n)).
Proof.
  intros n.
  pose proof (rows_loop_simulation op Xr Yr n (seq 0 (n - 1))
                (0, (repeat 0 (n * (n - 1) / 2), repeat 0 (n * (n - 1) / 2)),
                 repeat zrow (n * (n - 1) / 2))) as H.
  cbn [fst snd] in H. rewrite H. subst n.
  now rewrite (pair_loop_result op Xr Yr zrow).
Qed.

Lemma self_mode_result X :
  cross_distances X None
  = Ok (map (diff_of X X) (upper_pairs (nrows X)), upper_pairs (nrows X)).
Proof.
  unfold cross_distances, self_body, zeros, nrows.
  rewrite (pair_loop_result row_sub (rows X) (rows X)).
  now rewrite combine_fst_snd.
Qed.

(** Cross mode *)

Definition pair_of (m k : nat) : nat * nat := (k / m, k mod m).

Lemma set_nth_last {A} (l r : list A) (x y : A) a :
  length l = a -> set_nth a x ((l ++ [y]) ++ r) = (l ++ [x]) ++ r.
Proof.
  intros <-. unfold set_nth. rewrite <- !app_assoc.
  rewrite firstn_app_exact. f_equal. cbn [app]. f_equal.
  replace (S (length l)) with (length l + 1) by lia.
  now rewrite skipn_app_more.
Qed.

Lemma nth_last {A} (l r : list A) (y d : A) a :
  length l = a -> nth a ((l ++ [y]) ++ r) d = y.
Proof.
  intros <-. rewrite <- app_assoc. rewrite app_nth2, Nat.sub_diag by lia.
  reflexivity.
Qed.

Lemma cross_loop_invariant X Y k total c :
  k <= total ->
  fold_left (cross_body X Y (nrows Y)) (seq 0 k)
            (repeat (0, 0) total, zeros total c)
  = (map (pair_of (nrows Y)) (seq 0 k) ++ repeat (0, 0) (total - k),
     map (fun k => diff_of X Y (pair_of (nrows Y) k)) (seq 0 k)
       ++ repeat (repeat 0%R c) (total - k)).
Proof.
  induction k as [|k IH]; intros Hk.
  - simpl. now rewrite Nat.sub_0_r.
  - rewrite seq_S, fold_left_app, IH by lia. simpl fold_left.
    unfold cross_body.
    assert (Hl1 : length (map (pair_of (nrows Y)) (seq 0 k)) = k)
      by now rewrite length_map, length_seq.
    assert (Hl2 : length (map (fun k => diff_of X Y (pair_of (nrows Y) k))
                              (seq 0 k)) = k)
      by now rewrite length_map, length_seq.
    rewrite (nth_at _ _ _ Hl1) by lia.
    rewrite (set_nth_at _ _ _ Hl1) by lia.
    rewrite (nth_last _ _ _ _ Hl1).
    rewrite (set_nth_last _ _ _ _ Hl1).
    rewrite (set_nth_at _ _ _ Hl2) by lia.
    rewrite !map_app. reflexivity.
Qed.

Lemma all_pairs_S n m :
  all_pairs (S n) m = all_pairs n m ++ map (fun j => (n, j)) (seq 0 m).
Proof.
  unfold all_pairs. rewrite seq_S, flat_map_app. simpl.
  now rewrite app_nil_r.
Qed.

Lemma pairs_of_block n m len a :
  a + len <= m ->
  map (fun j => (n, j)) (seq a len) = map (pair_of m) (seq (n * m + a) len).
Proof.
  revert a. induction len as [|len IHl]; intros a Ha; [reflexivity|].
  simpl. rewrite <- Nat.add_succ_r, <- IHl by lia. f_equal.
  unfold pair_of. f_equal.
  - rewrite Nat.add_comm, Nat.div_add by lia.
    rewrite Nat.div_small; lia.
  - rewrite Nat.add_comm, Nat.Div0.mod_add.
    rewrite Nat.mod_small; lia.
Qed.

Lemma all_pairs_div_mod n m :
  all_pairs n m = map (pair_of m) (seq 0 (n * m)).
Proof.
  induction n as [|n IH]; [reflexivity|].
  rewrite all_pairs_S, IH.
  replace (S n * m) with (n * m + m) by lia.
  rewrite seq_app, map_app. f_equal.
  replace (0 + n * m) with (n * m + 0) by lia.
  apply pairs_of_block. lia.
Qed.

Lemma cross_mode_result X Y :
  ncols X = ncols Y ->
  cross_distances X (Some Y)
  = Ok (map (fun k => diff_of X Y (pair_of (nrows Y) k))
            (seq 0 (nrows X * nrows Y)),
        all_pairs (nrows X) (nrows Y)).
Proof.
  intros Hc. unfold cross_distances, check_pairwise_arrays.
  apply Nat.eqb_eq in Hc. rewrite Hc. cbn [bind].
  rewrite (@cross_loop_invariant X Y _ _ (ncols Y) (le_n _)).
  rewrite Nat.sub_diag. simpl. rewrite !app_nil_r.
  now rewrite all_pairs_div_mod.
Qed.

Lemma row_sub_neg a b : row_sub a b = row_neg (row_sub b a).
Proof.
  unfold row_sub, row_neg. revert b.
  induction a as [|x a IH]; intros [|y b]; simpl; auto.
  f_equal; [lra|apply IH].
Qed.

Local Open Scope R_scope.

(** C4: with [y] omitted, [cross_distances X] returns exactly
    [n (n - 1) / 2] pairs, enumerated with the outer index ascending and
    the inner index [j > i] ascending, and the row of [D] for the pair
    [(i, j)] is [X[i] - X[j]]; on [[0,0],[1,0],[0,1]] it returns the pairs
    [(0,1),(0,2),(1,2)] and the rows [[-1,0],[0,-1],[1,-1]] in that order. *)
Theorem cross_distances_self_pairs :
  (forall X : matrix,
      let n := nrows X in
      cross_distances X None
      = Ok (map (fun p => row_sub (row X (fst p)) (row X (snd p)))
                (upper_pairs n),
            upper_pairs n)
      /\ length (upper_pairs n) = (n * (n - 1) / 2)%nat
      /\ (forall i j, In (i, j) (upper_pairs n) <-> (i < j < n)%nat))
  /\ cross_distances (mk_matrix 2 [[0; 0]; [1; 0]; [0; 1]]) None
     = Ok ([[-1; 0]; [0; -1]; [1; -1]], [(0, 1); (0, 2); (1, 2)]%nat).
Proof.
  split.
  - intros X n. split; [apply self_mode_result|].
    split; [apply upper_pairs_length|apply upper_pairs_In].
  - rewrite self_mode_result. cbv [nrows rows length upper_pairs].
    simpl. unfold diff_of, row, row_sub. simpl.
    repeat (f_equal; try lra).
Qed.

(** C5: with [y] given (equal column counts), [cross_distances X y]
    returns all [n * m] pairs in row-major order, the [k]-th row of [D]
    being [X[k // m] - y[k % m]]; hence, for [i < j], the self-mode row of
    the pair [(i, j)] is the negation of the row of the pair [(j, i)] of
    [cross_distances X X]. *)
Theorem cross_distances_cartesian (X Y : matrix) :
  ncols X = ncols Y ->
  let n := nrows X in
  let m := nrows Y in
  (cross_distances X (Some Y)
   = Ok (map (fun k => row_sub (row X (k / m)) (row Y (k mod m)))
             (seq 0 (n * m)),
         all_pairs n m)
   /\ all_pairs n m = map (fun k => (k / m, k mod m)%nat) (seq 0 (n * m)))
  /\ exists Ds ps Dc pc,
      cross_distances X None = Ok (Ds, ps)
      /\ cross_distances X (Some X) = Ok (Dc, pc)
      /\ length Ds = length ps /\ length Dc = length pc
      /\ (forall i j, (i < j < n)%nat ->
                      In (i, j) ps /\ In (j, i) pc)
      /\ (forall i j p q,
             (i < j)%nat ->
             (p < length ps)%nat -> nth p ps (0, 0)%nat = (i, j) ->
             (q < length pc)%nat -> nth q pc (0, 0)%nat = (j, i) ->
             nth p Ds [] = row_neg (nth q Dc [])).
Proof.
  intros Hc n m. split.
  - split; [apply (cross_mode_result X Y Hc)|apply all_pairs_div_mod].
  - exists (map (diff_of X X) (upper_pairs n)), (upper_pairs n).
    exists (map (diff_of X X) (all_pairs n n)), (all_pairs n n).
    split; [apply self_mode_result|].
    split.
    { rewrite (@cross_mode_result X X eq_refl). subst n.
      rewrite (all_pairs_div_mod (nrows X) (nrows X)).
      now rewrite map_map. }
    rewrite !length_map. do 2 (split; [reflexivity|]).
    split.
    + intros i j Hij. split; [apply upper_pairs_In; lia|].
      unfold all_pairs. apply in_flat_map. exists j.
      split; [apply in_seq; lia|].
      apply in_map_iff. exists i. split; [reflexivity|apply in_seq; lia].
    + intros i j p q _ Hp Hpi Hq Hqi.
      rewrite (nth_indep _ [] (diff_of X X (0, 0)%nat))
        by now rewrite length_map.
      rewrite (nth_indep (map _ (all_pairs n n)) []
                         (diff_of X X (0, 0)%nat))
        by now rewrite length_map.
      rewrite !map_nth, Hpi, Hqi. unfold diff_of. simpl.
      apply row_sub_neg.
Qed.

Lemma cross_distances_cartesian_witness :
  ncols (mk_matrix 2 [[1; 2]]) = ncols (mk_matrix 2 [[3; 4]; [5; 6]])
  /\ cross_distances (mk_matrix 2 [[1; 2]])
                     (Some (mk_matrix 2 [[3; 4]; [5; 6]]))
     = Ok (map (fun k => row_sub (row (mk_matrix 2 [[1; 2]]) (k / 2))
                                 (row (mk_matrix 2 [[3; 4]; [5; 6]])
                                      (k mod 2)))
               (seq 0 (1 * 2)),
           all_pairs 1 2).
Proof.
  split; [reflexivity|].
  exact (proj1 (proj1 (@cross_distances_cartesian
                         (mk_matrix 2 [[1; 2]])
                         (mk_matrix 2 [[3; 4]; [5; 6]]) eq_refl))).
Defined.

End DistanceFacts.

(** ** A chunked pass computes the same rows as a single pass *)

Section ChunkFacts.
Context {A B : Type}.
Variable nb : nat.
Hypothesis nb_pos : 0 < nb.
Variable g : A -> B -> B.

Lemma map2_length (l : list A) (m : list B) :
  length (map2 g l m) = min (length l) (length m).
Proof.
  revert m; induction l as [|a l IH]; intros [|b m]; simpl; auto.
Qed.

Lemma map2_app (l1 l2 : list A) (m1 m2 : list B) :
  length l1 = length m1 ->
  map2 g (l1 ++ l2) (m1 ++ m2) = map2 g l1 m1 ++ map2 g l2 m2.
Proof.
  revert m1; induction l1 as [|a l1 IH]; intros [|b m1] H; simpl in *;
    try discriminate; auto.
  f_equal. apply IH. congruence.
Qed.

Lemma firstn_add {T} (a b : nat) (l : list T) :
  firstn (a + b) l = firstn a l ++ firstn b (skipn a l).
Proof.
  revert l; induction a as [|a IH]; intros [|x l]; simpl; auto.
  - now rewrite firstn_nil.
  - now rewrite IH.
Qed.

Lemma skipn_add {T} (a b : nat) (l : list T) :
  skipn (a + b) l = skipn b (skipn a l).
Proof.
  revert l; induction a as [|a IH]; intros [|x l]; simpl; auto.
  now rewrite skipn_nil.
Qed.

Variable data : list A.
Variable r0 : list B.
Hypothesis same_rows : length data = length r0.

(** The array after the chunks below [i] have been assigned. *)
Definition done_upto (i : nat) : list B :=
  map2 g (firstn (i * nb) data) (firstn (i * nb) r0) ++ skipn (i * nb) r0.

Lemma chunk_step i :
  i * nb <= length r0 ->
  chunk_assign nb g data i (done_upto i) = done_upto (S i).
Proof.
  intros Hi. unfold chunk_assign, done_upto, slice, set_slice.
  set (a := i * nb).
  replace ((i + 1) * nb) with (a + nb) by (subst a; lia).
  replace (S i * nb) with (a + nb) by (subst a; lia).
  replace (a + nb - a) with nb by lia.
  assert (Hp : length (map2 g (firstn a data) (firstn a r0)) = a).
  { rewrite map2_length, !length_firstn. lia. }
  rewrite (firstn_app_at _ _ Hp).
  rewrite (skipn_app_at _ _ nb Hp).
  rewrite (skipn_app_at0 _ _ Hp).
  rewrite !firstn_add, skipn_add, map2_app
    by (rewrite !length_firstn; lia).
  now rewrite <- app_assoc.
Qed.

Lemma done_all i :
  length r0 <= i * nb -> done_upto i = map2 g data r0.
Proof.
  intros Hi. unfold done_upto.
  rewrite !firstn_all2, skipn_all2 by lia. apply app_nil_r.
Qed.

Lemma done_zero : done_upto 0 = r0.
Proof. reflexivity. Qed.

Lemma chunk_index i : i * nb <= length r0 <-> i <= length r0 / nb.
Proof.
  split; intros H.
  - apply Nat.div_le_lower_bound; lia.
  - pose proof (Nat.Div0.mul_div_le (length r0) nb). nia.
Qed.

Lemma while_chunks_from fuel i :
  i <= length r0 / nb + 1 ->
  length r0 / nb + 1 - i < fuel ->
  while_chunks fuel nb (length r0) i (chunk_assign nb g data) (done_upto i)
  = Ok (length r0 / nb + 1, map2 g data r0).
Proof.
  revert i. induction fuel as [|fuel IH]; intros i Hi Hf; [lia|].
  simpl. destruct (Nat.leb_spec (i * nb) (length r0)) as [Hle|Hgt].
  - rewrite chunk_step by exact Hle. apply chunk_index in Hle.
    apply IH; lia.
  - assert (i = length r0 / nb + 1).
    { destruct (Nat.le_gt_cases i (length r0 / nb)) as [H|H]; [|lia].
      apply chunk_index in H. lia. }
    subst i. f_equal. f_equal. apply done_all. lia.
Qed.

(** The loop leaves after [n / nb + 1] iterations with every row
    assigned once. *)
Lemma while_chunks_map2 fuel :
  length r0 / nb + 1 < fuel ->
  while_chunks fuel nb (length r0) 0 (chunk_assign nb g data) r0
  = Ok (length r0 / nb + 1, map2 g data r0).
Proof.
  intros Hf. rewrite <- done_zero at 2. apply while_chunks_from; lia.
Qed.

Lemma while_chunks_rows fuel n :
  length r0 = n -> n / nb + 1 < fuel ->
  while_chunks fuel nb n 0 (chunk_assign nb g data) r0
  = Ok (n / nb + 1, map2 g data r0).
Proof. intros <-. apply while_chunks_map2. Qed.

End ChunkFacts.

(** ** Chunking is not observable in the kernels *)

Module KernelFacts.
Import Kernels.
Local Open Scope R_scope.

(** The kernels of the library, as [_correlation_types] names them. *)
Inductive kernel : Type :=
  | K_abs_exp | K_squar_exp | K_matern52 | K_matern32 | K_act_exp.

(** Value, gradient and Hessian mode of a kernel (no spatial derivative). *)
Definition run (nb fuel : nat) (k : kernel) (theta : list R) (d : matrix)
    (grad_ind hess_ind : option nat) : result kernel_out :=
  match k with
  | K_abs_exp => abs_exp nb fuel theta d grad_ind hess_ind None
  | K_squar_exp => squar_exp nb fuel theta d grad_ind hess_ind None None
  | K_matern52 => matern52 nb fuel theta d grad_ind hess_ind
  | K_matern32 => matern32 nb fuel theta d grad_ind hess_ind
  | K_act_exp => act_exp theta d grad_ind hess_ind None
  end.

(** *** The unchunked reading of the same formulas: every pass is one
    whole-array operation. *)

Definition whole {A : Type} (g : A -> R -> R) (data : list A) (r : list R)
  : result (list R) := Ok (map2 g data r).

Definition exp_unchunked (theta : list R) (d : matrix)
    (grad_ind hess_ind : option nat) : result kernel_out :=
  let r := repeat 0 (nrows d) in
  if negb (length theta =? ncols d)%nat then Raise reshape_error else
  r <- whole (exp_value theta) (rows d) r ;;
  r <- match grad_ind with
       | Some g => if (g <? ncols d)%nat then whole (exp_grad g) (rows d) r
                   else Raise IndexError
       | None => Ok r
       end ;;
  r <- match hess_ind with
       | Some h => if (h <? ncols d)%nat then whole (exp_grad h) (rows d) r
                   else Raise IndexError
       | None => Ok r
       end ;;
  Ok (Corr r).

Definition matern52_unchunked (theta : list R) (d : matrix)
    (grad_ind hess_ind : option nat) : result kernel_out :=
  let r := repeat 0 (nrows d) in
  if negb (length theta =? ncols d)%nat then Raise reshape_error else
  r <- whole (m52_value theta) (rows d) r ;;
  let M52 := r in
  r <- match grad_ind with
       | Some g => if (g <? ncols d)%nat then whole (m52_grad theta g) (rows d) r
                   else Raise IndexError
       | None => Ok r
       end ;;
  r <- match hess_ind with
       | Some h =>
           if (h <? ncols d)%nat then
             match grad_ind with
             | Some g => whole (m52_hess theta g h) (combine (rows d) M52) r
             | None => Raise NameError
             end
           else Raise IndexError
       | None => Ok r
       end ;;
  Ok (Corr r).

Definition matern32_unchunked (theta : list R) (d : matrix)
    (grad_ind hess_ind : option nat) : result kernel_out :=
  let r := repeat 0 (nrows d) in
  if negb (length theta =? ncols d)%nat then Raise reshape_error else
  r <- whole (m32_value theta) (rows d) r ;;
  let M32 := r in
  r <- match grad_ind with
       | Some g => if (g <? ncols d)%nat then whole (m32_grad theta g) (rows d) r
                   else Raise IndexError
       | None => Ok r
       end ;;
  r <- match hess_ind with
       | Some h =>
           if (h <? ncols d)%nat
           then whole (m32_hess theta grad_ind h) (combine (rows d) M32) r
           else Raise IndexError
       | None => Ok r
       end ;;
  Ok (Corr r).

Definition run_unchunked (k : kernel) (theta : list R) (d : matrix)
    (grad_ind hess_ind : option nat) : result kernel_out :=
  match k with
  | K_abs_exp | K_squar_exp => exp_unchunked theta d grad_ind hess_ind
  | K_matern52 => matern52_unchunked theta d grad_ind hess_ind
  | K_matern32 => matern32_unchunked theta d grad_ind hess_ind
  | K_act_exp => act_exp theta d grad_ind hess_ind None
  end.

Section EnoughFuel.
Variables nb fuel : nat.
Hypothesis nb_pos : (0 < nb)%nat.

Lemma pass_whole {A} n (g : A -> R -> R) data r :
  length data = n -> length r = n -> (n / nb + 1 < fuel)%nat ->
  pass nb fuel n g data r = whole g data r.
Proof.
  intros Hd Hr Hf. unfold pass, whole. subst n.
  rewrite <- Hr in *.
  rewrite (while_chunks_map2 nb_pos g data r) by congruence.
  reflexivity.
Qed.

Lemma whole_length {A} (g : A -> R -> R) data r n :
  length data = n -> length r = n -> length (map2 g data r) = n.
Proof. intros Hd Hr. rewrite map2_length. lia. Qed.

Lemma combine_rows_length (l : list (list R)) (m : list R) n :
  length l = n -> length m = n -> length (combine l m) = n.
Proof. intros Hl Hm. rewrite length_combine. lia. Qed.

Ltac passes :=
  repeat first
    [ rewrite pass_whole by
        (auto using repeat_length, @whole_length, combine_rows_length)
    | progress cbn [whole bind] ].

Lemma exp_passes_unchunked theta d grad_ind hess_ind :
  (nrows d / nb + 1 < fuel)%nat ->
  (r <- exp_passes nb fuel theta d grad_ind hess_ind ;; Ok (Corr r))
  = exp_unchunked theta d grad_ind hess_ind.
Proof.
  intros Hf. unfold exp_passes, exp_unchunked.
  destruct (negb _); [reflexivity|].
  assert (H0 : length (repeat 0 (nrows d)) = nrows d) by apply repeat_length.
  assert (Hd : length (rows d) = nrows d) by reflexivity.
  passes.
  destruct grad_ind as [g|], hess_ind as [h|];
    repeat (destruct (_ <? _)%nat; cbn [bind]); passes; reflexivity.
Qed.

Lemma run_chunked_unchunked k theta d grad_ind hess_ind :
  (nrows d / nb + 1 < fuel)%nat ->
  run nb fuel k theta d grad_ind hess_ind
  = run_unchunked k theta d grad_ind hess_ind.
Proof.
  intros Hf.
  assert (H0 : length (repeat 0 (nrows d)) = nrows d) by apply repeat_length.
  assert (Hd : length (rows d) = nrows d) by reflexivity.
  destruct k; cbn [run run_unchunked].
  - unfold abs_exp. rewrite <- exp_passes_unchunked by exact Hf.
    now destruct (exp_passes _ _ _ _ _ _).
  - unfold squar_exp. rewrite <- exp_passes_unchunked by exact Hf.
    now destruct (exp_passes _ _ _ _ _ _).
  - unfold matern52, matern52_unchunked.
    destruct (negb _); [reflexivity|]. passes.
    destruct grad_ind as [g|], hess_ind as [h|];
      repeat (destruct (_ <? _)%nat; cbn [bind]); passes; reflexivity.
  - unfold matern32, matern32_unchunked.
    destruct (negb _); [reflexivity|]. passes.
    destruct grad_ind as [g|], hess_ind as [h|];
      repeat (destruct (_ <? _)%nat; cbn [bind]); passes; reflexivity.
  - reflexivity.
Qed.
End EnoughFuel.

Lemma nb_limit_pos : (0 < nb_limit)%nat.
Proof. apply Nat.ltb_lt. vm_compute. reflexivity. Qed.

(** C3: for every kernel, every theta and every D, the chunked evaluation
    (chunk size [nb_limit = 10^4], and any other positive chunk size)
    returns exactly what the unchunked single pass returns, in value,
    gradient and Hessian mode alike. *)
Theorem kernel_chunking_invisible (nb fuel : nat) (k : kernel)
    (theta : list R) (d : matrix) (grad_ind hess_ind : option nat) :
  (0 < nb)%nat ->
  (nrows d / nb + 1 < fuel)%nat ->
  run nb fuel k theta d grad_ind hess_ind
  = run_unchunked k theta d grad_ind hess_ind.
Proof.
  intros Hnb Hf. now apply run_chunked_unchunked.
Qed.

Lemma kernel_chunking_invisible_witness :
  run nb_limit 2 K_matern52 [1; 2] (mk_matrix 2 [[1; 0]; [3; 4]])
      (Some 0%nat) (Some 0%nat)
  = run_unchunked K_matern52 [1; 2] (mk_matrix 2 [[1; 0]; [3; 4]])
                  (Some 0%nat) (Some 0%nat).
Proof.
  apply kernel_chunking_invisible; apply Nat.ltb_lt; vm_compute; reflexivity.
Defined.

(** *** Range of the value mode *)

Definition nonneg (l : list R) : Prop := Forall (fun x => 0 <= x) l.
Definition all_zero (l : list R) : Prop := Forall (fun x => x = 0) l.
Definition unit_interval (l : list R) : Prop := Forall (fun x => 0 < x <= 1) l.

Lemma map2_repeat_r {A} (g : A -> R -> R) (l : list A) (z : R) n :
  length l = n -> map2 g l (repeat z n) = map (fun a => g a z) l.
Proof.
  intros <-. induction l; simpl; congruence.
Qed.

Lemma rsum_nonneg l : nonneg l -> 0 <= rsum l.
Proof. induction 1; simpl; lra. Qed.

Lemma rsum_zero l : all_zero l -> rsum l = 0.
Proof. induction 1; simpl; lra. Qed.

Lemma scaled_nonneg theta drow :
  nonneg theta -> nonneg drow -> nonneg (map2 Rmult theta drow).
Proof.
  intros Ht. revert drow. induction Ht as [|t theta Ht0 Ht IH];
    intros drow Hd; [constructor|].
  destruct Hd as [|x drow Hx Hd]; constructor; [nra|now apply IH].
Qed.

Lemma scaled_zero theta drow :
  all_zero drow -> all_zero (map2 Rmult theta drow).
Proof.
  intros Hd. revert theta. induction Hd as [|x drow Hx Hd IH];
    intros [|t theta]; constructor; [subst; lra|apply IH].
Qed.

Lemma exp_neg_unit s : 0 <= s -> 0 < exp (- s) <= 1.
Proof.
  intros Hs. pose proof (exp_pos (- s)) as Hp.
  pose proof (exp_ineq1_le s) as Hi.
  assert (He : exp (- s) * exp s = 1)
    by (rewrite <- exp_plus, Rplus_opp_l; apply exp_0).
  split; [exact Hp|]. nra.
Qed.

(** A product of factors, each between 1 and [exp (c x)], damped by
    [exp (- c * sum)]: the shape of both Matern kernels. *)
Lemma damped_product (p : R -> R) (c : R) ll :
  (forall x, 0 <= x -> 0 < p x <= exp (c * x)) ->
  nonneg ll ->
  0 < rprod (map p ll) <= exp (c * rsum ll).
Proof.
  intros Hp Hl. induction Hl as [|x ll Hx Hl IH]; simpl.
  - rewrite Rmult_0_r, exp_0. lra.
  - rewrite Rmult_plus_distr_l, exp_plus.
    specialize (Hp x Hx). pose proof (exp_pos (c * rsum ll)). nra.
Qed.

Lemma damped_unit (p : R -> R) (c : R) ll :
  (forall x, 0 <= x -> 0 < p x <= exp (c * x)) ->
  nonneg ll ->
  0 < rprod (map p ll) * exp (- c * rsum ll) <= 1.
Proof.
  intros Hp Hl. pose proof (damped_product p c Hp Hl) as [H1 H2].
  pose proof (exp_pos (- c * rsum ll)) as He.
  assert (Hm : exp (c * rsum ll) * exp (- c * rsum ll) = 1).
  { rewrite <- exp_plus.
    replace (c * rsum ll + - c * rsum ll) with 0 by ring. apply exp_0. }
  split; [nra|].
  rewrite <- Hm. apply Rmult_le_compat_r; lra.
Qed.

Lemma damped_at_zero (p : R -> R) (c : R) ll :
  p 0 = 1 -> all_zero ll -> rprod (map p ll) * exp (- c * rsum ll) = 1.
Proof.
  intros Hp Hl. rewrite (rsum_zero Hl), Rmult_0_r, exp_0, Rmult_1_r.
  induction Hl as [|x ll Hx Hl IH]; simpl; [reflexivity|].
  subst x. rewrite Hp, IH. ring.
Qed.

Lemma sqrt3_sq : sqrt 3 * sqrt 3 = 3.
Proof. apply sqrt_sqrt. lra. Qed.

Lemma sqrt5_sq : sqrt 5 * sqrt 5 = 5.
Proof. apply sqrt_sqrt. lra. Qed.

Lemma m32_factor x : 0 <= x -> 0 < 1 + sqrt 3 * x <= exp (sqrt 3 * x).
Proof.
  intros Hx. pose proof (sqrt_pos 3). pose proof (exp_ineq1_le (sqrt 3 * x)).
  split; [nra|lra].
Qed.

Lemma exp_cubic y : 0 <= y -> 1 + y + y ^ 2 / 3 <= exp y.
Proof.
  intros Hy. pose proof (exp_ineq1_le (y / 3)) as Hi.
  replace y with (y / 3 + y / 3 + y / 3) at 3 by field.
  rewrite !exp_plus. set (a := exp (y / 3)) in *.
  assert (Hb : 1 <= 1 + y / 3) by lra.
  assert (Ha2 : (1 + y / 3) * (1 + y / 3) <= a * a) by nra.
  assert (Ha3 : (1 + y / 3) * (1 + y / 3) * (1 + y / 3) <= a * a * a) by nra.
  nra.
Qed.

Lemma m52_factor x :
  0 <= x -> 0 < 1 + sqrt 5 * x + 5 / 3 * x ^ 2 <= exp (sqrt 5 * x).
Proof.
  intros Hx. pose proof (sqrt_pos 5) as H5. pose proof sqrt5_sq as Hs.
  assert (Hy : 0 <= sqrt 5 * x) by nra.
  pose proof (exp_cubic Hy) as He.
  replace ((sqrt 5 * x) ^ 2) with (5 * x ^ 2) in He
    by (simpl; rewrite !Rmult_1_r;
        transitivity (sqrt 5 * sqrt 5 * (x * x)); [rewrite Hs|]; ring).
  split; [nra|lra].
Qed.

(** The value a kernel assigns to one row of [d]. *)
Definition act_value (theta : list R) (n_components : nat) (drow : list R) : R :=
  exp (- (1 / 2)
       * rsum (map (fun x => x ^ 2)
                   (map (fun s =>
                           rsum (map (fun c => nth c drow 0
                                               * nth (s * n_components + c) theta 0)
                                     (seq 0 n_components)))
                        (seq 0 (length theta / n_components))))).

Definition value_row (k : kernel) (theta : list R) (n_components : nat)
    (drow : list R) : R :=
  match k with
  | K_abs_exp | K_squar_exp => exp_value theta drow 0
  | K_matern52 => m52_value theta drow 0
  | K_matern32 => m32_value theta drow 0
  | K_act_exp => act_value theta n_components drow
  end.

(** The shapes a kernel accepts. *)
Definition shape_ok (k : kernel) (theta : list R) (d : matrix) : Prop :=
  match k with
  | K_act_exp => ncols d <> 0%nat /\ (length theta mod ncols d = 0)%nat
  | _ => length theta = ncols d
  end.

Lemma run_value nb fuel k theta d :
  (0 < nb)%nat -> (nrows d / nb + 1 < fuel)%nat -> shape_ok k theta d ->
  run nb fuel k theta d None None
  = Ok (Corr (map (value_row k theta (ncols d)) (rows d))).
Proof.
  intros Hnb Hf Hs. rewrite run_chunked_unchunked by assumption.
  destruct k; cbn [run_unchunked shape_ok value_row] in *;
    try (unfold exp_unchunked, matern52_unchunked, matern32_unchunked, whole;
         apply Nat.eqb_eq in Hs; rewrite Hs; cbn [negb bind];
         now rewrite map2_repeat_r by reflexivity).
  destruct Hs as [Hc Hm]. unfold act_exp.
  apply Nat.eqb_neq in Hc. rewrite Hc.
  apply Nat.eqb_eq in Hm. rewrite Hm. cbn [negb bind].
  now rewrite map_map.
Qed.

Lemma value_row_unit k theta nc drow :
  k = K_act_exp \/ (nonneg theta /\ nonneg drow) ->
  0 < value_row k theta nc drow <= 1.
Proof.
  intros H. destruct k; cbn [value_row];
    try (destruct H as [H|[Ht Hd]]; [discriminate|]).
  - apply exp_neg_unit, rsum_nonneg, scaled_nonneg; assumption.
  - apply exp_neg_unit, rsum_nonneg, scaled_nonneg; assumption.
  - unfold m52_value.
    apply (damped_unit (fun x => 1 + sqrt 5 * x + 5 / 3 * x ^ 2) (sqrt 5)).
    + apply m52_factor.
    + now apply scaled_nonneg.
  - unfold m32_value.
    apply (damped_unit (fun x => 1 + sqrt 3 * x) (sqrt 3)).
    + apply m32_factor.
    + now apply scaled_nonneg.
  - unfold act_value.
    match goal with
    | |- 0 < exp (- (1 / 2) * ?s) <= 1 =>
        replace (- (1 / 2) * s) with (- (1 / 2 * s)) by ring;
        assert (Hs : 0 <= s)
    end.
    + apply rsum_nonneg. unfold nonneg. rewrite Forall_map.
      apply Forall_forall. intros x _. apply pow2_ge_0.
    + apply exp_neg_unit. lra.
Qed.

Lemma rsum_map_zero {A} (f : A -> R) l :
  (forall a, f a = 0) -> rsum (map f l) = 0.
Proof. intros Hf. induction l; simpl; rewrite ?Hf, ?IHl; lra. Qed.

Lemma nth_all_zero drow c : all_zero drow -> nth c drow 0 = 0.
Proof.
  intros H. revert c. induction H; intros [|c]; simpl; auto.
Qed.

Lemma value_row_at_zero k theta nc drow :
  all_zero drow -> value_row k theta nc drow = 1.
Proof.
  intros Hd. destruct k; cbn [value_row].
  - unfold exp_value.
    now rewrite (rsum_zero (scaled_zero theta Hd)), Ropp_0, exp_0.
  - unfold exp_value.
    now rewrite (rsum_zero (scaled_zero theta Hd)), Ropp_0, exp_0.
  - unfold m52_value.
    apply (damped_at_zero (fun x => 1 + sqrt 5 * x + 5 / 3 * x ^ 2) (sqrt 5));
      [ring|now apply scaled_zero].
  - unfold m32_value.
    apply (damped_at_zero (fun x => 1 + sqrt 3 * x) (sqrt 3));
      [ring|now apply scaled_zero].
  - unfold act_value. rewrite map_map, rsum_map_zero.
    + rewrite Rmult_0_r. apply exp_0.
    + intros s. rewrite rsum_map_zero; [ring|].
      intros c. rewrite (nth_all_zero c Hd). ring.
Qed.

(** C2: for every kernel, every theta with entries [>= 0] and every D
    that the kernels are given, the distances that componentwise_distance
    has made absolute or squared (entries [>= 0]; any D for act_exp), of
    the shapes the kernel accepts, every entry of the value-mode output
    lies in (0, 1]; and the output is 1 on every pair when D = 0. *)
Theorem kernel_value_range (k : kernel) (theta : list R) (d : matrix)
    (fuel : nat) :
  (nrows d / nb_limit + 1 < fuel)%nat ->
  shape_ok k theta d ->
  exists r,
    run nb_limit fuel k theta d None None = Ok (Corr r)
    /\ length r = nrows d
    /\ (k = K_act_exp \/ (nonneg theta /\ Forall nonneg (rows d)) ->
        unit_interval r)
    /\ (Forall all_zero (rows d) -> Forall (fun x => x = 1) r).
Proof.
  intros Hf Hs. exists (map (value_row k theta (ncols d)) (rows d)).
  split; [apply run_value; auto using nb_limit_pos|].
  split; [apply length_map|]. split.
  - intros H. unfold unit_interval. rewrite Forall_map.
    destruct H as [H|[Ht Hd]].
    + apply Forall_forall. intros drow _. apply value_row_unit. now left.
    + revert Hd. apply Forall_impl. intros drow Hd.
      apply value_row_unit. now right.
  - intros Hz. rewrite Forall_map. revert Hz. apply Forall_impl.
    intros drow. apply value_row_at_zero.
Qed.

Lemma kernel_value_range_witness :
  exists r,
    run nb_limit 2 K_matern32 [1] (mk_matrix 1 [[0]]) None None = Ok (Corr r)
    /\ length r = 1%nat
    /\ (K_matern32 = K_act_exp \/ (nonneg [1] /\ Forall nonneg [[0]]) ->
        unit_interval r)
    /\ (Forall all_zero [[0]] -> Forall (fun x => x = 1) r).
Proof.
  apply (@kernel_value_range K_matern32 [1] (mk_matrix 1 [[0]]) 2).
  - apply Nat.ltb_lt. vm_compute. reflexivity.
  - reflexivity.
Defined.

End KernelFacts.

(** ** The Hessian output of squar_exp *)

Module HessianFacts.
Import Kernels KernelFacts.
Local Open Scope R_scope.

Lemma exp_passes_value nb fuel theta d :
  (0 < nb)%nat -> (nrows d / nb + 1 < fuel)%nat -> length theta = ncols d ->
  exp_passes nb fuel theta d None None
  = Ok (map (fun drow => exp_value theta drow 0) (rows d)).
Proof.
  intros Hnb Hf Hs. unfold exp_passes.
  apply Nat.eqb_eq in Hs. rewrite Hs. cbn [negb].
  rewrite (pass_whole Hnb) by (auto using repeat_length).
  unfold whole. cbn [bind].
  now rewrite map2_repeat_r by reflexivity.
Qed.

Lemma for_each_single {A B} (f : A -> result B) (a : A) (bs : list B) :
  for_each f [a] = Ok bs -> length bs = 1%nat.
Proof.
  cbn [for_each]. destruct (f a); cbn [bind]; try discriminate.
  intros H. injection H as <-. reflexivity.
Qed.

(** Whatever the number of pairs, a returned [d2r] has leading dimension 1:
  [r] has been transposed when [r.shape[0]] is read. *)
Lemma squar_exp_hess_leading_dim nb fuel theta d g h dd hd out :
  squar_exp nb fuel theta d g h (Some dd) (Some hd) = Ok out ->
  exists d2r, out = Hess d2r /\ length d2r = 1%nat.
Proof.
  unfold squar_exp. destruct (exp_passes _ _ _ _ _ _) as [r| |];
    cbn [bind]; try discriminate.
  destruct (neg_einsum _ _); cbn [bind]; try discriminate.
  match goal with
  | |- bind ?m _ = _ -> _ => destruct m as [d2r| |] eqn:E
  end; cbn [bind]; try discriminate.
  intros H. injection H as <-. exists d2r. split; [reflexivity|].
  apply (for_each_single _ _ E).
Qed.

Definition one_pair : matrix := mk_matrix 1 [[1]].
Definition two_pairs : matrix := mk_matrix 1 [[1]; [4]].

(** C6 on the code: with both contexts supplied, squar_exp returns the
  array the claim describes for a single pair, and raises for two pairs
  instead of returning an array of shape (2, 1, 1). *)
Theorem squar_exp_hessian_two_pairs :
  squar_exp nb_limit 2 [1] one_pair None None
            (Some (mk_matrix 1 [[3]])) (Some (mk_matrix 1 [[3]]))
  = Ok (Hess [[[ - (2 * 1 - 3 * 3) * exp (- (1 * 1 + 0)) ]]])
  /\ squar_exp nb_limit 2 [1] two_pairs None None
               (Some (mk_matrix 1 [[1]; [2]])) (Some (mk_matrix 1 [[1]; [2]]))
     = Raise (ValueError "setting an array element with a sequence.").
Proof.
  assert (Hf1 : (nrows one_pair / nb_limit + 1 < 2)%nat)
    by (apply Nat.ltb_lt; vm_compute; reflexivity).
  assert (Hf2 : (nrows two_pairs / nb_limit + 1 < 2)%nat)
    by (apply Nat.ltb_lt; vm_compute; reflexivity).
  split; unfold squar_exp.
  - rewrite (exp_passes_value [1] one_pair nb_limit_pos Hf1 eq_refl).
    reflexivity.
  - rewrite (exp_passes_value [1] two_pairs nb_limit_pos Hf2 eq_refl).
    reflexivity.
Qed.

End HessianFacts.

(** ** Explicit failures of the spatial derivative *)

Module ErrorFacts.
Import Kernels Componentwise.
Local Open Scope R_scope.

(** The gradient and Hessian indices select existing columns of [d_A]. *)
Definition act_indices_ok (theta : list R) (d : matrix)
    (grad_ind hess_ind : option nat) : Prop :=
  match grad_ind with
  | None => True
  | Some g =>
      (g / ncols d < length theta / ncols d)%nat
      /\ match hess_ind with
         | None => True
         | Some h => (h / ncols d < length theta / ncols d)%nat
         end
  end.

Lemma act_exp_never_returns theta d grad_ind hess_ind dp :
  exists e, act_exp theta d grad_ind hess_ind (Some dp) = Raise e.
Proof.
  unfold act_exp.
  destruct (ncols d =? 0)%nat; [eauto|].
  destruct (negb _); [eauto|].
  destruct grad_ind as [g|]; [|cbn [bind]; eauto].
  destruct hess_ind as [h|].
  - destruct (_ && _)%bool; cbn [bind]; eauto.
  - destruct (_ <? _)%nat; cbn [bind]; eauto.
Qed.

Lemma act_exp_not_available theta d grad_ind hess_ind dp :
  ncols d <> 0%nat -> (length theta mod ncols d = 0)%nat ->
  act_indices_ok theta d grad_ind hess_ind ->
  act_exp theta d grad_ind hess_ind (Some dp) = Raise not_available.
Proof.
  intros Hc Hm Hi. unfold act_exp.
  apply Nat.eqb_neq in Hc. rewrite Hc.
  apply Nat.eqb_eq in Hm. rewrite Hm. cbn [negb].
  destruct grad_ind as [g|]; [|reflexivity].
  destruct Hi as [Hg Hh]. apply Nat.ltb_lt in Hg.
  destruct hess_ind as [h|].
  - apply Nat.ltb_lt in Hh. rewrite Hg, Hh. reflexivity.
  - rewrite Hg. reflexivity.
Qed.

(** C7, as the code has it: componentwise_distance with
  [return_derivative=True] raises a ValueError when theta is None and
  when corr is "act_exp"; act_exp never returns a value when
  derivative_params is supplied, and the error it raises is the
  "not available" ValueError whenever the checks that precede it pass
  (theta's length a multiple of the nonzero number of components, the
  indices inside the projection). *)
Theorem spatial_derivative_errors :
  (forall fuel D corr dim,
      componentwise_distance fuel D corr dim None true = Raise missing_theta)
  /\ (forall fuel D dim theta,
         exists msg, componentwise_distance fuel D "act_exp" dim theta true
                     = Raise (ValueError msg))
  /\ (forall theta d grad_ind hess_ind dp,
         exists e, act_exp theta d grad_ind hess_ind (Some dp) = Raise e)
  /\ (forall theta d grad_ind hess_ind dp,
         ncols d <> 0%nat -> (length theta mod ncols d = 0)%nat ->
         act_indices_ok theta d grad_ind hess_ind ->
         act_exp theta d grad_ind hess_ind (Some dp) = Raise not_available).
Proof.
  split; [reflexivity|]. split.
  - intros fuel D dim [theta|]; eexists; reflexivity.
  - split; [apply act_exp_never_returns|apply act_exp_not_available].
Qed.

Definition some_pair : matrix := mk_matrix 2 [[1; 1]].

Lemma spatial_derivative_errors_witness :
  act_exp [1; 2; 3; 4] some_pair (Some 1%nat) None (Some some_pair)
  = Raise not_available.
Proof.
  apply (proj2 (proj2 (proj2 spatial_derivative_errors))).
  - discriminate.
  - reflexivity.
  - cbn. split; [lia|exact I].
Defined.

(** The last part of the claim as written fails: with a theta whose length
  is not a multiple of the number of components, the error that act_exp
  raises is the length Exception, not a ValueError. *)
Lemma spatial_derivative_errors_counterexample :
  act_exp [1; 2; 3] some_pair None None (Some some_pair)
  = Raise (PlainException "Length of theta must be a multiple of n_components")
  /\ ~ (forall theta d dp,
           exists msg, act_exp theta d None None (Some dp)
                       = Raise (ValueError msg)).
Proof.
  split; [reflexivity|].
  intros H. destruct (H [1; 2; 3] some_pair some_pair) as [msg Hm].
  discriminate Hm.
Qed.

End ErrorFacts.

(** ** Termination of the value-mode loops *)

Module LoopFacts.
Import Kernels KernelFacts Componentwise.
Local Open Scope nat_scope.

Lemma map2_ignore_r {A B C} (h : A -> C) (l : list A) (r : list B) :
  length l = length r -> map2 (fun a _ => h a) l r = map h l.
Proof.
  revert r. induction l as [|a l IH]; intros [|b r] H; simpl in *;
    try discriminate; auto.
  f_equal. apply IH. congruence.
Qed.

Lemma zeros_length n m : length (zeros n m) = n.
Proof. apply repeat_length. Qed.

Lemma value_loop_result fuel D dim f :
  nrows D / nb_limit + 1 < fuel ->
  value_loop fuel (nrows D) dim f D
  = Ok (nrows D / nb_limit + 1,
        map (fun drow => broadcast_to dim (f drow)) (rows D)).
Proof.
  intros Hf. unfold value_loop.
  pose proof (zeros_length (nrows D) dim) as Hz.
  rewrite (while_chunks_rows nb_limit_pos) by (rewrite ?Hz; auto).
  now rewrite map2_ignore_r by (rewrite Hz; reflexivity).
Qed.

Lemma exit_condition n nb :
  0 < nb ->
  let iters := n / nb + 1 in
  n < iters * nb /\ forall i, i < iters -> i * nb <= n.
Proof.
  intros Hnb iters. subst iters. split.
  - pose proof (Nat.mul_succ_div_gt n nb ltac:(lia)). lia.
  - intros i Hi. pose proof (Nat.Div0.mul_div_le n nb).
    assert (i <= n / nb) by lia. nia.
Qed.

(** C10: in value mode, the loops of componentwise_distance and of
  componentwise_distance_PLS leave after [rows / 10^4 + 1] iterations,
  when [i * 10^4 > rows] holds for the first time, and return a D_corr
  with as many rows as D, whatever the kernel name. *)
Theorem value_mode_loops_terminate (fuel : nat) (D : matrix) (corr : string)
    (dim n_comp : nat) (theta : option (list R)) (coeff_pls : matrix) :
  nrows D / nb_limit + 1 < fuel ->
  let iters := nrows D / nb_limit + 1 in
  (nrows D < iters * nb_limit /\ forall i, i < iters -> i * nb_limit <= nrows D)
  /\ componentwise_distance fuel D corr dim theta false <> OutOfFuel
  /\ componentwise_distance_PLS fuel D corr n_comp coeff_pls <> OutOfFuel
  /\ (fits (ncols D) dim = true ->
      exists D_corr,
        value_loop fuel (nrows D) dim (map (distance_of corr)) D
        = Ok (iters, D_corr)
        /\ componentwise_distance fuel D corr dim theta false = Ok D_corr
        /\ length D_corr = nrows D)
  /\ (ncols D = nrows coeff_pls -> fits (ncols coeff_pls) n_comp = true ->
      exists D_corr,
        componentwise_distance_PLS_loop fuel D corr n_comp coeff_pls
        = Ok (iters, D_corr)
        /\ componentwise_distance_PLS fuel D corr n_comp coeff_pls = Ok D_corr
        /\ length D_corr = nrows D).
Proof.
  intros Hf iters.
  split; [apply exit_condition, nb_limit_pos|].
  split.
  { unfold componentwise_distance. cbn [negb].
    destruct (fits _ _); [|discriminate].
    rewrite value_loop_result by exact Hf. discriminate. }
  split.
  { unfold componentwise_distance_PLS, componentwise_distance_PLS_loop.
    destruct (negb _); [discriminate|].
    destruct (negb _); [discriminate|].
    rewrite value_loop_result by exact Hf. discriminate. }
  split.
  - intros Hs. eexists. split; [apply value_loop_result, Hf|].
    split; [|apply length_map].
    unfold componentwise_distance. cbn [negb]. rewrite Hs.
    now rewrite value_loop_result by exact Hf.
  - intros Hd Hs. eexists.
    unfold componentwise_distance_PLS, componentwise_distance_PLS_loop.
    apply Nat.eqb_eq in Hd. rewrite Hd, Hs. cbn [negb].
    rewrite value_loop_result by exact Hf. cbn [bind].
    split; [reflexivity|]. split; [reflexivity|apply length_map].
Qed.

Definition three_rows : matrix := mk_matrix 2 [[1; -2]; [0; 3]; [-1; 1]]%R.

Lemma value_mode_loops_terminate_witness :
  exists D_corr,
    componentwise_distance 2 three_rows "matern52" 2 None false = Ok D_corr
    /\ length D_corr = nrows three_rows.
Proof.
  assert (Hf : nrows three_rows / nb_limit + 1 < 2)
    by (apply Nat.ltb_lt; vm_compute; reflexivity).
  destruct (proj1 (proj2 (proj2 (proj2
             (@value_mode_loops_terminate 2 three_rows "matern52" 2 2 None
                                          three_rows Hf)))) eq_refl)
    as (D_corr & _ & H1 & H2).
  exists D_corr. split; assumption.
Defined.

End LoopFacts.

(** ** The rounding to float32 *)

Module Float32Facts.
Import Float32.
Local Open Scope R_scope.

Lemma Int_part_IZR n : Int_part (IZR n) = n.
Proof. symmetry. apply Int_part_spec. lra. Qed.

Lemma frac_part_IZR n : frac_part (IZR n) = 0.
Proof. unfold frac_part. rewrite Int_part_IZR. ring. Qed.

Lemma nearest_even_IZR n : nearest_even (IZR n) = n.
Proof.
  unfold nearest_even. rewrite frac_part_IZR, Int_part_IZR.
  destruct (Rlt_dec 0 (1 / 2)); [reflexivity|lra].
Qed.

Lemma Int_part_bounds y : IZR (Int_part y) <= y < IZR (Int_part y) + 1.
Proof. destruct (base_Int_part y). lra. Qed.

Lemma nearest_even_le y n : y <= IZR n -> (nearest_even y <= n)%Z.
Proof.
  intros H. pose proof (Int_part_bounds y) as [H1 H2].
  assert (Hf : (Int_part y <= n)%Z) by (apply le_IZR; lra).
  unfold nearest_even, frac_part.
  destruct (Z.eq_dec (Int_part y) n) as [E|E].
  - assert (y = IZR n) by (rewrite E in H1; lra). subst y.
    rewrite Int_part_IZR. replace (IZR n - IZR n) with 0 by ring.
    destruct (Rlt_dec 0 (1 / 2)); [lia|lra].
  - destruct (Rlt_dec _ _); [lia|].
    destruct (Rlt_dec _ _); [lia|]. destruct (Z.even _); lia.
Qed.

Lemma nearest_even_ge y n : IZR n <= y -> (n <= nearest_even y)%Z.
Proof.
  intros H. pose proof (Int_part_bounds y) as [H1 H2].
  assert (Hf : (n <= Int_part y)%Z).
  { assert (IZR n < IZR (Int_part y + 1)) by (rewrite plus_IZR; lra).
    apply lt_IZR in H0. lia. }
  unfold nearest_even.
  destruct (Rlt_dec _ _); [lia|].
  destruct (Rlt_dec _ _); [lia|]. destruct (Z.even _); lia.
Qed.

Lemma ulp_pos x : 0 < ulp x.
Proof. apply powerRZ_lt. lra. Qed.

Lemma round_value_0 : round_value 0 = 0.
Proof.
  unfold round_value. unfold Rdiv at 1. rewrite Rmult_0_l.
  rewrite (nearest_even_IZR 0). ring.
Qed.

Lemma round_value_nonpos x : x <= 0 -> round_value x <= 0.
Proof.
  intros Hx. unfold round_value. pose proof (ulp_pos x) as Hu.
  assert (Hy : x / ulp x <= IZR 0).
  { unfold Rdiv. pose proof (Rinv_0_lt_compat _ Hu). nra. }
  apply nearest_even_le, IZR_le in Hy. nra.
Qed.

Lemma round_value_nonneg x : 0 <= x -> 0 <= round_value x.
Proof.
  intros Hx. unfold round_value. pose proof (ulp_pos x) as Hu.
  assert (Hy : IZR 0 <= x / ulp x).
  { unfold Rdiv. pose proof (Rinv_0_lt_compat _ Hu). nra. }
  apply nearest_even_ge, IZR_le in Hy. nra.
Qed.

Lemma ln2_pos : 0 < ln 2.
Proof. pose proof ln_lt_2. lra. Qed.

Lemma ln_powerRZ k : ln (powerRZ 2 k) = IZR k * ln 2.
Proof.
  rewrite powerRZ_Rpower by lra. unfold Rpower. apply ln_exp.
Qed.

Lemma ilog2_pow2 k : ilog2 (powerRZ 2 k) = k.
Proof.
  unfold ilog2. rewrite ln_powerRZ.
  replace (IZR k * ln 2 / ln 2) with (IZR k)
    by (field; pose proof ln2_pos; lra).
  apply Int_part_IZR.
Qed.

(** [2 ^ ilog2 a <= a] for positive [a] *)
Lemma ilog2_below a : 0 < a -> powerRZ 2 (ilog2 a) <= a.
Proof.
  intros Ha. pose proof ln2_pos as H2.
  pose proof (Int_part_bounds (ln a / ln 2)) as [H _].
  fold (ilog2 a) in H.
  assert (Hl : IZR (ilog2 a) * ln 2 <= ln a).
  { apply (Rmult_le_compat_r (ln 2)) in H; [|lra].
    unfold Rdiv in H. rewrite Rmult_assoc, Rinv_l, Rmult_1_r in H; lra. }
  rewrite powerRZ_Rpower by lra. unfold Rpower.
  rewrite <- (exp_ln a Ha) at 2.
  destruct Hl as [Hl|Hl]; [left; now apply exp_increasing|right; now rewrite Hl].
Qed.

Lemma ilog2_nonpos a : 0 < a -> a <= 1 -> (ilog2 a <= 0)%Z.
Proof.
  intros Ha H1. pose proof ln2_pos as H2.
  pose proof (Int_part_bounds (ln a / ln 2)) as [H _].
  fold (ilog2 a) in H.
  assert (Hl : ln a <= 0).
  { rewrite <- ln_1. destruct H1 as [H1|H1];
      [left; now apply ln_increasing|right; now rewrite H1]. }
  assert (ln a / ln 2 <= 0).
  { unfold Rdiv. pose proof (Rinv_0_lt_compat _ H2). nra. }
  apply le_IZR. lra.
Qed.

Lemma ilog2_nonneg a : 1 <= a -> (0 <= ilog2 a)%Z.
Proof.
  intros H1. pose proof ln2_pos as H2.
  pose proof (Int_part_bounds (ln a / ln 2)) as [_ H].
  fold (ilog2 a) in H.
  assert (Hl : 0 <= ln a).
  { rewrite <- ln_1. destruct H1 as [H1|H1];
      [left; apply ln_increasing; lra|right; now rewrite H1]. }
  assert (0 <= ln a / ln 2).
  { unfold Rdiv. pose proof (Rinv_0_lt_compat _ H2). nra. }
  assert (IZR (-1) < IZR (ilog2 a)) by lra.
  apply lt_IZR in H3. lia.
Qed.

Lemma powerRZ_nat n : powerRZ 2 (Z.of_nat n) = IZR (2 ^ Z.of_nat n).
Proof. rewrite <- pow_powerRZ. apply pow_IZR. Qed.

Lemma powerRZ_nonneg_Z k : (0 <= k)%Z -> powerRZ 2 k = IZR (2 ^ k).
Proof.
  intros Hk. rewrite <- (Z2Nat.id k Hk). apply powerRZ_nat.
Qed.

Lemma powerRZ_ge_1 k : (0 <= k)%Z -> 1 <= powerRZ 2 k.
Proof.
  intros Hk. rewrite powerRZ_nonneg_Z by exact Hk.
  apply IZR_le. pose proof (Z.pow_pos_nonneg 2 k ltac:(lia) Hk). lia.
Qed.

Lemma powerRZ_split a b : powerRZ 2 a / powerRZ 2 b = powerRZ 2 (a - b).
Proof.
  unfold Z.sub. rewrite powerRZ_add by lra. rewrite powerRZ_neg'.
  reflexivity.
Qed.

Lemma round_value_le_1 x : x <= 1 -> round_value x <= 1.
Proof.
  intros Hx. destruct (Rle_dec x 0) as [H0|H0].
  { pose proof (round_value_nonpos H0). lra. }
  assert (Hp : 0 < x) by lra.
  assert (He : (exponent x <= 0)%Z).
  { unfold exponent. rewrite Rabs_pos_eq by lra.
    pose proof (ilog2_nonpos Hp Hx). lia. }
  unfold round_value, ulp. set (e := exponent x) in *.
  assert (Hu : 0 < powerRZ 2 (e - 23)) by (apply powerRZ_lt; lra).
  assert (Hinv : 1 / powerRZ 2 (e - 23) = IZR (2 ^ (23 - e))).
  { rewrite <- (powerRZ_O 2), powerRZ_split.
    replace (0 - (e - 23))%Z with (23 - e)%Z by lia.
    apply powerRZ_nonneg_Z. lia. }
  assert (Hy : x / powerRZ 2 (e - 23) <= IZR (2 ^ (23 - e))).
  { rewrite <- Hinv. unfold Rdiv. pose proof (Rinv_0_lt_compat _ Hu). nra. }
  apply nearest_even_le, IZR_le in Hy.
  apply (Rmult_le_compat_r _ _ _ (Rlt_le _ _ Hu)) in Hy.
  rewrite <- Hinv in Hy. unfold Rdiv in Hy.
  rewrite Rmult_1_l, Rinv_l in Hy by lra. exact Hy.
Qed.

Lemma round_value_ge_1 x : 1 <= x -> 1 <= round_value x.
Proof.
  intros Hx.
  assert (Hp : 0 < x) by lra.
  pose proof (ilog2_nonneg Hx) as Hi.
  assert (He : exponent x = ilog2 x).
  { unfold exponent. rewrite Rabs_pos_eq by lra. lia. }
  unfold round_value, ulp. rewrite He. set (e := ilog2 x) in *.
  assert (Hu : 0 < powerRZ 2 (e - 23)) by (apply powerRZ_lt; lra).
  destruct (Z_le_gt_dec e 23) as [L|G].
  - assert (Hinv : 1 / powerRZ 2 (e - 23) = IZR (2 ^ (23 - e))).
    { rewrite <- (powerRZ_O 2), powerRZ_split.
      replace (0 - (e - 23))%Z with (23 - e)%Z by lia.
      apply powerRZ_nonneg_Z. lia. }
    assert (Hy : IZR (2 ^ (23 - e)) <= x / powerRZ 2 (e - 23)).
    { rewrite <- Hinv. unfold Rdiv. pose proof (Rinv_0_lt_compat _ Hu). nra. }
    apply nearest_even_ge, IZR_le in Hy.
    apply (Rmult_le_compat_r _ _ _ (Rlt_le _ _ Hu)) in Hy.
    rewrite <- Hinv in Hy. unfold Rdiv in Hy.
    rewrite Rmult_1_l, Rinv_l in Hy by lra. exact Hy.
  - pose proof (ilog2_below Hp) as Hb. fold e in Hb.
    assert (Hy : IZR 1 <= x / powerRZ 2 (e - 23)).
    { apply (Rmult_le_reg_r (powerRZ 2 (e - 23))); [exact Hu|].
      unfold Rdiv. rewrite Rmult_assoc, Rinv_l, Rmult_1_r by lra.
      rewrite Rmult_1_l.
      assert (powerRZ 2 (e - 23) <= powerRZ 2 e); [|lra].
      replace e with ((e - 23) + 23)%Z at 2 by lia.
      rewrite powerRZ_add by lra.
      pose proof (@powerRZ_ge_1 23 ltac:(lia)). nra. }
    apply nearest_even_ge, IZR_le in Hy.
    pose proof (@powerRZ_ge_1 (e - 23) ltac:(lia)). nra.
Qed.

Lemma exponent_pow2 k : (-126 <= k)%Z -> exponent (powerRZ 2 k) = k.
Proof.
  intros Hk. unfold exponent.
  rewrite Rabs_pos_eq by (apply powerRZ_le; lra).
  rewrite ilog2_pow2. lia.
Qed.

(** Powers of two from the smallest normal number on are binary32 numbers. *)
Lemma round_value_pow2 k :
  (-126 <= k)%Z -> round_value (powerRZ 2 k) = powerRZ 2 k.
Proof.
  intros Hk. unfold round_value, ulp. rewrite exponent_pow2 by exact Hk.
  rewrite powerRZ_split. replace (k - (k - 23))%Z with 23%Z by lia.
  rewrite (@powerRZ_nonneg_Z 23) by lia. rewrite nearest_even_IZR.
  rewrite <- (@powerRZ_nonneg_Z 23) by lia.
  rewrite <- powerRZ_add by lra. f_equal. lia.
Qed.

Lemma threshold_value : overflow_threshold = IZR (2 ^ 128 - 2 ^ 103).
Proof.
  unfold overflow_threshold.
  rewrite (@powerRZ_nonneg_Z 128), (@powerRZ_nonneg_Z 103) by lia.
  now rewrite minus_IZR.
Qed.

Lemma round32_pow2 k :
  (-126 <= k <= 127)%Z -> round32 (powerRZ 2 k) = Finite (powerRZ 2 k).
Proof.
  intros Hk. unfold round32.
  rewrite Rabs_pos_eq by (apply powerRZ_le; lra).
  destruct (Rle_dec _ _) as [H|_]; [|now rewrite round_value_pow2 by lia].
  exfalso. revert H. apply Rlt_not_le.
  apply Rle_lt_trans with (powerRZ 2 127).
  - replace 127%Z with (k + (127 - k))%Z by lia.
    rewrite powerRZ_add by lra.
    pose proof (@powerRZ_ge_1 (127 - k) ltac:(lia)).
    pose proof (powerRZ_lt 2 k ltac:(lra)). nra.
  - rewrite threshold_value, (@powerRZ_nonneg_Z 127) by lia.
    apply IZR_lt. reflexivity.
Qed.

Lemma round32_1 : round32 1 = Finite 1.
Proof. rewrite <- (powerRZ_O 2) at 1 2. apply round32_pow2. lia. Qed.

Lemma round32_4 : round32 4 = Finite 4.
Proof.
  replace 4 with (powerRZ 2 2) by (simpl; ring). apply round32_pow2. lia.
Qed.

Lemma ilog2_spec a k :
  powerRZ 2 k <= a < powerRZ 2 (k + 1) -> ilog2 a = k.
Proof.
  intros [Hlo Hhi]. pose proof ln2_pos as H2.
  assert (Ha : 0 < a) by (pose proof (powerRZ_lt 2 k ltac:(lra)); lra).
  assert (H1 : IZR k * ln 2 <= ln a).
  { rewrite <- ln_powerRZ. destruct Hlo as [Hlo|Hlo].
    - left. apply ln_increasing; [apply powerRZ_lt; lra|exact Hlo].
    - right. now rewrite Hlo. }
  assert (H3 : ln a < IZR (k + 1) * ln 2).
  { rewrite <- ln_powerRZ. now apply ln_increasing. }
  rewrite plus_IZR in H3.
  unfold ilog2. symmetry. apply Int_part_spec.
  pose proof (Rinv_0_lt_compat _ H2) as Hi.
  assert (E : ln a / ln 2 * ln 2 = ln a) by (field; lra).
  split.
  - apply (Rmult_lt_reg_r (ln 2)); [exact H2|]. nra.
  - apply (Rmult_le_reg_r (ln 2)); [exact H2|]. nra.
Qed.

(** The value of [round_value] from the exponent and the two neighbours. *)
Lemma round_value_up x k n :
  (-126 <= k)%Z ->
  powerRZ 2 k <= Rabs x < powerRZ 2 (k + 1) ->
  IZR n + 1 / 2 < x / powerRZ 2 (k - 23) < IZR n + 1 ->
  round_value x = IZR (n + 1) * powerRZ 2 (k - 23).
Proof.
  intros Hk Hx Hn. unfold round_value, ulp, exponent.
  rewrite (@ilog2_spec _ _ Hx). replace (Z.max k (-126)) with k by lia.
  f_equal. f_equal. unfold nearest_even, frac_part.
  assert (E : Int_part (x / powerRZ 2 (k - 23)) = n)
    by (symmetry; apply Int_part_spec; lra).
  rewrite E.
  destruct (Rlt_dec _ _); [lra|]. destruct (Rlt_dec _ _); [reflexivity|lra].
Qed.

Lemma round_value_tie_even x k n :
  (-126 <= k)%Z ->
  powerRZ 2 k <= Rabs x < powerRZ 2 (k + 1) ->
  x / powerRZ 2 (k - 23) = IZR n + 1 / 2 -> Z.even n = true ->
  round_value x = IZR n * powerRZ 2 (k - 23).
Proof.
  intros Hk Hx Hn He. unfold round_value, ulp, exponent.
  rewrite (@ilog2_spec _ _ Hx). replace (Z.max k (-126)) with k by lia.
  f_equal. f_equal. unfold nearest_even, frac_part.
  assert (E : Int_part (x / powerRZ 2 (k - 23)) = n)
    by (symmetry; apply Int_part_spec; lra).
  rewrite E, He.
  destruct (Rlt_dec _ _); [lra|]. destruct (Rlt_dec _ _); [lra|reflexivity].
Qed.

(** 1/3 is [11184811 / 2 ^ 25] in float32 ([0x3EAAAAAB]). *)
Lemma round_value_third : round_value (1 / 3) = 11184811 / 33554432.
Proof.
  rewrite (@round_value_up (1 / 3) (-2) 11184810).
  - simpl. lra.
  - lia.
  - rewrite Rabs_pos_eq by lra. simpl. lra.
  - simpl. lra.
Qed.

(** [2 ^ 24 + 1] is halfway between two float32 numbers and becomes
    [2 ^ 24]. *)
Lemma round_value_tie : round_value 16777217 = 16777216.
Proof.
  rewrite (@round_value_tie_even 16777217 24 8388608).
  - simpl. lra.
  - lia.
  - rewrite Rabs_pos_eq by lra. simpl. lra.
  - simpl. lra.
  - reflexivity.
Qed.

(** A number on the grid of its binade is a float32. *)
Lemma round_value_grid x k n :
  (-126 <= k)%Z ->
  powerRZ 2 k <= Rabs x < powerRZ 2 (k + 1) ->
  x = IZR n * powerRZ 2 (k - 23) ->
  round_value x = x.
Proof.
  intros Hk Hx Hn. unfold round_value, ulp, exponent.
  rewrite (@ilog2_spec _ _ Hx). replace (Z.max k (-126)) with k by lia.
  assert (Hu : powerRZ 2 (k - 23) <> 0) by (apply powerRZ_NOR; lra).
  replace (x / powerRZ 2 (k - 23)) with (IZR n)
    by (rewrite Hn at 1; field; exact Hu).
  rewrite nearest_even_IZR. now symmetry.
Qed.

Lemma round_value_3 : round_value 3 = 3.
Proof.
  apply (@round_value_grid 3 1 12582912).
  - lia.
  - rewrite Rabs_pos_eq by lra. simpl. lra.
  - simpl. lra.
Qed.

Lemma round_value_1 : round_value 1 = 1.
Proof. rewrite <- (powerRZ_O 2) at 1 2. apply round_value_pow2. lia. Qed.

Lemma round_value_2 : round_value 2 = 2.
Proof.
  replace 2 with (powerRZ 2 1) by (simpl; ring).
  apply round_value_pow2. lia.
Qed.

Lemma round_value_4 : round_value 4 = 4.
Proof.
  replace 4 with (powerRZ 2 2) by (simpl; ring).
  apply round_value_pow2. lia.
Qed.

(** What does not overflow. *)
Definition in_range (x : R) : Prop := Rabs x < overflow_threshold.

Lemma threshold_pos : 0 < overflow_threshold.
Proof. rewrite threshold_value. apply IZR_lt. reflexivity. Qed.

Lemma in_range_0 : in_range 0.
Proof. unfold in_range. rewrite Rabs_R0. apply threshold_pos. Qed.

Lemma in_range_4 : in_range 4.
Proof.
  unfold in_range. rewrite Rabs_pos_eq by lra.
  rewrite threshold_value. apply IZR_lt. reflexivity.
Qed.

Lemma in_range_le_4 x : Rabs x <= 4 -> in_range x.
Proof.
  intros H. pose proof in_range_4 as H4. unfold in_range in *.
  rewrite Rabs_pos_eq in H4 by lra. lra.
Qed.

Lemma round32_in_range x : in_range x -> round32 x = Finite (round_value x).
Proof.
  unfold in_range, round32. intros H.
  destruct (Rle_dec _ _); [lra|reflexivity].
Qed.

Lemma float32_in_range x : in_range x -> float32 x = Ok (round_value x).
Proof. intros H. unfold float32. now rewrite round32_in_range. Qed.



End Float32Facts.

(** ** The largest and the smallest entry of a column *)

Module ExtremaFacts.
Local Open Scope R_scope.

Lemma fold_min_le a l :
  fold_left Rmin l a <= a /\ forall x, In x l -> fold_left Rmin l a <= x.
Proof.
  revert a. induction l as [|b l IH]; intros a; simpl; [split; [lra|tauto]|].
  destruct (IH (Rmin a b)) as [H1 H2].
  pose proof (Rmin_l a b). pose proof (Rmin_r a b).
  split; [lra|]. intros x [<-|Hx]; [lra|auto].
Qed.

Lemma fold_max_ge a l :
  a <= fold_left Rmax l a /\ forall x, In x l -> x <= fold_left Rmax l a.
Proof.
  revert a. induction l as [|b l IH]; intros a; simpl; [split; [lra|tauto]|].
  destruct (IH (Rmax a b)) as [H1 H2].
  pose proof (Rmax_l a b). pose proof (Rmax_r a b).
  split; [lra|]. intros x [<-|Hx]; [lra|auto].
Qed.

Lemma fold_min_in a l : In (fold_left Rmin l a) (a :: l).
Proof.
  revert a. induction l as [|b l IH]; intros a; simpl; [now left|].
  destruct (IH (Rmin a b)) as [H|H]; [|now right; right].
  rewrite <- H. unfold Rmin. destruct (Rle_dec a b); [now left|right; now left].
Qed.

Lemma fold_max_in a l : In (fold_left Rmax l a) (a :: l).
Proof.
  revert a. induction l as [|b l IH]; intros a; simpl; [now left|].
  destruct (IH (Rmax a b)) as [H|H]; [|now right; right].
  rewrite <- H. unfold Rmax. destruct (Rle_dec a b); [right; now left|now left].
Qed.

End ExtremaFacts.

(** ** Gower distance: degenerate normalizers, and what is written *)

Module GowerFacts.
Import Distance DistanceFacts Float32 Gower.
Local Open Scope R_scope.

(** The number of selected columns before column [j]. *)
Definition rank (mask : list bool) (j : nat) : nat :=
  length (filter (fun b => b) (firstn j mask)).

Definition count (mask : list bool) : nat := length (filter (fun b => b) mask).

Lemma rank_lt_count mask j :
  nth j mask false = true -> (rank mask j < count mask)%nat.
Proof.
  unfold rank, count. revert j.
  induction mask as [|b mask IH]; intros [|j] H; simpl in *; try discriminate.
  - subst b. simpl. lia.
  - specialize (IH j H). destruct b; simpl; lia.
Qed.

Lemma scatter_length mask vals r : length (scatter mask vals r) = length r.
Proof.
  revert vals r. induction mask as [|b mask IH]; intros vals [|x r];
    try reflexivity.
  all: destruct b; [destruct vals as [|v vals]|]; simpl; rewrite ?IH;
    reflexivity.
Qed.

Lemma scatter_keep mask vals r j d :
  nth j mask true = false -> nth j (scatter mask vals r) d = nth j r d.
Proof.
  revert vals r j. induction mask as [|b mask IH]; intros vals [|x r] j H;
    try reflexivity.
  - now destruct b.
  - destruct b.
    + destruct j as [|j]; [discriminate|].
      destruct vals as [|v vals]; [reflexivity|]. simpl. now apply IH.
    + destruct j as [|j]; [reflexivity|]. simpl. now apply IH.
Qed.

Lemma scatter_hit mask vals r j d :
  nth j mask false = true -> (j < length r)%nat ->
  (rank mask j < length vals)%nat ->
  nth j (scatter mask vals r) d = nth (rank mask j) vals d.
Proof.
  unfold rank. revert vals r j.
  induction mask as [|b mask IH]; intros vals r j H Hj Hr.
  - destruct j; discriminate.
  - destruct r as [|x r]; [simpl in Hj; lia|].
    destruct b.
    + destruct vals as [|v vals]; [simpl in Hr; lia|].
      destruct j as [|j]; [reflexivity|].
      simpl in *. apply IH; auto; lia.
    + destruct j as [|j]; [discriminate|].
      simpl in *. apply IH; auto; lia.
Qed.

(** Either the entry is kept, or it is the scattered value. *)
Lemma scatter_entry mask vals r j d :
  nth j (scatter mask vals r) d = nth j r d
  \/ nth j (scatter mask vals r) d = nth (rank mask j) vals d.
Proof.
  unfold rank. revert vals r j.
  induction mask as [|b mask IH]; intros vals r j; [now left|].
  destruct r as [|x r]; [left; now destruct b|].
  destruct b.
  - destruct vals as [|v vals]; [now left|].
    destruct j as [|j]; [now right|]. simpl. apply IH.
  - destruct j as [|j]; [now left|]. simpl. apply IH.
Qed.

Lemma select_length mask r :
  length r = length mask -> length (select mask r) = count mask.
Proof.
  unfold select, count. revert r.
  induction mask as [|b mask IH]; intros [|x r] H; simpl in *;
    try discriminate; auto.
  destruct b; simpl; rewrite IH by congruence; reflexivity.
Qed.

Lemma select_hit mask r j d :
  nth j mask false = true -> (j < length r)%nat ->
  nth (rank mask j) (select mask r) d = nth j r d.
Proof.
  unfold rank, select. revert r j.
  induction mask as [|b mask IH]; intros r j H Hj.
  - destruct j; discriminate.
  - destruct r as [|x r]; [simpl in Hj; lia|].
    destruct b.
    + destruct j as [|j]; [reflexivity|].
      simpl in *. apply IH; auto; lia.
    + destruct j as [|j]; [discriminate|].
      simpl in *. apply IH; auto; lia.
Qed.

Lemma nth_negb mask j :
  nth j mask true = false -> nth j (map negb mask) false = true.
Proof.
  revert j. induction mask as [|b mask IH]; intros [|j] H; simpl in *;
    try discriminate; auto.
  now subst b.
Qed.

Lemma divide_where_zero a : divide_where a 0 = 0.
Proof. unfold divide_where. destruct (Req_dec_T 0 0); [reflexivity|lra]. Qed.

Lemma length_map2 {A B C} (f : A -> B -> C) l m :
  length (map2 f l m) = Nat.min (length l) (length m).
Proof.
  revert m. induction l as [|a l IH]; intros [|b m]; simpl; auto.
Qed.

Lemma divide_range_zero a : divide_range a (Finite 0) = 0.
Proof. apply divide_where_zero. Qed.

Lemma divided_entry_zero a den c :
  nth c den (Finite 0) = Finite 0 ->
  nth c (map2 divide_range a den) 0 = 0.
Proof.
  revert den c. induction a as [|x a IH]; intros [|r den] [|c] H;
    try reflexivity.
  - simpl in *. subst r. apply divide_range_zero.
  - simpl in *. now apply IH.
Qed.

Lemma map2_Forall {A B C} (f : A -> B -> C) (P : C -> Prop) l1 l2 :
  (forall a b, In a l1 -> In b l2 -> P (f a b)) -> Forall P (map2 f l1 l2).
Proof.
  revert l2. induction l1 as [|a l1 IH]; intros [|b l2] H; simpl;
    constructor.
  - apply H; now left.
  - apply IH. intros a' b' Ha Hb. apply H; now right.
Qed.

Lemma for_each_pure {A B} (f : A -> result B) (g : A -> B) l :
  (forall a, In a l -> f a = Ok (g a)) -> for_each f l = Ok (map g l).
Proof.
  induction l as [|a l IH]; intros H; [reflexivity|].
  simpl. rewrite (H a (or_introl eq_refl)). cbn [bind].
  rewrite IH by (intros a' Ha; apply H; now right). reflexivity.
Qed.


End GowerFacts.

(** ** Gower distance: the theorems *)

Module GowerMain.
Import Distance DistanceFacts Float32 Float32Facts ExtremaFacts Gower
       GowerFacts.
Local Open Scope R_scope.

Definition col_max (l : list R) : R :=
  match l with [] => 0 | x :: l' => fold_left Rmax l' x end.
Definition col_min (l : list R) : R :=
  match l with [] => 0 | x :: l' => fold_left Rmin l' x end.

(** The column as float32 numbers, its largest and smallest entry, and
    the range that the normalizer loop stores for it. *)
Definition cast (l : list R) : list R := map round_value l.
Definition max_of (l : list R) : R := col_max (cast l).
Definition min_of (l : list R) : R := col_min (cast l).
Definition range_of (l : list R) : xfloat :=
  if Req_dec_T (max_of l) 0 then Finite 0
  else one_minus (round32 (min_of l / max_of l)).

Lemma col_extrema l x : In x l -> col_min l <= x <= col_max l.
Proof.
  destruct l as [|a l]; [contradiction|]. unfold col_min, col_max.
  destruct (fold_min_le a l) as [H1 H2], (fold_max_ge a l) as [H3 H4].
  intros [<-|Hx]; split; auto.
Qed.

Lemma col_max_attained l : l <> [] -> In (col_max l) l.
Proof. destruct l; [congruence|]. intros _. apply fold_max_in. Qed.

Lemma col_min_attained l : l <> [] -> In (col_min l) l.
Proof. destruct l; [congruence|]. intros _. apply fold_min_in. Qed.

Lemma cast_ok l : Forall in_range l -> for_each float32 l = Ok (cast l).
Proof.
  intros H. apply for_each_pure. intros x Hx. apply float32_in_range.
  rewrite Forall_forall in H. now apply H.
Qed.

Lemma normalizer_ok Y_num col :
  Y_num <> [] -> Forall in_range (column col Y_num) ->
  normalizer Y_num col
  = Ok (max_of (column col Y_num), range_of (column col Y_num)).
Proof.
  intros HY Hr. unfold normalizer. rewrite (cast_ok Hr). cbn [bind].
  unfold range_of, max_of, min_of, cast.
  destruct Y_num as [|r Y_num]; [congruence|].
  cbn [column map nanmax nanmin bind col_max col_min].
  destruct (Req_dec_T _ 0) as [E|E]; cbn [bind]; [reflexivity|].
  unfold safe_div. destruct (Req_dec_T _ 0); [contradiction|]. reflexivity.
Qed.


Lemma read_alloc h m : read (snd (alloc h m)) (fst (alloc h m)) = Ok m.
Proof.
  unfold read, alloc. cbn [fst snd].
  rewrite nth_error_app2, Nat.sub_diag by lia. reflexivity.
Qed.

Lemma read_alloc_old h m l x :
  nth_error h l = Some x -> read (h ++ [m]) l = Ok x.
Proof.
  intros H. unfold read. rewrite nth_error_app1, H; [reflexivity|].
  apply nth_error_Some. congruence.
Qed.

Lemma nth_error_set_nth {A} (l : list A) k k' x :
  (k < length l)%nat ->
  nth_error (set_nth k x l) k' = if (k' =? k)%nat then Some x else nth_error l k'.
Proof.
  unfold set_nth. revert k k'.
  induction l as [|a l IH]; intros k k' Hk; [simpl in Hk; lia|].
  destruct k as [|k]; destruct k' as [|k']; try reflexivity.
  simpl in Hk. cbn [firstn skipn app nth_error Nat.eqb].
  apply (IH k k'). lia.
Qed.

Lemma read_write_same h l m :
  (l < length h)%nat -> read (write h l m) l = Ok m.
Proof.
  intros Hl. unfold read, write.
  now rewrite nth_error_set_nth, Nat.eqb_refl by exact Hl.
Qed.

Lemma read_write_other h l l' m :
  (l < length h)%nat -> l <> l' -> read (write h l m) l' = read h l'.
Proof.
  intros Hl Hn. unfold read, write.
  rewrite nth_error_set_nth by exact Hl.
  destruct (Nat.eqb_spec l' l); [congruence|reflexivity].
Qed.

Lemma write_length h l m : (l < length h)%nat -> length (write h l m) = length h.
Proof.
  intros Hl. unfold write, set_nth.
  rewrite length_app, length_firstn. cbn [length]. rewrite length_skipn. lia.
Qed.

(** A column is degenerate when its maximum is zero or its range is. *)
Definition degenerate (col : list R) : Prop :=
  col_max col = 0 \/ col_min col = col_max col.

(** A column whose largest entry is zero keeps it in float32. *)
Lemma cast_max_zero l : col_max l = 0 -> max_of l = 0.
Proof.
  destruct l as [|a l]; [reflexivity|]. intros H.
  assert (Hne : a :: l <> []) by discriminate.
  assert (Hc : cast (a :: l) <> []) by discriminate.
  pose proof (col_max_attained Hne) as H0. rewrite H in H0.
  pose proof (col_max_attained Hc) as Hm. fold (max_of (a :: l)) in Hm.
  unfold cast in Hm. apply in_map_iff in Hm as (x & Hx & Hxl).
  pose proof (col_extrema _ _ Hxl) as [_ Hle]. rewrite H in Hle.
  pose proof (round_value_nonpos Hle) as Hneg.
  assert (Hz : In 0 (cast (a :: l))).
  { unfold cast. rewrite <- round_value_0. now apply in_map. }
  pose proof (col_extrema _ _ Hz) as [_ Hge]. fold (max_of (a :: l)) in Hge.
  lra.
Qed.

(** A constant column is constant in float32. *)
Lemma cast_constant l : col_min l = col_max l -> min_of l = max_of l.
Proof.
  destruct l as [|a l]; [reflexivity|]. intros H.
  assert (Hc : cast (a :: l) <> []) by discriminate.
  assert (Hall : forall y, In y (cast (a :: l)) ->
                           y = round_value (col_max (a :: l))).
  { intros y Hy. unfold cast in Hy. apply in_map_iff in Hy as (x & <- & Hx).
    pose proof (col_extrema _ _ Hx) as [H1 H2]. rewrite H in H1.
    f_equal. lra. }
  rewrite (Hall _ (col_min_attained Hc)) at 1.
  now rewrite (Hall _ (col_max_attained Hc)) at 1.
Qed.

Lemma degenerate_range col : degenerate col -> range_of col = Finite 0.
Proof.
  unfold degenerate, range_of. intros [H|H].
  - rewrite (cast_max_zero _ H).
    destruct (Req_dec_T 0 0); [reflexivity|lra].
  - destruct (Req_dec_T (max_of col) 0) as [E|E]; [reflexivity|].
    rewrite (cast_constant _ H).
    replace (max_of col / max_of col) with 1 by (field; exact E).
    rewrite round32_1. cbn [one_minus]. f_equal. ring.
Qed.

Definition not_cat_of (xtypes : list xtype) : list bool :=
  map negb (map is_cat xtypes).

Definition ranges_of (xtypes : list xtype) (Ym : matrix) : list xfloat :=
  map (fun c => range_of (column c (map (select (not_cat_of xtypes)) (rows Ym))))
      (seq 0 (count (not_cat_of xtypes))).

Lemma column_select mask M j :
  nth j mask false = true ->
  Forall (fun r => length r = length mask) M ->
  column (rank mask j) (map (select mask) M) = column j M.
Proof.
  intros Hj HM. unfold column. rewrite map_map.
  apply map_ext_in. intros r Hr.
  rewrite Forall_forall in HM. apply select_hit; [exact Hj|].
  rewrite (HM r Hr).
  destruct (Nat.lt_ge_cases j (length mask)) as [H|H]; [exact H|].
  rewrite nth_overflow in Hj by exact H. discriminate.
Qed.

Lemma degenerate_range_entry xtypes Ym j :
  wf_matrix Ym -> length xtypes = ncols Ym ->
  nth j (map is_cat xtypes) true = false ->
  degenerate (column j (rows Ym)) ->
  nth (rank (not_cat_of xtypes) j) (ranges_of xtypes Ym) (Finite 0)
  = Finite 0.
Proof.
  intros Hwf Hlen Hj Hd. unfold ranges_of.
  pose proof (nth_negb _ _ Hj) as Hn. fold (not_cat_of xtypes) in Hn.
  pose proof (rank_lt_count _ _ Hn) as Hr.
  set (f := fun c => range_of (column c (map (select (not_cat_of xtypes)) (rows Ym)))).
  rewrite (nth_indep _ (Finite 0) (f 0%nat))
    by now rewrite length_map, length_seq.
  rewrite map_nth, seq_nth by exact Hr. cbn [Nat.add]. unfold f.
  rewrite column_select; [now apply degenerate_range|exact Hn|].
  revert Hwf. unfold wf_matrix. apply Forall_impl. intros r ->.
  unfold not_cat_of. now rewrite !length_map.
Qed.

(** No continuous entry of the reference points overflows in float32. *)
Definition finite32 (xtypes : list xtype) (Ym : matrix) : Prop :=
  Forall (Forall in_range) (map (select (not_cat_of xtypes)) (rows Ym)).

Lemma column_in_range M c :
  Forall (Forall in_range) M -> Forall in_range (column c M).
Proof.
  intros H. unfold column. rewrite Forall_map. revert H.
  apply Forall_impl. intros r Hr.
  destruct (nth_in_or_default c r 0) as [Hin|E]; [|rewrite E; apply in_range_0].
  rewrite Forall_forall in Hr. now apply Hr.
Qed.

Lemma normalizers_ok xtypes Ym :
  rows Ym <> [] \/ count (not_cat_of xtypes) = 0%nat ->
  finite32 xtypes Ym ->
  for_each (normalizer (map (select (not_cat_of xtypes)) (rows Ym)))
           (seq 0 (count (not_cat_of xtypes)))
  = Ok (map (fun c => (max_of (column c (map (select (not_cat_of xtypes)) (rows Ym))),
                       range_of (column c (map (select (not_cat_of xtypes)) (rows Ym)))))
            (seq 0 (count (not_cat_of xtypes)))).
Proof.
  intros [H|H] Hfin.
  - apply for_each_pure. intros c _. apply normalizer_ok.
    + destruct (rows Ym); [congruence|discriminate].
    + now apply column_in_range.
  - rewrite H. reflexivity.
Qed.

Lemma Forall_take {A} (P : A -> Prop) k (l : list A) :
  Forall P l -> Forall P (firstn k l).
Proof.
  intros H. revert k. induction H; intros [|k]; simpl; auto.
Qed.

Lemma Forall_drop {A} (P : A -> Prop) k (l : list A) :
  Forall P l -> Forall P (skipn k l).
Proof.
  intros H. revert k. induction H; intros [|k]; simpl; auto.
Qed.

(** Rows written by a pair loop keep a property of the rows of [op]. *)
Lemma set_slice_Forall {A} (P : A -> Prop) a b (v l : list A) :
  Forall P v -> Forall P l -> Forall P (set_slice a b v l).
Proof.
  intros Hv Hl. unfold set_slice. rewrite !Forall_app. repeat split.
  - now apply Forall_take.
  - exact Hv.
  - now apply Forall_drop.
Qed.

Lemma pair_loop_Forall (P : list R -> Prop) op Xr Yr n l st :
  (forall a b, P (op a b)) -> Forall P (snd st) ->
  Forall P (snd (fold_left (pair_body op Xr Yr n) l st)).
Proof.
  intros Hop. revert st. induction l as [|k l IH]; intros st Hst; [exact Hst|].
  cbn [fold_left]. apply IH. destruct st as [[ll [ij0 ij1]] D].
  cbn [pair_body snd] in *. apply set_slice_Forall; [|exact Hst].
  rewrite Forall_map. apply Forall_forall. intros; apply Hop.
Qed.

Lemma rows_loop_Forall (P : list R -> Prop) op Xr Yr n l st :
  (forall a b, P (op a b)) -> Forall P (snd st) ->
  Forall P (snd (fold_left (rows_body op Xr Yr n) l st)).
Proof.
  intros Hop. revert st. induction l as [|k l IH]; intros st Hst; [exact Hst|].
  cbn [fold_left]. apply IH. destruct st as [ll D].
  cbn [rows_body snd] in *. apply set_slice_Forall; [|exact Hst].
  rewrite Forall_map. apply Forall_forall. intros; apply Hop.
Qed.

Lemma zero_row_entry (l : list R) j : nth j (map (fun x => x * 0) l) 0 = 0.
Proof.
  revert j. induction l as [|x l IH]; intros [|j]; simpl; auto. ring.
Qed.

Lemma read_old h m l : (l < length h)%nat -> read (h ++ [m]) l = read h l.
Proof.
  intros Hl. unfold read. now rewrite nth_error_app1 by exact Hl.
Qed.

Lemma app_one_length {A} (h : list A) m : length (h ++ [m]) = S (length h).
Proof. rewrite length_app. simpl. lia. Qed.

Lemma num_distance_entry ranges a b c :
  nth c ranges (Finite 0) = Finite 0 ->
  nth c (num_distance ranges a b) 0 = 0.
Proof. intros H. unfold num_distance. now apply divided_entry_zero. Qed.

Lemma zeros_entry n m c : Forall (fun r => nth c r 0 = 0) (zeros n m).
Proof.
  unfold zeros. apply Forall_forall. intros r Hr.
  apply repeat_spec in Hr. subst r.
  destruct (Nat.lt_ge_cases c m) as [H|H].
  - apply nth_repeat_lt. exact H.
  - apply nth_overflow. now rewrite repeat_length.
Qed.

Lemma ranges_of_norm xtypes Ym :
  map snd
      (map (fun c => (max_of (column c (map (select (not_cat_of xtypes)) (rows Ym))),
                      range_of (column c (map (select (not_cat_of xtypes)) (rows Ym)))))
           (seq 0 (count (not_cat_of xtypes))))
  = ranges_of xtypes Ym.
Proof. unfold ranges_of. now rewrite map_map. Qed.

Lemma gower_self h X xtypes Xm :
  nth_error h X = Some Xm ->
  length xtypes = ncols Xm ->
  rows Xm <> [] \/ count (not_cat_of xtypes) = 0%nat ->
  finite32 xtypes Xm ->
  exists D ij X_cont h',
    gower_componentwise_distances h X None xtypes = Ok (GSelf D ij X_cont, h')
    /\ (forall l, (l < length h)%nat -> read h' l = read h l)
    /\ (forall j, wf_matrix Xm ->
                  nth j (map is_cat xtypes) true = false ->
                  degenerate (column j (rows Xm)) ->
                  Forall (fun r => nth j r 0 = 0) D).
Proof.
  intros HX Hlen Hrows Hfin. unfold gower_componentwise_distances.
  unfold read at 1. rewrite HX. cbn [bind alloc].
  rewrite length_map. apply Nat.eqb_eq in Hlen as Hlenb. rewrite Hlenb.
  cbn [negb].
  change (read (h ++ [Xm]) (length h)) with
    (read (snd (alloc h Xm)) (fst (alloc h Xm))).
  rewrite !read_alloc. cbn [bind]. rewrite Nat.eqb_refl. cbn [negb].
  fold (not_cat_of xtypes). fold (count (not_cat_of xtypes)).
  rewrite (normalizers_ok Hrows Hfin). cbn [bind].
  rewrite ranges_of_norm.
  rewrite read_write_same by (rewrite app_one_length; lia). cbn [bind ncols].
  match goal with
  | |- context [fold_left (pair_body ?op ?a ?b ?n) ?l ?st] =>
      pose proof (fun P H1 => @pair_loop_Forall P op a b n l st H1) as Hnum;
      destruct (fold_left (pair_body op a b n) l st) as [[ll [ij0 ij1]] D_num]
  end.
  match goal with
  | |- context [fold_left (rows_body ?op ?a ?b ?n) ?l ?st] =>
      destruct (fold_left (rows_body op a b n) l st) as [ll' D_cat]
  end.
  do 4 eexists. split; [reflexivity|]. split.
  - intros l Hl.
    rewrite !read_write_other by
      (rewrite ?write_length, ?app_one_length; rewrite ?app_one_length; lia).
    now apply read_old.
  - intros j Hwf Hj Hdeg.
    pose proof (@degenerate_range_entry xtypes Xm j Hwf Hlen Hj Hdeg) as Hr.
    cbn [snd] in Hnum.
    specialize (Hnum (fun r => nth (rank (not_cat_of xtypes) j) r 0 = 0)
                     (fun a b => @num_distance_entry _ a b _ Hr)
                     (zeros_entry _ _ _)).
    rewrite Forall_forall in Hnum.
    apply map2_Forall. intros dc r1 _ Hr1.
    rewrite scatter_keep by exact Hj.
    revert r1 Hr1. apply Forall_forall.
    apply map2_Forall. intros dn r0 Hdn Hr0.
    destruct (scatter_entry (not_cat_of xtypes) dn r0 j 0) as [E|E];
      rewrite E; clear E.
    + revert r0 Hr0. apply Forall_forall.
      apply map2_Forall. intros; apply zero_row_entry.
    + now apply Hnum.
Qed.

Definition maxes_of (xtypes : list xtype) (Ym : matrix) : list R :=
  map (fun c => max_of (column c (map (select (not_cat_of xtypes)) (rows Ym))))
      (seq 0 (count (not_cat_of xtypes))).

Lemma maxes_of_norm xtypes Ym :
  map fst
      (map (fun c => (max_of (column c (map (select (not_cat_of xtypes)) (rows Ym))),
                      range_of (column c (map (select (not_cat_of xtypes)) (rows Ym)))))
           (seq 0 (count (not_cat_of xtypes))))
  = maxes_of xtypes Ym.
Proof. unfold maxes_of. now rewrite map_map. Qed.

(** The continuous columns of [Z], divided by the column maxima. *)
Definition normalized (xtypes : list xtype) (Xm Ym : matrix) : list (list R) :=
  map (fun r => map2 divide_where r (maxes_of xtypes Ym))
      (map (select (not_cat_of xtypes)) (rows Xm ++ rows Ym)).

(** What [Y_norma[:, not cat] = Y_num] leaves in [Y]. *)
Definition written_Y (xtypes : list xtype) (Xm Ym : matrix) : matrix :=
  mk_matrix (ncols Ym)
            (map2 (scatter (not_cat_of xtypes))
                  (slice (nrows Xm) (nrows Xm + nrows Ym)
                         (normalized xtypes Xm Ym))
                  (rows Ym)).

Lemma scattered_rows_length mask (A M : list (list R)) n :
  Forall (fun r => length r = n) M ->
  Forall (fun r => length r = n) (map2 (scatter mask) A M).
Proof.
  intros HM. rewrite Forall_forall in HM.
  apply map2_Forall. intros a r _ Hr. rewrite scatter_length. now apply HM.
Qed.

Lemma nth_in_range (mask : list bool) j :
  nth j mask true = false -> (j < length mask)%nat.
Proof.
  intros H. destruct (Nat.lt_ge_cases j (length mask)) as [L|L]; [exact L|].
  rewrite nth_overflow in H by exact L. discriminate.
Qed.

Lemma gower_cross h X y xtypes Xm Ym :
  nth_error h X = Some Xm ->
  nth_error h y = Some Ym ->
  length xtypes = ncols Xm ->
  ncols Xm = ncols Ym ->
  rows Ym <> [] \/ count (not_cat_of xtypes) = 0%nat ->
  finite32 xtypes Ym ->
  exists D h',
    gower_componentwise_distances h X (Some y) xtypes = Ok (GCross D, h')
    /\ read h' y = Ok (written_Y xtypes Xm Ym)
    /\ (forall l, (l < length h)%nat -> l <> y -> read h' l = read h l)
    /\ (forall j, wf_matrix Xm -> wf_matrix Ym ->
                  nth j (map is_cat xtypes) true = false ->
                  degenerate (column j (rows Ym)) ->
                  Forall (fun r => nth j r 0 = 0) D).
Proof.
  intros HX HY Hlen Hcols Hrows Hfin. unfold gower_componentwise_distances.
  assert (Hy : (y < length h)%nat) by (apply nth_error_Some; congruence).
  unfold read at 1. rewrite HX. cbn [bind alloc].
  rewrite length_map. apply Nat.eqb_eq in Hlen as Hlenb. rewrite Hlenb.
  cbn [negb].
  rewrite (read_alloc_old h Xm y HY). cbn [bind].
  apply Nat.eqb_eq in Hcols as Hcolsb. rewrite Hcolsb. cbn [negb].
  fold (not_cat_of xtypes). fold (count (not_cat_of xtypes)).
  rewrite (normalizers_ok Hrows Hfin). cbn [bind].
  rewrite ranges_of_norm, maxes_of_norm. fold (normalized xtypes Xm Ym).
  change (read (h ++ [Xm]) (length h)) with
    (read (snd (alloc h Xm)) (fst (alloc h Xm))).
  rewrite read_alloc. cbn [bind].
  rewrite read_write_other by (rewrite ?app_one_length; lia).
  rewrite (read_alloc_old h Xm y HY). cbn [bind].
  fold (written_Y xtypes Xm Ym).
  rewrite read_write_other
    by (rewrite ?write_length, ?app_one_length; rewrite ?app_one_length; lia).
  rewrite read_write_same by (rewrite ?app_one_length; lia). cbn [bind].
  rewrite read_write_same
    by (rewrite ?write_length, ?app_one_length; rewrite ?app_one_length; lia).
  cbn [bind].
  do 2 eexists. split; [reflexivity|]. split; [|split].
  - apply read_write_same.
    rewrite ?write_length, ?app_one_length; rewrite ?app_one_length; lia.
  - intros l Hl Hne.
    rewrite !read_write_other
      by (rewrite ?write_length, ?app_one_length; rewrite ?app_one_length; lia).
    now apply read_old.
  - intros j HwX HwY Hj Hdeg.
    assert (HlenY : length xtypes = ncols Ym) by congruence.
    pose proof (@degenerate_range_entry xtypes Ym j HwY HlenY Hj Hdeg) as Hr.
    pose proof (nth_negb _ _ Hj) as Hn. fold (not_cat_of xtypes) in Hn.
    pose proof (rank_lt_count _ _ Hn) as Hrk.
    pose proof (nth_in_range _ _ Hj) as Hjr. rewrite length_map in Hjr.
    assert (Hmask : length (not_cat_of xtypes) = length xtypes)
      by (unfold not_cat_of; now rewrite !length_map).
    rewrite !Forall_map. cbn [rows].
    apply Forall_forall. intros r0 Hr0.
    apply in_flat_map in Hr0 as (x & Hx & Hr0).
    apply in_map_iff in Hr0 as (y' & <- & Hy').
    assert (Hlx : length x = length xtypes).
    { revert x Hx. apply Forall_forall.
      apply scattered_rows_length. unfold wf_matrix in HwX.
      revert HwX. apply Forall_impl. intros; congruence. }
    assert (Hly : length y' = length xtypes).
    { revert y' Hy'. apply Forall_forall.
      apply scattered_rows_length. unfold wf_matrix in HwY.
      revert HwY. apply Forall_impl. intros; congruence. }
    set (r0 := map Rabs (row_sub x y')).
    assert (Hl0 : length r0 = length xtypes).
    { unfold r0, row_sub. rewrite length_map, map2_length. lia. }
    set (r1 := scatter (map is_cat xtypes) _ r0).
    assert (Hl1 : length r1 = length xtypes)
      by (unfold r1; now rewrite scatter_length).
    rewrite scatter_hit.
    + now apply divided_entry_zero.
    + exact Hn.
    + lia.
    + rewrite length_map2, select_length by congruence.
      unfold ranges_of. rewrite length_map, length_seq. lia.
Qed.











(** The caller's arrays after a self-mode call: unchanged. *)
Lemma gower_self_frame h X xtypes Xm :
  nth_error h X = Some Xm -> length xtypes = ncols Xm ->
  rows Xm <> [] \/ count (not_cat_of xtypes) = 0%nat ->
  finite32 xtypes Xm ->
  exists out h',
    gower_componentwise_distances h X None xtypes = Ok (out, h')
    /\ forall l, (l < length h)%nat -> read h' l = read h l.
Proof.
  intros HX Hlen Hrows Hfin.
  destruct (@gower_self h X xtypes Xm HX Hlen Hrows Hfin)
    as (D & ij & X_cont & h' & Hrun & Hframe & _).
  now exists (GSelf D ij X_cont), h'.
Qed.

Definition caller_heap : heap := [mk_matrix 1 [[2]]; mk_matrix 1 [[4]]].

(** C9 on the code: called with [y], gower_componentwise_distances
  overwrites the continuous columns of the caller's [y] with their
  normalized values: y = [[4]] is [[4 / 4]] when the call returns. *)
Theorem gower_overwrites_y :
  exists D h',
    gower_componentwise_distances caller_heap 0%nat (Some 1%nat) [FLOAT]
    = Ok (GCross D, h')
    /\ read caller_heap 1%nat = Ok (mk_matrix 1 [[4]])
    /\ read h' 1%nat = Ok (mk_matrix 1 [[4 / 4]])
    /\ read h' 1%nat <> read caller_heap 1%nat.
Proof.
  assert (Hrows : rows (mk_matrix 1 [[4]]) <> []
                  \/ count (not_cat_of [FLOAT]) = 0%nat)
    by (left; discriminate).
  assert (Hfin : finite32 [FLOAT] (mk_matrix 1 [[4]])).
  { unfold finite32. cbn. repeat constructor. apply in_range_4. }
  destruct (@gower_cross caller_heap 0%nat 1%nat [FLOAT]
                         (mk_matrix 1 [[2]]) (mk_matrix 1 [[4]])
                         eq_refl eq_refl eq_refl eq_refl Hrows Hfin)
    as (D & h' & Hrun & Hy & _).
  exists D, h'. split; [exact Hrun|]. split; [reflexivity|].
  assert (Hw : written_Y [FLOAT] (mk_matrix 1 [[2]]) (mk_matrix 1 [[4]])
               = mk_matrix 1 [[4 / 4]]).
  { unfold written_Y, normalized, maxes_of, max_of, cast, not_cat_of,
      count, slice.
    cbn -[round_value]. rewrite round_value_4. unfold divide_where.
    destruct (Req_dec_T 4 0) as [E|_]; [lra|reflexivity]. }
  rewrite Hy, Hw. split; [reflexivity|].
  intros H. injection H as H. lra.
Qed.

End GowerMain.

(** ** The block is a correlation matrix up to the lower bound *)

Module ComposerFacts.
Import Composer DistanceFacts.
Local Open Scope R_scope.

Lemma for_fold_app {A St} (body : St -> A -> result St) l1 l2 s :
  for_fold body (l1 ++ l2) s = (s' <- for_fold body l1 s ;; for_fold body l2 s').
Proof.
  revert s. induction l1 as [|a l1 IH]; intros s; [reflexivity|].
  simpl. destruct (body s a); cbn [bind]; auto.
Qed.

(** *** The loops over [theta_cat] stay inside the slice *)

Lemma theta_inner_ok theta_cat j m Theta_mat v :
  (v + (m - 1) <= length theta_cat)%nat ->
  exists Theta_mat',
    for_fold (theta_body theta_cat j) (seq 0 m) (Theta_mat, v)
    = Ok (Theta_mat', (v + (m - 1))%nat).
Proof.
  induction m as [|m IH]; intros Hv.
  - exists Theta_mat. simpl. now rewrite Nat.add_0_r.
  - destruct IH as [Th Hth]; [lia|].
    rewrite seq_S, for_fold_app, Hth. cbn [bind for_fold Nat.add theta_body].
    destruct m as [|m].
    + rewrite Nat.eqb_refl. eexists. cbn [bind]. reflexivity.
    + replace (j =? S m + j)%nat with false
        by (symmetry; apply Nat.eqb_neq; lia).
      unfold theta_at.
      destruct (nth_error theta_cat (v + (S m - 1))) as [t|] eqn:E.
      * cbn [bind]. eexists. f_equal. f_equal. lia.
      * apply nth_error_None in E. simpl in Hv. lia.
Qed.

Lemma theta_outer_ok theta_cat n m :
  (m <= n)%nat ->
  (length (pairs_upto n m) <= length theta_cat)%nat ->
  exists Theta_mat,
    for_fold (fun st j => for_fold (theta_body theta_cat j) (seq 0 (n - j)) st)
             (seq 0 m) (zeros2, 0%nat)
    = Ok (Theta_mat, length (pairs_upto n m)).
Proof.
  induction m as [|m IH]; intros Hm Hlen.
  - exists zeros2. reflexivity.
  - assert (HS : length (pairs_upto n (S m))
                 = (length (pairs_upto n m) + (n - m - 1))%nat).
    { rewrite pairs_upto_S, length_app, length_map, length_seq. lia. }
    destruct IH as [Th Hth]; [lia|lia|].
    rewrite seq_S, for_fold_app, Hth. cbn [bind for_fold Nat.add].
    destruct (@theta_inner_ok theta_cat m (n - m) Th (length (pairs_upto n m)))
      as [Th' Hth']; [lia|].
    rewrite Hth'. cbn [bind]. exists Th'. f_equal. f_equal. lia.
Qed.

Lemma build_Theta_mat_ok n theta_cat :
  (n * (n - 1) / 2 <= length theta_cat)%nat ->
  exists Theta_mat v, build_Theta_mat n theta_cat = Ok (Theta_mat, v).
Proof.
  intros Hlen. rewrite <- upper_pairs_length in Hlen.
  destruct (@theta_outer_ok theta_cat n n (le_n n) Hlen) as [Th Hth].
  exists Th. eexists. exact Hth.
Qed.

(** *** The closed form of [L] *)

Fixpoint prod_n (n : nat) (f : nat -> R) : R :=
  match n with
  | O => 1
  | S n' => prod_n n' f * f n'
  end.

(** The entry that the loops write at row [i], column [j <= i]. *)
Definition L_entry (Theta_mat : square) (i j : nat) : R :=
  (if (j =? i)%nat then 1 else cos (Theta_mat i j))
  * prod_n j (fun l => sin (Theta_mat i l)).

Lemma upd_same M i j v : upd M i j v i j = v.
Proof. unfold upd. now rewrite !Nat.eqb_refl. Qed.

Lemma sin_loop (Theta_mat L0 : square) r a b init j a' b' :
  fold_left (fun L l => upd L a b (L a b * sin (Theta_mat r l)))
            (seq 0 j) (upd L0 a b init) a' b'
  = upd L0 a b (init * prod_n j (fun l => sin (Theta_mat r l))) a' b'.
Proof.
  revert a' b'. induction j as [|j IH]; intros a' b'.
  - simpl. unfold upd. destruct (_ && _)%bool; [ring|reflexivity].
  - rewrite seq_S, fold_left_app. cbn [fold_left Nat.add].
    unfold upd at 1. destruct ((a' =? a) && (b' =? b))%nat%bool eqn:E.
    + rewrite IH, upd_same. unfold upd. rewrite E. simpl. ring.
    + rewrite IH. unfold upd. now rewrite E.
Qed.

Lemma L_body_entry Theta_mat j L k a b :
  L_body Theta_mat j L k a b
  = upd L (k + j) j (L_entry Theta_mat (k + j) j) a b.
Proof.
  unfold L_body, L_entry. cbv zeta.
  destruct k as [|k].
  - cbn [Nat.add]. rewrite !Nat.eqb_refl.
    destruct (Nat.eqb_spec j 0) as [->|Hj].
    + simpl. unfold upd. destruct (_ && _)%bool; [ring|reflexivity].
    + apply (sin_loop Theta_mat L j j j 1 j a b).
  - replace (j =? S k + j)%nat with false
      by (symmetry; apply Nat.eqb_neq; lia).
    destruct (Nat.eqb_spec j 0) as [->|Hj].
    + rewrite Nat.add_0_r. simpl. unfold upd.
      destruct (_ && _)%bool; [ring|reflexivity].
    + apply (sin_loop Theta_mat L (S k + j) (S k + j) j
                      (cos (Theta_mat (S k + j)%nat j)) j a b).
Qed.

Lemma L_inner Theta_mat j m L a b :
  fold_left (L_body Theta_mat j) (seq 0 m) L a b
  = if ((b =? j) && (j <=? a) && (a <? j + m))%nat%bool
    then L_entry Theta_mat a j else L a b.
Proof.
  revert a b. induction m as [|m IH]; intros a b.
  - simpl. replace (a <? j + 0)%nat with (a <? j)%nat by (f_equal; lia).
    destruct (b =? j)%nat; [|reflexivity].
    destruct (Nat.leb_spec j a), (Nat.ltb_spec a j); try reflexivity; lia.
  - rewrite seq_S, fold_left_app. cbn [fold_left Nat.add].
    rewrite L_body_entry. unfold upd.
    destruct (Nat.eqb_spec a (m + j)) as [->|Ha].
    + destruct (Nat.eqb_spec b j) as [->|Hb]; cbn [andb].
      * replace (j <=? m + j)%nat with true
          by (symmetry; apply Nat.leb_le; lia).
        replace (m + j <? j + S m)%nat with true
          by (symmetry; apply Nat.ltb_lt; lia).
        reflexivity.
      * rewrite IH. destruct (Nat.eqb_spec b j); [contradiction|reflexivity].
    + cbn [andb]. rewrite IH.
      destruct (b =? j)%nat; [|reflexivity]. cbn [andb].
      destruct (j <=? a)%nat; [|reflexivity]. cbn [andb].
      destruct (Nat.ltb_spec a (j + m)), (Nat.ltb_spec a (j + S m));
        try reflexivity; lia.
Qed.

Lemma L_outer Theta_mat n m a b :
  (m <= n)%nat ->
  fold_left (fun L j => fold_left (L_body Theta_mat j) (seq 0 (n - j)) L)
            (seq 0 m) zeros2 a b
  = if ((b <? m) && (b <=? a) && (a <? n))%nat%bool
    then L_entry Theta_mat a b else 0.
Proof.
  revert a b. induction m as [|m IH]; intros a b Hm; [reflexivity|].
  rewrite seq_S, fold_left_app. cbn [fold_left Nat.add].
  rewrite L_inner, IH by lia.
  destruct (Nat.eqb_spec b m) as [->|Hb].
  - replace (m <? m)%nat with false by (symmetry; apply Nat.ltb_ge; lia).
    replace (m <? S m)%nat with true by (symmetry; apply Nat.ltb_lt; lia).
    cbn [andb]. destruct (m <=? a)%nat; [|reflexivity]. cbn [andb].
    replace (m + (n - m))%nat with n by lia. reflexivity.
  - cbn [andb].
    destruct (Nat.ltb_spec b m), (Nat.ltb_spec b (S m)); try reflexivity; lia.
Qed.

Lemma build_L_entry Theta_mat n a b :
  build_L n Theta_mat a b
  = if ((b <=? a) && (a <? n))%nat%bool then L_entry Theta_mat a b else 0.
Proof.
  unfold build_L. rewrite L_outer by lia.
  destruct (Nat.ltb_spec b n) as [H|H]; [reflexivity|]. cbn [andb].
  destruct (Nat.leb_spec b a), (Nat.ltb_spec a n); try reflexivity; lia.
Qed.

(** *** Finite sums *)

Lemma sum_n_ext n f g :
  (forall c, (c < n)%nat -> f c = g c) -> sum_n n f = sum_n n g.
Proof.
  induction n as [|n IH]; intros H; [reflexivity|].
  simpl. rewrite IH, H by (intros; apply H; lia) || lia. reflexivity.
Qed.

Lemma sum_n_plus n f g :
  sum_n n (fun c => f c + g c) = sum_n n f + sum_n n g.
Proof. induction n as [|n IH]; simpl; [ring|rewrite IH; ring]. Qed.

Lemma sum_n_scal n a f : sum_n n (fun c => a * f c) = a * sum_n n f.
Proof. induction n as [|n IH]; simpl; [ring|rewrite IH; ring]. Qed.

Lemma sum_n_zero n f : (forall c, (c < n)%nat -> f c = 0) -> sum_n n f = 0.
Proof.
  induction n as [|n IH]; intros H; [reflexivity|].
  simpl. rewrite IH, H by (intros; apply H; lia) || lia. ring.
Qed.

Lemma sum_n_nonneg n f : (forall c, (c < n)%nat -> 0 <= f c) -> 0 <= sum_n n f.
Proof.
  induction n as [|n IH]; intros H; simpl; [lra|].
  pose proof (H n ltac:(lia)). pose proof (IH ltac:(intros; apply H; lia)). lra.
Qed.

Lemma sum_n_swap n m (f : nat -> nat -> R) :
  sum_n n (fun i => sum_n m (fun j => f i j))
  = sum_n m (fun j => sum_n n (fun i => f i j)).
Proof.
  induction n as [|n IH]; simpl.
  - symmetry. now apply sum_n_zero.
  - rewrite IH, <- sum_n_plus. reflexivity.
Qed.

(** A sum whose terms vanish from [m] on. *)
Lemma sum_n_cut n m f :
  (m <= n)%nat -> (forall c, (m <= c < n)%nat -> f c = 0) ->
  sum_n n f = sum_n m f.
Proof.
  intros Hm. induction n as [|n IH]; intros H.
  - now replace m with 0%nat by lia.
  - destruct (Nat.eq_dec m (S n)) as [->|Hne]; [reflexivity|].
    simpl. rewrite IH, H by (intros; apply H; lia) || lia. ring.
Qed.

(** *** The rows of [L] are unit vectors *)

Lemma hypersphere (c s : nat -> R) m :
  (forall l, c l * c l + s l * s l = 1) ->
  sum_n m (fun j => (c j * prod_n j s) * (c j * prod_n j s))
  + prod_n m s * prod_n m s = 1.
Proof.
  intros H. induction m as [|m IH]; simpl; [ring|].
  rewrite <- IH at 1.
  transitivity (sum_n m (fun j => c j * prod_n j s * (c j * prod_n j s))
                + prod_n m s * prod_n m s * (c m * c m + s m * s m));
    [ring|rewrite (H m); ring].
Qed.

Lemma cos_sin_unit x : cos x * cos x + sin x * sin x = 1.
Proof. pose proof (sin2_cos2 x) as H. unfold Rsqr in H. lra. Qed.

Lemma L_row_norm Theta_mat n a :
  (a < n)%nat ->
  sum_n n (fun c => build_L n Theta_mat a c * build_L n Theta_mat a c) = 1.
Proof.
  intros Ha.
  rewrite (@sum_n_cut n (S a)); [|lia|].
  2:{ intros c Hc. rewrite build_L_entry.
      replace (c <=? a)%nat with false by (symmetry; apply Nat.leb_gt; lia).
      cbn [andb]. ring. }
  cbn [sum_n].
  rewrite <- (@hypersphere (fun l => cos (Theta_mat a l))
                           (fun l => sin (Theta_mat a l)) a)
    by (intros; apply cos_sin_unit).
  f_equal.
  - apply sum_n_ext. intros c Hc. rewrite build_L_entry. unfold L_entry.
    replace (c <=? a)%nat with true by (symmetry; apply Nat.leb_le; lia).
    replace (a <? n)%nat with true by (symmetry; apply Nat.ltb_lt; lia).
    replace (c =? a)%nat with false by (symmetry; apply Nat.eqb_neq; lia).
    reflexivity.
  - rewrite build_L_entry. unfold L_entry.
    rewrite Nat.leb_refl, Nat.eqb_refl.
    replace (a <? n)%nat with true by (symmetry; apply Nat.ltb_lt; lia).
    cbn [andb]. ring.
Qed.

(** *** The Gram matrix [T = L L^T] *)

Lemma gram_sym n L a b : gram n L a b = gram n L b a.
Proof. unfold gram. apply sum_n_ext. intros; ring. Qed.

Lemma gram_diag Theta_mat n a :
  (a < n)%nat -> gram n (build_L n Theta_mat) a a = 1.
Proof. intros Ha. unfold gram. now apply L_row_norm. Qed.

Lemma dot_bounds n (x y : nat -> R) :
  sum_n n (fun c => x c * x c) = 1 -> sum_n n (fun c => y c * y c) = 1 ->
  -1 <= sum_n n (fun c => x c * y c) <= 1.
Proof.
  intros Hx Hy.
  assert (Hp : 0 <= sum_n n (fun c => (x c + y c) * (x c + y c)))
    by (apply sum_n_nonneg; intros; apply Rle_0_sqr).
  assert (Hm : 0 <= sum_n n (fun c => (x c - y c) * (x c - y c)))
    by (apply sum_n_nonneg; intros; apply Rle_0_sqr).
  rewrite (sum_n_ext _ (fun c => (x c * x c + y c * y c) + 2 * (x c * y c)))
    in Hp by (intros; ring).
  rewrite (sum_n_ext _ (fun c => (x c * x c + y c * y c) + -2 * (x c * y c)))
    in Hm by (intros; ring).
  rewrite !sum_n_plus, !sum_n_scal, Hx, Hy in Hp, Hm. lra.
Qed.

Lemma gram_bounds Theta_mat n a b :
  (a < n)%nat -> (b < n)%nat ->
  -1 <= gram n (build_L n Theta_mat) a b <= 1.
Proof.
  intros Ha Hb. unfold gram. apply dot_bounds; now apply L_row_norm.
Qed.

(** *** The bounded exponential transform *)

Lemma transform_value lower bound T a b :
  transform lower bound T a b
  = exp (- lower) / (1 + exp (- bound))
    * (exp (bound * (T a b - 1)) + exp (- bound)).
Proof.
  unfold transform.
  replace (2 * ((T a b - 1) * bound / 2)) with (bound * (T a b - 1)) by field.
  pose proof (exp_pos (- bound)). pose proof (exp_pos (- lower)).
  field. split; lra.
Qed.

Lemma transform_diag lower bound T a :
  T a a = 1 -> transform lower bound T a a = exp (- lower).
Proof.
  intros H. rewrite transform_value, H.
  replace (bound * (1 - 1)) with 0 by ring. rewrite exp_0.
  pose proof (exp_pos (- bound)). field. lra.
Qed.

Lemma exp_mono x y : x <= y -> exp x <= exp y.
Proof.
  intros [H|H]; [left; now apply exp_increasing|right; now rewrite H].
Qed.

Lemma transform_bounds lower bound T a b :
  0 <= bound -> -1 <= T a b <= 1 ->
  exp (- lower) * exp (- bound) <= transform lower bound T a b <= exp (- lower).
Proof.
  intros Hb [Hl Hu]. rewrite transform_value.
  pose proof (exp_pos (- bound)) as Pb. pose proof (exp_pos (- lower)) as Pl.
  assert (Hhi : exp (bound * (T a b - 1)) <= 1).
  { apply Rle_trans with (exp 0); [apply exp_mono; nra|rewrite exp_0; lra]. }
  assert (Hlo : exp (- bound) * exp (- bound) <= exp (bound * (T a b - 1))).
  { rewrite <- exp_plus. apply exp_mono. nra. }
  set (E := exp (bound * (T a b - 1))) in *.
  set (q := exp (- bound)) in *. set (p := exp (- lower)) in *.
  assert (Hq : 0 < 1 + q) by lra.
  split.
  - apply Rmult_le_reg_r with (1 + q); [exact Hq|].
    replace (p / (1 + q) * (E + q) * (1 + q)) with (p * (E + q))
      by (field; lra).
    nra.
  - apply Rmult_le_reg_r with (1 + q); [exact Hq|].
    replace (p / (1 + q) * (E + q) * (1 + q)) with (p * (E + q))
      by (field; lra).
    nra.
Qed.

(** *** Positive semi-definiteness *)

(** The quadratic form [x^T M x] over the first [n] indices. *)
Definition quad (n : nat) (x : nat -> R) (M : square) : R :=
  sum_n n (fun i => sum_n n (fun j => x i * x j * M i j)).

Lemma quad_ext n x M N :
  (forall i j, (i < n)%nat -> (j < n)%nat -> M i j = N i j) ->
  quad n x M = quad n x N.
Proof.
  intros H. unfold quad. apply sum_n_ext. intros i Hi.
  apply sum_n_ext. intros j Hj. now rewrite H.
Qed.

Lemma quad_scal n x a M :
  quad n x (fun i j => a * M i j) = a * quad n x M.
Proof.
  unfold quad. rewrite <- sum_n_scal. apply sum_n_ext. intros i _.
  rewrite <- sum_n_scal. apply sum_n_ext. intros j _. ring.
Qed.

Lemma quad_plus n x M N :
  quad n x (fun i j => M i j + N i j) = quad n x M + quad n x N.
Proof.
  unfold quad. rewrite <- sum_n_plus. apply sum_n_ext. intros i _.
  rewrite <- sum_n_plus. apply sum_n_ext. intros j _. ring.
Qed.

Lemma quad_ones n x : quad n x (fun _ _ => 1) = sum_n n x * sum_n n x.
Proof.
  unfold quad. rewrite <- sum_n_scal. apply sum_n_ext. intros i _.
  rewrite (Rmult_comm (sum_n n x)), <- sum_n_scal.
  apply sum_n_ext. intros j _. ring.
Qed.

(** Schur: every entrywise power of a Gram matrix is positive
  semi-definite. *)
Lemma gram_power_psd n L k :
  forall x, 0 <= quad n x (fun i j => gram n L i j ^ k).
Proof.
  induction k as [|k IH]; intros x.
  - simpl. rewrite quad_ones. apply Rle_0_sqr.
  - assert (E : quad n x (fun i j => gram n L i j ^ S k)
                = sum_n n (fun c => quad n (fun i => x i * L i c)
                                         (fun i j => gram n L i j ^ k))).
    { unfold quad.
      transitivity
        (sum_n n (fun i => sum_n n (fun c => sum_n n (fun j =>
           x i * L i c * (x j * L j c) * gram n L i j ^ k)))).
      - apply sum_n_ext. intros i _. rewrite sum_n_swap.
        apply sum_n_ext. intros j _.
        rewrite (sum_n_ext _ (fun c => (x i * x j * gram n L i j ^ k)
                                       * (L i c * L j c)))
          by (intros; ring).
        rewrite sum_n_scal.
        change (sum_n n (fun c => L i c * L j c)) with (gram n L i j).
        rewrite <- tech_pow_Rmult. ring.
      - now rewrite sum_n_swap. }
    rewrite E. apply sum_n_nonneg. intros c _. apply IH.
Qed.

(** The partial sums of the exponential series. *)
Definition exp_partial (N : nat) (y : R) : R :=
  sum_n (S N) (fun k => / INR (fact k) * y ^ k).

Lemma sum_f_R0_sum_n f N : sum_f_R0 f N = sum_n (S N) f.
Proof. induction N as [|N IH]; simpl; [ring|rewrite IH; reflexivity]. Qed.

Lemma exp_partial_cv y : Un_cv (fun N => exp_partial N y) (exp y).
Proof.
  unfold exp. destruct (exist_exp y) as [l Hl]. cbn [proj1_sig].
  intros eps Heps. destruct (Hl eps Heps) as [N0 HN]. exists N0.
  intros N HNge. unfold exp_partial. rewrite <- sum_f_R0_sum_n.
  now apply HN.
Qed.

Lemma cv_const c : Un_cv (fun _ => c) c.
Proof.
  intros eps Heps. exists 0%nat. intros n _.
  unfold R_dist. rewrite Rminus_diag, Rabs_R0. exact Heps.
Qed.

Lemma cv_scal c u l : Un_cv u l -> Un_cv (fun N => c * u N) (c * l).
Proof. intros H. apply (CV_mult (fun _ => c) u c l (cv_const c) H). Qed.

Lemma cv_sum_n n (u : nat -> nat -> R) (l : nat -> R) :
  (forall i, (i < n)%nat -> Un_cv (fun N => u N i) (l i)) ->
  Un_cv (fun N => sum_n n (u N)) (sum_n n l).
Proof.
  induction n as [|n IH]; intros H; simpl; [apply cv_const|].
  apply (CV_plus (fun N => sum_n n (u N)) (fun N => u N n)).
  - apply IH. intros; apply H; lia.
  - apply H. lia.
Qed.

Lemma cv_nonneg u l : (forall N, 0 <= u N) -> Un_cv u l -> 0 <= l.
Proof.
  intros Hu Hcv. destruct (Rle_lt_dec 0 l) as [H|H]; [exact H|].
  destruct (Hcv (- l) ltac:(lra)) as [N HN].
  specialize (HN N (le_n N)). specialize (Hu N).
  unfold R_dist in HN. apply Rabs_def2 in HN. lra.
Qed.

Lemma quad_exp_partial n x L bound N :
  0 <= bound ->
  0 <= quad n x (fun i j => exp_partial N (bound * gram n L i j)).
Proof.
  intros Hb.
  assert (E : quad n x (fun i j => exp_partial N (bound * gram n L i j))
              = sum_n (S N) (fun k => / INR (fact k) * bound ^ k
                                      * quad n x (fun i j => gram n L i j ^ k))).
  { unfold quad, exp_partial.
    transitivity
      (sum_n n (fun i => sum_n (S N) (fun k => sum_n n (fun j =>
         / INR (fact k) * bound ^ k * (x i * x j * gram n L i j ^ k))))).
    - apply sum_n_ext. intros i _. rewrite sum_n_swap.
      apply sum_n_ext. intros j _. rewrite <- sum_n_scal.
      apply sum_n_ext. intros k _. rewrite Rpow_mult_distr. ring.
    - rewrite sum_n_swap. apply sum_n_ext. intros k _.
      rewrite <- sum_n_scal. apply sum_n_ext. intros i _.
      now rewrite <- sum_n_scal. }
  rewrite E. apply sum_n_nonneg. intros k _.
  apply Rmult_le_pos; [apply Rmult_le_pos|apply gram_power_psd].
  - left. apply Rinv_0_lt_compat, INR_fact_lt_0.
  - now apply pow_le.
Qed.

Lemma quad_exp_psd n x L bound :
  0 <= bound -> 0 <= quad n x (fun i j => exp (bound * gram n L i j)).
Proof.
  intros Hb.
  apply (@cv_nonneg
           (fun N => quad n x (fun i j => exp_partial N (bound * gram n L i j)))).
  - intros N. now apply quad_exp_partial.
  - unfold quad.
    apply (@cv_sum_n n
             (fun N i => sum_n n (fun j =>
                x i * x j * exp_partial N (bound * gram n L i j)))
             (fun i => sum_n n (fun j =>
                x i * x j * exp (bound * gram n L i j)))).
    intros i _.
    apply (@cv_sum_n n
             (fun N j => x i * x j * exp_partial N (bound * gram n L i j))
             (fun j => x i * x j * exp (bound * gram n L i j))).
    intros j _. apply cv_scal, exp_partial_cv.
Qed.

Lemma transform_psd lower bound n L x :
  0 <= bound -> 0 <= quad n x (transform lower bound (gram n L)).
Proof.
  intros Hb.
  pose proof (exp_pos (- bound)) as Pb. pose proof (exp_pos (- lower)) as Pl.
  rewrite (@quad_ext n x _
             (fun i j => exp (- lower) / (1 + exp (- bound)) * exp (- bound)
                         * (exp (bound * gram n L i j) + 1))).
  - rewrite quad_scal, quad_plus, quad_ones.
    apply Rmult_le_pos.
    + apply Rmult_le_pos; [|lra].
      apply Rmult_le_pos; [lra|].
      left. apply Rinv_0_lt_compat. lra.
    + pose proof (@quad_exp_psd n x L bound Hb).
      pose proof (Rle_0_sqr (sum_n n x)) as Hs. unfold Rsqr in Hs. lra.
  - intros i j _ _. rewrite transform_value.
    replace (bound * (gram n L i j - 1)) with (bound * gram n L i j + - bound)
      by ring.
    rewrite exp_plus. ring.
Qed.

(** *** The block that the composer builds *)

(** The number of entries of theta that a factor with [n] levels owns. *)
Definition slice_length (kernel : cat_kernel) (n : nat) : nat :=
  match kernel with
  | FULL_GAUSSIAN => (n * (n + 1) / 2)%nat
  | HOMO_GAUSSIAN => (n * (n - 1) / 2)%nat
  | GOWER => 0%nat
  end.

(** The scaled angles, where the bound is not zero. *)
Definition scaled_angles (kernel : cat_kernel) (bound : R) (nlevels : nat)
    (theta_cat : list R) : list R :=
  let scale := fun x => x * (1 / 2 * PI / bound) in
  match kernel with
  | FULL_GAUSSIAN =>
      let m := if (nlevels =? 0)%nat then 0%nat
               else (length theta_cat - nlevels)%nat in
      map scale (firstn m theta_cat) ++ skipn m theta_cat
  | HOMO_GAUSSIAN => map scale theta_cat
  | GOWER => theta_cat
  end.

Lemma scale_angles_ok kernel bound n theta_cat :
  bound <> 0 ->
  scale_angles kernel bound n theta_cat
  = Ok (scaled_angles kernel bound n theta_cat).
Proof.
  intros Hb. unfold scale_angles, scaled_angles, Gower.safe_div.
  destruct kernel; [reflexivity| |];
    destruct (Req_dec_T bound 0); [contradiction| |contradiction|];
    reflexivity.
Qed.

(** With a zero bound the scaling divides by zero. *)
Lemma scale_angles_zero_bound kernel n theta_cat :
  kernel <> GOWER ->
  scale_angles kernel 0 n theta_cat = Raise ZeroDivisionError.
Proof.
  intros Hk. unfold scale_angles, Gower.safe_div.
  destruct kernel; [contradiction| |];
    destruct (Req_dec_T 0 0); try reflexivity; lra.
Qed.

Lemma scale_angles_length kernel bound n theta_cat :
  length (scaled_angles kernel bound n theta_cat) = length theta_cat.
Proof.
  destruct kernel; cbn [scaled_angles]; [reflexivity|apply length_map|].
  rewrite length_app, length_map, length_firstn, length_skipn. lia.
Qed.

Lemma slice_length_enough kernel n :
  kernel <> GOWER -> (n * (n - 1) / 2 <= slice_length kernel n)%nat.
Proof.
  destruct kernel; intros H; [contradiction|apply le_n|].
  cbn [slice_length]. apply Nat.Div0.div_le_mono. nia.
Qed.

Lemma cat_block_gram kernel lower bound n theta_cat :
  kernel <> GOWER -> length theta_cat = slice_length kernel n ->
  bound <> 0 ->
  exists Theta_mat,
    cat_block kernel lower bound n theta_cat
    = Ok (transform lower bound (gram n (build_L n Theta_mat))).
Proof.
  intros Hk Hlen Hb. unfold cat_block.
  rewrite (scale_angles_ok kernel n theta_cat Hb). cbn [bind].
  destruct (@build_Theta_mat_ok n (scaled_angles kernel bound n theta_cat))
    as (Th & v & H).
  - rewrite scale_angles_length, Hlen. now apply slice_length_enough.
  - rewrite H. cbn [bind]. now exists Th.
Qed.

(** With [theta_bounds[1] = 0] no block is built. *)
Lemma cat_block_zero_bound kernel lower n theta_cat :
  kernel <> GOWER ->
  cat_block kernel lower 0 n theta_cat = Raise ZeroDivisionError.
Proof.
  intros Hk. unfold cat_block.
  now rewrite (scale_angles_zero_bound n theta_cat Hk).
Qed.

(** C1, as the code has it: for a factor with [n] levels, a theta slice
  of the layout's length and a positive upper bound [theta_bounds[1]]
  (with the bound 0 the scaling of the angles divides by zero), the block
  [T] left by the bounded exponential transform is symmetric, has the constant diagonal [exp (- lower)]
  where [lower = theta_bounds[0]], has every entry in
  [[exp (- lower) * exp (- bound), exp (- lower)]], and is positive
  semi-definite; with [theta_bounds[0] = 0] this is the unit diagonal and
  the interval [[exp (- bound), 1]] of the claim.  The composer never
  reads the diagonal of [T]: it uses 1 for equal levels. *)
Theorem categorical_block_properties (kernel : cat_kernel) (lower bound : R)
    (n : nat) (theta_cat : list R) :
  kernel <> GOWER ->
  length theta_cat = slice_length kernel n ->
  0 < bound ->
  exists T,
    cat_block kernel lower bound n theta_cat = Ok T
    /\ (forall i j, (i < n)%nat -> (j < n)%nat -> T i j = T j i)
    /\ (forall i, (i < n)%nat -> T i i = exp (- lower))
    /\ (forall i j, (i < n)%nat -> (j < n)%nat ->
                    exp (- lower) * exp (- bound) <= T i j <= exp (- lower))
    /\ (forall x, 0 <= quad n x T)
    /\ (lower = 0 ->
        (forall i, (i < n)%nat -> T i i = 1)
        /\ (forall i j, (i < n)%nat -> (j < n)%nat ->
                        exp (- bound) <= T i j <= 1))
    /\ (forall th prev i, r_cat_entry kernel n th T prev i i = Ok 1).
Proof.
  intros Hk Hlen Hpos.
  assert (Hb : 0 <= bound) by lra.
  destruct (@cat_block_gram kernel lower bound n theta_cat Hk Hlen
              ltac:(lra)) as [Th HT].
  eexists. split; [exact HT|].
  assert (Hsym : forall i j,
             transform lower bound (gram n (build_L n Th)) i j
             = transform lower bound (gram n (build_L n Th)) j i).
  { intros i j. rewrite !transform_value. now rewrite (gram_sym n _ i j). }
  assert (Hdiag : forall i, (i < n)%nat ->
             transform lower bound (gram n (build_L n Th)) i i = exp (- lower)).
  { intros i Hi. apply transform_diag. now apply gram_diag. }
  assert (Hbnd : forall i j, (i < n)%nat -> (j < n)%nat ->
             exp (- lower) * exp (- bound)
             <= transform lower bound (gram n (build_L n Th)) i j
             <= exp (- lower)).
  { intros i j Hi Hj. apply transform_bounds; [exact Hb|].
    now apply gram_bounds. }
  split; [intros; apply Hsym|]. split; [exact Hdiag|]. split; [exact Hbnd|].
  split; [intros x; now apply transform_psd|]. split.
  - intros ->. split.
    + intros i Hi. rewrite Hdiag by exact Hi. now rewrite Ropp_0, exp_0.
    + intros i j Hi Hj. specialize (Hbnd i j Hi Hj).
      rewrite Ropp_0, exp_0 in Hbnd. lra.
  - intros th prev i. unfold r_cat_entry. now rewrite Nat.eqb_refl.
Qed.

Lemma categorical_block_properties_witness :
  exists T,
    cat_block HOMO_GAUSSIAN 0 20 3 [1; 2; 3] = Ok T
    /\ (forall i j, (i < 3)%nat -> (j < 3)%nat -> T i j = T j i)
    /\ (forall i, (i < 3)%nat -> T i i = exp (- 0))
    /\ (forall i j, (i < 3)%nat -> (j < 3)%nat ->
                    exp (- 0) * exp (- 20) <= T i j <= exp (- 0))
    /\ (forall x, 0 <= quad 3 x T)
    /\ (0 = 0 ->
        (forall i, (i < 3)%nat -> T i i = 1)
        /\ (forall i j, (i < 3)%nat -> (j < 3)%nat ->
                        exp (- 20) <= T i j <= 1))
    /\ (forall th prev i, r_cat_entry HOMO_GAUSSIAN 3 th T prev i i = Ok 1).
Proof.
  apply (@categorical_block_properties HOMO_GAUSSIAN 0 20 3 [1; 2; 3]).
  - discriminate.
  - reflexivity.
  - lra.
Defined.

(** The claim as written fails on the diagonal: with theta_bounds = (1, 2),
  two levels and the angle 1, the diagonal of [T] is exp (-1), not 1. *)
Lemma categorical_block_counterexample :
  Forall (fun t => 1 <= t <= 2) [1]
  /\ exists T,
      cat_block HOMO_GAUSSIAN 1 2 2 [1] = Ok T /\ T 0%nat 0%nat <> 1.
Proof.
  split; [repeat constructor; lra|].
  destruct (@cat_block_gram HOMO_GAUSSIAN 1 2 2 [1]) as [Th HT];
    [discriminate|reflexivity|lra|].
  eexists. split; [exact HT|].
  rewrite transform_diag by (apply gram_diag; lia).
  pose proof (exp_increasing (- (1)) 0 ltac:(lra)) as H. rewrite exp_0 in H. lra.
Qed.

End ComposerFacts.

(** ** differences and the cross mode of the distance engine *)

Module DifferencesFacts.
Import Distance DistanceFacts.

Lemma map_flat_map {A B C} (f : B -> C) (g : A -> list B) (l : list A) :
  map f (flat_map g l) = flat_map (fun a => map f (g a)) l.
Proof. induction l; simpl; [reflexivity|]. now rewrite map_app, IHl. Qed.

Lemma flat_map_of_map {A B C} (f : A -> B) (g : B -> list C) (l : list A) :
  flat_map g (map f l) = flat_map (fun a => g (f a)) l.
Proof. induction l; simpl; congruence. Qed.

Lemma nth_seq_all {A} (l : list A) (d : A) :
  map (fun j => nth j l d) (seq 0 (length l)) = l.
Proof.
  rewrite <- (Nat.sub_0_r (length l)), <- slice_nth_seq.
  unfold slice. simpl. rewrite Nat.sub_0_r. apply firstn_all.
Qed.

(** The rows of the dense difference tensor, in the order of the pairs. *)
Lemma differences_rows X Y :
  flat_map (fun x => map (fun y => row_sub x y) (rows Y)) (rows X)
  = map (diff_of X Y) (all_pairs (nrows X) (nrows Y)).
Proof.
  unfold all_pairs. rewrite map_flat_map.
  rewrite <- (nth_seq_all (rows X) []) at 1.
  rewrite flat_map_of_map. apply flat_map_ext. intros i.
  rewrite map_map. rewrite <- (nth_seq_all (rows Y) []) at 1.
  rewrite map_map. reflexivity.
Qed.

(** For point sets with at least one column, differences and the cross
    mode of cross_distances fail on the same inputs and return the same
    array of differences, row for row, on the others. *)
Theorem differences_is_cross_mode (X Y : matrix) :
  0 < ncols X ->
  differences X Y
  = ('(D, _) <- cross_distances X (Some Y) ;; Ok D).
Proof.
  intros _. unfold differences.
  destruct (Nat.eq_dec (ncols X) (ncols Y)) as [Hc|Hc].
  - rewrite (cross_mode_result X Y Hc). unfold check_pairwise_arrays.
    apply Nat.eqb_eq in Hc. rewrite Hc. cbn [bind]. f_equal.
    rewrite differences_rows, all_pairs_div_mod, map_map. reflexivity.
  - unfold cross_distances, check_pairwise_arrays.
    apply Nat.eqb_neq in Hc. rewrite Hc. reflexivity.
Qed.

Lemma differences_is_cross_mode_witness :
  differences (mk_matrix 2 [[1; 2]; [0; 1]]%R) (mk_matrix 2 [[3; 4]]%R)
  = ('(D, _) <- cross_distances (mk_matrix 2 [[1; 2]; [0; 1]]%R)
                                (Some (mk_matrix 2 [[3; 4]]%R)) ;; Ok D).
Proof.
  apply differences_is_cross_mode. cbn. lia.
Defined.

End DifferencesFacts.

(** ** From signed differences to correlations *)

Module PipelineFacts.
Import Kernels KernelFacts Componentwise LoopFacts.
Local Open Scope R_scope.

(** The keys of [_correlation_types]. *)
Definition name_of (k : kernel) : string :=
  match k with
  | K_abs_exp => "abs_exp"
  | K_squar_exp => "squar_exp"
  | K_matern52 => "matern52"
  | K_matern32 => "matern32"
  | K_act_exp => "act_exp"
  end.

Lemma broadcast_nonneg dim v : nonneg v -> nonneg (broadcast_to dim v).
Proof.
  intros Hv. unfold broadcast_to. destruct (_ =? _)%nat; [exact Hv|].
  apply Forall_forall. intros x Hx. apply repeat_spec in Hx. subst x.
  destruct Hv; simpl; lra.
Qed.

Lemma distance_nonneg k drow :
  k <> K_act_exp -> nonneg (map (distance_of (name_of k)) drow).
Proof.
  intros Hk. unfold nonneg. rewrite Forall_map. apply Forall_forall.
  intros x _. destruct k; cbn; try apply Rabs_pos; [|congruence].
  apply pow2_ge_0.
Qed.

Lemma componentwise_value fuel D corr theta :
  (nrows D / nb_limit + 1 < fuel)%nat ->
  componentwise_distance fuel D corr (ncols D) theta false
  = Ok (map (fun drow => broadcast_to (ncols D) (map (distance_of corr) drow))
            (rows D)).
Proof.
  intros Hf. unfold componentwise_distance, fits. cbn [negb].
  rewrite Nat.eqb_refl. cbn [orb].
  now rewrite value_loop_result by exact Hf.
Qed.

(** The kernel applied to what componentwise_distance returns: a
    correlation in (0, 1] for every pair, whatever the signs in D. *)
Theorem kernel_of_componentwise_distance (k : kernel) (theta : list R)
    (D : matrix) (fuel : nat) :
  (nrows D / nb_limit + 1 < fuel)%nat ->
  shape_ok k theta D ->
  k = K_act_exp \/ nonneg theta ->
  exists D_corr r,
    componentwise_distance fuel D (name_of k) (ncols D) None false = Ok D_corr
    /\ run nb_limit fuel k theta (mk_matrix (ncols D) D_corr) None None
       = Ok (Corr r)
    /\ length r = nrows D
    /\ unit_interval r
    /\ (wf_matrix D ->
        D_corr = map (map (distance_of (name_of k))) (rows D)).
Proof.
  intros Hf Hs Ht. eexists. eexists.
  split; [apply componentwise_value, Hf|].
  split.
  { apply run_value; [apply nb_limit_pos| |].
    - unfold nrows. cbn [rows]. rewrite length_map. exact Hf.
    - destruct k; exact Hs. }
  cbn [rows ncols]. split; [now rewrite !length_map|].
  split.
  2:{ intros Hw. apply map_ext_in. intros drow Hin.
      unfold broadcast_to. rewrite length_map.
      unfold wf_matrix in Hw. rewrite Forall_forall in Hw.
      rewrite (Hw drow Hin), Nat.eqb_refl. reflexivity. }
  unfold unit_interval. rewrite !Forall_map. apply Forall_forall.
  intros drow _. apply value_row_unit.
  destruct Ht as [->|Ht]; [now left|].
  destruct k; try (now left); right;
    (split; [exact Ht|apply broadcast_nonneg, distance_nonneg; discriminate]).
Qed.

Lemma kernel_of_componentwise_distance_witness :
  exists D_corr r,
    componentwise_distance 2 three_rows "matern52" 2 None false = Ok D_corr
    /\ run nb_limit 2 K_matern52 [1; 2] (mk_matrix 2 D_corr) None None
       = Ok (Corr r)
    /\ length r = 3%nat
    /\ unit_interval r
    /\ (wf_matrix three_rows -> D_corr = map (map Rabs) (rows three_rows)).
Proof.
  apply (@kernel_of_componentwise_distance K_matern52 [1; 2] three_rows 2).
  - apply Nat.ltb_lt. vm_compute. reflexivity.
  - reflexivity.
  - right. repeat constructor; lra.
Defined.

Lemma rsum_map2_nonneg {A B} (g : A -> B -> R) l m :
  (forall a b, In a l -> In b m -> 0 <= g a b) -> 0 <= rsum (map2 g l m).
Proof.
  revert m. induction l as [|a l IH]; intros [|b m] H; simpl; try lra.
  assert (0 <= g a b) by (apply H; now left).
  assert (0 <= rsum (map2 g l m)) by (apply IH; intros; apply H; now right).
  lra.
Qed.

Lemma nth_nonneg l c : nonneg l -> 0 <= nth c l 0.
Proof.
  intros H. revert c. induction H; intros [|c]; simpl; auto; lra.
Qed.

Lemma dot_row_nonneg v M c :
  nonneg v -> Forall nonneg M -> nonneg (dot_row v M c).
Proof.
  intros Hv HM. unfold dot_row, nonneg. rewrite Forall_map.
  apply Forall_forall. intros l _. apply rsum_map2_nonneg.
  intros x crow Hx Hc. unfold nonneg in Hv. rewrite Forall_forall in Hv, HM.
  apply Rmult_le_pos; [now apply Hv|]. apply nth_nonneg. now apply HM.
Qed.

Lemma pls_distance_nonneg corr drow coeff c :
  let f := if (corr =? "squar_exp")%string then (fun x => x ^ 2) else Rabs in
  nonneg (dot_row (map f drow) (map (map f) coeff) c).
Proof.
  intros f.
  assert (Hf : forall x, 0 <= f x).
  { intros x. subst f. destruct (_ =? _)%string;
      [apply pow2_ge_0|apply Rabs_pos]. }
  apply dot_row_nonneg.
  - unfold nonneg. rewrite Forall_map. apply Forall_forall. auto.
  - rewrite Forall_map. apply Forall_forall. intros crow _.
    unfold nonneg. rewrite Forall_map. apply Forall_forall. auto.
Qed.

(** The same for the PLS distance: whatever the signs of D and of the PLS
    coefficients, a kernel with non-negative theta gives a correlation in
    (0, 1] on what componentwise_distance_PLS returns. *)
Theorem kernel_of_componentwise_distance_PLS (k : kernel) (theta : list R)
    (D coeff_pls : matrix) (corr : string) (n_comp fuel : nat) :
  (nrows D / nb_limit + 1 < fuel)%nat ->
  ncols D = nrows coeff_pls ->
  fits (ncols coeff_pls) n_comp = true ->
  k <> K_act_exp -> length theta = n_comp -> nonneg theta ->
  exists D_corr r,
    componentwise_distance_PLS fuel D corr n_comp coeff_pls = Ok D_corr
    /\ run nb_limit fuel k theta (mk_matrix n_comp D_corr) None None
       = Ok (Corr r)
    /\ length r = nrows D
    /\ unit_interval r.
Proof.
  intros Hf Hd Hs Hk Hl Ht. eexists. eexists.
  unfold componentwise_distance_PLS, componentwise_distance_PLS_loop.
  apply Nat.eqb_eq in Hd. rewrite Hd, Hs. cbn [negb].
  rewrite value_loop_result by exact Hf. cbn [bind].
  split; [reflexivity|]. split.
  { apply run_value; [apply nb_limit_pos| |].
    - unfold nrows. cbn [rows]. rewrite length_map. exact Hf.
    - destruct k; try exact Hl. congruence. }
  cbn [rows ncols]. split; [now rewrite !length_map|].
  unfold unit_interval. rewrite !Forall_map. apply Forall_forall.
  intros drow _. apply value_row_unit. right. split; [exact Ht|].
  apply broadcast_nonneg, pls_distance_nonneg.
Qed.

Lemma kernel_of_componentwise_distance_PLS_witness :
  exists D_corr r,
    componentwise_distance_PLS 2 three_rows "squar_exp" 1
                               (mk_matrix 1 [[-1]; [2]]) = Ok D_corr
    /\ run nb_limit 2 K_squar_exp [3] (mk_matrix 1 D_corr) None None
       = Ok (Corr r)
    /\ length r = 3%nat
    /\ unit_interval r.
Proof.
  apply (@kernel_of_componentwise_distance_PLS K_squar_exp [3] three_rows
           (mk_matrix 1 [[-1]; [2]]) "squar_exp" 1 2).
  - apply Nat.ltb_lt. vm_compute. reflexivity.
  - reflexivity.
  - reflexivity.
  - discriminate.
  - reflexivity.
  - repeat constructor; lra.
Defined.

End PipelineFacts.

(** ** The gradient and Hessian modes are derivatives *)

Module GradientFacts.
Import Kernels KernelFacts.
Local Open Scope R_scope.

(** *** A small calculus of limits of difference quotients *)

Lemma dlim_ext (f g : R -> R) x l l' :
  (forall t, f t = g t) -> l = l' ->
  derivable_pt_lim f x l -> derivable_pt_lim g x l'.
Proof.
  intros Hfg <- Hf eps Heps. destruct (Hf eps Heps) as [delta Hd].
  exists delta. intros h Hh Hlt. rewrite <- !Hfg. now apply Hd.
Qed.

Lemma dlim_const (a x : R) : derivable_pt_lim (fun _ => a) x 0.
Proof. apply (derivable_pt_lim_const a x). Qed.

Lemma dlim_id (x : R) : derivable_pt_lim (fun t => t) x 1.
Proof. apply (derivable_pt_lim_id x). Qed.

Lemma dlim_plus (f g : R -> R) x l m :
  derivable_pt_lim f x l -> derivable_pt_lim g x m ->
  derivable_pt_lim (fun t => f t + g t) x (l + m).
Proof. intros Hf Hg. apply (derivable_pt_lim_plus f g x l m Hf Hg). Qed.

Lemma dlim_mult (f g : R -> R) x l m :
  derivable_pt_lim f x l -> derivable_pt_lim g x m ->
  derivable_pt_lim (fun t => f t * g t) x (l * g x + f x * m).
Proof. intros Hf Hg. apply (derivable_pt_lim_mult f g x l m Hf Hg). Qed.

Lemma dlim_exp (f : R -> R) x l :
  derivable_pt_lim f x l ->
  derivable_pt_lim (fun t => exp (f t)) x (exp (f x) * l).
Proof.
  intros Hf.
  apply (derivable_pt_lim_comp f exp x l (exp (f x)) Hf
           (derivable_pt_lim_exp (f x))).
Qed.

Lemma dlim_affine (a b x : R) : derivable_pt_lim (fun t => a + t * b) x b.
Proof.
  apply (@dlim_ext (fun t => (fun _ => a) t + (fun t => t) t * (fun _ => b) t)
                   _ x (0 + (1 * b + x * 0)) _); [reflexivity|ring|].
  apply dlim_plus; [apply dlim_const|].
  apply (@dlim_mult (fun t => t) (fun _ => b)); [apply dlim_id|apply dlim_const].
Qed.

(** *** theta with one component moved *)

Lemma set_nth_cons {A} g (t x : A) l : set_nth (S g) t (x :: l) = x :: set_nth g t l.
Proof. reflexivity. Qed.

Lemma set_nth_same (theta : list R) g :
  (g < length theta)%nat -> set_nth g (nth g theta 0) theta = theta.
Proof.
  revert g. induction theta as [|x theta IH]; intros [|g] Hg;
    cbn [length nth] in *; try lia.
  - reflexivity.
  - rewrite set_nth_cons. f_equal. apply IH. lia.
Qed.

Lemma nth_set_nth (theta : list R) g h t :
  (g < length theta)%nat ->
  nth h (set_nth g t theta) 0 = if (h =? g)%nat then t else nth h theta 0.
Proof.
  revert g h. induction theta as [|x theta IH]; intros [|g] [|h] Hg;
    cbn [length] in *; try lia; try reflexivity.
  rewrite set_nth_cons. cbn [nth Nat.eqb]. apply IH. lia.
Qed.

Lemma length_set_nth {A} (l : list A) g t :
  (g < length l)%nat -> length (set_nth g t l) = length l.
Proof.
  intros Hg. unfold set_nth. rewrite length_app. cbn [length].
  rewrite length_firstn, length_skipn. lia.
Qed.

(** The weighted sum is affine in each component of theta. *)
Lemma rsum_set_nth theta drow g t :
  (g < length theta)%nat ->
  rsum (map2 Rmult (set_nth g t theta) drow)
  = rsum (map2 Rmult (set_nth g 0 theta) drow) + t * col g drow.
Proof.
  unfold col. revert g drow.
  induction theta as [|x theta IH]; intros [|g] [|y drow] Hg;
    cbn [length] in *; try lia.
  - unfold set_nth. simpl. ring.
  - unfold set_nth. simpl. ring.
  - rewrite !set_nth_cons. simpl. ring.
  - rewrite !set_nth_cons. cbn [map2 rsum fold_right nth].
    fold (rsum (map2 Rmult (set_nth g t theta) drow)).
    fold (rsum (map2 Rmult (set_nth g 0 theta) drow)).
    rewrite (IH g drow) by lia. ring.
Qed.

(** The product of factors splits off the factor of the moved component. *)
Lemma rprod_set_nth (p : R -> R) theta drow g t :
  p 0 = 1 -> (g < length theta)%nat ->
  rprod (map p (map2 Rmult (set_nth g t theta) drow))
  = p (t * col g drow)
    * rprod (map p (map2 Rmult (set_nth g 0 theta) drow)).
Proof.
  intros Hp. unfold col. revert g drow.
  induction theta as [|x theta IH]; intros [|g] [|y drow] Hg;
    cbn [length] in *; try lia.
  - unfold set_nth. simpl. rewrite Rmult_0_r, Hp. ring.
  - unfold set_nth. simpl. rewrite Rmult_0_l, Hp. ring.
  - rewrite !set_nth_cons. simpl. rewrite Rmult_0_r, Hp. ring.
  - rewrite !set_nth_cons. cbn [map2 map rprod fold_right nth].
    fold (rprod (map p (map2 Rmult (set_nth g t theta) drow))).
    fold (rprod (map p (map2 Rmult (set_nth g 0 theta) drow))).
    rewrite (IH g drow) by lia. ring.
Qed.

(** *** Closed form of the gradient mode *)

Definition grad_row (k : kernel) (theta : list R) (g : nat) (drow : list R)
    (rk : R) : R :=
  match k with
  | K_abs_exp | K_squar_exp => exp_grad g drow rk
  | K_matern52 => m52_grad theta g drow rk
  | K_matern32 => m32_grad theta g drow rk
  | K_act_exp => rk
  end.

Lemma map2_map_r {A} (f : A -> R -> R) (h : A -> R) (l : list A) :
  map2 f l (map h l) = map (fun a => f a (h a)) l.
Proof. induction l; simpl; congruence. Qed.

Lemma run_grad nb fuel k theta d g :
  (0 < nb)%nat -> (nrows d / nb + 1 < fuel)%nat ->
  k <> K_act_exp -> length theta = ncols d -> (g < ncols d)%nat ->
  run nb fuel k theta d (Some g) None
  = Ok (Corr (map (fun drow =>
                     grad_row k theta g drow (value_row k theta (ncols d) drow))
                  (rows d))).
Proof.
  intros Hnb Hf Hk Hs Hg. rewrite run_chunked_unchunked by assumption.
  apply Nat.eqb_eq in Hs. apply Nat.ltb_lt in Hg.
  destruct k; try congruence; cbn [run_unchunked grad_row value_row];
    unfold exp_unchunked, matern52_unchunked, matern32_unchunked, whole;
    rewrite Hs, Hg; cbn [negb bind];
    now rewrite map2_repeat_r, map2_map_r by reflexivity.
Qed.

(** *** The gradient mode is the derivative of the value mode *)

Lemma exp_value_derivative theta drow g :
  (g < length theta)%nat ->
  derivable_pt_lim (fun t => exp_value (set_nth g t theta) drow 0)
                   (nth g theta 0)
                   (exp_grad g drow (exp_value theta drow 0)).
Proof.
  intros Hg. unfold exp_value, exp_grad.
  assert (Hv : rsum (map2 Rmult theta drow)
               = rsum (map2 Rmult (set_nth g 0 theta) drow)
                 + nth g theta 0 * col g drow).
  { rewrite <- rsum_set_nth by exact Hg. now rewrite set_nth_same. }
  rewrite Hv.
  set (s0 := rsum (map2 Rmult (set_nth g 0 theta) drow)).
  set (x := nth g theta 0).
  apply (@dlim_ext (fun t => exp (- s0 + t * (- col g drow))) _ x
                   (exp (- s0 + x * (- col g drow)) * (- col g drow)) _).
  - intros t. rewrite rsum_set_nth by exact Hg. fold s0. f_equal. ring.
  - replace (- (s0 + x * col g drow)) with (- s0 + x * - col g drow) by ring.
    ring.
  - apply (@dlim_exp (fun t => - s0 + t * - col g drow)). apply dlim_affine.
Qed.

Lemma dlim_quadratic (a b c x : R) :
  derivable_pt_lim (fun t => a + t * b + t * t * c) x (b + 2 * x * c).
Proof.
  apply (@dlim_ext (fun t => (a + t * b) + (t * t) * c) _ x
                   (b + ((1 * x + x * 1) * c + x * x * 0)) _);
    [reflexivity|ring|].
  apply (@dlim_plus (fun t => a + t * b) (fun t => t * t * c));
    [apply dlim_affine|].
  apply (@dlim_mult (fun t => t * t) (fun _ => c)); [|apply dlim_const].
  apply (@dlim_mult (fun t => t) (fun t => t)); apply dlim_id.
Qed.

Lemma value_at_theta (F : list R -> R) theta g :
  (g < length theta)%nat -> F theta = F (set_nth g (nth g theta 0) theta).
Proof. intros Hg. now rewrite set_nth_same. Qed.

Lemma m32_value_derivative theta drow g :
  (g < length theta)%nat ->
  1 + sqrt 3 * nth g theta 0 * col g drow <> 0 ->
  derivable_pt_lim (fun t => m32_value (set_nth g t theta) drow 0)
                   (nth g theta 0)
                   (m32_grad theta g drow (m32_value theta drow 0)).
Proof.
  intros Hg Hp. unfold m32_grad.
  rewrite (value_at_theta (fun th => m32_value th drow 0) theta Hg).
  unfold m32_value. cbv zeta.
  set (x := nth g theta 0) in *. set (dg := col g drow) in *.
  set (p := fun y => 1 + sqrt 3 * y).
  rewrite (@rprod_set_nth p theta drow g x) by (try exact Hg; unfold p; ring).
  rewrite (rsum_set_nth theta drow x Hg).
  fold dg.
  set (s0 := rsum (map2 Rmult (set_nth g 0 theta) drow)).
  set (P0 := rprod (map p (map2 Rmult (set_nth g 0 theta) drow))).
  set (e := fun t => exp (- sqrt 3 * s0 + t * (- sqrt 3 * dg))).
  apply (@dlim_ext (fun t => (1 + t * (sqrt 3 * dg)) * (P0 * e t)) _ x
           (sqrt 3 * dg * (P0 * e x)
            + (1 + x * (sqrt 3 * dg)) * (0 * e x + P0 * (e x * (- sqrt 3 * dg))))
           _).
  - intros t. rewrite (@rprod_set_nth p theta drow g t)
      by (try exact Hg; unfold p; ring).
    rewrite (rsum_set_nth theta drow t Hg). fold dg s0 P0. unfold p, e.
    replace (- sqrt 3 * (s0 + t * dg))
      with (- sqrt 3 * s0 + t * (- sqrt 3 * dg)) by ring.
    ring.
  - unfold p, e.
    replace (- sqrt 3 * (s0 + x * dg))
      with (- sqrt 3 * s0 + x * (- sqrt 3 * dg)) by ring.
    field. exact Hp.
  - apply (@dlim_mult (fun t => 1 + t * (sqrt 3 * dg)) (fun t => P0 * e t));
      [apply dlim_affine|].
    apply (@dlim_mult (fun _ => P0) e); [apply dlim_const|].
    apply (@dlim_exp (fun t => - sqrt 3 * s0 + t * (- sqrt 3 * dg))).
    apply dlim_affine.
Qed.

Lemma m52_fact_2_pos t dg : 0 < m52_fact_2 t dg.
Proof.
  unfold m52_fact_2. pose proof sqrt5_sq as Hs.
  set (y := sqrt 5 * t * dg).
  assert (Hy : 5 / 3 * t ^ 2 * dg ^ 2 = y * y / 3).
  { unfold y. transitivity (sqrt 5 * sqrt 5 * (t * t * (dg * dg)) / 3);
      [rewrite Hs; field|field]. }
  rewrite Hy. clearbody y. clear Hy Hs.
  pose proof (Rle_0_sqr (y + 3 / 2)) as H. unfold Rsqr in H. nra.
Qed.

Lemma m52_value_derivative theta drow g :
  (g < length theta)%nat ->
  derivable_pt_lim (fun t => m52_value (set_nth g t theta) drow 0)
                   (nth g theta 0)
                   (m52_grad theta g drow (m52_value theta drow 0)).
Proof.
  intros Hg. unfold m52_grad. cbv zeta.
  pose proof (m52_fact_2_pos (nth g theta 0) (col g drow)) as Hp.
  unfold m52_fact_1, m52_fact_2, m52_fact_3 in *.
  rewrite (value_at_theta (fun th => m52_value th drow 0) theta Hg).
  unfold m52_value. cbv zeta.
  set (x := nth g theta 0) in *. set (dg := col g drow) in *.
  set (p := fun y => 1 + sqrt 5 * y + 5 / 3 * y ^ 2).
  rewrite (@rprod_set_nth p theta drow g x) by (try exact Hg; unfold p; ring).
  rewrite (rsum_set_nth theta drow x Hg).
  fold dg.
  set (s0 := rsum (map2 Rmult (set_nth g 0 theta) drow)).
  set (P0 := rprod (map p (map2 Rmult (set_nth g 0 theta) drow))).
  set (e := fun t => exp (- sqrt 5 * s0 + t * (- sqrt 5 * dg))).
  apply (@dlim_ext
           (fun t => (1 + t * (sqrt 5 * dg) + t * t * (5 / 3 * dg ^ 2))
                     * (P0 * e t)) _ x
           ((sqrt 5 * dg + 2 * x * (5 / 3 * dg ^ 2)) * (P0 * e x)
            + (1 + x * (sqrt 5 * dg) + x * x * (5 / 3 * dg ^ 2))
              * (0 * e x + P0 * (e x * (- sqrt 5 * dg))))
           _).
  - intros t. rewrite (@rprod_set_nth p theta drow g t)
      by (try exact Hg; unfold p; ring).
    rewrite (rsum_set_nth theta drow t Hg). fold dg s0 P0. unfold p, e.
    replace (- sqrt 5 * (s0 + t * dg))
      with (- sqrt 5 * s0 + t * (- sqrt 5 * dg)) by ring.
    ring.
  - unfold p, e.
    replace (- sqrt 5 * (s0 + x * dg))
      with (- sqrt 5 * s0 + x * (- sqrt 5 * dg)) by ring.
    field. lra.
  - apply (@dlim_mult (fun t => 1 + t * (sqrt 5 * dg) + t * t * (5 / 3 * dg ^ 2))
                      (fun t => P0 * e t));
      [apply dlim_quadratic|].
    apply (@dlim_mult (fun _ => P0) e); [apply dlim_const|].
    apply (@dlim_exp (fun t => - sqrt 5 * s0 + t * (- sqrt 5 * dg))).
    apply dlim_affine.
Qed.

Lemma Forall2_map_r {A B} (P : A -> B -> Prop) (f : A -> B) (l : list A) :
  (forall a, In a l -> P a (f a)) -> Forall2 P l (map f l).
Proof.
  induction l as [|a l IH]; intros H; simpl; constructor.
  - apply H. now left.
  - apply IH. intros b Hb. apply H. now right.
Qed.

(** The rows on which the gradient formula of matern32 divides by a
    nonzero number. *)
Definition m32_defined (k : kernel) (theta : list R) (g : nat) (d : matrix)
    : Prop :=
  k = K_matern32 ->
  Forall (fun drow => 1 + sqrt 3 * nth g theta 0 * col g drow <> 0) (rows d).

Lemma value_row_derivative k theta nc drow g :
  k <> K_act_exp -> (g < length theta)%nat ->
  (k = K_matern32 -> 1 + sqrt 3 * nth g theta 0 * col g drow <> 0) ->
  derivable_pt_lim (fun t => value_row k (set_nth g t theta) nc drow)
                   (nth g theta 0)
                   (grad_row k theta g drow (value_row k theta nc drow)).
Proof.
  intros Hk Hg Hp. destruct k; cbn [value_row grad_row]; try congruence.
  - now apply exp_value_derivative.
  - now apply exp_value_derivative.
  - now apply m52_value_derivative.
  - apply m32_value_derivative; auto.
Qed.

(** With [grad_ind = g], every kernel returns, for every row of [d], the
    partial derivative of its value with respect to [theta[g]]. *)
Theorem kernel_gradient_is_derivative (k : kernel) (theta : list R)
    (d : matrix) (g fuel : nat) :
  (nrows d / nb_limit + 1 < fuel)%nat ->
  k <> K_act_exp -> length theta = ncols d -> (g < ncols d)%nat ->
  m32_defined k theta g d ->
  exists dr,
    run nb_limit fuel k theta d (Some g) None = Ok (Corr dr)
    /\ Forall2 (fun drow x =>
                  derivable_pt_lim
                    (fun t => value_row k (set_nth g t theta) (ncols d) drow)
                    (nth g theta 0) x)
               (rows d) dr.
Proof.
  intros Hf Hk Hs Hg Hp. eexists.
  split; [apply run_grad; auto using nb_limit_pos|].
  apply Forall2_map_r. intros drow Hin.
  apply value_row_derivative; [exact Hk|lia|].
  intros ->. specialize (Hp eq_refl). rewrite Forall_forall in Hp. auto.
Qed.

Lemma kernel_gradient_is_derivative_witness :
  exists dr,
    run nb_limit 2 K_matern32 [1; 2] (mk_matrix 2 [[1; 0]; [3; 4]])
        (Some 1%nat) None = Ok (Corr dr)
    /\ Forall2 (fun drow x =>
                  derivable_pt_lim
                    (fun t => value_row K_matern32 (set_nth 1 t [1; 2]) 2 drow)
                    2 x)
               [[1; 0]; [3; 4]] dr.
Proof.
  apply (@kernel_gradient_is_derivative K_matern32 [1; 2]
           (mk_matrix 2 [[1; 0]; [3; 4]]) 1 2).
  - apply Nat.ltb_lt. vm_compute. reflexivity.
  - discriminate.
  - reflexivity.
  - cbn. lia.
  - intros _. pose proof (sqrt_pos 3).
    repeat constructor; cbn [nth col]; nra.
Defined.


(** *** The Hessian mode is the derivative of the gradient mode *)

Lemma dlim_scal (c : R) (f : R -> R) x l :
  derivable_pt_lim f x l -> derivable_pt_lim (fun t => c * f t) x (c * l).
Proof.
  intros Hf.
  apply (@dlim_ext (fun t => (fun _ => c) t * f t) _ x (0 * f x + c * l) _);
    [reflexivity|ring|].
  apply (@dlim_mult (fun _ => c) f); [apply dlim_const|exact Hf].
Qed.

Lemma dlim_div (f g : R -> R) x l m :
  derivable_pt_lim f x l -> derivable_pt_lim g x m -> g x <> 0 ->
  derivable_pt_lim (fun t => f t / g t) x ((l * g x - m * f x) / (g x * g x)).
Proof.
  intros Hf Hg Hn. apply (derivable_pt_lim_div f g x l m Hf Hg Hn).
Qed.

(** What the Hessian mode leaves in one row: the Hessian pass applied to
    the row the gradient pass left. *)
Definition hess_row (k : kernel) (theta : list R) (nc g h : nat)
    (drow : list R) : R :=
  let v := value_row k theta nc drow in
  let rg := grad_row k theta g drow v in
  match k with
  | K_abs_exp | K_squar_exp => exp_grad h drow rg
  | K_matern52 => m52_hess theta g h (drow, v) rg
  | K_matern32 => m32_hess theta (Some g) h (drow, v) rg
  | K_act_exp => rg
  end.

Lemma map2_combine_map {A} (f : A * R -> R -> R) (a b : A -> R) (l : list A) :
  map2 f (combine l (map a l)) (map b l) = map (fun x => f (x, a x) (b x)) l.
Proof. induction l; simpl; congruence. Qed.

Lemma run_hess nb fuel k theta d g h :
  (0 < nb)%nat -> (nrows d / nb + 1 < fuel)%nat ->
  k <> K_act_exp -> length theta = ncols d ->
  (g < ncols d)%nat -> (h < ncols d)%nat ->
  run nb fuel k theta d (Some g) (Some h)
  = Ok (Corr (map (hess_row k theta (ncols d) g h) (rows d))).
Proof.
  intros Hnb Hf Hk Hs Hg Hh. rewrite run_chunked_unchunked by assumption.
  apply Nat.eqb_eq in Hs. apply Nat.ltb_lt in Hg. apply Nat.ltb_lt in Hh.
  destruct k; try congruence;
    cbn [run_unchunked hess_row grad_row value_row];
    unfold exp_unchunked, matern52_unchunked, matern32_unchunked, whole;
    rewrite Hs, Hg, Hh; cbn [negb bind];
    rewrite map2_repeat_r, map2_map_r by reflexivity;
    now rewrite ?map2_map_r, ?map2_combine_map.
Qed.

Lemma exp_grad_derivative theta drow g h :
  (h < length theta)%nat ->
  derivable_pt_lim
    (fun t => exp_grad g drow (exp_value (set_nth h t theta) drow 0))
    (nth h theta 0)
    (exp_grad h drow (exp_grad g drow (exp_value theta drow 0))).
Proof.
  intros Hh. unfold exp_grad at 1 3.
  apply (@dlim_ext
           (fun t => - col g drow * exp_value (set_nth h t theta) drow 0) _ _
           (- col g drow * exp_grad h drow (exp_value theta drow 0)) _);
    [reflexivity|unfold exp_grad; ring|].
  apply dlim_scal. now apply exp_value_derivative.
Qed.

Lemma m32_grad_derivative theta drow g h :
  (g < length theta)%nat -> (h < length theta)%nat ->
  1 + sqrt 3 * nth h theta 0 * col h drow <> 0 ->
  derivable_pt_lim
    (fun t => m32_grad (set_nth h t theta) g drow
                       (m32_value (set_nth h t theta) drow 0))
    (nth h theta 0)
    (m32_hess theta (Some g) h (drow, m32_value theta drow 0)
              (m32_grad theta g drow (m32_value theta drow 0))).
Proof.
  intros Hg Hh Hp.
  pose proof (m32_value_derivative theta drow Hh Hp) as HV.
  set (V := fun t => m32_value (set_nth h t theta) drow 0) in *.
  assert (HVx : m32_value theta drow 0 = V (nth h theta 0)).
  { unfold V. now rewrite set_nth_same. }
  unfold m32_hess, m32_grad in *. cbv zeta in *.
  destruct (Nat.eqb_spec g h) as [->|Hne].
  - set (x := nth h theta 0) in *. set (dh := col h drow) in *.
    rewrite HVx in *.
    apply (@dlim_ext
             (fun t => ((fun _ => 1) t / (fun t => 1 + t * (sqrt 3 * dh)) t
                        + (fun _ => - (1)) t)
                       * (sqrt 3 * dh * V t)) _ x
             (((0 * (1 + x * (sqrt 3 * dh)) - sqrt 3 * dh * 1)
               / ((1 + x * (sqrt 3 * dh)) * (1 + x * (sqrt 3 * dh))) + 0)
              * (sqrt 3 * dh * V x)
              + (1 / (1 + x * (sqrt 3 * dh)) + - (1))
                * (sqrt 3 * dh
                   * ((1 / (1 + sqrt 3 * x * dh) - 1) * V x * sqrt 3 * dh)))
             _).
    + intros t. rewrite nth_set_nth by exact Hh. rewrite Nat.eqb_refl.
      replace (1 + t * (sqrt 3 * dh)) with (1 + sqrt 3 * t * dh) by ring.
      unfold Rdiv, V. ring.
    + pose proof sqrt3_sq as H3.
      replace (1 + x * (sqrt 3 * dh)) with (1 + sqrt 3 * x * dh) by ring.
      set (s := sqrt 3) in *. rewrite <- H3. field. exact Hp.
    + apply (@dlim_mult (fun t => 1 / (1 + t * (sqrt 3 * dh)) + - (1))
                        (fun t => sqrt 3 * dh * V t)).
      * apply (@dlim_plus (fun t => 1 / (1 + t * (sqrt 3 * dh)))
                          (fun _ => - (1))); [|apply dlim_const].
        apply (@dlim_div (fun _ => 1) (fun t => 1 + t * (sqrt 3 * dh)));
          [apply dlim_const|apply dlim_affine|].
        replace (1 + x * (sqrt 3 * dh)) with (1 + sqrt 3 * x * dh) by ring.
        exact Hp.
      * apply dlim_scal. exact HV.
  - set (c := (1 / (1 + sqrt 3 * nth g theta 0 * col g drow) - 1)
              * sqrt 3 * col g drow).
    rewrite HVx in *.
    apply (@dlim_ext (fun t => c * V t) _ _
             (c * ((1 / (1 + sqrt 3 * nth h theta 0 * col h drow) - 1)
                   * V (nth h theta 0) * sqrt 3 * col h drow)) _).
    + intros t. rewrite nth_set_nth by exact Hh.
      apply Nat.eqb_neq in Hne. rewrite Hne. unfold c, V. ring.
    + unfold c. ring.
    + apply dlim_scal. exact HV.
Qed.

Lemma m52_grad_derivative theta drow g h :
  (g < length theta)%nat -> (h < length theta)%nat ->
  derivable_pt_lim
    (fun t => m52_grad (set_nth h t theta) g drow
                       (m52_value (set_nth h t theta) drow 0))
    (nth h theta 0)
    (m52_hess theta g h (drow, m52_value theta drow 0)
              (m52_grad theta g drow (m52_value theta drow 0))).
Proof.
  intros Hg Hh.
  pose proof (m52_value_derivative theta drow Hh) as HV.
  set (V := fun t => m52_value (set_nth h t theta) drow 0) in *.
  assert (HVx : m52_value theta drow 0 = V (nth h theta 0)).
  { unfold V. now rewrite set_nth_same. }
  unfold m52_hess, m52_grad in *. cbv zeta in *.
  rewrite HVx in *.
  destruct (Nat.eqb_spec h g) as [<-|Hne].
  - pose proof (m52_fact_2_pos (nth h theta 0) (col h drow)) as Hp.
    unfold m52_fact_1, m52_fact_2, m52_fact_3 in *.
    set (x := nth h theta 0) in *. set (dh := col h drow) in *.
    set (s := sqrt 5) in *.
    set (F1 := fun t : R => s * dh + t * (10 / 3 * dh ^ 2)).
    set (F2 := fun t : R => 1 + t * (s * dh) + t * t * (5 / 3 * dh ^ 2)).
    assert (HF2 : F2 x <> 0).
    { unfold F2. replace (1 + x * (s * dh) + x * x * (5 / 3 * dh ^ 2))
        with (1 + s * x * dh + 5 / 3 * x ^ 2 * dh ^ 2) by ring. lra. }
    apply (@dlim_ext (fun t => (F1 t / F2 t + - (s * dh)) * V t) _ x
             (((10 / 3 * dh ^ 2 * F2 x - (s * dh + 2 * x * (5 / 3 * dh ^ 2)) * F1 x)
               / (F2 x * F2 x) + 0) * V x
              + (F1 x / F2 x + - (s * dh))
                * ((F1 x / F2 x - s * dh) * V x)) _).
    + intros t. rewrite nth_set_nth by exact Hh. rewrite Nat.eqb_refl.
      unfold F1, F2, V.
      replace (s * dh + t * (10 / 3 * dh ^ 2))
        with (s * dh + 10 / 3 * t * dh ^ 2) by ring.
      replace (1 + t * (s * dh) + t * t * (5 / 3 * dh ^ 2))
        with (1 + s * t * dh + 5 / 3 * t ^ 2 * dh ^ 2) by ring.
      unfold Rdiv. ring.
    + unfold F1, F2. field. lra.
    + apply (@dlim_mult (fun t => F1 t / F2 t + - (s * dh)) V).
      * apply (@dlim_plus (fun t => F1 t / F2 t) (fun _ => - (s * dh)));
          [|apply dlim_const].
        apply (@dlim_div F1 F2); [apply dlim_affine|apply dlim_quadratic|].
        exact HF2.
      * revert HV. apply dlim_ext; [reflexivity|].
        unfold F1, F2. f_equal. f_equal. f_equal; ring.
  - set (c := m52_fact_1 (nth g theta 0) (col g drow)
              / m52_fact_2 (nth g theta 0) (col g drow)
              - m52_fact_3 (col g drow)).
    apply (@dlim_ext (fun t => c * V t) _ _
             (c * ((m52_fact_1 (nth h theta 0) (col h drow)
                    / m52_fact_2 (nth h theta 0) (col h drow)
                    - m52_fact_3 (col h drow)) * V (nth h theta 0))) _).
    + intros t. rewrite nth_set_nth by exact Hh.
      assert (Hgh : (g =? h)%nat = false) by (apply Nat.eqb_neq; congruence).
      rewrite Hgh. reflexivity.
    + unfold c. ring.
    + apply dlim_scal. exact HV.
Qed.

Lemma grad_row_derivative k theta nc drow g h :
  k <> K_act_exp -> (g < length theta)%nat -> (h < length theta)%nat ->
  (k = K_matern32 -> 1 + sqrt 3 * nth h theta 0 * col h drow <> 0) ->
  derivable_pt_lim
    (fun t => grad_row k (set_nth h t theta) g drow
                       (value_row k (set_nth h t theta) nc drow))
    (nth h theta 0)
    (hess_row k theta nc g h drow).
Proof.
  intros Hk Hg Hh Hp.
  destruct k; cbn [value_row grad_row hess_row]; try congruence.
  - now apply exp_grad_derivative.
  - now apply exp_grad_derivative.
  - now apply m52_grad_derivative.
  - apply m32_grad_derivative; auto.
Qed.

(** With [grad_ind = g] and [hess_ind = h], every kernel returns, for
    every row of [d], the partial derivative with respect to [theta[h]]
    of what it returns with [grad_ind = g] alone. *)
Theorem kernel_hessian_is_derivative (k : kernel) (theta : list R)
    (d : matrix) (g h fuel : nat) :
  (nrows d / nb_limit + 1 < fuel)%nat ->
  k <> K_act_exp -> length theta = ncols d ->
  (g < ncols d)%nat -> (h < ncols d)%nat ->
  m32_defined k theta h d ->
  exists d2r,
    run nb_limit fuel k theta d (Some g) (Some h) = Ok (Corr d2r)
    /\ Forall2 (fun drow x =>
                  derivable_pt_lim
                    (fun t => grad_row k (set_nth h t theta) g drow
                                (value_row k (set_nth h t theta) (ncols d) drow))
                    (nth h theta 0) x)
               (rows d) d2r.
Proof.
  intros Hf Hk Hs Hg Hh Hp. eexists.
  split; [apply run_hess; auto using nb_limit_pos|].
  apply Forall2_map_r. intros drow Hin.
  apply grad_row_derivative; [exact Hk|lia|lia|].
  intros ->. specialize (Hp eq_refl). rewrite Forall_forall in Hp. auto.
Qed.

Lemma kernel_hessian_is_derivative_witness :
  exists d2r,
    run nb_limit 2 K_matern52 [1; 2] (mk_matrix 2 [[1; 0]; [3; 4]])
        (Some 1%nat) (Some 1%nat) = Ok (Corr d2r)
    /\ Forall2 (fun drow x =>
                  derivable_pt_lim
                    (fun t => grad_row K_matern52 (set_nth 1 t [1; 2]) 1 drow
                                (value_row K_matern52 (set_nth 1 t [1; 2]) 2 drow))
                    2 x)
               [[1; 0]; [3; 4]] d2r.
Proof.
  apply (@kernel_hessian_is_derivative K_matern52 [1; 2]
           (mk_matrix 2 [[1; 0]; [3; 4]]) 1 1 2).
  - apply Nat.ltb_lt. vm_compute. reflexivity.
  - discriminate.
  - reflexivity.
  - cbn. lia.
  - cbn. lia.
  - intros H. discriminate H.
Defined.

End GradientFacts.

(** ** Finite sums and their derivatives *)

Module SumFacts.
Import Kernels GradientFacts.
Local Open Scope R_scope.

Lemma rsum_head (a : R) (l : list R) : rsum (a :: l) = a + rsum l.
Proof. reflexivity. Qed.

Lemma rsum_app (l m : list R) : rsum (l ++ m) = rsum l + rsum m.
Proof.
  induction l as [|a l IH]; [simpl; ring|].
  change (a + rsum (l ++ m) = a + rsum l + rsum m). rewrite IH. ring.
Qed.

Lemma rsum_plus {A} (f g : A -> R) l :
  rsum (map (fun a => f a + g a) l) = rsum (map f l) + rsum (map g l).
Proof.
  induction l as [|a l IH]; [simpl; ring|].
  cbn [map]. rewrite !rsum_head, IH. ring.
Qed.

Lemma rsum_ext_in {A} (f g : A -> R) l :
  (forall a, In a l -> f a = g a) -> rsum (map f l) = rsum (map g l).
Proof. intros H. f_equal. now apply map_ext_in. Qed.

(** A sum in which one index at most contributes. *)
Lemma rsum_pick (P : nat -> bool) (A : nat -> R) n k :
  (forall ix, (ix < n)%nat -> P ix = true <-> ix = k) ->
  rsum (map (fun ix => if P ix then A ix else 0) (seq 0 n))
  = if (k <? n)%nat then A k else 0.
Proof.
  induction n as [|n IH]; intros HP; [reflexivity|].
  rewrite seq_S, map_app, rsum_app, IH by (intros ix Hix; apply HP; lia).
  cbn [map Nat.add]. rewrite rsum_head. cbn [rsum fold_right].
  destruct (P n) eqn:E.
  - apply HP in E; [|lia]. subst k.
    rewrite Nat.ltb_irrefl. rewrite (proj2 (Nat.ltb_lt n (S n))) by lia. ring.
  - assert (Hk : n <> k).
    { intros <-. rewrite (proj2 (HP n (Nat.lt_succ_diag_r n)) eq_refl) in E.
      discriminate. }
    destruct (Nat.ltb_spec k n), (Nat.ltb_spec k (S n)); try lia; ring.
Qed.

Lemma dlim_rsum {A} (f : A -> R -> R) (d : A -> R) (l : list A) x :
  (forall a, In a l -> derivable_pt_lim (f a) x (d a)) ->
  derivable_pt_lim (fun t => rsum (map (fun a => f a t) l)) x
                   (rsum (map d l)).
Proof.
  induction l as [|a l IH]; intros H.
  - simpl. apply dlim_const.
  - cbn [map].
    apply (@dlim_ext (fun t => f a t + rsum (map (fun a => f a t) l)) _ x
             (d a + rsum (map d l)) _); [reflexivity|reflexivity|].
    apply (@dlim_plus (f a) (fun t => rsum (map (fun a => f a t) l))).
    + apply H. now left.
    + apply IH. intros b Hb. apply H. now right.
Qed.

End SumFacts.

(** ** The spatial Jacobian of the exponential kernels *)

Module SpatialFacts.
Import Kernels KernelFacts Componentwise LoopFacts HessianFacts PipelineFacts
  GradientFacts.
Local Open Scope R_scope.

(** One row of distances, with one entry of the signed differences
    moved. *)
Lemma rsum_move_entry (f : R -> R) theta drow j t :
  f 0 = 0 -> (j < length drow)%nat ->
  rsum (map2 Rmult theta (map f (set_nth j t drow)))
  = rsum (map2 Rmult theta (map f (set_nth j 0 drow)))
    + nth j theta 0 * f t.
Proof.
  intros Hf. revert j drow.
  induction theta as [|x theta IH]; intros [|j] [|y drow] Hj;
    cbn [length] in *; try lia.
  - unfold set_nth. simpl. ring.
  - rewrite !set_nth_cons. simpl. ring.
  - unfold set_nth. simpl. rewrite Hf. ring.
  - rewrite !set_nth_cons. cbn [map map2 rsum fold_right nth].
    fold (rsum (map2 Rmult theta (map f (set_nth j t drow)))).
    fold (rsum (map2 Rmult theta (map f (set_nth j 0 drow)))).
    rewrite (IH j drow) by lia. ring.
Qed.

Lemma exp_of_distance_derivative (f : R -> R) theta drow j l :
  f 0 = 0 -> (j < length drow)%nat ->
  derivable_pt_lim f (nth j drow 0) l ->
  derivable_pt_lim
    (fun t => exp_value theta (map f (set_nth j t drow)) 0)
    (nth j drow 0)
    (- (exp_value theta (map f drow) 0 * (nth j theta 0 * l))).
Proof.
  intros Hf Hj Hl. unfold exp_value.
  pose proof (@rsum_move_entry f theta drow j (nth j drow 0) Hf Hj) as Hv.
  rewrite set_nth_same in Hv by exact Hj. rewrite Hv.
  set (x := nth j drow 0) in *.
  set (s0 := rsum (map2 Rmult theta (map f (set_nth j 0 drow)))).
  set (c := nth j theta 0).
  apply (@dlim_ext (fun t => exp (- s0 + - c * f t)) _ x
           (exp (- s0 + - c * f x) * (0 + - c * l)) _).
  - intros t. rewrite (@rsum_move_entry f theta drow j t Hf Hj). fold s0 c.
    f_equal. ring.
  - replace (- (s0 + c * f x)) with (- s0 + - c * f x) by ring. ring.
  - apply (@dlim_exp (fun t => - s0 + - c * f t)).
    apply (@dlim_plus (fun _ => - s0) (fun t => - c * f t));
      [apply dlim_const|].
    apply dlim_scal. exact Hl.
Qed.

Lemma dlim_square x : derivable_pt_lim (fun t => t ^ 2) x (2 * x).
Proof.
  apply (@dlim_ext (fun t => t * t) _ x (1 * x + x * 1) _);
    [intros t; ring|ring|].
  apply (@dlim_mult (fun t => t) (fun t => t)); apply dlim_id.
Qed.

Lemma dlim_abs x : x <> 0 -> derivable_pt_lim Rabs x (der_sign x).
Proof.
  intros Hx. unfold der_sign. destruct (Rlt_dec x 0) as [Hlt|Hge].
  - apply Rabs_derive_2. exact Hlt.
  - apply Rabs_derive_1. lra.
Qed.

Lemma broadcast_wf D f :
  wf_matrix D ->
  map (fun drow => broadcast_to (ncols D) (map f drow)) (rows D)
  = map (map f) (rows D).
Proof.
  intros Hw. apply map_ext_in. intros drow Hin.
  unfold broadcast_to. rewrite length_map.
  unfold wf_matrix in Hw. rewrite Forall_forall in Hw.
  now rewrite (Hw drow Hin), Nat.eqb_refl.
Qed.

Lemma map2_of_maps {A B C E} (h : B -> C -> E) (a : A -> B) (b : A -> C)
    (l : list A) :
  map2 h (map a l) (map b l) = map (fun x => h (a x) (b x)) l.
Proof. induction l; simpl; congruence. Qed.

Lemma nth_map2 {A B C} (g : A -> B -> C) (a : list A) (b : list B) j da db dc :
  (j < length a)%nat -> (j < length b)%nat ->
  nth j (map2 g a b) dc = g (nth j a da) (nth j b db).
Proof.
  revert a b. induction j as [|j IH]; intros [|x a] [|y b] Ha Hb;
    simpl in *; try lia; auto. apply IH; lia.
Qed.

Lemma nth_map_in {A B} (f : A -> B) (l : list A) k da db :
  (k < length l)%nat -> nth k (map f l) db = f (nth k l da).
Proof.
  intros Hk. rewrite (nth_indep _ db (f da)) by now rewrite length_map.
  apply map_nth.
Qed.

(** What componentwise_distance returns in derivative mode. *)
Definition theta_der (corr : string) (theta drow : list R) : list R :=
  if (corr =? "squar_exp")%string
  then map2 (fun t x => 2 * (t * x)) theta drow
  else map2 Rmult theta (map der_sign drow).

Lemma componentwise_derivative fuel D corr dim theta :
  corr <> "act_exp" -> length theta = ncols D ->
  componentwise_distance fuel D corr dim (Some theta) true
  = Ok (map (theta_der corr theta) (rows D)).
Proof.
  intros Hc Hl. unfold componentwise_distance, theta_der. cbn [negb].
  apply Nat.eqb_eq in Hl. rewrite Hl.
  destruct (corr =? "squar_exp")%string; [reflexivity|].
  apply String.eqb_neq in Hc. rewrite Hc. now rewrite map_map.
Qed.

(** The pair [(r, dr)] that abs_exp and squar_exp return when the
    spatial context [dd] has one row per row of [d]. *)
Lemma exp_jacobian nb fuel theta d dd :
  (0 < nb)%nat -> (nrows d / nb + 1 < fuel)%nat -> length theta = ncols d ->
  nrows dd = nrows d ->
  let r := map (fun drow => exp_value theta drow 0) (rows d) in
  let dr := map2 (fun rk ddk => map (fun x => - (rk * x)) ddk) r (rows dd) in
  abs_exp nb fuel theta d None None (Some dd) = Ok (CorrJac r dr)
  /\ squar_exp nb fuel theta d None None (Some dd) None = Ok (CorrJac r dr).
Proof.
  intros Hnb Hf Hs Hd r dr. unfold abs_exp, squar_exp.
  rewrite (exp_passes_value theta d Hnb Hf Hs). cbn [bind nth].
  fold r. unfold neg_einsum.
  assert (Hr : (length r =? nrows dd)%nat = true).
  { apply Nat.eqb_eq. unfold r. rewrite length_map. now rewrite Hd. }
  rewrite Hr. cbn [bind]. split; reflexivity.
Qed.

(** The entry [dr[k, j]] for the pair of arrays that
    componentwise_distance returns in its two modes. *)
Lemma jacobian_entry corr theta D k j :
  wf_matrix D -> length theta = ncols D ->
  (k < nrows D)%nat -> (j < ncols D)%nat ->
  let f := distance_of corr in
  let r := map (fun drow => exp_value theta drow 0) (map (map f) (rows D)) in
  let dr := map2 (fun rk ddk => map (fun x => - (rk * x)) ddk) r
                 (map (theta_der corr theta) (rows D)) in
  nth j (nth k dr []) 0
  = - (exp_value theta (map f (row D k)) 0
       * nth j (theta_der corr theta (row D k)) 0).
Proof.
  intros Hw Hl Hk Hj f r dr. unfold dr, r.
  rewrite map_map, map2_of_maps.
  rewrite (nth_map_in _ (rows D) [] [] Hk). fold (row D k).
  rewrite (nth_map_in _ _ 0 0); [reflexivity|].
  unfold wf_matrix in Hw. rewrite Forall_forall in Hw.
  assert (Hrow : length (row D k) = ncols D)
    by (apply Hw, nth_In, Hk).
  unfold theta_der. destruct (_ =? _)%string;
    rewrite map2_length, ?length_map; lia.
Qed.

(** The spatial Jacobian of squar_exp: with [d] and [dd] the two outputs
    of componentwise_distance on the signed differences [D], [dr[k, j]]
    is the derivative of [r[k]] with respect to [D[k, j]]. *)
Theorem squar_exp_jacobian_is_derivative (theta : list R) (D : matrix)
    (fuel : nat) :
  (nrows D / nb_limit + 1 < fuel)%nat ->
  wf_matrix D -> length theta = ncols D ->
  exists d dd r dr,
    componentwise_distance fuel D "squar_exp" (ncols D) None false = Ok d
    /\ componentwise_distance fuel D "squar_exp" (ncols D) (Some theta) true
       = Ok dd
    /\ squar_exp nb_limit fuel theta (mk_matrix (ncols D) d) None None
                 (Some (mk_matrix (ncols D) dd)) None
       = Ok (CorrJac r dr)
    /\ forall k j, (k < nrows D)%nat -> (j < ncols D)%nat ->
         derivable_pt_lim
           (fun t => exp_value theta
                       (map (fun x => x ^ 2) (set_nth j t (row D k))) 0)
           (nth j (row D k) 0)
           (nth j (nth k dr []) 0).
Proof.
  intros Hf Hw Hl. do 4 eexists.
  split; [apply componentwise_value, Hf|].
  split; [apply componentwise_derivative; [discriminate|exact Hl]|].
  rewrite (broadcast_wf _ Hw).
  split.
  { apply exp_jacobian; [apply nb_limit_pos| |exact Hl|].
    - unfold nrows. cbn [rows]. rewrite length_map. exact Hf.
    - unfold nrows. cbn [rows]. now rewrite !length_map. }
  intros k j Hk Hj.
  cbn [rows].
  rewrite (@jacobian_entry "squar_exp" theta D k j Hw Hl Hk Hj).
  assert (Hrow : length (row D k) = ncols D).
  { unfold wf_matrix in Hw. rewrite Forall_forall in Hw.
    apply Hw, nth_In, Hk. }
  assert (Hj' : (j < length (row D k))%nat) by lia.
  assert (H0 : (fun x : R => x ^ 2) 0 = 0) by (cbv beta; ring).
  pose proof (@exp_of_distance_derivative (fun x => x ^ 2) theta (row D k) j
                _ H0 Hj' (dlim_square _)) as Hd.
  revert Hd. apply dlim_ext; [reflexivity|].
  unfold theta_der. cbn [String.eqb Ascii.eqb Bool.eqb].
  rewrite (nth_map2 _ _ _ 0 0) by lia.
  change (distance_of "squar_exp") with (fun x : R => x ^ 2). ring.
Qed.

Lemma squar_exp_jacobian_is_derivative_witness :
  exists d dd r dr,
    componentwise_distance 2 three_rows "squar_exp" 2 None false = Ok d
    /\ componentwise_distance 2 three_rows "squar_exp" 2 (Some [1; 2]) true
       = Ok dd
    /\ squar_exp nb_limit 2 [1; 2] (mk_matrix 2 d) None None
                 (Some (mk_matrix 2 dd)) None
       = Ok (CorrJac r dr)
    /\ forall k j, (k < 3)%nat -> (j < 2)%nat ->
         derivable_pt_lim
           (fun t => exp_value [1; 2]
                       (map (fun x => x ^ 2) (set_nth j t (row three_rows k))) 0)
           (nth j (row three_rows k) 0)
           (nth j (nth k dr []) 0).
Proof.
  apply (@squar_exp_jacobian_is_derivative [1; 2] three_rows 2).
  - apply Nat.ltb_lt. vm_compute. reflexivity.
  - repeat constructor.
  - reflexivity.
Defined.

(** The spatial Jacobian of abs_exp: [dr[k, j]] is the derivative of
    [r[k]] with respect to [D[k, j]] wherever [D[k, j]] is not zero (the
    absolute value has no derivative at zero). *)
Theorem abs_exp_jacobian_is_derivative (theta : list R) (D : matrix)
    (fuel : nat) :
  (nrows D / nb_limit + 1 < fuel)%nat ->
  wf_matrix D -> length theta = ncols D ->
  exists d dd r dr,
    componentwise_distance fuel D "abs_exp" (ncols D) None false = Ok d
    /\ componentwise_distance fuel D "abs_exp" (ncols D) (Some theta) true
       = Ok dd
    /\ abs_exp nb_limit fuel theta (mk_matrix (ncols D) d) None None
               (Some (mk_matrix (ncols D) dd))
       = Ok (CorrJac r dr)
    /\ forall k j, (k < nrows D)%nat -> (j < ncols D)%nat ->
         nth j (row D k) 0 <> 0 ->
         derivable_pt_lim
           (fun t => exp_value theta (map Rabs (set_nth j t (row D k))) 0)
           (nth j (row D k) 0)
           (nth j (nth k dr []) 0).
Proof.
  intros Hf Hw Hl. do 4 eexists.
  split; [apply componentwise_value, Hf|].
  split; [apply componentwise_derivative; [discriminate|exact Hl]|].
  rewrite (broadcast_wf _ Hw).
  split.
  { apply exp_jacobian; [apply nb_limit_pos| |exact Hl|].
    - unfold nrows. cbn [rows]. rewrite length_map. exact Hf.
    - unfold nrows. cbn [rows]. now rewrite !length_map. }
  intros k j Hk Hj Hnz.
  cbn [rows].
  rewrite (@jacobian_entry "abs_exp" theta D k j Hw Hl Hk Hj).
  assert (Hrow : length (row D k) = ncols D).
  { unfold wf_matrix in Hw. rewrite Forall_forall in Hw.
    apply Hw, nth_In, Hk. }
  assert (Hj' : (j < length (row D k))%nat) by lia.
  pose proof (@exp_of_distance_derivative Rabs theta (row D k) j
                _ Rabs_R0 Hj' (dlim_abs Hnz)) as Hd.
  revert Hd. apply dlim_ext; [reflexivity|].
  unfold theta_der. cbn [String.eqb Ascii.eqb Bool.eqb].
  rewrite (nth_map2 _ _ _ 0 0) by (rewrite ?length_map; lia).
  rewrite (nth_map_in _ _ 0 0) by lia.
  change (distance_of "abs_exp") with Rabs. ring.
Qed.

Lemma abs_exp_jacobian_is_derivative_witness :
  exists d dd r dr,
    componentwise_distance 2 three_rows "abs_exp" 2 None false = Ok d
    /\ componentwise_distance 2 three_rows "abs_exp" 2 (Some [1; 2]) true
       = Ok dd
    /\ abs_exp nb_limit 2 [1; 2] (mk_matrix 2 d) None None
               (Some (mk_matrix 2 dd))
       = Ok (CorrJac r dr)
    /\ forall k j, (k < 3)%nat -> (j < 2)%nat ->
         nth j (row three_rows k) 0 <> 0 ->
         derivable_pt_lim
           (fun t => exp_value [1; 2]
                       (map Rabs (set_nth j t (row three_rows k))) 0)
           (nth j (row three_rows k) 0)
           (nth j (nth k dr []) 0).
Proof.
  apply (@abs_exp_jacobian_is_derivative [1; 2] three_rows 2).
  - apply Nat.ltb_lt. vm_compute. reflexivity.
  - repeat constructor.
  - reflexivity.
Defined.

End SpatialFacts.

(** ** A Hessian index without a gradient index *)

Module ModeFacts.
Import Kernels KernelFacts GradientFacts.
Local Open Scope R_scope.

Lemma pass_not_ok_bind {A B} (m : result A) (e : exn) (out : B) :
  (x <- m ;; (Raise e : result B)) <> Ok out.
Proof. destruct m; discriminate. Qed.

(** matern52 reads [theta_r] in its Hessian pass and binds it in its
    gradient pass only. *)
Lemma matern52_hessian_alone nb fuel theta d h out :
  matern52 nb fuel theta d None (Some h) <> Ok out.
Proof.
  unfold matern52. destruct (negb _); [discriminate|].
  destruct (pass _ _ _ _ _ _) as [r| |]; cbn [bind]; try discriminate.
  destruct (_ <? _)%nat; discriminate.
Qed.

Lemma m32_hess_alone theta h drow m rk :
  m32_hess theta None h (drow, m) rk = m32_grad theta h drow rk.
Proof. unfold m32_hess, m32_grad. ring. Qed.

(** A Hessian index without a gradient index: abs_exp, squar_exp and
    matern32 return the gradient for that index, matern52 never returns
    and raises NameError once the shapes and the index are accepted. *)
Theorem hessian_index_alone (nb fuel : nat) (theta : list R) (d : matrix)
    (h : nat) :
  (0 < nb)%nat -> (nrows d / nb + 1 < fuel)%nat ->
  (forall k, k = K_abs_exp \/ k = K_squar_exp \/ k = K_matern32 ->
             run nb fuel k theta d None (Some h)
             = run nb fuel k theta d (Some h) None)
  /\ (forall out, run nb fuel K_matern52 theta d None (Some h) <> Ok out)
  /\ (length theta = ncols d -> (h < ncols d)%nat ->
      run nb fuel K_matern52 theta d None (Some h) = Raise NameError).
Proof.
  intros Hnb Hf. split; [|split].
  - intros k Hk. rewrite !run_chunked_unchunked by assumption.
    destruct Hk as [Hk|[Hk|Hk]]; subst k; cbn [run_unchunked];
      try reflexivity.
    unfold matern32_unchunked, whole. destruct (negb _); [reflexivity|].
    cbn [bind]. destruct (_ <? _)%nat; [|reflexivity]. cbn [bind].
    do 2 f_equal.
    rewrite !map2_repeat_r by reflexivity.
    rewrite map2_combine_map, map2_map_r.
    apply map_ext. intros drow. apply m32_hess_alone.
  - intros out. apply matern52_hessian_alone.
  - intros Hs Hh. cbn [run]. unfold matern52.
    apply Nat.eqb_eq in Hs. apply Nat.ltb_lt in Hh. rewrite Hs, Hh.
    cbn [negb].
    rewrite (pass_whole Hnb) by (auto using repeat_length).
    reflexivity.
Qed.

Definition two_pairs_2d : matrix := mk_matrix 2 [[1; 0]; [3; 4]].

Lemma hessian_index_alone_witness :
  run nb_limit 2 K_matern32 [1; 2] two_pairs_2d None (Some 1%nat)
  = run nb_limit 2 K_matern32 [1; 2] two_pairs_2d (Some 1%nat) None
  /\ run nb_limit 2 K_matern52 [1; 2] two_pairs_2d None (Some 1%nat)
     = Raise NameError.
Proof.
  assert (Hf : (nrows two_pairs_2d / nb_limit + 1 < 2)%nat)
    by (apply Nat.ltb_lt; vm_compute; reflexivity).
  destruct (@hessian_index_alone nb_limit 2 [1; 2] two_pairs_2d 1
              nb_limit_pos Hf)
    as (H1 & _ & H2).
  split.
  - apply H1. right. right. reflexivity.
  - apply H2; [reflexivity|cbn; lia].
Defined.

End ModeFacts.

(** ** The columns of the regression models *)

Module RegressionFacts.
Import Composer Regression.
Local Open Scope R_scope.

(** The index pairs [(k, l)], [k <= l < n], in the order of the loop. *)
Definition pairs_from (n m : nat) : list (nat * nat) :=
  flat_map (fun k => map (fun l => (k, l)) (seq k (n - k))) (seq 0 m).

Definition product_of (r : list R) (p : nat * nat) : R :=
  nth (fst p) r 0 * nth (snd p) r 0.

Lemma for_fold_last {A St} (body : St -> A -> result St) l a s :
  for_fold body (l ++ [a]) s = (s' <- for_fold body l s ;; body s' a).
Proof.
  revert s. induction l as [|b l IH]; intros s; simpl.
  - now destruct (body s a).
  - destruct (body s b); simpl; auto.
Qed.

Lemma pairs_from_S n m :
  pairs_from n (S m)
  = pairs_from n m ++ map (fun l => (m, l)) (seq m (n - m)).
Proof.
  unfold pairs_from. rewrite seq_S, flat_map_app. simpl.
  now rewrite app_nil_r.
Qed.

Lemma pairs_from_length n m :
  (m <= n)%nat ->
  (2 * length (pairs_from n m) + m * m = m * (2 * n + 1))%nat.
Proof.
  induction m as [|m IH]; intros Hm; [reflexivity|].
  rewrite pairs_from_S, length_app, length_map, length_seq.
  specialize (IH ltac:(lia)).
  destruct (Nat.le_exists_sub (S m) n Hm) as [p [Hp _]]. subst n.
  replace (p + S m - m)%nat with (S p) by lia. nia.
Qed.

Lemma pairs_from_all n :
  length (pairs_from n n) = (n * (n + 1) / 2)%nat.
Proof.
  pose proof (@pairs_from_length n n (le_n n)) as H.
  apply Nat.div_unique_exact; [lia|]. nia.
Qed.

Lemma skipn_products (r : list R) k :
  map (Rmult (nth k r 0)) (skipn k r)
  = map (product_of r) (map (fun l => (k, l)) (seq k (length r - k))).
Proof.
  rewrite map_map. unfold product_of. cbn [fst snd].
  assert (H : skipn k r = map (fun l => nth l r 0) (seq k (length r - k))).
  { destruct (Nat.le_gt_cases k (length r)) as [Hk|Hk].
    - rewrite <- (slice_nth_seq r 0 k). unfold slice.
      now rewrite firstn_all2 by (rewrite length_skipn; lia).
    - rewrite skipn_all2 by lia.
      replace (length r - k)%nat with 0%nat by lia. reflexivity. }
  rewrite H, map_map. reflexivity.
Qed.

Lemma map2_of_maps_app {A} (a b : A -> list R) (l : list A) :
  map2 (@app R) (map a l) (map b l) = map (fun x => a x ++ b x) l.
Proof. induction l; simpl; congruence. Qed.

(** The array after the first [m] iterations of the loop of quadratic. *)
Definition quadratic_upto (x : matrix) (m : nat) : matrix :=
  mk_matrix (1 + ncols x + length (pairs_from (ncols x) m))
            (map (fun r => (1 :: r) ++ map (product_of r)
                                           (pairs_from (ncols x) m))
                 (rows x)).

Lemma ones_column (l : list (list R)) :
  map2 (@app R) (repeat (repeat 1 1) (length l)) l = map (fun r => 1 :: r) l.
Proof. induction l as [|r l IH]; simpl in *; [reflexivity|]. now rewrite IH. Qed.

Lemma linear_result x :
  linear x = Ok (mk_matrix (1 + ncols x) (map (fun r => 1 :: r) (rows x))).
Proof.
  unfold linear, hstack, ones, nrows. cbn [rows ncols].
  rewrite repeat_length, Nat.eqb_refl. do 2 f_equal. apply ones_column.
Qed.

Lemma quadratic_loop x m :
  wf_matrix x -> (m <= ncols x)%nat ->
  for_fold (fun f k => hstack f (products_from k x)) (seq 0 m)
           (mk_matrix (1 + ncols x) (map (fun r => 1 :: r) (rows x)))
  = Ok (quadratic_upto x m).
Proof.
  intros Hw. induction m as [|m IH]; intros Hm.
  - unfold quadratic_upto, pairs_from. cbn [seq flat_map length for_fold map].
    rewrite Nat.add_0_r. do 2 f_equal. apply map_ext. intros r.
    now rewrite app_nil_r.
  - rewrite seq_S, for_fold_last, IH by lia. cbn [bind Nat.add].
    unfold hstack, quadratic_upto, products_from, nrows. cbn [rows ncols].
    rewrite !length_map, Nat.eqb_refl. f_equal.
    rewrite pairs_from_S, length_app, length_map, length_seq.
    f_equal; [lia|].
    rewrite map2_of_maps_app. apply map_ext_in. intros r Hin.
    unfold wf_matrix in Hw. rewrite Forall_forall in Hw.
    rewrite skipn_products, (Hw r Hin), map_app.
    now rewrite <- app_assoc.
Qed.

(** The columns of the three regression models: constant is the column
    of ones, linear puts the inputs after it, and quadratic appends the
    products [x_k * x_l] for [k <= l], squares included:
    [1 + n + n (n + 1) / 2] columns in all. *)
Theorem regression_columns (x : matrix) :
  wf_matrix x ->
  let n := ncols x in
  rows (constant x) = map (fun _ => [1]) (rows x)
  /\ linear x = Ok (mk_matrix (1 + n) (map (fun r => 1 :: r) (rows x)))
  /\ quadratic x
     = Ok (mk_matrix (1 + n + n * (n + 1) / 2)
                     (map (fun r => (1 :: r)
                                    ++ map (product_of r) (pairs_from n n))
                          (rows x)))
  /\ (forall k l, In (k, l) (pairs_from n n) <-> (k <= l < n)%nat).
Proof.
  intros Hw n. split; [|split; [|split]].
  - unfold constant, ones, nrows. cbn [rows].
    induction (rows x) as [|r l IH]; simpl in *; [reflexivity|].
    now rewrite IH.
  - apply linear_result.
  - unfold quadratic. fold (linear x). rewrite linear_result. cbn [bind].
    rewrite (quadratic_loop Hw (le_n _)). unfold quadratic_upto.
    now rewrite pairs_from_all.
  - intros k l. unfold pairs_from. rewrite in_flat_map. split.
    + intros (a & Ha & Hin). apply in_map_iff in Hin.
      destruct Hin as (b & Hb & Hin). injection Hb as <- <-.
      apply in_seq in Ha, Hin. lia.
    + intros Hkl. exists k. split; [apply in_seq; lia|].
      apply in_map_iff. exists l. split; [reflexivity|apply in_seq; lia].
Qed.

Lemma regression_columns_witness :
  quadratic (mk_matrix 2 [[2; 3]])
  = Ok (mk_matrix (1 + 2 + 2 * (2 + 1) / 2)
                  (map (fun r => (1 :: r)
                                 ++ map (product_of r) (pairs_from 2 2))
                       [[2; 3]])).
Proof.
  apply (@regression_columns (mk_matrix 2 [[2; 3]])).
  repeat constructor.
Defined.

End RegressionFacts.

(** ** standardization: what the scaled arrays satisfy *)

Module StandardizationFacts.
Import Kernels ExtremaFacts Gower Standardization.
Local Open Scope R_scope.

Definition col_mean (l : list R) : R := rsum l / INR (length l).
Definition col_std (l : list R) : R :=
  sqrt (rsum (map (fun x => (x - col_mean l) ^ 2) l) / INR (length l - 1)).
Definition column_min (l : list R) : R :=
  match l with [] => 0 | x :: l' => fold_left Rmin l' x end.
Definition column_max (l : list R) : R :=
  match l with [] => 0 | x :: l' => fold_left Rmax l' x end.

Definition columns (X : matrix) : list (list R) :=
  map (fun c => column c (rows X)) (seq 0 (ncols X)).

Lemma for_each_total {A B} (f : A -> result B) (g : A -> B) l :
  (forall a, In a l -> f a = Ok (g a)) -> for_each f l = Ok (map g l).
Proof.
  induction l as [|a l IH]; intros H; [reflexivity|].
  simpl. rewrite (H a (or_introl eq_refl)). cbn [bind].
  rewrite IH by (intros a' Ha; apply H; now right). reflexivity.
Qed.

Lemma column_length c (M : list (list R)) : length (column c M) = length M.
Proof. apply length_map. Qed.

Lemma per_column_total (f : list R -> result R) (g : list R -> R) X :
  (forall l, length l = nrows X -> f l = Ok (g l)) ->
  per_column f X = Ok (map g (columns X)).
Proof.
  intros H. unfold per_column, columns. rewrite map_map.
  apply for_each_total. intros c _. apply H, column_length.
Qed.

Lemma mean_total l : (0 < length l)%nat -> mean l = Ok (col_mean l).
Proof.
  intros H. unfold mean. destruct (Nat.eqb_spec (length l) 0); [lia|].
  reflexivity.
Qed.

Lemma std1_total l : (1 < length l)%nat -> std1 l = Ok (col_std l).
Proof.
  intros H. unfold std1. destruct (Nat.leb_spec (length l) 1); [lia|].
  reflexivity.
Qed.

Lemma amin_total l : (0 < length l)%nat -> amin l = Ok (column_min l).
Proof. destruct l; simpl; [lia|reflexivity]. Qed.

Lemma amax_total l : (0 < length l)%nat -> amax l = Ok (column_max l).
Proof. destruct l; simpl; [lia|reflexivity]. Qed.

(** The offsets and scales that standardization computes for [X]. *)
Definition offsets (X : matrix) (to_unit : bool) : list R :=
  map (if to_unit then column_min else col_mean) (columns X).

Definition raw_scales (X : matrix) (to_unit : bool) : list R :=
  if to_unit then map2 Rminus (map column_max (columns X)) (map column_min (columns X))
  else map col_std (columns X).

Lemma standardization_result X y (to_unit : bool) :
  ((if to_unit then 0 else 1) < nrows X)%nat -> (1 < nrows y)%nat ->
  standardization X y to_unit
  = Ok (mk_standardized
          (scale_rows X (offsets X to_unit) (fix_zero (raw_scales X to_unit)))
          (scale_rows y (offsets y false) (fix_zero (raw_scales y false)))
          (offsets X to_unit) (offsets y false)
          (fix_zero (raw_scales X to_unit)) (fix_zero (raw_scales y false))).
Proof.
  intros HX Hy. unfold standardization, offsets, raw_scales.
  rewrite (per_column_total mean col_mean y)
    by (intros l Hl; apply mean_total; lia).
  rewrite (per_column_total std1 col_std y)
    by (intros l Hl; apply std1_total; lia).
  destruct to_unit.
  - rewrite (per_column_total amin column_min X)
      by (intros l Hl; apply amin_total; lia).
    rewrite (per_column_total amax column_max X)
      by (intros l Hl; apply amax_total; lia).
    reflexivity.
  - rewrite (per_column_total mean col_mean X)
      by (intros l Hl; apply mean_total; lia).
    rewrite (per_column_total std1 col_std X)
      by (intros l Hl; apply std1_total; lia).
    reflexivity.
Qed.

(** *** Entries of the computed vectors and of the scaled array *)

Lemma nth_map2_in {A B C} (g : A -> B -> C) (a : list A) (b : list B)
    j da db dc :
  (j < length a)%nat -> (j < length b)%nat ->
  nth j (map2 g a b) dc = g (nth j a da) (nth j b db).
Proof.
  revert a b. induction j as [|j IH]; intros [|x a] [|y b] Ha Hb;
    simpl in *; try lia; auto. apply IH; lia.
Qed.

Lemma nth_map_at {A B} (f : A -> B) (l : list A) k da db :
  (k < length l)%nat -> nth k (map f l) db = f (nth k l da).
Proof.
  intros Hk. rewrite (nth_indep _ db (f da)) by now rewrite length_map.
  apply map_nth.
Qed.

Lemma columns_length X : length (columns X) = ncols X.
Proof. unfold columns. now rewrite length_map, length_seq. Qed.

Lemma nth_columns X c :
  (c < ncols X)%nat -> nth c (columns X) [] = column c (rows X).
Proof.
  intros Hc. unfold columns.
  rewrite (nth_map_at _ _ 0%nat) by now rewrite length_seq.
  now rewrite seq_nth.
Qed.

Lemma offsets_length X to_unit : length (offsets X to_unit) = ncols X.
Proof. unfold offsets. now rewrite length_map, columns_length. Qed.

Lemma raw_scales_length X to_unit : length (raw_scales X to_unit) = ncols X.
Proof.
  unfold raw_scales. destruct to_unit.
  - rewrite map2_length, !length_map, columns_length. lia.
  - now rewrite length_map, columns_length.
Qed.

Lemma fix_zero_length l : length (fix_zero l) = length l.
Proof. apply length_map. Qed.

Lemma nth_fix_zero l c :
  (c < length l)%nat ->
  nth c (fix_zero l) 0 = if Req_dec_T (nth c l 0) 0 then 1 else nth c l 0.
Proof. intros Hc. unfold fix_zero. now rewrite (nth_map_at _ _ 0). Qed.

Lemma fix_zero_nonzero l : Forall (fun x => x <> 0) (fix_zero l).
Proof.
  unfold fix_zero. rewrite Forall_map. apply Forall_forall. intros x _.
  destruct (Req_dec_T x 0); lra.
Qed.

Lemma nth_offsets X (to_unit : bool) c :
  (c < ncols X)%nat ->
  nth c (offsets X to_unit) 0
  = (if to_unit then column_min else col_mean) (column c (rows X)).
Proof.
  intros Hc. unfold offsets.
  rewrite (nth_map_at _ _ []) by now rewrite columns_length.
  now rewrite nth_columns.
Qed.

Lemma nth_raw_scales X (to_unit : bool) c :
  (c < ncols X)%nat ->
  nth c (raw_scales X to_unit) 0
  = if to_unit then column_max (column c (rows X)) - column_min (column c (rows X))
    else col_std (column c (rows X)).
Proof.
  intros Hc. unfold raw_scales. destruct to_unit.
  - rewrite (nth_map2_in _ _ _ 0 0) by now rewrite length_map, columns_length.
    rewrite !(nth_map_at _ _ []) by now rewrite columns_length.
    now rewrite nth_columns.
  - rewrite (nth_map_at _ _ []) by now rewrite columns_length.
    now rewrite nth_columns.
Qed.

Lemma scaled_entry (r o s : list R) c :
  (c < length r)%nat -> length o = length r -> length s = length r ->
  nth c (map2 Rdiv (map2 Rminus r o) s) 0
  = (nth c r 0 - nth c o 0) / nth c s 0.
Proof.
  intros Hc Ho Hs.
  rewrite (nth_map2_in _ _ _ 0 0) by (rewrite ?map2_length; lia).
  now rewrite (nth_map2_in _ _ _ 0 0) by lia.
Qed.

Lemma scaled_length (r o s : list R) :
  length o = length r -> length s = length r ->
  length (map2 Rdiv (map2 Rminus r o) s) = length r.
Proof. intros Ho Hs. rewrite !map2_length. lia. Qed.

Lemma scaled_column X o s c :
  wf_matrix X -> length o = ncols X -> length s = ncols X ->
  (c < ncols X)%nat ->
  column c (scale_rows X o s)
  = map (fun x => (x - nth c o 0) / nth c s 0) (column c (rows X)).
Proof.
  intros Hw Ho Hs Hc. unfold column, scale_rows. rewrite !map_map.
  apply map_ext_in. intros r Hin.
  unfold wf_matrix in Hw. rewrite Forall_forall in Hw.
  apply scaled_entry; rewrite (Hw r Hin); auto.
Qed.

(** *** Undoing the scaling *)

Lemma unscale_row (r o s : list R) :
  length o = length r -> length s = length r ->
  Forall (fun x => x <> 0) s ->
  map2 Rplus (map2 Rmult (map2 Rdiv (map2 Rminus r o) s) s) o = r.
Proof.
  revert o s. induction r as [|x r IH]; intros [|a o] [|b s] Ho Hs Hn;
    simpl in *; try lia; [reflexivity|].
  inversion Hn as [|? ? Hb Hn']; subst.
  f_equal; [field; exact Hb|]. apply IH; auto.
Qed.

Lemma unscale_rows X o s :
  wf_matrix X -> length o = ncols X -> length s = ncols X ->
  Forall (fun x => x <> 0) s ->
  map (fun r => map2 Rplus (map2 Rmult r s) o) (scale_rows X o s) = rows X.
Proof.
  intros Hw Ho Hs Hn. unfold scale_rows. rewrite map_map.
  rewrite <- (map_id (rows X)) at 2. apply map_ext_in. intros r Hin.
  unfold wf_matrix in Hw. rewrite Forall_forall in Hw.
  apply unscale_row; rewrite ?(Hw r Hin); auto.
Qed.

(** standardization returns, for at least two rows of [X] (one when
    scaling to the unit cube) and of [y], arrays from which the inputs are
    recovered: [X = X_std * X_scale + X_offset], and the same for [y]; no
    returned scale is zero. *)
Theorem standardization_round_trip (X y : matrix) (to_unit : bool) :
  wf_matrix X -> wf_matrix y ->
  ((if to_unit then 0 else 1) < nrows X)%nat -> (1 < nrows y)%nat ->
  exists s,
    standardization X y to_unit = Ok s
    /\ map (fun r => map2 Rplus (map2 Rmult r (X_scale s)) (X_offset s))
           (std_X s) = rows X
    /\ map (fun r => map2 Rplus (map2 Rmult r (y_std s)) (y_mean s))
           (std_y s) = rows y
    /\ Forall (fun x => x <> 0) (X_scale s)
    /\ Forall (fun x => x <> 0) (y_std s)
    /\ length (X_offset s) = ncols X /\ length (X_scale s) = ncols X
    /\ length (y_mean s) = ncols y /\ length (y_std s) = ncols y.
Proof.
  intros HwX Hwy HX Hy. eexists.
  split; [apply standardization_result; assumption|].
  cbn [std_X std_y X_offset y_mean X_scale y_std].
  pose proof (fix_zero_nonzero (raw_scales X to_unit)) as HnX.
  pose proof (fix_zero_nonzero (raw_scales y false)) as Hny.
  assert (HlX : length (fix_zero (raw_scales X to_unit)) = ncols X)
    by now rewrite fix_zero_length, raw_scales_length.
  assert (Hly : length (fix_zero (raw_scales y false)) = ncols y)
    by now rewrite fix_zero_length, raw_scales_length.
  repeat split; auto using offsets_length.
  - apply unscale_rows; auto using offsets_length.
  - apply unscale_rows; auto using offsets_length.
Qed.

(** *** Scaling to the unit cube *)

Lemma column_bounds l x : In x l -> column_min l <= x <= column_max l.
Proof.
  destruct l as [|a l]; [contradiction|]. unfold column_min, column_max.
  destruct (fold_min_le a l) as [H1 H2], (fold_max_ge a l) as [H3 H4].
  intros [<-|Hx]; split; auto.
Qed.

Lemma col_min_in l : l <> [] -> In (column_min l) l.
Proof. destruct l; [congruence|]. intros _. apply fold_min_in. Qed.

Lemma col_max_in l : l <> [] -> In (column_max l) l.
Proof. destruct l; [congruence|]. intros _. apply fold_max_in. Qed.

(** The map that scaling to the unit cube applies to one column. *)
Definition to_cube (l : list R) (x : R) : R :=
  (x - column_min l)
  / (if Req_dec_T (column_max l - column_min l) 0 then 1
     else column_max l - column_min l).

Lemma to_cube_range l x : In x l -> 0 <= to_cube l x <= 1.
Proof.
  intros Hx. pose proof (column_bounds l x Hx) as [H1 H2]. unfold to_cube.
  destruct (Req_dec_T _ 0) as [E|E].
  - replace x with (column_min l) by lra. lra.
  - assert (Hp : 0 < column_max l - column_min l) by lra.
    split.
    + apply Rmult_le_pos; [lra|]. left. now apply Rinv_0_lt_compat.
    + apply Rmult_le_reg_r with (column_max l - column_min l); [exact Hp|].
      unfold Rdiv. rewrite Rmult_assoc, Rinv_l by exact E. lra.
Qed.

Lemma cube_column X c :
  wf_matrix X -> (c < ncols X)%nat ->
  column c (scale_rows X (offsets X true) (fix_zero (raw_scales X true)))
  = map (to_cube (column c (rows X))) (column c (rows X)).
Proof.
  intros Hw Hc.
  rewrite scaled_column;
    auto using offsets_length;
    [|now rewrite fix_zero_length, raw_scales_length].
  rewrite nth_offsets, nth_fix_zero, nth_raw_scales
    by (rewrite ?raw_scales_length; exact Hc).
  reflexivity.
Qed.

Lemma column_entry (M : list (list R)) r c :
  In r M -> In (nth c r 0) (column c M).
Proof. intros H. unfold column. now apply (in_map (fun r => nth c r 0)). Qed.

Lemma entries_of_columns (P : R -> Prop) (M : list (list R)) n :
  Forall (fun r => length r = n) M ->
  (forall c, (c < n)%nat -> Forall P (column c M)) ->
  Forall (Forall P) M.
Proof.
  intros Hw H. apply Forall_forall. intros r Hr.
  rewrite Forall_forall in Hw. specialize (Hw r Hr).
  apply Forall_nth. intros i d Hi. rewrite (nth_indep _ d 0) by exact Hi.
  assert (Hc : (i < n)%nat) by lia.
  specialize (H i Hc). rewrite Forall_forall in H.
  apply H. now apply column_entry.
Qed.

Lemma scale_rows_wf X o s :
  wf_matrix X -> length o = ncols X -> length s = ncols X ->
  Forall (fun r => length r = ncols X) (scale_rows X o s).
Proof.
  intros Hw Ho Hs. unfold scale_rows. rewrite Forall_map.
  revert Hw. apply Forall_impl. intros r Hr.
  rewrite scaled_length; lia.
Qed.

(** With [scale_X_to_unit], every entry of the returned [X] lies in
    [0, 1]; every column contains a 0, and a 1 unless it is constant. *)
Theorem standardization_unit_cube (X y : matrix) :
  wf_matrix X -> wf_matrix y ->
  (0 < nrows X)%nat -> (1 < nrows y)%nat ->
  exists s,
    standardization X y true = Ok s
    /\ Forall (Forall (fun v => 0 <= v <= 1)) (std_X s)
    /\ forall c, (c < ncols X)%nat ->
         In 0 (column c (std_X s))
         /\ (column_min (column c (rows X)) <> column_max (column c (rows X)) ->
             In 1 (column c (std_X s))).
Proof.
  intros HwX Hwy HX Hy. eexists.
  split; [apply standardization_result; assumption|].
  cbn [std_X].
  assert (Hne : forall c, column c (rows X) <> []).
  { intros c E. apply (f_equal (@length R)) in E.
    rewrite column_length in E. simpl in E. unfold nrows in HX. lia. }
  split.
  - apply entries_of_columns with (n := ncols X).
    + apply scale_rows_wf; auto using offsets_length.
      now rewrite fix_zero_length, raw_scales_length.
    + intros c Hc. rewrite (cube_column HwX Hc), Forall_map.
      apply Forall_forall. apply to_cube_range.
  - intros c Hc. rewrite (cube_column HwX Hc).
    set (l := column c (rows X)). split.
    + apply in_map_iff. exists (column_min l). split; [|apply col_min_in, Hne].
      unfold to_cube. unfold Rdiv. ring.
    + intros Hd. apply in_map_iff. exists (column_max l).
      split; [|apply col_max_in, Hne].
      unfold to_cube. destruct (Req_dec_T _ 0) as [E|E]; [lra|].
      now field.
Qed.

Lemma standardization_unit_cube_witness :
  exists s,
    standardization (mk_matrix 2 [[1; 5]; [3; 5]]) (mk_matrix 1 [[0]; [2]]) true
    = Ok s
    /\ Forall (Forall (fun v => 0 <= v <= 1)) (std_X s).
Proof.
  destruct (@standardization_unit_cube (mk_matrix 2 [[1; 5]; [3; 5]])
              (mk_matrix 1 [[0]; [2]]))
    as (s & H1 & H2 & _).
  - repeat constructor.
  - repeat constructor.
  - cbn. lia.
  - cbn. lia.
  - exists s. split; assumption.
Defined.

Lemma standardization_round_trip_witness :
  exists s,
    standardization (mk_matrix 2 [[1; 5]; [3; 5]]) (mk_matrix 1 [[0]; [2]]) false
    = Ok s
    /\ map (fun r => map2 Rplus (map2 Rmult r (X_scale s)) (X_offset s))
           (std_X s) = [[1; 5]; [3; 5]].
Proof.
  destruct (@standardization_round_trip (mk_matrix 2 [[1; 5]; [3; 5]])
              (mk_matrix 1 [[0]; [2]]) false)
    as (s & H1 & H2 & _).
  - repeat constructor.
  - repeat constructor.
  - cbn. lia.
  - cbn. lia.
  - exists s. split; assumption.
Defined.

(** *** Centering and scaling by the sample standard deviation *)

Lemma rsum_shifted l m s :
  rsum (map (fun x => (x - m) / s) l) = (rsum l - INR (length l) * m) / s.
Proof.
  induction l as [|x l IH].
  - simpl. unfold Rdiv. ring.
  - cbn [map rsum fold_right length]. fold (rsum (map (fun x => (x - m) / s) l)).
    fold (rsum l). rewrite IH, S_INR. unfold Rdiv. ring.
Qed.

Lemma rsum_cons (x : R) (l : list R) : rsum (x :: l) = x + rsum l.
Proof. reflexivity. Qed.

Lemma sumsq_nonneg l m : 0 <= rsum (map (fun x => (x - m) ^ 2) l).
Proof.
  induction l as [|x l IH]; [simpl; lra|].
  cbn [map]. rewrite rsum_cons.
  pose proof (pow2_ge_0 (x - m)) as H. lra.
Qed.

Lemma sumsq_scaled l m s :
  s <> 0 ->
  rsum (map (fun z => (z - 0) ^ 2) (map (fun x => (x - m) / s) l))
  = rsum (map (fun x => (x - m) ^ 2) l) / (s * s).
Proof.
  intros Hs. induction l as [|x l IH].
  - simpl. unfold Rdiv. ring.
  - cbn [map rsum fold_right].
    fold (rsum (map (fun z => (z - 0) ^ 2) (map (fun x => (x - m) / s) l))).
    fold (rsum (map (fun x => (x - m) ^ 2) l)).
    rewrite IH. field. exact Hs.
Qed.

(** The map that centering and scaling applies to one column. *)
Definition to_standard (l : list R) (x : R) : R :=
  (x - col_mean l) / (if Req_dec_T (col_std l) 0 then 1 else col_std l).

Lemma mean_of_standard l :
  (0 < length l)%nat -> col_mean (map (to_standard l) l) = 0.
Proof.
  intros Hl. unfold col_mean at 1, to_standard.
  rewrite rsum_shifted, length_map. unfold col_mean.
  assert (Hn : INR (length l) <> 0) by (apply not_0_INR; lia).
  destruct (Req_dec_T _ 0) as [E|E]; field; auto.
Qed.

Lemma std_of_standard l :
  (1 < length l)%nat -> col_std l <> 0 ->
  col_std (map (to_standard l) l) = 1.
Proof.
  intros Hl Hs. unfold col_std at 1.
  rewrite (mean_of_standard l) by lia. rewrite length_map.
  unfold to_standard. destruct (Req_dec_T _ 0) as [E|_]; [contradiction|].
  rewrite (sumsq_scaled l (col_mean l) Hs).
  set (S := rsum (map (fun x => (x - col_mean l) ^ 2) l)).
  assert (Hn : 0 < INR (length l - 1)) by (apply lt_0_INR; lia).
  assert (HS : 0 <= S / INR (length l - 1)).
  { apply Rmult_le_pos; [apply sumsq_nonneg|].
    left. now apply Rinv_0_lt_compat. }
  assert (Hsq : col_std l * col_std l = S / INR (length l - 1)).
  { unfold col_std. fold S. now apply sqrt_sqrt. }
  replace (S / (col_std l * col_std l) / INR (length l - 1)) with 1;
    [apply sqrt_1|].
  rewrite Hsq. field. split; [lra|].
  intros HS0. apply Hs. unfold col_std. fold S.
  replace (S / INR (length l - 1)) with 0; [apply sqrt_0|].
  rewrite HS0. unfold Rdiv. ring.
Qed.

(** The moments of a column that is not constant, after centering and
    scaling. *)
Definition standardized_column (orig scaled : list R) : Prop :=
  col_std orig <> 0 -> col_mean scaled = 0 /\ col_std scaled = 1.

Lemma standard_column X c :
  wf_matrix X -> (c < ncols X)%nat ->
  column c (scale_rows X (offsets X false) (fix_zero (raw_scales X false)))
  = map (to_standard (column c (rows X))) (column c (rows X)).
Proof.
  intros Hw Hc.
  rewrite scaled_column;
    auto using offsets_length;
    [|now rewrite fix_zero_length, raw_scales_length].
  rewrite nth_offsets, nth_fix_zero, nth_raw_scales
    by (rewrite ?raw_scales_length; exact Hc).
  reflexivity.
Qed.

Lemma standard_moments X c :
  wf_matrix X -> (1 < nrows X)%nat -> (c < ncols X)%nat ->
  standardized_column
    (column c (rows X))
    (column c (scale_rows X (offsets X false)
                          (fix_zero (raw_scales X false)))).
Proof.
  intros Hw Hn Hc Hs. rewrite (standard_column Hw Hc).
  assert (Hl : (1 < length (column c (rows X)))%nat)
    by (rewrite column_length; exact Hn).
  split; [apply mean_of_standard; lia|now apply std_of_standard].
Qed.

(** Without [scale_X_to_unit], every column of the returned [X] whose
    input column is not constant (its sample standard deviation is not
    zero) has mean 0 and sample standard deviation 1; the same holds for
    the returned [y] in both modes. *)
Theorem standardization_moments (X y : matrix) (to_unit : bool) :
  wf_matrix X -> wf_matrix y ->
  (1 < nrows X)%nat -> (1 < nrows y)%nat ->
  exists s,
    standardization X y to_unit = Ok s
    /\ (forall c, (c < ncols y)%nat ->
          col_std (column c (rows y)) <> 0 ->
          col_mean (column c (std_y s)) = 0
          /\ col_std (column c (std_y s)) = 1)
    /\ (to_unit = false ->
        forall c, (c < ncols X)%nat ->
          col_std (column c (rows X)) <> 0 ->
          col_mean (column c (std_X s)) = 0
          /\ col_std (column c (std_X s)) = 1).
Proof.
  intros HwX Hwy HX Hy. eexists.
  split; [apply standardization_result; [destruct to_unit; lia|exact Hy]|].
  cbn [std_X std_y]. split.
  - intros c Hc. now apply standard_moments.
  - intros -> c Hc. now apply standard_moments.
Qed.

Lemma standardization_moments_witness :
  exists s,
    standardization (mk_matrix 2 [[1; 5]; [3; 5]]) (mk_matrix 1 [[0]; [2]]) false
    = Ok s.
Proof.
  destruct (@standardization_moments (mk_matrix 2 [[1; 5]; [3; 5]])
              (mk_matrix 1 [[0]; [2]]) false)
    as (s & H1 & _).
  - repeat constructor.
  - repeat constructor.
  - cbn. lia.
  - cbn. lia.
  - exists s. exact H1.
Defined.

End StandardizationFacts.

(** ** Rosenbrock: minimum and derivatives *)

Module RosenbrockFacts.
Import Kernels GradientFacts SumFacts Rosenbrock.
Local Open Scope R_scope.

(** The function that [_evaluate] computes on one evaluation point. *)
Definition rosenbrock (r : list R) : R :=
  rsum (map (fun ix => value_term ix r) (seq 0 (length r - 1))).

Lemma add_column_map y (a : list R -> R) x term :
  y = map a (rows x) ->
  add_column y x term = map (fun r => a r + term r) (rows x).
Proof.
  intros ->. unfold add_column. induction (rows x); simpl; congruence.
Qed.

Lemma value_loop_rows x l (a : list R -> R) :
  fold_left (fun y ix => add_column y x (value_term ix)) l (map a (rows x))
  = map (fun r => a r + rsum (map (fun ix => value_term ix r) l)) (rows x).
Proof.
  revert a. induction l as [|ix l IH]; intros a.
  - simpl. apply map_ext. intros r. ring.
  - cbn [fold_left]. rewrite (add_column_map a x _ eq_refl), IH.
    apply map_ext. intros r. cbn [map]. change (rsum (value_term ix r :: map (fun ix0 => value_term ix0 r) l)) with (value_term ix r + rsum (map (fun ix0 => value_term ix0 r) l)). ring.
Qed.

Lemma zeros_column x : repeat 0 (nrows x) = map (fun _ => 0) (rows x).
Proof. unfold nrows. induction (rows x); simpl; congruence. Qed.

Lemma evaluate_value x :
  wf_matrix x ->
  evaluate x None = Ok (map rosenbrock (rows x)).
Proof.
  intros Hw. unfold evaluate. rewrite zeros_column, value_loop_rows.
  f_equal. apply map_ext_in. intros r Hin.
  unfold wf_matrix in Hw. rewrite Forall_forall in Hw.
  unfold rosenbrock. rewrite (Hw r Hin). ring.
Qed.

(** *** The minimum *)

Lemma value_term_nonneg ix r : 0 <= value_term ix r.
Proof.
  unfold value_term.
  pose proof (pow2_ge_0 (nth (ix + 1) r 0 - nth ix r 0 ^ 2)).
  pose proof (pow2_ge_0 (1 - nth ix r 0)). lra.
Qed.

Lemma value_term_zero ix r :
  value_term ix r = 0 -> nth ix r 0 = 1 /\ nth (ix + 1) r 0 = 1.
Proof.
  unfold value_term. intros H.
  pose proof (pow2_ge_0 (nth (ix + 1) r 0 - nth ix r 0 ^ 2)) as Ha.
  pose proof (pow2_ge_0 (1 - nth ix r 0)) as Hb.
  assert (Ea : (nth (ix + 1) r 0 - nth ix r 0 ^ 2) ^ 2 = 0) by lra.
  assert (Eb : (1 - nth ix r 0) ^ 2 = 0) by lra.
  simpl in Ea, Eb. rewrite Rmult_1_r in Ea, Eb.
  apply Rmult_integral in Ea, Eb.
  assert (E1 : nth ix r 0 = 1) by lra.
  split; [exact E1|]. rewrite E1 in Ea. lra.
Qed.

Lemma rsum_terms_nonneg {A} (f : A -> R) l :
  (forall a, 0 <= f a) -> 0 <= rsum (map f l).
Proof.
  intros Hf. induction l as [|a l IH]; [simpl; lra|].
  cbn [map]. change (0 <= f a + rsum (map f l)). specialize (Hf a). lra.
Qed.

Lemma rsum_terms_zero {A} (f : A -> R) l :
  (forall a, 0 <= f a) -> rsum (map f l) = 0 ->
  forall a, In a l -> f a = 0.
Proof.
  intros Hf. induction l as [|b l IH]; intros H a Hin; [contradiction|].
  cbn [map] in H. change (f b + rsum (map f l) = 0) in H.
  pose proof (Hf b). pose proof (rsum_terms_nonneg f l Hf).
  destruct Hin as [<-|Hin]; [lra|]. apply IH; [lra|exact Hin].
Qed.

Lemma rosenbrock_nonneg r : 0 <= rosenbrock r.
Proof.
  apply rsum_terms_nonneg. intros ix. apply value_term_nonneg.
Qed.

Lemma rosenbrock_at_ones r :
  Forall (fun v => v = 1) r -> rosenbrock r = 0.
Proof.
  intros H. unfold rosenbrock.
  assert (Hn : forall i, (i < length r)%nat -> nth i r 0 = 1).
  { intros i Hi. rewrite Forall_forall in H. apply H, nth_In, Hi. }
  assert (Hz : forall ix, In ix (seq 0 (length r - 1)) -> value_term ix r = 0).
  { intros ix Hix. apply in_seq in Hix. unfold value_term.
    rewrite !Hn by lia. ring. }
  induction (seq 0 (length r - 1)) as [|ix l IH]; [reflexivity|].
  cbn [map]. change (value_term ix r + rsum (map (fun ix => value_term ix r) l) = 0).
  rewrite Hz by now left. rewrite IH; [ring|].
  intros a Ha. apply Hz. now right.
Qed.

Lemma rosenbrock_zero r :
  (2 <= length r)%nat -> rosenbrock r = 0 -> Forall (fun v => v = 1) r.
Proof.
  intros Hl Hz. unfold rosenbrock in Hz.
  pose proof (rsum_terms_zero (fun ix => value_term ix r) _
                (fun ix => value_term_nonneg ix r) Hz) as Ht.
  apply Forall_nth. intros i d Hi. rewrite (nth_indep _ d 0) by exact Hi.
  destruct (Nat.lt_ge_cases i (length r - 1)) as [Hlt|Hge].
  - apply (@value_term_zero i r). apply Ht, in_seq. lia.
  - assert (Ei : i = (i - 1 + 1)%nat) by lia. rewrite Ei.
    apply (@value_term_zero (i - 1) r). apply Ht, in_seq. lia.
Qed.

(** In value mode every returned value is non-negative, it is 0 at the
    point whose coordinates are all 1, and with at least two coordinates
    only there. *)
Theorem rosenbrock_minimum (x : matrix) :
  wf_matrix x ->
  exists y,
    evaluate x None = Ok y
    /\ length y = nrows x
    /\ Forall (fun v => 0 <= v) y
    /\ forall e, (e < nrows x)%nat ->
         (Forall (fun v => v = 1) (row x e) -> nth e y 0 = 0)
         /\ ((2 <= ncols x)%nat -> nth e y 0 = 0 ->
             Forall (fun v => v = 1) (row x e)).
Proof.
  intros Hw. exists (map rosenbrock (rows x)).
  split; [now apply evaluate_value|].
  split; [apply length_map|].
  split.
  { rewrite Forall_map. apply Forall_forall. intros r _.
    apply rosenbrock_nonneg. }
  intros e He.
  assert (Hy : nth e (map rosenbrock (rows x)) 0 = rosenbrock (row x e)).
  { rewrite (nth_indep _ 0 (rosenbrock [])) by now rewrite length_map.
    apply map_nth. }
  rewrite Hy. split; [apply rosenbrock_at_ones|].
  intros Hn. apply rosenbrock_zero.
  unfold wf_matrix in Hw. rewrite Forall_forall in Hw.
  rewrite (Hw (row x e)); [exact Hn|]. apply nth_In, He.
Qed.

Lemma rosenbrock_minimum_witness :
  exists y,
    evaluate (mk_matrix 3 [[1; 1; 1]; [0; 2; -1]]) None = Ok y
    /\ length y = 2%nat
    /\ Forall (fun v => 0 <= v) y.
Proof.
  destruct (@rosenbrock_minimum (mk_matrix 3 [[1; 1; 1]; [0; 2; -1]]))
    as (y & H1 & H2 & H3 & _).
  - repeat constructor.
  - exists y. repeat split; assumption.
Defined.

(** *** The derivative mode *)

Lemma dlim_forward (u x : R) :
  derivable_pt_lim (fun t => 100 * (u - t ^ 2) ^ 2 + (1 - t) ^ 2) x
                   (-400 * (u - x ^ 2) * x - 2 * (1 - x)).
Proof.
  set (p := fun t : R => u + t * 0 + t * t * (- (1))).
  set (q := fun t : R => 1 + t * (- (1))).
  apply (@dlim_ext (fun t => 100 * (p t * p t) + q t * q t) _ x
           (100 * ((0 + 2 * x * (- (1))) * p x + p x * (0 + 2 * x * (- (1))))
            + ((- (1)) * q x + q x * (- (1)))) _).
  - intros t. unfold p, q. ring.
  - unfold p, q. ring.
  - apply (@dlim_plus (fun t => 100 * (p t * p t)) (fun t => q t * q t)).
    + apply dlim_scal. apply (@dlim_mult p p); apply dlim_quadratic.
    + apply (@dlim_mult q q); apply dlim_affine.
Qed.

Lemma dlim_backward (v x : R) :
  derivable_pt_lim (fun t => 100 * (t - v ^ 2) ^ 2 + (1 - v) ^ 2) x
                   (200 * (x - v ^ 2)).
Proof.
  set (p := fun t : R => - v ^ 2 + t * 1).
  apply (@dlim_ext (fun t => 100 * (p t * p t) + (1 - v) ^ 2) _ x
           (100 * (1 * p x + p x * 1) + 0) _).
  - intros t. unfold p. ring.
  - unfold p. ring.
  - apply (@dlim_plus (fun t => 100 * (p t * p t)) (fun _ => (1 - v) ^ 2));
      [|apply dlim_const].
    apply dlim_scal. apply (@dlim_mult p p); apply dlim_affine.
Qed.

(** The derivative of one term of the sum with respect to coordinate
    [k]. *)
Definition term_derivative (k : nat) (r : list R) (ix : nat) : R :=
  (if (ix =? k)%nat then forward_term k r else 0)
  + (if (ix + 1 =? k)%nat then backward_term k r else 0).

Lemma value_term_derivative r k ix :
  (k < length r)%nat ->
  derivable_pt_lim (fun t => value_term ix (set_nth k t r)) (nth k r 0)
                   (term_derivative k r ix).
Proof.
  intros Hk. unfold term_derivative, value_term.
  destruct (Nat.eqb_spec ix k) as [->|Hne];
    [|destruct (Nat.eqb_spec (ix + 1) k) as [E|Hne1]].
  - assert (H1 : (k + 1 =? k)%nat = false) by (apply Nat.eqb_neq; lia).
    rewrite H1.
    apply (@dlim_ext
             (fun t => 100 * (nth (k + 1) r 0 - t ^ 2) ^ 2 + (1 - t) ^ 2) _ _
             (forward_term k r) _).
    + intros t. rewrite !nth_set_nth by exact Hk.
      now rewrite H1, Nat.eqb_refl.
    + ring.
    + apply dlim_forward.
  - apply (@dlim_ext
             (fun t => 100 * (t - nth ix r 0 ^ 2) ^ 2 + (1 - nth ix r 0) ^ 2)
             _ _ (backward_term k r) _).
    + intros t. rewrite !nth_set_nth by exact Hk.
      apply Nat.eqb_eq in E. rewrite E.
      apply Nat.eqb_neq in Hne. now rewrite Hne.
    + ring.
    + unfold backward_term. replace (k - 1)%nat with ix by lia.
      apply dlim_backward.
  - apply (@dlim_ext (fun _ => value_term ix r) _ _ 0 _).
    + intros t. unfold value_term. rewrite !nth_set_nth by exact Hk.
      apply Nat.eqb_neq in Hne, Hne1. now rewrite Hne, Hne1.
    + ring.
    + apply dlim_const.
Qed.

Lemma total_derivative r k :
  (k < length r)%nat ->
  rsum (map (term_derivative k r) (seq 0 (length r - 1)))
  = (if (k <? length r - 1)%nat then forward_term k r else 0)
    + (if (0 <? k)%nat then backward_term k r else 0).
Proof.
  intros Hk. unfold term_derivative. rewrite rsum_plus. f_equal.
  - apply (rsum_pick (fun ix => (ix =? k)%nat) (fun _ => forward_term k r)).
    intros ix _. apply Nat.eqb_eq.
  - destruct k as [|k].
    + cbn [Nat.ltb Nat.leb]. clear Hk.
      induction (seq 0 (length r - 1)) as [|ix l IH]; [reflexivity|].
      cbn [map]. rewrite rsum_head. rewrite IH.
      assert (H : (ix + 1 =? 0)%nat = false) by (apply Nat.eqb_neq; lia).
      rewrite H. ring.
    + rewrite (rsum_pick (fun ix => (ix + 1 =? S k)%nat)
                         (fun _ => backward_term (S k) r) (k := k)).
      * rewrite (proj2 (Nat.ltb_lt k (length r - 1))) by lia. reflexivity.
      * intros ix _. rewrite Nat.eqb_eq. lia.
Qed.

Lemma rosenbrock_derivative_row r k :
  (k < length r)%nat ->
  derivable_pt_lim (fun t => rosenbrock (set_nth k t r)) (nth k r 0)
    ((if (k <? length r - 1)%nat then forward_term k r else 0)
     + (if (0 <? k)%nat then backward_term k r else 0)).
Proof.
  intros Hk. rewrite <- (total_derivative r Hk).
  apply (@dlim_ext
           (fun t => rsum (map (fun ix => value_term ix (set_nth k t r))
                               (seq 0 (length r - 1)))) _ _
           (rsum (map (term_derivative k r) (seq 0 (length r - 1)))) _).
  - intros t. unfold rosenbrock. now rewrite length_set_nth.
  - reflexivity.
  - apply (@dlim_rsum nat (fun ix t => value_term ix (set_nth k t r))).
    intros ix _. now apply value_term_derivative.
Qed.

Lemma evaluate_derivative x k :
  (k < ncols x)%nat ->
  evaluate x (Some k)
  = Ok (map (fun r => (if (k <? ncols x - 1)%nat then forward_term k r else 0)
                      + (if (0 <? k)%nat then backward_term k r else 0))
            (rows x)).
Proof.
  intros Hk. unfold evaluate. rewrite zeros_column.
  apply Nat.ltb_lt in Hk. rewrite Hk.
  destruct (k <? ncols x - 1)%nat, (0 <? k)%nat; f_equal.
  - rewrite (add_column_map (fun _ => 0) x _ eq_refl).
    rewrite (add_column_map _ x _ eq_refl).
    apply map_ext. intros r. ring.
  - rewrite (add_column_map (fun _ => 0) x _ eq_refl).
    apply map_ext. intros r. ring.
  - rewrite (add_column_map (fun _ => 0) x _ eq_refl).
    apply map_ext. intros r. ring.
  - apply map_ext. intros r. ring.
Qed.

(** With [kx = k], [_evaluate] returns for every evaluation point the
    partial derivative of the function value with respect to coordinate
    [k]. *)
Theorem rosenbrock_derivative (x : matrix) (k : nat) :
  wf_matrix x -> (k < ncols x)%nat ->
  exists dy,
    evaluate x (Some k) = Ok dy
    /\ Forall2 (fun r d =>
                  derivable_pt_lim (fun t => rosenbrock (set_nth k t r))
                                   (nth k r 0) d)
               (rows x) dy.
Proof.
  intros Hw Hk. eexists. split; [now apply evaluate_derivative|].
  apply Forall2_map_r. intros r Hin.
  unfold wf_matrix in Hw. rewrite Forall_forall in Hw.
  rewrite <- (Hw r Hin) in *.
  now apply rosenbrock_derivative_row.
Qed.

Lemma rosenbrock_derivative_witness :
  exists dy,
    evaluate (mk_matrix 3 [[1; 1; 1]; [0; 2; -1]]) (Some 1%nat) = Ok dy
    /\ Forall2 (fun r d =>
                  derivable_pt_lim (fun t => rosenbrock (set_nth 1 t r))
                                   (nth 1 r 0) d)
               [[1; 1; 1]; [0; 2; -1]] dy.
Proof.
  apply (@rosenbrock_derivative (mk_matrix 3 [[1; 1; 1]; [0; 2; -1]]) 1).
  - repeat constructor.
  - cbn. lia.
Defined.

End RosenbrockFacts.

(** ** act_exp: gradient and Hessian *)

Module ActFacts.
Import Kernels KernelFacts GradientFacts SumFacts.
Local Open Scope R_scope.

(** [d_A[k, s]] for one row of [d]: the projection on the [s]-th
    direction stored in theta. *)
Definition projection (theta : list R) (n : nat) (drow : list R) (s : nat)
    : R :=
  rsum (map (fun c => nth c drow 0 * nth (s * n + c) theta 0) (seq 0 n)).

Lemma act_value_projection theta n drow :
  act_value theta n drow
  = exp (- (1 / 2) * rsum (map (fun s => projection theta n drow s ^ 2)
                               (seq 0 (length theta / n)))).
Proof. unfold act_value, projection. now rewrite map_map. Qed.

(** The index [g] of theta is the entry [(g mod n, g / n)] of [A]. *)
Lemma index_split n s c g :
  (c < n)%nat -> (s * n + c = g <-> s = g / n /\ c = g mod n)%nat.
Proof.
  intros Hc. split.
  - intros <-. split.
    + rewrite Nat.div_add_l by lia. rewrite Nat.div_small by lia. lia.
    + rewrite Nat.add_comm, Nat.Div0.mod_add. now rewrite Nat.mod_small.
  - intros [-> ->]. pose proof (Nat.div_mod_eq g n). lia.
Qed.

Lemma projection_derivative theta n drow s g :
  (0 < n)%nat -> (g < length theta)%nat ->
  derivable_pt_lim (fun t => projection (set_nth g t theta) n drow s)
                   (nth g theta 0)
                   (if (s =? g / n)%nat then nth (g mod n) drow 0 else 0).
Proof.
  intros Hn Hg. unfold projection.
  apply (@dlim_ext
           (fun t => rsum (map (fun c => nth c drow 0
                                         * nth (s * n + c) (set_nth g t theta) 0)
                               (seq 0 n))) _ _
           (rsum (map (fun c => if (s * n + c =? g)%nat
                                then nth c drow 0 else 0) (seq 0 n))) _).
  - reflexivity.
  - destruct (Nat.eqb_spec s (g / n)) as [->|Hs].
    + rewrite (rsum_pick (fun c => (g / n * n + c =? g)%nat)
                         (fun c => nth c drow 0) (k := g mod n)).
      * rewrite (proj2 (Nat.ltb_lt (g mod n) n)); [reflexivity|].
        apply Nat.mod_upper_bound. lia.
      * intros c Hc. rewrite Nat.eqb_eq, (index_split _ _ Hc). tauto.
    + rewrite (rsum_pick (fun c => (s * n + c =? g)%nat)
                         (fun c => nth c drow 0) (k := n)).
      * now rewrite Nat.ltb_irrefl.
      * intros c Hc. rewrite Nat.eqb_eq, (index_split _ _ Hc). lia.
  - apply (@dlim_rsum nat (fun c t => nth c drow 0
                                      * nth (s * n + c) (set_nth g t theta) 0)).
    intros c _. destruct (Nat.eqb_spec (s * n + c) g) as [E|E].
    + apply (@dlim_ext (fun t => nth c drow 0 * t) _ _ (nth c drow 0 * 1) _).
      * intros t. rewrite nth_set_nth by exact Hg.
        apply Nat.eqb_eq in E. now rewrite E.
      * ring.
      * apply dlim_scal, dlim_id.
    + apply (@dlim_ext (fun _ => nth c drow 0 * nth (s * n + c) theta 0) _ _ 0 _).
      * intros t. rewrite nth_set_nth by exact Hg.
        apply Nat.eqb_neq in E. now rewrite E.
      * reflexivity.
      * apply dlim_const.
Qed.

(** What act_exp leaves in one row in gradient mode. *)
Definition act_grad (theta : list R) (n g : nat) (drow : list R) : R :=
  - col (g mod n) drow * projection theta n drow (g / n)
  * act_value theta n drow.

Lemma act_value_derivative theta n drow g :
  (0 < n)%nat -> (g < length theta)%nat -> (g / n < length theta / n)%nat ->
  derivable_pt_lim (fun t => act_value (set_nth g t theta) n drow)
                   (nth g theta 0) (act_grad theta n g drow).
Proof.
  intros Hn Hg Hs. unfold act_grad.
  set (x := nth g theta 0).
  set (ns := (length theta / n)%nat) in *.
  set (P := fun s t => projection (set_nth g t theta) n drow s).
  assert (HP : forall s, P s x = projection theta n drow s).
  { intros s. unfold P, x. now rewrite set_nth_same. }
  set (dP := fun s => if (s =? g / n)%nat then nth (g mod n) drow 0 else 0).
  set (Q := fun t => rsum (map (fun s => P s t * P s t) (seq 0 ns))).
  apply (@dlim_ext (fun t => exp (- (1 / 2) * Q t)) _ x
           (exp (- (1 / 2) * Q x)
            * (- (1 / 2)
               * rsum (map (fun s => dP s * P s x + P s x * dP s) (seq 0 ns))))
           _).
  - intros t. rewrite act_value_projection, length_set_nth by exact Hg.
    fold ns. unfold Q, P. do 2 f_equal. apply rsum_ext_in. intros s _. ring.
  - rewrite act_value_projection. fold ns.
    assert (HQ : Q x = rsum (map (fun s => projection theta n drow s ^ 2)
                                 (seq 0 ns))).
    { unfold Q. apply rsum_ext_in. intros s _. rewrite HP. ring. }
    rewrite HQ.
    assert (Hsum : rsum (map (fun s => dP s * P s x + P s x * dP s) (seq 0 ns))
                   = 2 * (col (g mod n) drow * projection theta n drow (g / n))).
    { transitivity
        (rsum (map (fun s => if (s =? g / n)%nat
                             then 2 * (nth (g mod n) drow 0 * P s x) else 0)
                   (seq 0 ns))).
      - apply rsum_ext_in. intros s _. unfold dP.
        destruct (s =? g / n)%nat; ring.
      - rewrite (rsum_pick (fun s => (s =? g / n)%nat)
                   (fun s => 2 * (nth (g mod n) drow 0 * P s x)) (k := g / n)).
        + rewrite (proj2 (Nat.ltb_lt (g / n) ns)) by exact Hs.
          now rewrite HP.
        + intros s _. apply Nat.eqb_eq. }
    rewrite Hsum. field.
  - apply (@dlim_exp (fun t => - (1 / 2) * Q t)). apply dlim_scal.
    apply (@dlim_rsum nat (fun s t => P s t * P s t)).
    intros s _. apply (@dlim_mult (P s) (P s));
      apply projection_derivative; assumption.
Qed.

Lemma nth_projection theta n drow s :
  (s < length theta / n)%nat ->
  nth s (map (fun s => rsum (map (fun c => nth c drow 0
                                           * nth (s * n + c) theta 0)
                                 (seq 0 n)))
             (seq 0 (length theta / n))) 0
  = projection theta n drow s.
Proof.
  intros Hs. rewrite (nth_indep _ 0 (projection theta n drow 0%nat))
    by now rewrite length_map, length_seq.
  rewrite (map_nth (fun s => projection theta n drow s)).
  now rewrite seq_nth.
Qed.

Lemma index_in_range (theta : list R) n g :
  n <> 0%nat -> (length theta mod n = 0)%nat -> (g < length theta)%nat ->
  (g / n < length theta / n)%nat.
Proof.
  intros Hn Hm Hg. apply Nat.Div0.div_lt_upper_bound.
  apply Nat.Div0.div_exact in Hm. lia.
Qed.

Lemma map2_combine_maps {A B C} (f : A * B -> C -> C) (a : A -> B)
    (b : A -> C) (l : list A) :
  map2 f (combine l (map a l)) (map b l) = map (fun x => f (x, a x) (b x)) l.
Proof. induction l; simpl; congruence. Qed.

Lemma act_exp_grad theta d g :
  ncols d <> 0%nat -> (length theta mod ncols d = 0)%nat ->
  (g < length theta)%nat ->
  act_exp theta d (Some g) None None
  = Ok (Corr (map (act_grad theta (ncols d) g) (rows d))).
Proof.
  intros Hn Hm Hg. pose proof (index_in_range theta Hn Hm Hg) as Hs.
  unfold act_exp.
  apply Nat.eqb_neq in Hn. rewrite Hn.
  apply Nat.eqb_eq in Hm. rewrite Hm. cbn [negb].
  rewrite (proj2 (Nat.ltb_lt _ _) Hs). cbn [bind]. do 2 f_equal.
  rewrite map_map, map2_combine_maps. apply map_ext. intros drow.
  cbn [fst snd]. unfold act_grad, col.
  rewrite (nth_projection theta (ncols d) drow Hs).
  now rewrite act_value_projection, map_map.
Qed.

(** What act_exp leaves in one row in Hessian mode. *)
Definition act_hess (theta : list R) (n g h : nat) (drow : list R) : R :=
  let fact := - projection theta n drow (g / n)
              * projection theta n drow (h / n) in
  let fact := if (h / n =? g / n)%nat then 1 + fact else fact in
  - col (g mod n) drow * col (h mod n) drow * fact * act_value theta n drow.

Lemma act_exp_hess theta d g h :
  ncols d <> 0%nat -> (length theta mod ncols d = 0)%nat ->
  (g < length theta)%nat -> (h < length theta)%nat ->
  act_exp theta d (Some g) (Some h) None
  = Ok (Corr (map (act_hess theta (ncols d) g h) (rows d))).
Proof.
  intros Hn Hm Hg Hh.
  pose proof (index_in_range theta Hn Hm Hg) as Hsg.
  pose proof (index_in_range theta Hn Hm Hh) as Hsh.
  unfold act_exp.
  apply Nat.eqb_neq in Hn. rewrite Hn.
  apply Nat.eqb_eq in Hm. rewrite Hm. cbn [negb].
  rewrite (proj2 (Nat.ltb_lt _ _) Hsg), (proj2 (Nat.ltb_lt _ _) Hsh).
  cbn [andb bind]. do 2 f_equal.
  rewrite map_map, map2_combine_maps. apply map_ext. intros drow.
  cbn [fst snd]. unfold act_hess, col.
  rewrite (nth_projection theta (ncols d) drow Hsg).
  rewrite (nth_projection theta (ncols d) drow Hsh).
  now rewrite act_value_projection, map_map.
Qed.

Lemma act_grad_derivative theta n drow g h :
  (0 < n)%nat -> (g < length theta)%nat -> (h < length theta)%nat ->
  (h / n < length theta / n)%nat ->
  derivable_pt_lim (fun t => act_grad (set_nth h t theta) n g drow)
                   (nth h theta 0) (act_hess theta n g h drow).
Proof.
  intros Hn Hg Hh Hs. unfold act_grad, act_hess. cbv zeta.
  set (x := nth h theta 0).
  set (P := fun t => projection (set_nth h t theta) n drow (g / n)).
  set (V := fun t => act_value (set_nth h t theta) n drow).
  assert (HPx : P x = projection theta n drow (g / n))
    by (unfold P, x; now rewrite set_nth_same).
  assert (HVx : V x = act_value theta n drow)
    by (unfold V, x; now rewrite set_nth_same).
  pose proof (@projection_derivative theta n drow (g / n) h Hn Hh) as HdP.
  pose proof (@act_value_derivative theta n drow h Hn Hh Hs) as HdV.
  fold x P in HdP. fold x V in HdV. unfold act_grad in HdV.
  apply (@dlim_ext (fun t => - col (g mod n) drow * (P t * V t)) _ x
           (- col (g mod n) drow
            * ((if (g / n =? h / n)%nat then nth (h mod n) drow 0 else 0) * V x
               + P x * (- col (h mod n) drow * projection theta n drow (h / n)
                        * act_value theta n drow))) _).
  - intros t. unfold P, V. ring.
  - rewrite HPx, HVx. rewrite (Nat.eqb_sym (h / n) (g / n)). unfold col.
    destruct (g / n =? h / n)%nat; ring.
  - apply dlim_scal. apply (@dlim_mult P V); assumption.
Qed.

(** act_exp: with [grad_ind = g] the returned rows are the partial
    derivatives of the value with respect to [theta[g]], and with
    [hess_ind = h] in addition, the partial derivatives of those with
    respect to [theta[h]]. *)
Theorem act_exp_derivatives (theta : list R) (d : matrix) (g h : nat) :
  ncols d <> 0%nat -> (length theta mod ncols d = 0)%nat ->
  (g < length theta)%nat -> (h < length theta)%nat ->
  exists dr d2r,
    act_exp theta d (Some g) None None = Ok (Corr dr)
    /\ act_exp theta d (Some g) (Some h) None = Ok (Corr d2r)
    /\ Forall2 (fun drow x =>
                  derivable_pt_lim
                    (fun t => act_value (set_nth g t theta) (ncols d) drow)
                    (nth g theta 0) x)
               (rows d) dr
    /\ Forall2 (fun drow x =>
                  derivable_pt_lim
                    (fun t => act_grad (set_nth h t theta) (ncols d) g drow)
                    (nth h theta 0) x)
               (rows d) d2r.
Proof.
  intros Hn Hm Hg Hh. do 2 eexists.
  split; [now apply act_exp_grad|].
  split; [now apply act_exp_hess|].
  assert (Hpos : (0 < ncols d)%nat) by lia.
  split; apply Forall2_map_r; intros drow _.
  - apply act_value_derivative; auto using index_in_range.
  - apply act_grad_derivative; auto using index_in_range.
Qed.

Lemma act_exp_derivatives_witness :
  exists dr d2r,
    act_exp [1; 2; 3; 4] (mk_matrix 2 [[1; -1]]) (Some 1%nat) None None
    = Ok (Corr dr)
    /\ act_exp [1; 2; 3; 4] (mk_matrix 2 [[1; -1]]) (Some 1%nat) (Some 2%nat)
               None = Ok (Corr d2r)
    /\ Forall2 (fun drow x =>
                  derivable_pt_lim
                    (fun t => act_value (set_nth 1 t [1; 2; 3; 4]) 2 drow)
                    2 x)
               [[1; -1]] dr
    /\ Forall2 (fun drow x =>
                  derivable_pt_lim
                    (fun t => act_grad (set_nth 2 t [1; 2; 3; 4]) 2 1 drow)
                    3 x)
               [[1; -1]] d2r.
Proof.
  apply (@act_exp_derivatives [1; 2; 3; 4] (mk_matrix 2 [[1; -1]]) 1 2).
  - discriminate.
  - reflexivity.
  - cbn. lia.
  - cbn. lia.
Defined.

End ActFacts.

(** ** The mixed-variable pipeline: levels, the layout of theta, and
    matrix_data_corr as a whole *)

Module Mixed.
Import Kernels KernelFacts Gower Composer.
Local Open Scope R_scope.

(** [xtyp[1]] of the tuples of [xtypes] *)
Definition n_levels (xtypes : list xtype) : list nat :=
  flat_map (fun t => match t with ENUM n => [n] | _ => [] end) xtypes.

(** The number of entries of theta that a factor with [n] levels owns:
    [int(n * (n + 1) / 2)] and [int(n * (n - 1) / 2)]. *)
Definition n_theta (kernel : cat_kernel) (n : nat) : nat :=
  match kernel with
  | FULL_GAUSSIAN => (n * (n + 1) / 2)%nat
  | HOMO_GAUSSIAN => (n * (n - 1) / 2)%nat
  | GOWER => 0%nat
  end.

Definition compute_n_param (xtypes : list xtype) (kernel : cat_kernel)
    : nat :=
  fold_left (fun n_param xtyp =>
               match xtyp with
               | ENUM n => (n_param + n_theta kernel n)%nat
               | _ => (n_param + 1)%nat
               end)
            xtypes 0%nat.

(** compute_X_cont with [xtypes] given: the mask must have one entry per
    column of [x]. *)
Definition compute_X_cont (x : matrix) (xtypes : list xtype)
    : result (list (list R) * list bool) :=
  let cat_features := map is_cat xtypes in
  if negb (length cat_features =? ncols x)%nat then Raise IndexError
  else Ok (map (select (map negb cat_features)) (rows x), cat_features).

(** [M[i, k]] *)
Definition entry (M : list (list R)) (i k : nat) : result R :=
  match nth_error M i with
  | Some r =>
      match nth_error r k with
      | Some v => Ok v
      | None => Raise IndexError
      end
  | None => Raise IndexError
  end.

(** [y[:, cat_features]] *)
Definition cat_columns (cat_features : list bool) (y : matrix)
    : result (list (list R)) :=
  if negb (length cat_features =? ncols y)%nat then Raise IndexError
  else Ok (map (select cat_features) (rows y)).

Definition cross_levels (X : matrix) (ij : list (nat * nat))
    (xtypes : list xtype) (y : option matrix)
    : result (list (list (R * R)) * list nat) :=
  let n_levels := n_levels xtypes in
  let n_var := length n_levels in
  let n := length ij in
  '(_, cat_features) <- compute_X_cont X xtypes ;;
  let X_cat := map (select cat_features) (rows X) in
  Lij <- for_each (fun k =>
           for_each (fun l =>
             let '(i, j) := nth l ij (0, 0)%nat in
             match y with
             | None =>
                 a <- entry X_cat i k ;;
                 b <- entry X_cat j k ;;
                 Ok (a, b)
             | Some y =>
                 y_cat <- cat_columns cat_features y ;;
                 a <- entry X_cat i k ;;
                 b <- entry y_cat j k ;;
                 Ok (a, b)
             end)
             (seq 0 n))
           (seq 0 n_var) ;;
  Ok (Lij, n_levels).

(** [l[a:b] = v] for a scalar [v]: the slice is clipped to the array. *)
Definition fill (a b : nat) (v : bool) (l : list bool) : list bool :=
  map (fun px => if ((a <=? fst px) && (fst px <? b))%nat%bool
                 then v else snd px)
      (combine (seq 0 (length l)) l).

(** [col[j : j + c] = [True] * c]: numpy accepts a list as long as the
    clipped slice, or of length 1. *)
Definition fill_true (j c : nat) (col : list bool) : result (list bool) :=
  let s := (min (j + c) (length col) - min j (length col))%nat in
  if ((c =? s) || (c =? 1))%nat%bool then Ok (fill j (j + c) true col)
  else Raise (ValueError "could not broadcast input array").

(** The state of the loop over [cat_features]: [theta_cont_features],
    the columns of [theta_cat_features], [i] and [j]. *)
Definition mask_state : Type := list bool * list (list bool) * nat * nat.

Definition mask_body (kernel : cat_kernel) (nlevels : list nat)
    (st : mask_state) (feat : bool) : result mask_state :=
  let '(cont, cats, i, j) := st in
  if feat then
    match kernel with
    | GOWER => Ok (cont, cats, (i + 1)%nat, j)
    | _ =>
        match nth_error nlevels i with
        | None => Raise IndexError
        | Some nl =>
            let c := n_theta kernel nl in
            let cont := fill j (j + c) false cont in
            match nth_error cats i with
            | None => Raise IndexError
            | Some col =>
                col <- fill_true j c col ;;
                Ok (cont, set_nth i col cats, (i + 1)%nat, (j + c)%nat)
            end
        end
    end
  else
    if (j <? length cont)%nat
    then Ok (set_nth j true cont, cats, i, (j + 1)%nat)
    else Raise IndexError.

Definition theta_masks (kernel : cat_kernel) (n_theta_total : nat)
    (nlevels : list nat) (cat_features : list bool)
    : result mask_state :=
  for_fold (mask_body kernel nlevels) cat_features
           (repeat false n_theta_total,
            repeat (repeat false n_theta_total) (length nlevels),
            0%nat, 0%nat).

(** [T[indi, indj]] for the [nlevels x nlevels] array [T] *)
Definition T_at (nlevels : nat) (T : square) (indi indj : nat) : result R :=
  if ((indi <? nlevels) && (indj <? nlevels))%nat%bool
  then Ok (T indi indj) else Raise IndexError.

(** [r_cat[k, 0] = v] *)
Definition assign (r_cat : list R) (k : nat) (v : R) : result (list R) :=
  if (k <? length r_cat)%nat then Ok (set_nth k v r_cat)
  else Raise IndexError.

(** The body of [for k in range(np.shape(Lij[i])[0])]; the levels are the
    integers [int(Lij[i][k][0])] and [int(Lij[i][k][1])]. *)
Definition r_cat_body (kernel : cat_kernel) (nlevels : nat)
    (theta_cat : list R) (T : square) (Lij_i : list (nat * nat))
    (r_cat : list R) (k : nat) : result (list R) :=
  let '(indi, indj) := nth k Lij_i (0, 0)%nat in
  if (indi =? indj)%nat then assign r_cat k 1
  else
    match kernel with
    | FULL_GAUSSIAN =>
        a <- theta_at theta_cat (nlevels * (nlevels - 1) / 2 + indi) ;;
        b <- theta_at theta_cat (nlevels * (nlevels - 1) / 2 + indj) ;;
        t <- T_at nlevels T indi indj ;;
        assign r_cat k (exp (- a - b) * t)
    | HOMO_GAUSSIAN =>
        t <- T_at nlevels T indi indj ;;
        assign r_cat k t
    | GOWER => Ok r_cat
    end.

(** The body of [for i in range(len(nlevels))], on [(r, r_cat)]. *)
Definition factor_body (kernel : cat_kernel) (lower bound : R)
    (theta : list R) (cats : list (list bool)) (nlevels : list nat)
    (Lij : list (list (nat * nat))) (st : list R * list R) (i : nat)
    : result (list R * list R) :=
  let '(r, r_cat) := st in
  let theta_cat := select (nth i cats []) theta in
  let nl := nth i nlevels 0%nat in
  T <- cat_block kernel lower bound nl theta_cat ;;
  theta_cat <- scale_angles kernel bound nl theta_cat ;;
  match nth_error Lij i with
  | None => Raise IndexError
  | Some Lij_i =>
      r_cat <- for_fold (r_cat_body kernel nl theta_cat T Lij_i)
                        (seq 0 (length Lij_i)) r_cat ;;
      Ok (map2 Rmult r r_cat, r_cat)
  end.

Definition matrix_data_corr (fuel : nat) (corr : kernel) (theta : list R)
    (theta_bounds : R * R) (d : matrix) (Lij : list (list (nat * nat)))
    (nlevels : list nat) (cat_features : list bool) (kernel : cat_kernel)
    : result (list R) :=
  let '(lower, bound) := theta_bounds in
  '(cont, cats, _, _) <- theta_masks kernel (length theta) nlevels
                                     cat_features ;;
  let theta_cont := select cont theta in
  if negb (length cat_features =? ncols d)%nat then Raise IndexError else
  let not_cat := map negb cat_features in
  let d_cont := mk_matrix (length (filter (fun b => b) not_cat))
                          (map (select not_cat) (rows d)) in
  out <- run nb_limit fuel corr theta_cont d_cont None None ;;
  match out with
  | Corr r_cont =>
      let r_cat := map (fun x => x * 0) r_cont in
      let r := r_cont in
      '(r, _) <- for_fold (factor_body kernel lower bound theta cats nlevels Lij)
                          (seq 0 (length nlevels)) (r, r_cat) ;;
      Ok r
  | _ => Raise TypeError
  end.

End Mixed.

(** ** The layout of theta *)

Module LayoutFacts.
Import Kernels KernelFacts Gower Composer Mixed.
Local Open Scope nat_scope.

(** *** Slice assignments on masks *)

Definition fill_from (s a b : nat) (v : bool) (l : list bool) : list bool :=
  map (fun px => if (a <=? fst px) && (fst px <? b) then v else snd px)
      (combine (seq s (length l)) l).

Lemma fill_from_app s a b v l m :
  fill_from s a b v (l ++ m)
  = fill_from s a b v l ++ fill_from (s + length l) a b v m.
Proof.
  unfold fill_from. rewrite length_app, seq_app.
  revert s. induction l as [|x l IH]; intros s.
  - simpl. now rewrite Nat.add_0_r.
  - cbn [length seq app combine map Nat.add]. f_equal.
    rewrite <- Nat.add_succ_comm. apply IH.
Qed.

Lemma fill_from_outside s a b v l :
  (forall p, s <= p < s + length l -> ~ (a <= p < b)) ->
  fill_from s a b v l = l.
Proof.
  unfold fill_from. revert s. induction l as [|x l IH]; intros s H;
    [reflexivity|].
  cbn [length seq combine map fst snd]. f_equal.
  - destruct (Nat.leb_spec a s), (Nat.ltb_spec s b); try reflexivity.
    exfalso. apply (H s); simpl; lia.
  - apply IH. intros p Hp. apply H. simpl. lia.
Qed.

Lemma fill_from_inside s a b v l :
  a <= s -> s + length l <= b -> fill_from s a b v l = repeat v (length l).
Proof.
  unfold fill_from. revert s. induction l as [|x l IH]; intros s Ha Hb;
    [reflexivity|].
  cbn [length seq combine map fst snd repeat] in *. f_equal.
  - destruct (Nat.leb_spec a s), (Nat.ltb_spec s b); try reflexivity; lia.
  - apply IH; lia.
Qed.

(** Writing [c] entries at the frontier [j] of a mask. *)
Lemma fill_frontier pre mid post v j c :
  length pre = j -> length mid = c ->
  fill j (j + c) v (pre ++ mid ++ post) = pre ++ repeat v c ++ post.
Proof.
  intros Hp Hm. change (fill j (j + c) v (pre ++ mid ++ post))
    with (fill_from 0 j (j + c) v (pre ++ mid ++ post)).
  rewrite !fill_from_app. cbn [Nat.add]. f_equal; [|f_equal].
  - apply fill_from_outside. intros p Hq. lia.
  - rewrite fill_from_inside by lia. now rewrite Hm.
  - apply fill_from_outside. intros p Hq. lia.
Qed.

Lemma repeat_app_minus {A} (z : A) n c :
  c <= n -> repeat z n = repeat z c ++ repeat z (n - c).
Proof. intros H. rewrite <- repeat_app. f_equal. lia. Qed.

Lemma fill_fresh pre v j c n :
  length pre = j -> c <= n ->
  fill j (j + c) v (pre ++ repeat false n)
  = (pre ++ repeat v c) ++ repeat false (n - c).
Proof.
  intros Hp Hc. rewrite (repeat_app_minus false Hc).
  rewrite fill_frontier by (auto using repeat_length).
  now rewrite app_assoc.
Qed.

Lemma fill_true_fresh pre j c n :
  length pre = j -> c <= n ->
  fill_true j c (pre ++ repeat false n)
  = Ok ((pre ++ repeat true c) ++ repeat false (n - c)).
Proof.
  intros Hp Hc. unfold fill_true. rewrite length_app, repeat_length, Hp.
  replace (min (j + c) (j + n) - min j (j + n)) with c by lia.
  rewrite Nat.eqb_refl. cbn [orb]. f_equal. now apply fill_fresh.
Qed.

Lemma set_nth_fresh (pre : list bool) j n :
  length pre = j -> 0 < n ->
  set_nth j true (pre ++ repeat false n)
  = (pre ++ [true]) ++ repeat false (n - 1).
Proof.
  intros Hp Hn. unfold set_nth.
  rewrite (firstn_app_at _ _ Hp).
  replace (S j) with (j + 1) by lia. rewrite (skipn_app_at _ _ 1 Hp).
  rewrite skipn_repeat, <- app_assoc. reflexivity.
Qed.

(** *** The layout the loop computes *)

Definition size_of (kernel : cat_kernel) (t : xtype) : nat :=
  match t with ENUM n => n_theta kernel n | _ => 1 end.

Fixpoint n_params (kernel : cat_kernel) (ts : list xtype) : nat :=
  match ts with
  | [] => 0
  | t :: ts' => size_of kernel t + n_params kernel ts'
  end.

Definition cont_block (kernel : cat_kernel) (t : xtype) : list bool :=
  match t with ENUM n => repeat false (n_theta kernel n) | _ => [true] end.

(** [theta_cont_features] for the variables [ts] *)
Definition cont_layout (kernel : cat_kernel) (ts : list xtype) : list bool :=
  flat_map (cont_block kernel) ts.

(** Column [q] of [theta_cat_features] for the variables [ts], the first
    factor among them being factor [i]. *)
Fixpoint cat_layout (kernel : cat_kernel) (ts : list xtype) (q i : nat)
    : list bool :=
  match ts with
  | [] => []
  | ENUM n :: ts' =>
      repeat (i =? q) (n_theta kernel n) ++ cat_layout kernel ts' q (S i)
  | _ :: ts' => false :: cat_layout kernel ts' q i
  end.

Lemma compute_n_param_sum ts kernel :
  compute_n_param ts kernel = n_params kernel ts.
Proof.
  unfold compute_n_param.
  assert (H : forall a,
             fold_left (fun n_param xtyp =>
                          match xtyp with
                          | ENUM n => n_param + n_theta kernel n
                          | _ => n_param + 1
                          end) ts a
             = a + n_params kernel ts).
  { induction ts as [|t ts IH]; intros a; [simpl; lia|].
    cbn [fold_left n_params]. destruct t; rewrite IH; simpl; lia. }
  apply H.
Qed.

Lemma skipn_head {A} (l r : list A) i x :
  skipn i l = x :: r ->
  nth_error l i = Some x /\ skipn (S i) l = r /\ i < length l.
Proof.
  revert l. induction i as [|i IH]; intros [|y l] H; simpl in *;
    try discriminate.
  - injection H as -> ->. repeat split. lia.
  - destruct (IH l H) as (H1 & H2 & H3). repeat split; auto. lia.
Qed.

Lemma nth_error_map_seq {A} (F : nat -> A) n i :
  i < n -> nth_error (map F (seq 0 n)) i = Some (F i).
Proof.
  intros Hi. rewrite nth_error_map, nth_error_seq.
  destruct (Nat.ltb_spec i n); [reflexivity|lia].
Qed.

Lemma set_nth_map_from {A} (F : nat -> A) s n i x :
  i < n ->
  set_nth i x (map F (seq s n))
  = map (fun q => if q =? s + i then x else F q) (seq s n).
Proof.
  revert s n. induction i as [|i IH]; intros s [|n] Hi; try lia.
  - cbn [seq map]. unfold set_nth. cbn [firstn skipn app].
    rewrite Nat.add_0_r, Nat.eqb_refl. f_equal.
    apply map_ext_in. intros q Hq. apply in_seq in Hq.
    destruct (Nat.eqb_spec q s); [lia|reflexivity].
  - cbn [seq map].
    change (set_nth (S i) x (F s :: map F (seq (S s) n)))
      with (F s :: set_nth i x (map F (seq (S s) n))).
    rewrite IH by lia.
    destruct (Nat.eqb_spec s (s + S i)); [lia|]. f_equal.
    apply map_ext. intros q. now rewrite Nat.add_succ_comm.
Qed.

Lemma set_nth_map_seq {A} (F : nat -> A) n i x :
  i < n ->
  set_nth i x (map F (seq 0 n))
  = map (fun q => if q =? i then x else F q) (seq 0 n).
Proof. intros Hi. now rewrite set_nth_map_from. Qed.

Lemma state_eq (a a' : list bool) (b b' : list (list bool)) (i i' j j' : nat) :
  a = a' -> b = b' -> i = i' -> j = j' ->
  @Ok mask_state (a, b, i, j) = Ok (a', b', i', j').
Proof. now intros -> -> -> ->. Qed.

Lemma mask_loop kernel nlevels L ts :
  kernel <> GOWER ->
  forall cpre colpre i j,
    length cpre = j -> (forall q, length (colpre q) = j) ->
    skipn i nlevels = n_levels ts ->
    j + n_params kernel ts <= L ->
    for_fold (mask_body kernel nlevels) (map is_cat ts)
             (cpre ++ repeat false (L - j),
              map (fun q => colpre q ++ repeat false (L - j))
                  (seq 0 (length nlevels)),
              i, j)
    = Ok ((cpre ++ cont_layout kernel ts)
            ++ repeat false (L - j - n_params kernel ts),
          map (fun q => (colpre q ++ cat_layout kernel ts q i)
                          ++ repeat false (L - j - n_params kernel ts))
              (seq 0 (length nlevels)),
          i + length (n_levels ts), j + n_params kernel ts).
Proof.
  intros Hk. induction ts as [|t ts IH]; intros cpre colpre i j Hc Hq Hs HL.
  - cbn [map for_fold cont_layout flat_map cat_layout n_levels length].
    cbn [n_params]. rewrite !Nat.add_0_r, Nat.sub_0_r.
    apply state_eq; try reflexivity; [now rewrite app_nil_r|].
    apply map_ext. intros q. now rewrite app_nil_r.
  - assert (Hcont : forall c, c <= L - j ->
               forall q, colpre q ++ repeat false (L - j)
                         = (colpre q ++ repeat false c)
                             ++ repeat false (L - j - c)).
    { intros c Hle q. rewrite <- app_assoc. f_equal.
      now apply repeat_app_minus. }
    destruct t as [| |n].
    + (* a continuous variable *)
      cbn [n_params size_of] in HL.
      cbn [map is_cat for_fold mask_body].
      rewrite length_app, repeat_length, Hc.
      destruct (Nat.ltb_spec j (j + (L - j))) as [_|Hge]; [|lia].
      cbn [bind]. rewrite (set_nth_fresh cpre Hc) by lia.
      rewrite (map_ext _ _ (Hcont 1 ltac:(lia))).
      replace (L - j - 1) with (L - (j + 1)) by lia.
      rewrite (IH (cpre ++ [true]) (fun q => colpre q ++ repeat false 1) i (j + 1));
        [|rewrite length_app; simpl; lia
         |intros q; rewrite length_app, Hq; simpl; lia
         |exact Hs|lia].
      cbn [n_params size_of cont_layout flat_map cont_block
                    cat_layout n_levels app].
      fold (cont_layout kernel ts).
      apply state_eq.
      * rewrite <- !app_assoc. cbn [app]. repeat (f_equal; try lia).
      * apply map_ext. intros q. rewrite <- !app_assoc. cbn [repeat app].
        repeat (f_equal; try lia).
      * reflexivity.
      * lia.
    + (* an ordinal variable *)
      cbn [n_params size_of] in HL.
      cbn [map is_cat for_fold mask_body].
      rewrite length_app, repeat_length, Hc.
      destruct (Nat.ltb_spec j (j + (L - j))) as [_|Hge]; [|lia].
      cbn [bind]. rewrite (set_nth_fresh cpre Hc) by lia.
      rewrite (map_ext _ _ (Hcont 1 ltac:(lia))).
      replace (L - j - 1) with (L - (j + 1)) by lia.
      rewrite (IH (cpre ++ [true]) (fun q => colpre q ++ repeat false 1) i (j + 1));
        [|rewrite length_app; simpl; lia
         |intros q; rewrite length_app, Hq; simpl; lia
         |exact Hs|lia].
      cbn [n_params size_of cont_layout flat_map cont_block
                    cat_layout n_levels app].
      fold (cont_layout kernel ts).
      apply state_eq.
      * rewrite <- !app_assoc. cbn [app]. repeat (f_equal; try lia).
      * apply map_ext. intros q. rewrite <- !app_assoc. cbn [repeat app].
        repeat (f_equal; try lia).
      * reflexivity.
      * lia.
    + (* a categorical variable with [n] levels *)
      cbn [n_params size_of] in HL.
      cbn [n_levels flat_map app] in Hs. fold (n_levels ts) in Hs.
      destruct (skipn_head _ _ Hs) as (Hn & Hs' & Hi).
      set (c := n_theta kernel n) in *.
      assert (Hbody :
        mask_body kernel nlevels
          (cpre ++ repeat false (L - j),
           map (fun q => colpre q ++ repeat false (L - j))
               (seq 0 (length nlevels)), i, j) true
        = Ok ((cpre ++ repeat false c) ++ repeat false (L - (j + c)),
              map (fun q => (colpre q ++ repeat (i =? q) c)
                              ++ repeat false (L - (j + c)))
                  (seq 0 (length nlevels)),
              S i, j + c)).
      { unfold mask_body.
        assert (Hgen :
          match nth_error nlevels i with
          | None => Raise IndexError
          | Some nl =>
              let c := n_theta kernel nl in
              let cont := fill j (j + c) false (cpre ++ repeat false (L - j)) in
              match nth_error (map (fun q => colpre q ++ repeat false (L - j))
                                   (seq 0 (length nlevels))) i with
              | None => Raise IndexError
              | Some col =>
                  col <- fill_true j c col ;;
                  Ok (cont,
                      set_nth i col
                        (map (fun q => colpre q ++ repeat false (L - j))
                             (seq 0 (length nlevels))),
                      (i + 1)%nat, (j + c)%nat)
              end
          end
          = Ok ((cpre ++ repeat false c) ++ repeat false (L - (j + c)),
                map (fun q => (colpre q ++ repeat (i =? q) c)
                                ++ repeat false (L - (j + c)))
                    (seq 0 (length nlevels)),
                S i, j + c)).
        { rewrite Hn. cbv zeta. fold c.
          rewrite (nth_error_map_seq _ Hi).
          rewrite (fill_true_fresh (colpre i) (Hq i)) by lia. cbn [bind].
          rewrite (fill_fresh cpre false Hc) by lia.
          rewrite (set_nth_map_seq _ _ Hi).
          apply state_eq; [repeat (f_equal; try lia)| |lia|reflexivity].
          apply map_ext. intros q.
          destruct (Nat.eqb_spec q i) as [->|Hne].
          - rewrite Nat.eqb_refl. repeat (f_equal; try lia).
          - assert (E : (i =? q) = false) by (apply Nat.eqb_neq; lia).
            rewrite E, (Hcont c ltac:(lia) q). repeat (f_equal; try lia). }
        destruct kernel; [contradiction|exact Hgen|exact Hgen]. }
      cbn [map is_cat for_fold]. rewrite Hbody. cbn [bind].
      rewrite (IH (cpre ++ repeat false c)
                  (fun q => colpre q ++ repeat (i =? q) c) (S i) (j + c));
        [|rewrite length_app, repeat_length; lia
         |intros q; rewrite length_app, repeat_length, Hq; lia
         |exact Hs'|lia].
      cbn [n_params size_of cont_layout flat_map cont_block
                    cat_layout n_levels app length].
      fold (cont_layout kernel ts). fold c. fold (n_levels ts).
      apply state_eq.
      * rewrite <- !app_assoc. repeat (f_equal; try lia).
      * apply map_ext. intros q. rewrite <- !app_assoc.
        repeat (f_equal; try lia).
      * lia.
      * lia.
Qed.

Lemma theta_masks_result kernel xtypes L :
  kernel <> GOWER -> n_params kernel xtypes <= L ->
  theta_masks kernel L (n_levels xtypes) (map is_cat xtypes)
  = Ok (cont_layout kernel xtypes ++ repeat false (L - n_params kernel xtypes),
        map (fun q => cat_layout kernel xtypes q 0
                        ++ repeat false (L - n_params kernel xtypes))
            (seq 0 (length (n_levels xtypes))),
        length (n_levels xtypes), n_params kernel xtypes).
Proof.
  intros Hk HL. unfold theta_masks.
  pose proof (@mask_loop kernel (n_levels xtypes) L xtypes Hk []
                (fun _ => []) 0 0 eq_refl (fun _ => eq_refl) eq_refl HL) as H.
  cbn [app Nat.add] in H. rewrite Nat.sub_0_r in H.
  rewrite map_const_repeat, length_seq in H. exact H.
Qed.

(** *** Selecting with a mask made of blocks *)

Lemma select_false_block a m (t : list R) :
  select (repeat false a ++ m) t = select m (skipn a t).
Proof.
  revert t. induction a as [|a IH]; intros t; [reflexivity|].
  destruct t as [|x t].
  - cbn [repeat app skipn]. unfold select. cbn [combine filter map].
    now destruct m.
  - cbn [repeat app skipn]. unfold select in *. cbn [combine filter fst map].
    apply IH.
Qed.

Lemma select_true_block c m (t : list R) :
  c <= length t ->
  select (repeat true c ++ m) t = firstn c t ++ select m (skipn c t).
Proof.
  revert t. induction c as [|c IH]; intros t Hc; [reflexivity|].
  destruct t as [|x t]; [simpl in Hc; lia|].
  cbn [repeat app skipn firstn]. unfold select in *.
  cbn [combine filter fst map snd]. f_equal. apply IH. simpl in Hc. lia.
Qed.

Lemma select_all_false a (t : list R) : select (repeat false a) t = [].
Proof.
  rewrite <- (app_nil_r (repeat false a)), select_false_block.
  reflexivity.
Qed.

Lemma select_head (m : list bool) (t : list R) off :
  off < length t ->
  select (true :: m) (skipn off t)
  = nth off t 0%R :: select m (skipn (S off) t).
Proof.
  revert t. induction off as [|off IH]; intros [|x t] H; simpl in H; try lia.
  - reflexivity.
  - cbn [skipn nth]. apply IH. lia.
Qed.

(** *** Where the blocks are *)

(** The first entry of theta that factor [q] of [ts] owns. *)
Fixpoint factor_offset (kernel : cat_kernel) (ts : list xtype) (q : nat)
    : nat :=
  match ts with
  | [] => 0
  | ENUM n :: ts' =>
      match q with
      | 0 => 0
      | S q' => n_theta kernel n + factor_offset kernel ts' q'
      end
  | _ :: ts' => 1 + factor_offset kernel ts' q
  end.

(** The entries of theta that the continuous variables of [ts] own, the
    first variable starting at [off]. *)
Fixpoint cont_offsets (kernel : cat_kernel) (ts : list xtype) (off : nat)
    : list nat :=
  match ts with
  | [] => []
  | ENUM n :: ts' => cont_offsets kernel ts' (off + n_theta kernel n)
  | _ :: ts' => off :: cont_offsets kernel ts' (off + 1)
  end.

Lemma cont_layout_length kernel ts :
  length (cont_layout kernel ts) = n_params kernel ts.
Proof.
  induction ts as [|t ts IH]; [reflexivity|].
  cbn [cont_layout flat_map n_params]. fold (cont_layout kernel ts).
  rewrite length_app, IH. destruct t; cbn [cont_block size_of length];
    rewrite ?repeat_length; reflexivity.
Qed.

Lemma cat_layout_before kernel ts q i :
  q < i -> cat_layout kernel ts q i = repeat false (n_params kernel ts).
Proof.
  revert i. induction ts as [|t ts IH]; intros i Hq; [reflexivity|].
  destruct t; cbn [cat_layout n_params size_of].
  - cbn [Nat.add repeat]. f_equal. now apply IH.
  - cbn [Nat.add repeat]. f_equal. now apply IH.
  - assert (E : (i =? q) = false) by (apply Nat.eqb_neq; lia).
    rewrite E, repeat_app. f_equal. apply IH. lia.
Qed.

Lemma cat_layout_block kernel ts q i :
  i <= q -> q - i < length (n_levels ts) ->
  let off := factor_offset kernel ts (q - i) in
  let c := n_theta kernel (nth (q - i) (n_levels ts) 0) in
  cat_layout kernel ts q i
  = repeat false off ++ repeat true c
      ++ repeat false (n_params kernel ts - off - c)
  /\ off + c <= n_params kernel ts.
Proof.
  revert i. induction ts as [|t ts IH]; intros i Hi Hq;
    [simpl in Hq; lia|].
  destruct t as [| |n].
  - cbn [n_levels flat_map app] in Hq. fold (n_levels ts) in Hq.
    destruct (IH i Hi Hq) as [E Hle].
    cbn [cat_layout factor_offset n_params size_of n_levels flat_map app].
    fold (n_levels ts). cbv zeta. rewrite E. split; [|lia].
    cbn [Nat.add repeat app]. repeat (f_equal; try lia).
  - cbn [n_levels flat_map app] in Hq. fold (n_levels ts) in Hq.
    destruct (IH i Hi Hq) as [E Hle].
    cbn [cat_layout factor_offset n_params size_of n_levels flat_map app].
    fold (n_levels ts). cbv zeta. rewrite E. split; [|lia].
    cbn [Nat.add repeat app]. repeat (f_equal; try lia).
  - cbn [n_levels flat_map app length] in Hq. fold (n_levels ts) in Hq.
    cbn [cat_layout n_params size_of n_levels flat_map app].
    fold (n_levels ts). cbv zeta.
    destruct (Nat.eq_dec q i) as [->|Hne].
    + rewrite Nat.sub_diag, Nat.eqb_refl. cbn [factor_offset nth repeat app].
      rewrite cat_layout_before by lia. split; [|lia].
      repeat (f_equal; try lia).
    + assert (E : (i =? q) = false) by (apply Nat.eqb_neq; lia).
      rewrite E.
      replace (q - i) with (S (q - S i)) by lia.
      cbn [factor_offset nth].
      destruct (IH (S i) ltac:(lia) ltac:(lia)) as [E' Hle].
      rewrite E'. split; [|lia].
      rewrite repeat_app, <- app_assoc. repeat (f_equal; try lia).
Qed.

Lemma select_cat_column kernel ts q (theta : list R) :
  q < length (n_levels ts) -> n_params kernel ts <= length theta ->
  let off := factor_offset kernel ts q in
  let c := n_theta kernel (nth q (n_levels ts) 0) in
  select (cat_layout kernel ts q 0
            ++ repeat false (length theta - n_params kernel ts)) theta
  = slice off (off + c) theta
  /\ off + c <= n_params kernel ts.
Proof.
  intros Hq HL off c.
  destruct (@cat_layout_block kernel ts q 0 (Nat.le_0_l q)) as [E Hle];
    [now rewrite Nat.sub_0_r|].
  rewrite Nat.sub_0_r in E, Hle. fold off c in E, Hle.
  split; [|exact Hle]. rewrite E, <- !app_assoc.
  rewrite select_false_block, select_true_block
    by (rewrite length_skipn; lia).
  rewrite select_false_block, select_all_false, app_nil_r.
  unfold slice. f_equal. lia.
Qed.

Lemma select_cont_layout kernel ts (theta : list R) off e :
  off + n_params kernel ts <= length theta ->
  select (cont_layout kernel ts ++ repeat false e) (skipn off theta)
  = map (fun p => nth p theta 0%R) (cont_offsets kernel ts off).
Proof.
  revert off. induction ts as [|t ts IH]; intros off HL.
  - cbn [cont_layout flat_map app cont_offsets map].
    apply select_all_false.
  - cbn [n_params] in HL.
    destruct t as [| |n]; cbn [size_of] in HL;
      cbn [cont_layout flat_map cont_block cont_offsets map app];
      fold (cont_layout kernel ts).
    + rewrite select_head by lia. f_equal.
      replace (S off) with (off + 1) by lia. apply IH. lia.
    + rewrite select_head by lia. f_equal.
      replace (S off) with (off + 1) by lia. apply IH. lia.
    + rewrite <- app_assoc, select_false_block, <- skipn_add.
      apply IH. lia.
Qed.

Lemma nth_map_seq {A} (F : nat -> A) n q d :
  q < n -> nth q (map F (seq 0 n)) d = F q.
Proof.
  intros Hq. apply nth_error_nth. now apply nth_error_map_seq.
Qed.

Lemma n_levels_app pre l : n_levels (pre ++ l) = n_levels pre ++ n_levels l.
Proof. unfold n_levels. apply flat_map_app. Qed.

Lemma n_params_app kernel pre l :
  n_params kernel (pre ++ l) = n_params kernel pre + n_params kernel l.
Proof. induction pre as [|t pre IH]; simpl; [reflexivity|]. rewrite IH. lia. Qed.

Lemma factor_offset_prefix kernel pre n post :
  factor_offset kernel (pre ++ ENUM n :: post) (length (n_levels pre))
  = n_params kernel pre.
Proof.
  induction pre as [|t pre IH]; [reflexivity|].
  destruct t; cbn [app factor_offset n_levels flat_map length n_params size_of];
    fold (n_levels pre); rewrite ?IH; reflexivity.
Qed.

Definition continuous (ts : list xtype) : list xtype :=
  filter (fun t => negb (is_cat t)) ts.

Lemma cont_offsets_length kernel ts off :
  length (cont_offsets kernel ts off) = length (continuous ts).
Proof.
  revert off. induction ts as [|t ts IH]; intros off; [reflexivity|].
  destruct t; cbn [cont_offsets continuous filter is_cat negb length];
    fold (continuous ts); rewrite IH; reflexivity.
Qed.

Lemma cont_offsets_app kernel pre l off :
  cont_offsets kernel (pre ++ l) off
  = cont_offsets kernel pre off
      ++ cont_offsets kernel l (off + n_params kernel pre).
Proof.
  revert off. induction pre as [|t pre IH]; intros off.
  - cbn [app cont_offsets n_params]. now rewrite Nat.add_0_r.
  - destruct t; cbn [app cont_offsets n_params size_of]; rewrite IH;
      cbn [app]; repeat (f_equal; try lia).
Qed.

(** The layout of theta that matrix_data_corr computes: variable after
    variable in the order of [xtypes], one entry for a continuous
    variable, [n_theta] entries for a categorical one; the entries past
    [compute_n_param] are ignored. *)
Theorem theta_layout (kernel : cat_kernel) (xtypes : list xtype)
    (theta : list R) :
  kernel <> GOWER ->
  compute_n_param xtypes kernel <= length theta ->
  exists cont cats,
    theta_masks kernel (length theta) (n_levels xtypes) (map is_cat xtypes)
    = Ok (cont, cats, length (n_levels xtypes), compute_n_param xtypes kernel)
    /\ length (select cont theta) = length (continuous xtypes)
    /\ (forall pre t post,
          xtypes = pre ++ t :: post -> is_cat t = false ->
          nth (length (continuous pre)) (select cont theta) 0%R
          = nth (compute_n_param pre kernel) theta 0%R)
    /\ (forall pre n post,
          xtypes = pre ++ ENUM n :: post ->
          select (nth (length (n_levels pre)) cats []) theta
          = slice (compute_n_param pre kernel)
                  (compute_n_param pre kernel + n_theta kernel n) theta
          /\ compute_n_param pre kernel + n_theta kernel n
             <= compute_n_param xtypes kernel).
Proof.
  intros Hk HL. rewrite compute_n_param_sum in *.
  do 2 eexists. split; [apply theta_masks_result; assumption|].
  assert (Hcont : select (cont_layout kernel xtypes
                            ++ repeat false (length theta
                                             - n_params kernel xtypes)) theta
                  = map (fun p => nth p theta 0%R)
                        (cont_offsets kernel xtypes 0)).
  { apply (@select_cont_layout kernel xtypes theta 0). lia. }
  rewrite Hcont. split; [|split].
  - now rewrite length_map, cont_offsets_length.
  - intros pre t post -> Ht. rewrite compute_n_param_sum.
    rewrite cont_offsets_app.
    rewrite (nth_indep _ 0%R (nth 0 theta 0%R))
      by (rewrite length_map, length_app, cont_offsets_length;
          destruct t; try discriminate; simpl; lia).
    rewrite (map_nth (fun p => nth p theta 0%R)).
    rewrite app_nth2 by (rewrite cont_offsets_length; lia).
    rewrite cont_offsets_length, Nat.sub_diag.
    destruct t; try discriminate; reflexivity.
  - intros pre n post -> . rewrite compute_n_param_sum.
    assert (Hq : length (n_levels pre)
                 < length (n_levels (pre ++ ENUM n :: post))).
    { rewrite n_levels_app, length_app. simpl. lia. }
    rewrite (nth_map_seq _ _ Hq).
    destruct (@select_cat_column kernel (pre ++ ENUM n :: post)
                (length (n_levels pre)) theta Hq HL) as [E Hle].
    rewrite factor_offset_prefix in E, Hle.
    assert (Hn : nth (length (n_levels pre))
                     (n_levels (pre ++ ENUM n :: post)) 0 = n).
    { rewrite n_levels_app, app_nth2, Nat.sub_diag by lia. reflexivity. }
    rewrite Hn in E, Hle. split; [exact E|exact Hle].
Qed.

Lemma theta_layout_witness :
  exists cont cats,
    theta_masks HOMO_GAUSSIAN 5 [3] (map is_cat [FLOAT; ENUM 3; ORD])
    = Ok (cont, cats, 1, 5)
    /\ length (select cont [1; 2; 3; 4; 5]%R) = 2.
Proof.
  destruct (@theta_layout HOMO_GAUSSIAN [FLOAT; ENUM 3; ORD] [1; 2; 3; 4; 5]%R)
    as (cont & cats & H1 & H2 & _).
  - discriminate.
  - cbn. lia.
  - exists cont, cats. split; assumption.
Defined.

End LayoutFacts.

(** ** matrix_data_corr returns correlations *)

Module MixedFacts.
Import Kernels KernelFacts Gower Composer ComposerFacts Mixed LayoutFacts.
Local Open Scope R_scope.

Definition unit_value (x : R) : Prop := 0 < x <= 1.

Lemma unit_mult a b : unit_value a -> unit_value b -> unit_value (a * b).
Proof. unfold unit_value. intros [? ?] [? ?]. split; nra. Qed.

Lemma unit_one : unit_value 1.
Proof. unfold unit_value. lra. Qed.

(** *** Selections keep what holds of every entry *)

Lemma select_Forall (P : R -> Prop) mask (t : list R) :
  Forall P t -> Forall P (select mask t).
Proof.
  intros H. unfold select. rewrite Forall_map.
  apply Forall_forall. intros [b x] Hin. apply filter_In in Hin.
  destruct Hin as [Hin _]. apply in_combine_r in Hin.
  rewrite Forall_forall in H. now apply H.
Qed.

Lemma slice_Forall (P : R -> Prop) a b (t : list R) :
  Forall P t -> Forall P (slice a b t).
Proof.
  intros H. unfold slice.
  now apply GowerMain.Forall_take, GowerMain.Forall_drop.
Qed.

Lemma slice_length_in {A} a b (t : list A) :
  (b <= length t)%nat -> length (slice a b t) = (b - a)%nat.
Proof. intros H. unfold slice. rewrite length_firstn, length_skipn. lia. Qed.

Lemma select_count mask (t : list R) :
  length mask = length t ->
  length (select mask t) = length (filter (fun b => b) mask).
Proof.
  unfold select. rewrite length_map. revert t.
  induction mask as [|b mask IH]; intros [|x t] H; simpl in *;
    try discriminate; [reflexivity|].
  destruct b; simpl; rewrite IH by lia; reflexivity.
Qed.

(** *** The angles and the decays after scaling *)

Lemma scale_angles_nonneg kernel bound n theta_cat :
  0 < bound -> nonneg theta_cat ->
  nonneg (scaled_angles kernel bound n theta_cat).
Proof.
  intros Hb Ht.
  assert (Hs : 0 <= 1 / 2 * PI / bound).
  { pose proof PI_RGT_0. apply Rmult_le_pos; [lra|].
    left. now apply Rinv_0_lt_compat. }
  assert (Hm : forall l, nonneg l ->
                         nonneg (map (fun x => x * (1 / 2 * PI / bound)) l)).
  { intros l Hl. unfold nonneg in *. rewrite Forall_map.
    revert Hl. apply Forall_impl. intros x Hx. now apply Rmult_le_pos. }
  unfold nonneg in *.
  destruct kernel; cbn [scaled_angles]; [exact Ht|now apply Hm|].
  apply Forall_app. split.
  - apply Hm. now apply GowerMain.Forall_take.
  - now apply GowerMain.Forall_drop.
Qed.

Lemma theta_at_nonneg l idx :
  nonneg l -> (idx < length l)%nat ->
  exists a, theta_at l idx = Ok a /\ 0 <= a.
Proof.
  intros Hl Hi. unfold theta_at.
  destruct (nth_error l idx) as [a|] eqn:E.
  - exists a. split; [reflexivity|]. apply nth_error_In in E.
    unfold nonneg in Hl. rewrite Forall_forall in Hl. now apply Hl.
  - apply nth_error_None in E. lia.
Qed.

Lemma decay_index n ind :
  (ind < n)%nat -> (n * (n - 1) / 2 + ind < n * (n + 1) / 2)%nat.
Proof.
  intros Hi.
  replace (n * (n + 1))%nat with (n * (n - 1) + n * 2)%nat by nia.
  rewrite Nat.div_add by lia. lia.
Qed.

Lemma exp_decay a b : 0 <= a -> 0 <= b -> unit_value (exp (- a - b)).
Proof.
  intros Ha Hb. replace (- a - b) with (- (a + b)) by ring.
  apply exp_neg_unit. lra.
Qed.

(** *** The loop over the pairs of one factor *)

Definition levels_ok (nl : nat) (Lij_i : list (nat * nat)) : Prop :=
  Forall (fun p => (fst p < nl)%nat /\ (snd p < nl)%nat) Lij_i.

Definition same_levels (Lij_i : list (nat * nat)) : Prop :=
  Forall (fun p => fst p = snd p) Lij_i.

Lemma r_cat_step kernel nl theta_cat T Lij_i r_cat k :
  kernel <> GOWER -> (k < length Lij_i)%nat -> length r_cat = length Lij_i ->
  levels_ok nl Lij_i ->
  (forall a b, (a < nl)%nat -> (b < nl)%nat -> unit_value (T a b)) ->
  (kernel = FULL_GAUSSIAN ->
   nonneg theta_cat /\ length theta_cat = (nl * (nl + 1) / 2)%nat) ->
  exists v,
    r_cat_body kernel nl theta_cat T Lij_i r_cat k = Ok (set_nth k v r_cat)
    /\ unit_value v
    /\ (fst (nth k Lij_i (0, 0)%nat) = snd (nth k Lij_i (0, 0)%nat) -> v = 1).
Proof.
  intros Hk Hlt Hlen Hlv HT Hfull. unfold r_cat_body.
  assert (Hp : (fst (nth k Lij_i (0, 0)%nat) < nl)%nat
               /\ (snd (nth k Lij_i (0, 0)%nat) < nl)%nat).
  { unfold levels_ok in Hlv. rewrite Forall_forall in Hlv.
    apply Hlv, nth_In, Hlt. }
  destruct (nth k Lij_i (0, 0)%nat) as [indi indj]. cbn [fst snd] in *.
  destruct Hp as [Hi Hj].
  assert (Hassign : forall v, assign r_cat k v = Ok (set_nth k v r_cat)).
  { intros v. unfold assign.
    destruct (Nat.ltb_spec k (length r_cat)); [reflexivity|lia]. }
  destruct (Nat.eqb_spec indi indj) as [E|E].
  - exists 1. rewrite Hassign.
    split; [reflexivity|]. split; [apply unit_one|reflexivity].
  - assert (HTat : T_at nl T indi indj = Ok (T indi indj)).
    { unfold T_at. apply Nat.ltb_lt in Hi, Hj. now rewrite Hi, Hj. }
    destruct kernel; [contradiction| |].
    + exists (T indi indj). rewrite HTat. cbn [bind]. rewrite Hassign.
      split; [reflexivity|]. split; [now apply HT|]. intros; contradiction.
    + destruct (Hfull eq_refl) as [Hnn Hl].
      destruct (@theta_at_nonneg theta_cat (nl * (nl - 1) / 2 + indi) Hnn)
        as (a & Ha & Ha0); [rewrite Hl; now apply decay_index|].
      destruct (@theta_at_nonneg theta_cat (nl * (nl - 1) / 2 + indj) Hnn)
        as (b & Hb & Hb0); [rewrite Hl; now apply decay_index|].
      exists (exp (- a - b) * T indi indj).
      rewrite Ha, Hb, HTat. cbn [bind]. rewrite Hassign.
      split; [reflexivity|]. split; [|intros; contradiction].
      apply unit_mult; [now apply exp_decay|now apply HT].
Qed.

Lemma firstn_set_nth {A} (l : list A) k v :
  (k < length l)%nat -> firstn (S k) (set_nth k v l) = firstn k l ++ [v].
Proof.
  intros Hk. unfold set_nth.
  assert (Hl : length (firstn k l) = k) by (rewrite length_firstn; lia).
  replace (S k) with (length (firstn k l) + 1)%nat by lia.
  rewrite firstn_app_2. reflexivity.
Qed.

Lemma set_nth_length {A} (l : list A) k v :
  (k < length l)%nat -> length (set_nth k v l) = length l.
Proof.
  intros Hk. unfold set_nth. rewrite length_app. cbn [length].
  rewrite length_firstn, length_skipn. lia.
Qed.

Lemma nth_firstn_one {A} (l : list A) k d :
  (k < length l)%nat -> firstn (S k) l = firstn k l ++ [nth k l d].
Proof.
  revert l. induction k as [|k IH]; intros [|x l] Hk; simpl in Hk; try lia.
  - reflexivity.
  - cbn [firstn nth app]. f_equal. apply IH. lia.
Qed.

Lemma r_cat_loop kernel nl theta_cat T Lij_i r_cat :
  kernel <> GOWER -> length r_cat = length Lij_i ->
  levels_ok nl Lij_i ->
  (forall a b, (a < nl)%nat -> (b < nl)%nat -> unit_value (T a b)) ->
  (kernel = FULL_GAUSSIAN ->
   nonneg theta_cat /\ length theta_cat = (nl * (nl + 1) / 2)%nat) ->
  exists rc,
    for_fold (r_cat_body kernel nl theta_cat T Lij_i)
             (seq 0 (length Lij_i)) r_cat = Ok rc
    /\ length rc = length Lij_i
    /\ Forall unit_value rc
    /\ (same_levels Lij_i -> Forall (fun v => v = 1) rc).
Proof.
  intros Hk Hlen Hlv HT Hfull.
  assert (H : forall m, (m <= length Lij_i)%nat ->
            exists rc,
              for_fold (r_cat_body kernel nl theta_cat T Lij_i)
                       (seq 0 m) r_cat = Ok rc
              /\ length rc = length Lij_i
              /\ Forall unit_value (firstn m rc)
              /\ (same_levels Lij_i -> Forall (fun v => v = 1) (firstn m rc))).
  { induction m as [|m IH]; intros Hm.
    - exists r_cat. repeat split; auto; constructor.
    - destruct (IH ltac:(lia)) as (rc & Hrun & Hl & Hu & Hone).
      destruct (@r_cat_step kernel nl theta_cat T Lij_i rc m Hk
                  ltac:(lia) Hl Hlv HT Hfull) as (v & Hv & Huv & Hv1).
      exists (set_nth m v rc).
      rewrite seq_S, RegressionFacts.for_fold_last, Hrun. cbn [bind Nat.add].
      split; [exact Hv|].
      split; [rewrite set_nth_length; lia|].
      rewrite firstn_set_nth by lia. split.
      + apply Forall_app. split; [exact Hu|]. now constructor.
      + intros Hs. apply Forall_app. split; [now apply Hone|].
        constructor; [|constructor]. apply Hv1.
        unfold same_levels in Hs. rewrite Forall_forall in Hs.
        apply Hs, nth_In. lia. }
  destruct (H (length Lij_i) (le_n _)) as (rc & Hrun & Hl & Hu & Hone).
  exists rc. rewrite <- Hl, firstn_all in Hu.
  split; [exact Hrun|]. split; [exact Hl|].
  split; [exact Hu|]. intros Hs. specialize (Hone Hs).
  now rewrite <- Hl, firstn_all in Hone.
Qed.

(** *** One factor *)

Lemma n_theta_slice_length kernel n : n_theta kernel n = slice_length kernel n.
Proof. now destruct kernel. Qed.

Lemma block_unit lower bound Th n a b :
  0 <= lower -> 0 <= bound -> (a < n)%nat -> (b < n)%nat ->
  unit_value (transform lower bound (gram n (build_L n Th)) a b).
Proof.
  intros Hl Hb Ha Hn.
  pose proof (@transform_bounds lower bound (gram n (build_L n Th)) a b Hb
                (gram_bounds Th Ha Hn)) as [H1 H2].
  pose proof (exp_neg_unit Hl) as [H3 H4].
  pose proof (exp_pos (- bound)) as H5.
  unfold unit_value. split; [|lra].
  apply Rlt_le_trans with (exp (- lower) * exp (- bound)); [|exact H1].
  now apply Rmult_lt_0_compat.
Qed.

Lemma map2_mult_ones (r rc : list R) :
  length rc = length r -> Forall (fun v => v = 1) rc -> map2 Rmult r rc = r.
Proof.
  revert rc. induction r as [|x r IH]; intros [|y rc] Hl H; simpl in *;
    try discriminate; [reflexivity|].
  inversion H as [|? ? Hy H']; subst. f_equal; [ring|]. apply IH; auto.
Qed.

Lemma map2_mult_unit (r rc : list R) :
  Forall unit_value r -> Forall unit_value rc ->
  Forall unit_value (map2 Rmult r rc).
Proof.
  intros Hr. revert rc. induction Hr as [|x r Hx Hr IH]; intros rc Hrc;
    [constructor|].
  destruct Hrc as [|y rc Hy Hrc]; constructor;
    [now apply unit_mult|now apply IH].
Qed.

Section Factors.
Variables (kernel : cat_kernel) (lower bound : R) (theta : list R).
Variables (xtypes : list xtype) (Lij : list (list (nat * nat))) (n : nat).
Hypothesis kernel_ok : kernel <> GOWER.
Hypothesis enough : (n_params kernel xtypes <= length theta)%nat.
Hypothesis theta_nonneg : nonneg theta.
Hypothesis lower_nonneg : 0 <= lower.
Hypothesis bound_pos : 0 < bound.
Hypothesis Lij_length : length Lij = length (n_levels xtypes).
Hypothesis Lij_rows :
  forall i, (i < length Lij)%nat ->
            length (nth i Lij []) = n
            /\ levels_ok (nth i (n_levels xtypes) 0%nat) (nth i Lij []).

Let cats : list (list bool) :=
  map (fun q => cat_layout kernel xtypes q 0
                  ++ repeat false (length theta - n_params kernel xtypes))
      (seq 0 (length (n_levels xtypes))).

Lemma factor_step r r_cat i :
  (i < length (n_levels xtypes))%nat ->
  length r = n -> length r_cat = n -> Forall unit_value r ->
  exists r' rc,
    factor_body kernel lower bound theta cats (n_levels xtypes) Lij
                (r, r_cat) i = Ok (r', rc)
    /\ length r' = n /\ length rc = n /\ Forall unit_value r'
    /\ (same_levels (nth i Lij []) -> r' = r).
Proof.
  intros Hi Hr Hrc Hu. unfold factor_body.
  set (nl := nth i (n_levels xtypes) 0%nat).
  assert (Hsel : select (nth i cats []) theta
                 = slice (factor_offset kernel xtypes i)
                         (factor_offset kernel xtypes i + n_theta kernel nl)
                         theta
                 /\ (factor_offset kernel xtypes i + n_theta kernel nl
                     <= n_params kernel xtypes)%nat).
  { unfold cats. rewrite (nth_map_seq _ _ Hi).
    apply (@select_cat_column kernel xtypes i theta Hi enough). }
  destruct Hsel as [Hsel Hle]. rewrite Hsel.
  set (theta_cat := slice _ _ theta).
  assert (Hlen : length theta_cat = n_theta kernel nl).
  { unfold theta_cat. rewrite slice_length_in by lia. lia. }
  assert (Hnn : nonneg theta_cat) by (now apply slice_Forall).
  destruct (@cat_block_gram kernel lower bound nl theta_cat kernel_ok)
    as [Th HT]; [now rewrite Hlen, n_theta_slice_length|lra|].
  rewrite HT. cbn [bind].
  rewrite (@scale_angles_ok kernel bound nl theta_cat) by lra. cbn [bind].
  assert (HiL : (i < length Lij)%nat) by lia.
  destruct (Lij_rows HiL) as [HLn HLv].
  rewrite (nth_error_nth' Lij [] HiL).
  destruct (@r_cat_loop kernel nl
              (scaled_angles kernel bound nl theta_cat)
              (transform lower bound (gram nl (build_L nl Th)))
              (nth i Lij []) r_cat kernel_ok)
    as (rc & Hrun & Hl & Hurc & Hone).
  - lia.
  - exact HLv.
  - intros a b Ha Hb. apply block_unit; auto. lra.
  - intros ->. split; [now apply scale_angles_nonneg|].
    now rewrite scale_angles_length, Hlen.
  - rewrite Hrun. cbn [bind]. exists (map2 Rmult r rc), rc.
    split; [reflexivity|].
    split; [rewrite map2_length; lia|]. split; [lia|].
    split; [now apply map2_mult_unit|].
    intros Hs. apply map2_mult_ones; [lia|now apply Hone].
Qed.

Lemma factor_loop r r_cat :
  length r = n -> length r_cat = n -> Forall unit_value r ->
  exists r' rc,
    for_fold (factor_body kernel lower bound theta cats (n_levels xtypes) Lij)
             (seq 0 (length (n_levels xtypes))) (r, r_cat) = Ok (r', rc)
    /\ length r' = n /\ Forall unit_value r'
    /\ (Forall same_levels Lij -> r' = r).
Proof.
  intros Hr Hrc Hu.
  assert (H : forall m, (m <= length (n_levels xtypes))%nat ->
            exists r' rc,
              for_fold (factor_body kernel lower bound theta cats
                                    (n_levels xtypes) Lij)
                       (seq 0 m) (r, r_cat) = Ok (r', rc)
              /\ length r' = n /\ length rc = n /\ Forall unit_value r'
              /\ (Forall same_levels Lij -> r' = r)).
  { induction m as [|m IH]; intros Hm.
    - exists r, r_cat. repeat split; auto.
    - destruct (IH ltac:(lia)) as (r1 & rc1 & Hrun & Hl1 & Hlc1 & Hu1 & He1).
      destruct (@factor_step r1 rc1 m ltac:(lia) Hl1 Hlc1 Hu1)
        as (r2 & rc2 & Hstep & Hl2 & Hlc2 & Hu2 & He2).
      exists r2, rc2.
      rewrite seq_S, RegressionFacts.for_fold_last, Hrun. cbn [bind Nat.add].
      split; [exact Hstep|]. repeat split; auto.
      intros Hs. rewrite He2, He1; auto.
      rewrite Forall_forall in Hs. apply Hs, nth_In. lia. }
  destruct (H _ (le_n _)) as (r' & rc & Hrun & Hl & _ & Hu' & He).
  exists r', rc. repeat split; auto.
Qed.

End Factors.

Lemma continuous_count xtypes :
  length (filter (fun b => b) (map negb (map is_cat xtypes)))
  = length (continuous xtypes).
Proof.
  induction xtypes as [|t ts IH]; [reflexivity|].
  destruct t; simpl; rewrite ?IH; reflexivity.
Qed.

(** The inputs on which the continuous kernel returns correlations. *)
Definition continuous_ok (corr : kernel) (xtypes : list xtype) (d : matrix)
    : Prop :=
  match corr with
  | K_act_exp => continuous xtypes <> []
  | _ => Forall nonneg (rows d)
  end.

Lemma continuous_part fuel corr theta_cont xtypes d :
  (nrows d / nb_limit + 1 < fuel)%nat ->
  length theta_cont = length (continuous xtypes) ->
  nonneg theta_cont -> continuous_ok corr xtypes d ->
  exists r_cont,
    run nb_limit fuel corr theta_cont
        (mk_matrix (length (filter (fun b => b) (map negb (map is_cat xtypes))))
                   (map (select (map negb (map is_cat xtypes))) (rows d)))
        None None = Ok (Corr r_cont)
    /\ length r_cont = nrows d /\ Forall unit_value r_cont.
Proof.
  intros Hf Hl Hnn Hok. eexists. split.
  - apply run_value; [apply nb_limit_pos| |].
    + unfold nrows. cbn [rows]. rewrite length_map. exact Hf.
    + rewrite continuous_count.
      destruct corr; cbn [shape_ok ncols]; try exact Hl.
      cbn [continuous_ok] in Hok. rewrite Hl. split.
      * destruct (continuous xtypes); [congruence|discriminate].
      * apply Nat.Div0.mod_same.
  - cbn [rows ncols]. split; [now rewrite !length_map|].
    rewrite !Forall_map. apply Forall_forall. intros drow Hin.
    apply value_row_unit. destruct corr; try (now left); right;
      (split; [exact Hnn|]); cbn [continuous_ok] in Hok;
      apply select_Forall; rewrite Forall_forall in Hok; now apply Hok.
Qed.

(** matrix_data_corr on well-shaped inputs: with theta of the length that
    compute_n_param gives and entries [>= 0], bounds [0 <= theta_bounds[0]]
    and [0 < theta_bounds[1]], distances [>= 0], and levels below the
    number of levels of their factor, it returns one value in (0, 1] per
    row of [d]; when the two levels of every pair agree on every factor,
    it returns what the continuous kernel returns on the continuous
    columns. *)
Theorem matrix_data_corr_range (fuel : nat) (corr : kernel)
    (theta : list R) (lower bound : R) (d : matrix)
    (Lij : list (list (nat * nat))) (xtypes : list xtype)
    (kernel : cat_kernel) :
  kernel <> GOWER ->
  (nrows d / nb_limit + 1 < fuel)%nat ->
  length theta = compute_n_param xtypes kernel ->
  nonneg theta -> 0 <= lower -> 0 < bound ->
  ncols d = length xtypes -> continuous_ok corr xtypes d ->
  length Lij = length (n_levels xtypes) ->
  (forall i, (i < length Lij)%nat ->
             length (nth i Lij []) = nrows d
             /\ levels_ok (nth i (n_levels xtypes) 0%nat) (nth i Lij [])) ->
  exists r cont cats i j r_cont,
    matrix_data_corr fuel corr theta (lower, bound) d Lij
                     (n_levels xtypes) (map is_cat xtypes) kernel = Ok r
    /\ length r = nrows d
    /\ Forall unit_value r
    /\ theta_masks kernel (length theta) (n_levels xtypes)
                   (map is_cat xtypes) = Ok (cont, cats, i, j)
    /\ run nb_limit fuel corr (select cont theta)
           (mk_matrix (length (continuous xtypes))
                      (map (select (map negb (map is_cat xtypes))) (rows d)))
           None None = Ok (Corr r_cont)
    /\ (Forall same_levels Lij -> r = r_cont).
Proof.
  intros Hk Hf Hlen Hnn Hlo Hb Hcols Hok HL HLij.
  rewrite compute_n_param_sum in Hlen.
  assert (Hen : (n_params kernel xtypes <= length theta)%nat) by lia.
  pose proof (@theta_masks_result kernel xtypes (length theta) Hk Hen) as Hm.
  set (cont := cont_layout kernel xtypes
                 ++ repeat false (length theta - n_params kernel xtypes)) in *.
  set (cats := map (fun q => cat_layout kernel xtypes q 0
                               ++ repeat false (length theta
                                                - n_params kernel xtypes))
                   (seq 0 (length (n_levels xtypes)))) in *.
  assert (Hcont : length (select cont theta) = length (continuous xtypes)).
  { unfold cont.
    rewrite (@select_cont_layout kernel xtypes theta 0) by lia.
    now rewrite length_map, cont_offsets_length. }
  destruct (@continuous_part fuel corr (select cont theta) xtypes d Hf Hcont
              (@select_Forall _ cont theta Hnn) Hok)
    as (r_cont & Hrun & Hlr & Hur).
  destruct (@factor_loop kernel lower bound theta xtypes Lij (nrows d)
              Hk Hen Hnn Hlo Hb HL HLij r_cont (map (fun x => x * 0) r_cont)
              Hlr ltac:(now rewrite length_map) Hur)
    as (r & rc & Hloop & Hl & Hu & He).
  fold cats in Hloop.
  exists r, cont, cats, (length (n_levels xtypes)), (n_params kernel xtypes),
    r_cont.
  split.
  { unfold matrix_data_corr. rewrite Hm. cbn [bind].
    rewrite length_map, Hcols, Nat.eqb_refl. cbn [negb].
    rewrite Hrun. cbn [bind]. rewrite Hloop. reflexivity. }
  split; [exact Hl|]. split; [exact Hu|]. split; [exact Hm|].
  split; [now rewrite <- continuous_count|exact He].
Qed.

Lemma matrix_data_corr_range_witness :
  exists r,
    matrix_data_corr 2 K_squar_exp [1; 2] (0, 20)
                     (mk_matrix 2 [[1; 0]; [4; 1]]) [[(0, 0); (0, 1)]%nat]
                     (n_levels [FLOAT; ENUM 2])
                     (map is_cat [FLOAT; ENUM 2]) HOMO_GAUSSIAN = Ok r
    /\ length r = 2%nat
    /\ Forall unit_value r.
Proof.
  destruct (@matrix_data_corr_range 2 K_squar_exp [1; 2] 0 20
              (mk_matrix 2 [[1; 0]; [4; 1]]) [[(0, 0); (0, 1)]%nat]
              [FLOAT; ENUM 2] HOMO_GAUSSIAN)
    as (r & cont & cats & i & j & r_cont & H1 & H2 & H3 & _).
  - discriminate.
  - apply Nat.ltb_lt. vm_compute. reflexivity.
  - reflexivity.
  - repeat constructor; lra.
  - lra.
  - lra.
  - reflexivity.
  - repeat constructor; lra.
  - reflexivity.
  - intros [|i] Hi; [|simpl in Hi; lia]. split; [reflexivity|].
    repeat constructor.
  - exists r. repeat split; assumption.
Defined.

End MixedFacts.

(** ** cross_levels on the pairs of cross_distances *)

Module LevelsFacts.
Import Distance DistanceFacts Gower Mixed LayoutFacts MixedFacts.
Local Open Scope nat_scope.

Lemma categorical_count xtypes :
  length (filter (fun b => b) (map is_cat xtypes)) = length (n_levels xtypes).
Proof.
  induction xtypes as [|t ts IH]; [reflexivity|].
  destruct t; simpl; rewrite ?IH; reflexivity.
Qed.

(** The level of point [i] of [X] on the [k]-th categorical variable. *)
Definition level_of (xtypes : list xtype) (X : matrix) (k i : nat) : R :=
  nth k (select (map is_cat xtypes) (row X i)) 0%R.

Lemma entry_level xtypes X i k :
  wf_matrix X -> length xtypes = ncols X ->
  i < nrows X -> k < length (n_levels xtypes) ->
  entry (map (select (map is_cat xtypes)) (rows X)) i k
  = Ok (level_of xtypes X k i).
Proof.
  intros Hw Hl Hi Hk. unfold entry, level_of.
  rewrite nth_error_map, (nth_error_nth' (rows X) [] Hi). cbn [option_map].
  fold (row X i).
  assert (Hrow : length (row X i) = ncols X).
  { unfold wf_matrix in Hw. rewrite Forall_forall in Hw.
    apply Hw, nth_In, Hi. }
  assert (Hs : length (select (map is_cat xtypes) (row X i))
               = length (n_levels xtypes)).
  { rewrite select_count by (rewrite length_map; lia).
    apply categorical_count. }
  now rewrite (nth_error_nth' _ 0%R) by lia.
Qed.

Definition pairs_in (n m : nat) (ij : list (nat * nat)) : Prop :=
  Forall (fun p => fst p < n /\ snd p < m) ij.

Lemma for_each_map {A B} (f : A -> result B) (g : A -> B) l :
  (forall a, In a l -> f a = Ok (g a)) -> for_each f l = Ok (map g l).
Proof.
  induction l as [|a l IH]; intros H; [reflexivity|].
  simpl. rewrite (H a (or_introl eq_refl)). cbn [bind].
  rewrite IH by (intros a' Ha; apply H; now right). reflexivity.
Qed.

Lemma cross_levels_result X Y y xtypes ij :
  wf_matrix X -> length xtypes = ncols X ->
  match y with
  | None => Y = X
  | Some y' => Y = y' /\ wf_matrix Y /\ ncols Y = ncols X
  end ->
  pairs_in (nrows X) (nrows Y) ij ->
  cross_levels X ij xtypes y
  = Ok (map (fun k => map (fun p => (level_of xtypes X k (fst p),
                                     level_of xtypes Y k (snd p))) ij)
            (seq 0 (length (n_levels xtypes))),
        n_levels xtypes).
Proof.
  intros Hw Hl HY Hij. unfold cross_levels, compute_X_cont.
  rewrite length_map, Hl, Nat.eqb_refl. cbn [negb bind].
  rewrite (for_each_map _
             (fun k => map (fun p => (level_of xtypes X k (fst p),
                                      level_of xtypes Y k (snd p))) ij));
    [reflexivity|].
  intros k Hk. apply in_seq in Hk.
  assert (Hmap : map (fun p => (level_of xtypes X k (fst p),
                                level_of xtypes Y k (snd p))) ij
                 = map (fun l => (level_of xtypes X k (fst (nth l ij (0, 0))),
                                  level_of xtypes Y k (snd (nth l ij (0, 0)))))
                       (seq 0 (length ij))).
  { rewrite <- (DifferencesFacts.nth_seq_all ij (0, 0)) at 1.
    now rewrite map_map. }
  rewrite Hmap. apply for_each_map. intros l Hlin. apply in_seq in Hlin.
  unfold pairs_in in Hij. rewrite Forall_forall in Hij.
  assert (Hp : fst (nth l ij (0, 0)) < nrows X
               /\ snd (nth l ij (0, 0)) < nrows Y)
    by (apply Hij, nth_In; lia).
  destruct (nth l ij (0, 0)) as [i j]. cbn [fst snd] in *.
  destruct Hp as [Hi Hj]. destruct y as [y'|].
  - destruct HY as (-> & HwY & HcY). unfold cat_columns.
    rewrite length_map, Hl, <- HcY, Nat.eqb_refl. cbn [negb bind].
    rewrite entry_level by (auto; lia). cbn [bind].
    rewrite entry_level by (auto; lia). reflexivity.
  - subst Y. rewrite !entry_level by (auto; lia). reflexivity.
Qed.

(** cross_levels never fails on the pairs that cross_distances returns
    (with or without [y]): for every categorical variable [k] and every
    pair [(i, j)] it returns the level of point [i] of [X] and the level
    of point [j] of [X] (of [y] when [y] is given), in the order of the
    pairs; and its [n_levels] has one entry per categorical variable. *)
Theorem cross_levels_of_pairs (X : matrix) (y : option matrix)
    (xtypes : list xtype) :
  wf_matrix X -> length xtypes = ncols X ->
  match y with
  | None => True
  | Some y' => wf_matrix y' /\ ncols y' = ncols X
  end ->
  let Y := match y with None => X | Some y' => y' end in
  exists D ij,
    cross_distances X y = Ok (D, ij)
    /\ cross_levels X ij xtypes y
       = Ok (map (fun k => map (fun p => (level_of xtypes X k (fst p),
                                          level_of xtypes Y k (snd p))) ij)
                 (seq 0 (length (n_levels xtypes))),
             n_levels xtypes)
    /\ length (n_levels xtypes)
       = length (filter (fun b => b) (map is_cat xtypes)).
Proof.
  intros Hw Hl Hy Y. destruct y as [y'|].
  - destruct Hy as [HwY HcY].
    rewrite (@cross_mode_result X y' (eq_sym HcY)).
    do 2 eexists. split; [reflexivity|]. split; [|now rewrite categorical_count].
    apply (@cross_levels_result X y' (Some y')); auto.
    unfold pairs_in. apply Forall_forall. intros [i j] Hin.
    unfold all_pairs in Hin. apply in_flat_map in Hin.
    destruct Hin as (a & Ha & Hin). apply in_map_iff in Hin.
    destruct Hin as (b & Hb & Hin). injection Hb as <- <-.
    apply in_seq in Ha, Hin. cbn [fst snd]. lia.
  - rewrite self_mode_result.
    do 2 eexists. split; [reflexivity|]. split; [|now rewrite categorical_count].
    apply (@cross_levels_result X X None); auto.
    unfold pairs_in. apply Forall_forall. intros [i j] Hin.
    apply upper_pairs_In in Hin. cbn [fst snd]. lia.
Qed.

Lemma cross_levels_of_pairs_witness :
  exists D ij Lij,
    cross_distances (mk_matrix 2 [[1; 0]; [2; 1]; [3; 0]]%R) None = Ok (D, ij)
    /\ cross_levels (mk_matrix 2 [[1; 0]; [2; 1]; [3; 0]]%R) ij
                    [FLOAT; ENUM 2] None
       = Ok (Lij, [2]).
Proof.
  destruct (@cross_levels_of_pairs (mk_matrix 2 [[1; 0]; [2; 1]; [3; 0]]%R)
              None [FLOAT; ENUM 2])
    as (D & ij & H1 & H2 & _).
  - repeat constructor.
  - reflexivity.
  - exact I.
  - exists D, ij. eexists. split; [exact H1|exact H2].
Defined.

End LevelsFacts.

(** ** The spatial Jacobian of the Matern kernels is the derivative *)

Module MaternSpatialFacts.
Import Kernels KernelFacts Componentwise LoopFacts PipelineFacts GradientFacts
  SpatialFacts LayoutFacts LevelsFacts MaternSpatial.
Local Open Scope R_scope.

(** *** Products over a row with one entry moved *)

Lemma rprod_move_entry (p f : R -> R) theta x j t :
  p 0 = 1 -> f 0 = 0 -> (j < length x)%nat ->
  rprod (map p (map2 Rmult theta (map f (set_nth j t x))))
  = p (nth j theta 0 * f t)
    * rprod (map p (map2 Rmult theta (map f (set_nth j 0 x)))).
Proof.
  intros Hp Hf. revert j x.
  induction theta as [|a theta IH]; intros [|j] [|y x] Hj;
    cbn [length] in *; try lia.
  - unfold set_nth. simpl. rewrite Rmult_0_l, Hp. ring.
  - rewrite !set_nth_cons. simpl. rewrite Rmult_0_l, Hp. ring.
  - unfold set_nth. simpl. rewrite Hf, Rmult_0_r, Hp. ring.
  - rewrite !set_nth_cons. cbn [map map2 rprod fold_right nth].
    fold (rprod (map p (map2 Rmult theta (map f (set_nth j t x))))).
    fold (rprod (map p (map2 Rmult theta (map f (set_nth j 0 x))))).
    rewrite (IH j x) by lia. ring.
Qed.

Lemma rsum_map2_comm (a b : list R) :
  rsum (map2 Rmult a b) = rsum (map2 Rmult b a).
Proof.
  revert b. induction a as [|x a IH]; intros [|y b]; simpl; try reflexivity.
  fold (rsum (map2 Rmult a b)). fold (rsum (map2 Rmult b a)).
  rewrite IH. ring.
Qed.

(** The loop that skips index [k] multiplies the other factors. *)
Lemma coef_loop_from (factor : nat -> R) k l acc :
  fold_left (fun coef l => if (l =? k)%nat then coef else coef * factor l) l acc
  = acc * rprod (map (fun l => if (l =? k)%nat then 1 else factor l) l).
Proof.
  revert acc. induction l as [|a l IH]; intros acc; [simpl; ring|].
  cbn [fold_left map]. rewrite IH.
  change (rprod ((if (a =? k)%nat then 1 else factor a)
                 :: map (fun l => if (l =? k)%nat then 1 else factor l) l))
    with ((if (a =? k)%nat then 1 else factor a)
          * rprod (map (fun l => if (l =? k)%nat then 1 else factor l) l)).
  destruct (a =? k)%nat; ring.
Qed.

Lemma map2_as_seq (g : R -> R -> R) (a b : list R) n :
  length a = n -> length b = n ->
  map2 g a b = map (fun l => g (nth l a 0) (nth l b 0)) (seq 0 n).
Proof.
  revert a b. induction n as [|n IH]; intros [|x a] [|y b] Ha Hb;
    simpl in *; try lia; [reflexivity|].
  f_equal. rewrite <- seq_shift, map_map. apply IH; lia.
Qed.

Lemma coef_is_rest (p : R -> R) (factor : nat -> R) theta x k n :
  p 0 = 1 -> length theta = n -> length x = n -> (k < n)%nat ->
  (forall l, (l < n)%nat ->
             factor l = p (nth l theta 0 * Rabs (nth l x 0))) ->
  coef_loop n k factor
  = rprod (map p (map2 Rmult theta (map Rabs (set_nth k 0 x)))).
Proof.
  intros Hp Ht Hx Hk Hfac. unfold coef_loop.
  rewrite coef_loop_from, Rmult_1_l.
  rewrite (@map2_as_seq Rmult theta (map Rabs (set_nth k 0 x)) n Ht)
    by (rewrite length_map, length_set_nth; lia).
  rewrite map_map. f_equal. apply map_ext_in. intros l Hl. apply in_seq in Hl.
  rewrite (nth_map_in Rabs (set_nth k 0 x) 0 0)
    by (rewrite length_set_nth; lia).
  rewrite nth_set_nth by lia.
  destruct (l =? k)%nat.
  - now rewrite Rabs_R0, Rmult_0_r, Hp.
  - apply Hfac. lia.
Qed.

(** *** The derivative of a Matern value with respect to one entry of
    [dx] *)

Definition matern_value (p : R -> R) (c : R) (theta x : list R) : R :=
  rprod (map p (map2 Rmult theta (map Rabs x)))
  * exp (- c * rsum (map2 Rmult theta (map Rabs x))).

Lemma matern_spatial_derivative (p : R -> R) (c : R) theta x k dq :
  p 0 = 1 -> (k < length x)%nat ->
  derivable_pt_lim (fun t => p (nth k theta 0 * Rabs t)) (nth k x 0) dq ->
  nth k x 0 <> 0 ->
  derivable_pt_lim
    (fun t => matern_value p c theta (set_nth k t x)) (nth k x 0)
    (- c * nth k theta 0 * der_sign (nth k x 0) * matern_value p c theta x
     + exp (- c * rsum (map2 Rmult theta (map Rabs x)))
       * (dq * rprod (map p (map2 Rmult theta (map Rabs (set_nth k 0 x)))))).
Proof.
  intros Hp Hk Hq Hx. unfold matern_value.
  pose proof (@rsum_move_entry Rabs theta x k (nth k x 0) Rabs_R0 Hk) as Hs.
  pose proof (@rprod_move_entry p Rabs theta x k (nth k x 0) Hp Rabs_R0 Hk)
    as Hpr.
  rewrite set_nth_same in Hs, Hpr by exact Hk. rewrite Hs, Hpr.
  set (x0 := nth k x 0) in *. set (th := nth k theta 0) in *.
  set (s0 := rsum (map2 Rmult theta (map Rabs (set_nth k 0 x)))).
  set (P0 := rprod (map p (map2 Rmult theta (map Rabs (set_nth k 0 x))))).
  set (q := fun t => p (th * Rabs t)) in *.
  set (e := fun t => exp (- c * s0 + (- c * th) * Rabs t)).
  apply (@dlim_ext (fun t => q t * (P0 * e t)) _ x0
           (dq * (P0 * e x0)
            + q x0 * (0 * e x0
                      + P0 * (e x0 * (0 + (- c * th) * der_sign x0)))) _).
  - intros t.
    rewrite (@rsum_move_entry Rabs theta x k t Rabs_R0 Hk).
    rewrite (@rprod_move_entry p Rabs theta x k t Hp Rabs_R0 Hk).
    fold th s0 P0. unfold q, e.
    replace (- c * (s0 + th * Rabs t)) with (- c * s0 + - c * th * Rabs t)
      by ring.
    ring.
  - unfold q, e.
    replace (- c * (s0 + th * Rabs x0)) with (- c * s0 + - c * th * Rabs x0)
      by ring.
    ring.
  - apply (@dlim_mult q (fun t => P0 * e t)); [exact Hq|].
    apply (@dlim_mult (fun _ => P0) e); [apply dlim_const|].
    apply (@dlim_exp (fun t => - c * s0 + - c * th * Rabs t)).
    apply (@dlim_plus (fun _ => - c * s0) (fun t => - c * th * Rabs t));
      [apply dlim_const|].
    apply dlim_scal. now apply dlim_abs.
Qed.

Definition p32 (y : R) : R := 1 + sqrt 3 * y.
Definition p52 (y : R) : R := 1 + sqrt 5 * y + 5 / 3 * y ^ 2.

Lemma m32_value_matern theta x :
  m32_value theta (map Rabs x) 0 = matern_value p32 (sqrt 3) theta x.
Proof. reflexivity. Qed.

Lemma m52_value_matern theta x :
  m52_value theta (map Rabs x) 0 = matern_value p52 (sqrt 5) theta x.
Proof. reflexivity. Qed.

Lemma p32_derivative th x0 :
  x0 <> 0 ->
  derivable_pt_lim (fun t => p32 (th * Rabs t)) x0
                   (sqrt 3 * th * der_sign x0).
Proof.
  intros Hx. unfold p32.
  apply (@dlim_ext (fun t => 1 + (sqrt 3 * th) * Rabs t) _ x0
           (0 + sqrt 3 * th * der_sign x0) _);
    [intros t; ring|ring|].
  apply (@dlim_plus (fun _ => 1) (fun t => sqrt 3 * th * Rabs t));
    [apply dlim_const|].
  apply dlim_scal. now apply dlim_abs.
Qed.

Lemma p52_derivative th x0 :
  x0 <> 0 ->
  derivable_pt_lim (fun t => p52 (th * Rabs t)) x0
                   (sqrt 5 * th * der_sign x0
                    + 2 * (5 / 3) * der_sign x0 * Rabs x0 * th ^ 2).
Proof.
  intros Hx. unfold p52.
  apply (@dlim_ext
           (fun t => (1 + (sqrt 5 * th) * Rabs t)
                     + (5 / 3 * th ^ 2) * (Rabs t * Rabs t)) _ x0
           ((0 + sqrt 5 * th * der_sign x0)
            + 5 / 3 * th ^ 2
              * (der_sign x0 * Rabs x0 + Rabs x0 * der_sign x0)) _);
    [intros t; ring|ring|].
  apply (@dlim_plus (fun t => 1 + sqrt 5 * th * Rabs t)
                    (fun t => 5 / 3 * th ^ 2 * (Rabs t * Rabs t))).
  - apply (@dlim_plus (fun _ => 1) (fun t => sqrt 5 * th * Rabs t));
      [apply dlim_const|].
    apply dlim_scal. now apply dlim_abs.
  - apply dlim_scal. apply (@dlim_mult Rabs Rabs); now apply dlim_abs.
Qed.

(** *** The rows that the loops build *)

Lemma m32_dr_entry theta x k rj :
  length theta = length x -> (k < length x)%nat ->
  nth k (m32_dr_row theta (length x) x rj
           (exp (- sqrt 3 * rsum (map2 Rmult (map Rabs x) theta)))) 0
  = - sqrt 3 * nth k theta 0 * der_sign (nth k x 0) * rj
    + exp (- sqrt 3 * rsum (map2 Rmult theta (map Rabs x)))
      * (sqrt 3 * nth k theta 0 * der_sign (nth k x 0)
         * rprod (map p32 (map2 Rmult theta (map Rabs (set_nth k 0 x))))).
Proof.
  intros Ht Hk. unfold m32_dr_row.
  rewrite (nth_map_seq _ 0 Hk). cbv zeta.
  rewrite (nth_map_in der_sign x 0 0 Hk).
  rewrite (rsum_map2_comm (map Rabs x) theta).
  rewrite (@coef_is_rest p32 _ theta x k (length x)); auto.
  - unfold p32. ring.
  - intros l Hl. unfold p32. rewrite (nth_map_in Rabs x 0 0 Hl). ring.
Qed.

Lemma m52_dr_entry theta x k rj :
  length theta = length x -> (k < length x)%nat ->
  nth k (m52_dr_row theta (length x) x rj
           (exp (- sqrt 5 * rsum (map2 Rmult (map Rabs x) theta)))) 0
  = - sqrt 5 * nth k theta 0 * der_sign (nth k x 0) * rj
    + exp (- sqrt 5 * rsum (map2 Rmult theta (map Rabs x)))
      * ((sqrt 5 * nth k theta 0 * der_sign (nth k x 0)
          + 2 * (5 / 3) * der_sign (nth k x 0) * Rabs (nth k x 0)
            * nth k theta 0 ^ 2)
         * rprod (map p52 (map2 Rmult theta (map Rabs (set_nth k 0 x))))).
Proof.
  intros Ht Hk. unfold m52_dr_row.
  rewrite (nth_map_seq _ 0 Hk). cbv zeta.
  rewrite (nth_map_in der_sign x 0 0 Hk), (nth_map_in Rabs x 0 0 Hk).
  rewrite (rsum_map2_comm (map Rabs x) theta).
  rewrite (@coef_is_rest p52 _ theta x k (length x)); auto.
  - unfold p52. ring.
  - intros l Hl. unfold p52.
    rewrite (nth_map_in Rabs x 0 0 Hl), (nth_map_in (fun v => v ^ 2) x 0 0 Hl).
    rewrite <- (pow2_abs (nth l x 0)). ring.
Qed.

(** *** The pair that the kernels return *)

Definition jacobian_of (dr_row : list R -> R -> R -> list R) (c : R)
    (value : list R -> R) (theta : list R) (DX : matrix) : list (list R) :=
  map (fun j =>
         dr_row (row DX j) (value (map Rabs (row DX j)))
                (exp (- c * rsum (map2 Rmult (map Rabs (row DX j)) theta))))
      (seq 0 (nrows DX)).

Lemma spatial_result (run_value : result kernel_out)
    (dr_row : list R -> R -> R -> list R) (c : R) (value : list R -> R)
    theta DX :
  length theta = ncols DX ->
  run_value = Ok (Corr (map value (map (map Rabs) (rows DX)))) ->
  spatial run_value dr_row c (ncols DX) theta DX
  = Ok (CorrJac (map value (map (map Rabs) (rows DX)))
                (jacobian_of dr_row c value theta DX)).
Proof.
  intros Hl Hrun. unfold spatial. rewrite Hrun. cbn [bind].
  unfold dot_theta. rewrite <- Hl, Nat.eqb_refl. cbn [negb bind].
  unfold columns_ok. rewrite Nat.ltb_irrefl, Bool.andb_false_r. cbn [bind].
  unfold jacobian_rows.
  rewrite (for_each_map _
             (fun j => dr_row (row DX j) (value (map Rabs (row DX j)))
                         (exp (- c * rsum (map2 Rmult (map Rabs (row DX j))
                                                theta))))).
  - reflexivity.
  - intros j Hj. apply in_seq in Hj.
    assert (Hj' : (j < length (rows DX))%nat) by (unfold nrows in Hj; lia).
    rewrite !map_map.
    rewrite (nth_error_nth' _ (value (map Rabs [])))
      by now rewrite length_map.
    rewrite (map_nth (fun r => value (map Rabs r))).
    rewrite (nth_map_in _ (rows DX) [] 0 Hj').
    reflexivity.
Qed.

(** The spatial Jacobian of matern32 and matern52: with [d] the output
    of componentwise_distance on the signed differences [dx], [dr[j, k]]
    is the derivative of [r[j]] with respect to [dx[j, k]], wherever
    [dx[j, k]] is not zero. *)
Theorem matern_jacobian_is_derivative (theta : list R) (DX : matrix)
    (fuel : nat) :
  (nrows DX / nb_limit + 1 < fuel)%nat ->
  wf_matrix DX -> length theta = ncols DX ->
  exists d r32 dr32 r52 dr52,
    componentwise_distance fuel DX "matern32" (ncols DX) None false = Ok d
    /\ componentwise_distance fuel DX "matern52" (ncols DX) None false = Ok d
    /\ matern32_spatial nb_limit fuel theta (mk_matrix (ncols DX) d) DX
       = Ok (CorrJac r32 dr32)
    /\ matern52_spatial nb_limit fuel theta (mk_matrix (ncols DX) d) DX
       = Ok (CorrJac r52 dr52)
    /\ forall j k, (j < nrows DX)%nat -> (k < ncols DX)%nat ->
         nth k (row DX j) 0 <> 0 ->
         derivable_pt_lim
           (fun t => m32_value theta (map Rabs (set_nth k t (row DX j))) 0)
           (nth k (row DX j) 0) (nth k (nth j dr32 []) 0)
         /\ derivable_pt_lim
              (fun t => m52_value theta (map Rabs (set_nth k t (row DX j))) 0)
              (nth k (row DX j) 0) (nth k (nth j dr52 []) 0).
Proof.
  intros Hf Hw Hl.
  assert (Hd : forall corr,
             componentwise_distance fuel DX corr (ncols DX) None false
             = Ok (map (map (distance_of corr)) (rows DX))).
  { intros corr. rewrite componentwise_value by exact Hf.
    now rewrite (broadcast_wf _ Hw). }
  set (d := mk_matrix (ncols DX) (map (map Rabs) (rows DX))).
  assert (Hfd : (nrows d / nb_limit + 1 < fuel)%nat).
  { unfold nrows, d. cbn [rows]. rewrite length_map. exact Hf. }
  assert (H32 : matern32 nb_limit fuel theta d None None
                = Ok (Corr (map (fun x => m32_value theta x 0)
                                (map (map Rabs) (rows DX))))).
  { apply (@run_value nb_limit fuel K_matern32 theta d nb_limit_pos Hfd Hl). }
  assert (H52 : matern52 nb_limit fuel theta d None None
                = Ok (Corr (map (fun x => m52_value theta x 0)
                                (map (map Rabs) (rows DX))))).
  { apply (@run_value nb_limit fuel K_matern52 theta d nb_limit_pos Hfd Hl). }
  exists (map (map Rabs) (rows DX)).
  do 4 eexists.
  split; [apply (Hd "matern32")|]. split; [apply (Hd "matern52")|].
  split; [apply (@spatial_result _ _ _ (fun x => m32_value theta x 0)
                   theta DX Hl H32)|].
  split; [apply (@spatial_result _ _ _ (fun x => m52_value theta x 0)
                   theta DX Hl H52)|].
  intros j k Hj Hk Hx.
  assert (Hrow : length (row DX j) = ncols DX).
  { unfold wf_matrix in Hw. rewrite Forall_forall in Hw.
    apply Hw, nth_In, Hj. }
  assert (Hk' : (k < length (row DX j))%nat) by lia.
  assert (Ht : length theta = length (row DX j)) by lia.
  unfold jacobian_of. rewrite !(nth_map_seq _ [] Hj).
  cbn [ncols d]. rewrite <- Hrow. split.
  - rewrite (@m32_dr_entry theta (row DX j) k _ Ht Hk').
    pose proof (@matern_spatial_derivative p32 (sqrt 3) theta (row DX j) k _
                  ltac:(unfold p32; ring) Hk'
                  (p32_derivative (nth k theta 0) Hx) Hx) as H.
    revert H. apply dlim_ext; [reflexivity|].
    rewrite m32_value_matern. ring.
  - rewrite (@m52_dr_entry theta (row DX j) k _ Ht Hk').
    pose proof (@matern_spatial_derivative p52 (sqrt 5) theta (row DX j) k _
                  ltac:(unfold p52; ring) Hk'
                  (p52_derivative (nth k theta 0) Hx) Hx) as H.
    revert H. apply dlim_ext; [reflexivity|].
    rewrite m52_value_matern. ring.
Qed.

Lemma matern_jacobian_is_derivative_witness :
  exists d r32 dr32,
    componentwise_distance 2 three_rows "matern32" 2 None false = Ok d
    /\ matern32_spatial nb_limit 2 [1; 2] (mk_matrix 2 d) three_rows
       = Ok (CorrJac r32 dr32).
Proof.
  destruct (@matern_jacobian_is_derivative [1; 2] three_rows 2)
    as (d & r32 & dr32 & r52 & dr52 & H1 & _ & H3 & _).
  - apply Nat.ltb_lt. vm_compute. reflexivity.
  - repeat constructor.
  - reflexivity.
  - exists d, r32, dr32. split; assumption.
Defined.

End MaternSpatialFacts.

(** ** The spatial Hessian of matern32 is the derivative of its Jacobian *)

Module MaternHessianFacts.
Import Kernels KernelFacts Componentwise LoopFacts PipelineFacts GradientFacts
  SpatialFacts LayoutFacts LevelsFacts Gower MaternSpatial MaternSpatialFacts
  MaternHessian.
Local Open Scope R_scope.

(** The sign is constant around a point that is not zero. *)
Lemma dlim_der_sign x : x <> 0 -> derivable_pt_lim der_sign x 0.
Proof.
  intros Hx eps Heps.
  exists (mkposreal (Rabs x) (Rabs_pos_lt x Hx)). intros h Hh Hlt.
  cbn [pos] in Hlt.
  assert (E : der_sign (x + h) = der_sign x).
  { unfold der_sign.
    destruct (Rlt_dec (x + h) 0), (Rlt_dec x 0); try reflexivity;
      exfalso; revert Hlt; unfold Rabs;
      destruct (Rcase_abs h), (Rcase_abs x); lra. }
  rewrite E. unfold Rminus, Rdiv. rewrite Rplus_opp_r, Rmult_0_l, Rplus_opp_r.
  now rewrite Rabs_R0.
Qed.

Lemma der_sign_square x : der_sign x * der_sign x = 1.
Proof. unfold der_sign. destruct (Rlt_dec x 0); ring. Qed.

Lemma sqrt3_square : sqrt 3 * sqrt 3 = 3.
Proof. apply sqrt_sqrt. lra. Qed.

Lemma set_nth_twice {A} (l : list A) i (a b : A) :
  (i < length l)%nat -> set_nth i a (set_nth i b l) = set_nth i a l.
Proof.
  revert i. induction l as [|x l IH]; intros [|i] Hi;
    cbn [length] in *; try lia.
  - reflexivity.
  - rewrite !set_nth_cons. f_equal. apply IH. lia.
Qed.

Lemma set_nth_swap {A} (l : list A) i k (a b : A) :
  i <> k -> (i < length l)%nat -> (k < length l)%nat ->
  set_nth k b (set_nth i a l) = set_nth i a (set_nth k b l).
Proof.
  revert i k. induction l as [|x l IH]; intros [|i] [|k] Hik Hi Hk;
    cbn [length] in *; try lia.
  - rewrite !set_nth_cons. reflexivity.
  - rewrite !set_nth_cons. reflexivity.
  - rewrite !set_nth_cons. f_equal. apply IH; lia.
Qed.

(** *** The Matern 3/2 value and one entry of the row *)

Definition mv (theta x : list R) : R := matern_value p32 (sqrt 3) theta x.

Lemma p32_zero : p32 0 = 1.
Proof. unfold p32. ring. Qed.

Lemma mv_split theta x k :
  (k < length x)%nat ->
  mv theta x
  = p32 (nth k theta 0 * Rabs (nth k x 0))
    * exp (- sqrt 3 * nth k theta 0 * Rabs (nth k x 0))
    * mv theta (set_nth k 0 x).
Proof.
  intros Hk. unfold mv, matern_value.
  pose proof (@rsum_move_entry Rabs theta x k (nth k x 0) Rabs_R0 Hk) as Hs.
  pose proof (@rprod_move_entry p32 Rabs theta x k (nth k x 0) p32_zero
                Rabs_R0 Hk) as Hp.
  rewrite set_nth_same in Hs, Hp by exact Hk. rewrite Hs, Hp.
  replace (- sqrt 3 * (rsum (map2 Rmult theta (map Rabs (set_nth k 0 x)))
                       + nth k theta 0 * Rabs (nth k x 0)))
    with (- sqrt 3 * nth k theta 0 * Rabs (nth k x 0)
          + - sqrt 3 * rsum (map2 Rmult theta (map Rabs (set_nth k 0 x))))
    by ring.
  rewrite exp_plus. ring.
Qed.

(** One row of [dr], as matern32 builds it from a row of [dx]. *)
Definition jacobian_row (theta x : list R) : list R :=
  m32_dr_row theta (length x) x (m32_value theta (map Rabs x) 0)
             (exp (- sqrt 3 * rsum (map2 Rmult (map Rabs x) theta))).

Lemma jacobian_entry_split theta x k :
  length theta = length x -> (k < length x)%nat ->
  nth k (jacobian_row theta x) 0
  = sqrt 3 * nth k theta 0 * der_sign (nth k x 0)
    * (- mv theta x
       + exp (- sqrt 3 * nth k theta 0 * Rabs (nth k x 0))
         * mv theta (set_nth k 0 x)).
Proof.
  intros Ht Hk. unfold jacobian_row.
  rewrite (@m32_dr_entry theta x k _ Ht Hk), m32_value_matern. fold (mv theta x).
  pose proof (@rsum_move_entry Rabs theta x k (nth k x 0) Rabs_R0 Hk) as Hs.
  rewrite set_nth_same in Hs by exact Hk. rewrite Hs.
  replace (- sqrt 3 * (rsum (map2 Rmult theta (map Rabs (set_nth k 0 x)))
                       + nth k theta 0 * Rabs (nth k x 0)))
    with (- sqrt 3 * nth k theta 0 * Rabs (nth k x 0)
          + - sqrt 3 * rsum (map2 Rmult theta (map Rabs (set_nth k 0 x))))
    by ring.
  rewrite exp_plus. generalize (mv theta x). intros M.
  unfold mv, matern_value. ring.
Qed.

(** The factor by which the code multiplies [dr[j][k]]. *)
Definition lead_factor (theta x : list R) (i : nat) : R :=
  sqrt 3 * nth i theta 0 * der_sign (nth i x 0)
  * (1 / (1 + sqrt 3 * Rabs (nth i x 0) * nth i theta 0) - 1).

Lemma mv_derivative theta x i :
  (i < length x)%nat -> nth i x 0 <> 0 ->
  1 + sqrt 3 * Rabs (nth i x 0) * nth i theta 0 <> 0 ->
  derivable_pt_lim (fun t => mv theta (set_nth i t x)) (nth i x 0)
                   (lead_factor theta x i * mv theta x).
Proof.
  intros Hi Hx Hp.
  pose proof (@matern_spatial_derivative p32 (sqrt 3) theta x i _
                p32_zero Hi (p32_derivative (nth i theta 0) Hx) Hx) as H.
  revert H. apply dlim_ext; [reflexivity|].
  fold (mv theta x). rewrite (mv_split theta x Hi). unfold lead_factor.
  pose proof (@rsum_move_entry Rabs theta x i (nth i x 0) Rabs_R0 Hi) as Hs.
  rewrite set_nth_same in Hs by exact Hi. rewrite Hs.
  replace (- sqrt 3 * (rsum (map2 Rmult theta (map Rabs (set_nth i 0 x)))
                       + nth i theta 0 * Rabs (nth i x 0)))
    with (- sqrt 3 * nth i theta 0 * Rabs (nth i x 0)
          + - sqrt 3 * rsum (map2 Rmult theta (map Rabs (set_nth i 0 x))))
    by ring.
  rewrite exp_plus. unfold mv, matern_value, p32. field.
  exact Hp.
Qed.

Lemma lead_factor_other theta x i k v :
  i <> k -> (k < length x)%nat ->
  lead_factor theta (set_nth k v x) i = lead_factor theta x i.
Proof.
  intros Hik Hk. unfold lead_factor. rewrite nth_set_nth by exact Hk.
  destruct (Nat.eqb_spec i k); [contradiction|reflexivity].
Qed.

(** *** The derivative of one entry of the Jacobian row *)

Lemma jacobian_cross_derivative theta x i k :
  length theta = length x -> (i < length x)%nat -> (k < length x)%nat ->
  i <> k -> nth i x 0 <> 0 ->
  1 + sqrt 3 * Rabs (nth i x 0) * nth i theta 0 <> 0 ->
  derivable_pt_lim (fun t => nth k (jacobian_row theta (set_nth i t x)) 0)
                   (nth i x 0)
                   (lead_factor theta x i * nth k (jacobian_row theta x) 0).
Proof.
  intros Ht Hi Hk Hik Hx Hp.
  set (A := sqrt 3 * nth k theta 0 * der_sign (nth k x 0)).
  set (B := exp (- sqrt 3 * nth k theta 0 * Rabs (nth k x 0))).
  set (x' := set_nth k 0 x).
  assert (Hx' : nth i x' 0 = nth i x 0).
  { unfold x'. rewrite nth_set_nth by exact Hk.
    destruct (Nat.eqb_spec i k); [contradiction|reflexivity]. }
  assert (Hi' : (i < length x')%nat)
    by (unfold x'; rewrite length_set_nth; lia).
  apply (@dlim_ext
           (fun t => A * ((-1) * mv theta (set_nth i t x)
                          + B * mv theta (set_nth i t x'))) _ (nth i x 0)
           (A * ((-1) * (lead_factor theta x i * mv theta x)
                 + B * (lead_factor theta x' i * mv theta x'))) _).
  - intros t.
    rewrite jacobian_entry_split by (rewrite length_set_nth; lia).
    rewrite (nth_set_nth x k t Hi).
    destruct (Nat.eqb_spec k i) as [E|_]; [congruence|].
    rewrite (@set_nth_swap _ x i k t 0 Hik Hi Hk).
    fold x' A B. ring.
  - rewrite (jacobian_entry_split theta x Ht Hk). fold A B x'.
    unfold x' at 1. rewrite (@lead_factor_other theta x i k 0 Hik Hk). ring.
  - apply dlim_scal.
    apply (@dlim_plus (fun t => (-1) * mv theta (set_nth i t x))
                      (fun t => B * mv theta (set_nth i t x'))).
    + apply dlim_scal. now apply mv_derivative.
    + apply dlim_scal. rewrite <- Hx'. apply mv_derivative; auto.
      * now rewrite Hx'.
      * now rewrite Hx'.
Qed.

Lemma jacobian_diagonal_derivative theta x i :
  length theta = length x -> (i < length x)%nat ->
  nth i x 0 <> 0 ->
  1 + sqrt 3 * Rabs (nth i x 0) * nth i theta 0 <> 0 ->
  derivable_pt_lim (fun t => nth i (jacobian_row theta (set_nth i t x)) 0)
                   (nth i x 0)
                   (lead_factor theta x i * nth i (jacobian_row theta x) 0
                    + - (3 * nth i theta 0 * nth i theta 0)
                      * (1 / (1 + sqrt 3 * Rabs (nth i x 0) * nth i theta 0) ^ 2)
                      * mv theta x).
Proof.
  intros Ht Hi Hx Hp.
  set (th := nth i theta 0). set (x0 := nth i x 0) in *.
  set (K := mv theta (set_nth i 0 x)).
  set (F := fun t => (-1) * mv theta (set_nth i t x)
                     + K * exp ((- sqrt 3 * th) * Rabs t)).
  apply (@dlim_ext (fun t => (sqrt 3 * th) * (der_sign t * F t)) _ x0
           ((sqrt 3 * th)
            * (0 * F x0
               + der_sign x0
                 * ((-1) * (lead_factor theta x i * mv theta x)
                    + K * (exp ((- sqrt 3 * th) * Rabs x0)
                           * ((- sqrt 3 * th) * der_sign x0))))) _).
  - intros t.
    rewrite jacobian_entry_split by (rewrite length_set_nth; lia).
    rewrite (nth_set_nth x i t Hi), Nat.eqb_refl.
    rewrite (@set_nth_twice _ x i 0 t Hi). fold th K. unfold F. ring.
  - unfold F. clear F.
    rewrite (jacobian_entry_split theta x Ht Hi).
    rewrite (mv_split theta x Hi). fold th x0 K. clearbody K.
    unfold lead_factor. fold th x0. unfold p32. fold x0 in Hp. fold th in Hp.
    generalize (exp (- sqrt 3 * th * Rabs x0)). intros e.
    pose proof (der_sign_square x0) as Hs.
    generalize dependent (der_sign x0). intros s Hs.
    assert (Hs' : s = 1 \/ s = -1).
    { assert (H0 : (s - 1) * (s + 1) = 0) by (ring_simplify; lra).
      apply Rmult_integral in H0. destruct H0; [left|right]; lra. }
    pose proof sqrt3_square as Hc.
    generalize dependent (sqrt 3). intros c Hp Hc.
    replace 3 with (c * c) by exact Hc.
    replace (1 + c * (th * Rabs x0)) with (1 + c * Rabs x0 * th) by ring.
    destruct Hs' as [-> | ->]; field; exact Hp.
  - apply dlim_scal. apply (@dlim_mult der_sign F).
    + now apply dlim_der_sign.
    + unfold F.
      apply (@dlim_plus (fun t => (-1) * mv theta (set_nth i t x))
                        (fun t => K * exp (- sqrt 3 * th * Rabs t))).
      * apply dlim_scal. now apply mv_derivative.
      * apply dlim_scal.
        apply (@dlim_exp (fun t => - sqrt 3 * th * Rabs t)).
        apply dlim_scal. now apply dlim_abs.
Qed.

(** *** The array that the loops build *)

Lemma safe_div_ne a b : b <> 0 -> safe_div a b = Ok (a / b).
Proof. intros H. unfold safe_div. now destruct (Req_dec_T b 0). Qed.

Lemma factor_ge_1 theta x i :
  nonneg theta -> 1 <= 1 + sqrt 3 * Rabs (nth i x 0) * nth i theta 0.
Proof.
  intros Ht. pose proof (nth_nonneg i Ht). pose proof (Rabs_pos (nth i x 0)).
  pose proof (sqrt_pos 3).
  assert (0 <= sqrt 3 * Rabs (nth i x 0) * nth i theta 0); [|lra].
  apply Rmult_le_pos; [apply Rmult_le_pos|]; assumption.
Qed.

(** The entry [(i, k)] of [d2r[j]]. *)
Definition hessian_entry (theta x : list R) (rj : R) (drj : list R)
    (i k : nat) : R :=
  lead_factor theta x i * nth k drj 0
  + (if (i =? k)%nat
     then - (3 * nth i theta 0 * nth i theta 0)
          * (1 / (1 + sqrt 3 * Rabs (nth i x 0) * nth i theta 0) ^ 2) * rj
     else 0).

Lemma m32_d2r_row_result theta x rj drj :
  nonneg theta ->
  m32_d2r_row theta (length x) x rj drj
  = Ok (map (fun i => map (hessian_entry theta x rj drj i)
                          (seq 0 (length x)))
            (seq 0 (length x))).
Proof.
  intros Ht. unfold m32_d2r_row.
  apply for_each_map. intros i Hi. apply in_seq in Hi.
  apply for_each_map. intros k Hk.
  pose proof (@factor_ge_1 theta x i Ht) as Hp.
  rewrite (nth_map_in Rabs x 0 0) by lia.
  rewrite (nth_map_in der_sign x 0 0) by lia.
  rewrite safe_div_ne by lra. cbn [bind].
  unfold hessian_entry, lead_factor.
  destruct (i =? k)%nat.
  - rewrite safe_div_ne; [cbn [bind]; f_equal; ring|].
    apply pow_nonzero. lra.
  - f_equal. ring.
Qed.

(** With [hess_params] given, matern32 returns [d2r], where
    [d2r[j][i][k]] is the derivative with respect to [dx[j][i]] of the
    entry [dr[j][k]] of the Jacobian that it returns without
    [hess_params], wherever [dx[j][i]] is not zero and theta is not
    negative. *)
Theorem matern32_hessian_is_derivative (theta : list R) (DX : matrix)
    (fuel : nat) :
  (nrows DX / nb_limit + 1 < fuel)%nat ->
  wf_matrix DX -> length theta = ncols DX -> nonneg theta ->
  exists d r dr d2r,
    componentwise_distance fuel DX "matern32" (ncols DX) None false = Ok d
    /\ matern32_spatial nb_limit fuel theta (mk_matrix (ncols DX) d) DX
       = Ok (CorrJac r dr)
    /\ matern32_spatial_hessian nb_limit fuel theta
         (mk_matrix (ncols DX) d) DX = Ok d2r
    /\ (forall j, (j < nrows DX)%nat ->
                  nth j dr [] = jacobian_row theta (row DX j))
    /\ forall j i k,
         (j < nrows DX)%nat -> (i < ncols DX)%nat -> (k < ncols DX)%nat ->
         nth i (row DX j) 0 <> 0 ->
         derivable_pt_lim
           (fun t => nth k (jacobian_row theta (set_nth i t (row DX j))) 0)
           (nth i (row DX j) 0)
           (nth k (nth i (nth j d2r []) []) 0).
Proof.
  intros Hf Hw Hl Ht.
  assert (Hd : componentwise_distance fuel DX "matern32" (ncols DX) None false
               = Ok (map (map Rabs) (rows DX))).
  { rewrite componentwise_value by exact Hf.
    now rewrite (broadcast_wf _ Hw). }
  set (d := mk_matrix (ncols DX) (map (map Rabs) (rows DX))).
  assert (Hfd : (nrows d / nb_limit + 1 < fuel)%nat).
  { unfold nrows, d. cbn [rows]. rewrite length_map. exact Hf. }
  assert (H32 : matern32 nb_limit fuel theta d None None
                = Ok (Corr (map (fun x => m32_value theta x 0)
                                (map (map Rabs) (rows DX))))).
  { apply (@run_value nb_limit fuel K_matern32 theta d nb_limit_pos Hfd Hl). }
  pose proof (@spatial_result _ (m32_dr_row theta (ncols DX)) (sqrt 3)
                (fun x => m32_value theta x 0) theta DX Hl H32) as Hjac.
  assert (Hrow : forall j, (j < nrows DX)%nat ->
                           length (row DX j) = ncols DX).
  { intros j Hj. unfold wf_matrix in Hw. rewrite Forall_forall in Hw.
    apply Hw, nth_In, Hj. }
  assert (Hdr : forall j, (j < nrows DX)%nat ->
             nth j (jacobian_of (m32_dr_row theta (ncols DX)) (sqrt 3)
                      (fun x => m32_value theta x 0) theta DX) []
             = jacobian_row theta (row DX j)).
  { intros j Hj. unfold jacobian_of. rewrite (nth_map_seq _ [] Hj).
    unfold jacobian_row. now rewrite (Hrow j Hj). }
  exists (map (map Rabs) (rows DX)).
  exists (map (fun x => m32_value theta x 0) (map (map Rabs) (rows DX))).
  exists (jacobian_of (m32_dr_row theta (ncols DX)) (sqrt 3)
            (fun x => m32_value theta x 0) theta DX).
  exists (map (fun j =>
                 map (fun i =>
                        map (hessian_entry theta (row DX j)
                               (mv theta (row DX j))
                               (jacobian_row theta (row DX j)) i)
                            (seq 0 (ncols DX)))
                     (seq 0 (ncols DX)))
              (seq 0 (nrows DX))).
  split; [exact Hd|]. split; [exact Hjac|]. split; [|split; [exact Hdr|]].
  - unfold matern32_spatial_hessian.
    unfold matern32_spatial. cbn [ncols]. fold d. rewrite Hjac. cbn [bind].
    apply for_each_map. intros j Hj. apply in_seq in Hj.
    assert (Hj' : (j < nrows DX)%nat) by lia.
    rewrite !map_map.
    rewrite (nth_error_nth' _ (m32_value theta (map Rabs []) 0))
      by (rewrite length_map; exact Hj').
    rewrite (map_nth (fun r => m32_value theta (map Rabs r) 0)).
    rewrite (nth_error_nth' _ [])
      by (unfold jacobian_of; rewrite length_map, length_seq; exact Hj').
    rewrite (Hdr j Hj'). cbn [ncols d].
    fold (row DX j). rewrite <- (Hrow j Hj').
    rewrite m32_value_matern. fold (mv theta (row DX j)).
    now apply m32_d2r_row_result.
  - intros j i k Hj Hi Hk Hx.
    rewrite (nth_map_seq _ [] Hj), (nth_map_seq _ [] Hi),
      (nth_map_seq _ 0 Hk).
    pose proof (@factor_ge_1 theta (row DX j) i Ht) as Hp.
    pose proof (Hrow j Hj) as Hlen.
    unfold hessian_entry.
    destruct (Nat.eqb_spec i k) as [<-|Hik].
    + apply jacobian_diagonal_derivative; auto; try lia. lra.
    + rewrite Rplus_0_r.
      apply jacobian_cross_derivative; auto; try lia. lra.
Qed.

Lemma matern32_hessian_is_derivative_witness :
  exists d r dr d2r,
    componentwise_distance 2 three_rows "matern32" 2 None false = Ok d
    /\ matern32_spatial nb_limit 2 [1; 2] (mk_matrix 2 d) three_rows
       = Ok (CorrJac r dr)
    /\ matern32_spatial_hessian nb_limit 2 [1; 2] (mk_matrix 2 d) three_rows
       = Ok d2r.
Proof.
  destruct (@matern32_hessian_is_derivative [1; 2] three_rows 2)
    as (d & r & dr & d2r & H1 & H2 & H3 & _).
  - apply Nat.ltb_lt. vm_compute. reflexivity.
  - repeat constructor.
  - reflexivity.
  - repeat constructor; lra.
  - exists d, r, dr, d2r. repeat split; assumption.
Defined.

End MaternHessianFacts.

(** ** Gower distance: the distances themselves *)

Module GowerDistanceFacts.
Import Distance DistanceFacts Float32 Float32Facts ExtremaFacts Gower
       GowerFacts GowerMain SpatialFacts StandardizationFacts.
Local Open Scope R_scope.

(** The continuous columns of [X], divided by the column maxima (those of
    the columns in float32), and the categorical ones. *)
Definition normal_rows (xtypes : list xtype) (Xm : matrix) : list (list R) :=
  map (fun r => map2 divide_where r (maxes_of xtypes Xm))
      (map (select (not_cat_of xtypes)) (rows Xm)).

Definition cat_rows (xtypes : list xtype) (Xm : matrix) : list (list R) :=
  map (select (map is_cat xtypes)) (rows Xm).

Lemma slice_left {A} (l l' : list A) n :
  length l = n -> slice 0 n (l ++ l') = l.
Proof.
  intros <-. unfold slice. rewrite Nat.sub_0_r. cbn [skipn].
  apply firstn_app_exact.
Qed.

Lemma slice_right {A} (l l' : list A) n n' :
  length l = n -> length l' = n' -> slice n (n + n') (l ++ l') = l'.
Proof.
  intros <- <-. unfold slice. rewrite skipn_app_exact.
  replace (length l + length l' - length l)%nat with (length l') by lia.
  apply firstn_all.
Qed.

(** One row of [D] for the pair [p]. *)
Definition distance_row (xtypes : list xtype) (Xm : matrix) (p : nat * nat)
    : list R :=
  let dc := op_of cat_distance (cat_rows xtypes Xm) (cat_rows xtypes Xm) p in
  let dn := op_of (num_distance (ranges_of xtypes Xm))
                  (normal_rows xtypes Xm) (normal_rows xtypes Xm) p in
  scatter (map is_cat xtypes) dc
          (scatter (not_cat_of xtypes) dn (map (fun x => x * 0) (dc ++ dn))).

Lemma gower_self_result h X xtypes Xm :
  nth_error h X = Some Xm ->
  length xtypes = ncols Xm ->
  rows Xm <> [] ->
  finite32 xtypes Xm ->
  exists h',
    gower_componentwise_distances h X None xtypes
    = Ok (GSelf (map (distance_row xtypes Xm) (upper_pairs (nrows Xm)))
                (upper_pairs (nrows Xm))
                (map (select (not_cat_of xtypes)) (rows Xm)), h')
    /\ (forall l, (l < length h)%nat -> read h' l = read h l).
Proof.
  intros HX Hlen Hrows Hfin. unfold gower_componentwise_distances.
  unfold read at 1. rewrite HX. cbn [bind alloc].
  rewrite length_map. apply Nat.eqb_eq in Hlen as Hlenb. rewrite Hlenb.
  cbn [negb].
  change (read (h ++ [Xm]) (length h)) with
    (read (snd (alloc h Xm)) (fst (alloc h Xm))).
  rewrite !read_alloc. cbn [bind]. rewrite Nat.eqb_refl. cbn [negb].
  fold (not_cat_of xtypes). fold (count (not_cat_of xtypes)).
  rewrite (normalizers_ok (or_introl Hrows) Hfin). cbn [bind].
  rewrite ranges_of_norm, maxes_of_norm.
  rewrite read_write_same by (rewrite app_one_length; lia). cbn [bind ncols].
  rewrite !map_app.
  rewrite !(@slice_left _ _ _ (nrows Xm)), !(@slice_right _ _ _ (nrows Xm) (nrows Xm))
    by (unfold nrows; now rewrite ?length_map).
  fold (normal_rows xtypes Xm). fold (cat_rows xtypes Xm).
  unfold zeros.
  rewrite (pair_loop_result (num_distance (ranges_of xtypes Xm))
             (normal_rows xtypes Xm) (normal_rows xtypes Xm)).
  rewrite (rows_loop_result cat_distance (cat_rows xtypes Xm)
             (cat_rows xtypes Xm)).
  rewrite combine_fst_snd.
  assert (Hn : length (normal_rows xtypes Xm) = nrows Xm)
    by (unfold normal_rows, nrows; now rewrite !length_map).
  assert (Hc : length (cat_rows xtypes Xm) = nrows Xm)
    by (unfold cat_rows, nrows; now rewrite !length_map).
  rewrite Hn, Hc. rewrite !map2_of_maps.
  eexists. split; [reflexivity|].
  intros l Hl.
  rewrite !read_write_other by
    (rewrite ?write_length, ?app_one_length; rewrite ?app_one_length; lia).
  now apply read_old.
Qed.

(** *** The entries of a row *)

Lemma count_split (mask : list bool) :
  (count mask + count (map negb mask) = length mask)%nat.
Proof.
  unfold count. induction mask as [|b mask IH]; [reflexivity|].
  destruct b; simpl; lia.
Qed.

Section Entries.
Variables (xtypes : list xtype) (Xm : matrix).
Hypothesis Hwf : wf_matrix Xm.
Hypothesis Hlen : length xtypes = ncols Xm.

Lemma row_length i : (i < nrows Xm)%nat -> length (row Xm i) = length xtypes.
Proof.
  intros Hi. unfold wf_matrix in Hwf. rewrite Forall_forall in Hwf.
  rewrite Hlen. apply Hwf, nth_In, Hi.
Qed.

Lemma cat_row i :
  (i < nrows Xm)%nat ->
  nth i (cat_rows xtypes Xm) [] = select (map is_cat xtypes) (row Xm i).
Proof. intros Hi. unfold cat_rows. now apply nth_map_in. Qed.

Lemma normal_row i :
  (i < nrows Xm)%nat ->
  nth i (normal_rows xtypes Xm) []
  = map2 divide_where (select (not_cat_of xtypes) (row Xm i))
         (maxes_of xtypes Xm).
Proof.
  intros Hi. unfold normal_rows. rewrite map_map.
  now rewrite (nth_map_in _ (rows Xm) [] [] Hi).
Qed.

Lemma maxes_length : length (maxes_of xtypes Xm) = count (not_cat_of xtypes).
Proof. unfold maxes_of. now rewrite length_map, length_seq. Qed.

Lemma ranges_length : length (ranges_of xtypes Xm) = count (not_cat_of xtypes).
Proof. unfold ranges_of. now rewrite length_map, length_seq. Qed.

Lemma cat_part_length p :
  (fst p < nrows Xm)%nat -> (snd p < nrows Xm)%nat ->
  length (op_of cat_distance (cat_rows xtypes Xm) (cat_rows xtypes Xm) p)
  = count (map is_cat xtypes).
Proof.
  intros H1 H2. unfold op_of, cat_distance.
  rewrite !cat_row by assumption.
  rewrite map2_length, !select_length
    by (rewrite row_length, ?length_map; auto).
  lia.
Qed.

Lemma num_part_length p :
  (fst p < nrows Xm)%nat -> (snd p < nrows Xm)%nat ->
  length (op_of (num_distance (ranges_of xtypes Xm))
                (normal_rows xtypes Xm) (normal_rows xtypes Xm) p)
  = count (not_cat_of xtypes).
Proof.
  intros H1 H2. unfold op_of, num_distance, row_sub.
  rewrite !normal_row by assumption.
  rewrite !length_map2, length_map, !length_map2, !select_length,
    maxes_length, ranges_length
    by (rewrite row_length by assumption; unfold not_cat_of;
        now rewrite !length_map).
  lia.
Qed.

Lemma mask_column j :
  nth j (not_cat_of xtypes) false = true ->
  column (rank (not_cat_of xtypes) j)
         (map (select (not_cat_of xtypes)) (rows Xm))
  = column j (rows Xm).
Proof.
  intros Hn. apply column_select; [exact Hn|].
  revert Hwf. unfold wf_matrix. apply Forall_impl. intros r ->.
  unfold not_cat_of. now rewrite !length_map.
Qed.

Lemma max_entry j :
  nth j (not_cat_of xtypes) false = true ->
  nth (rank (not_cat_of xtypes) j) (maxes_of xtypes Xm) 0
  = max_of (column j (rows Xm)).
Proof.
  intros Hn. pose proof (rank_lt_count _ _ Hn) as Hr. unfold maxes_of.
  rewrite (nth_map_in _ (seq 0 (count (not_cat_of xtypes))) 0%nat 0)
    by now rewrite length_seq.
  rewrite seq_nth by exact Hr. cbn [Nat.add]. now rewrite mask_column.
Qed.

Lemma range_entry j :
  nth j (not_cat_of xtypes) false = true ->
  nth (rank (not_cat_of xtypes) j) (ranges_of xtypes Xm) (Finite 0)
  = range_of (column j (rows Xm)).
Proof.
  intros Hn. pose proof (rank_lt_count _ _ Hn) as Hr. unfold ranges_of.
  rewrite (nth_map_in _ (seq 0 (count (not_cat_of xtypes))) 0%nat
             (Finite 0))
    by now rewrite length_seq.
  rewrite seq_nth by exact Hr. cbn [Nat.add]. now rewrite mask_column.
Qed.

Lemma base_length p :
  (fst p < nrows Xm)%nat -> (snd p < nrows Xm)%nat ->
  length (scatter (not_cat_of xtypes)
            (op_of (num_distance (ranges_of xtypes Xm))
                   (normal_rows xtypes Xm) (normal_rows xtypes Xm) p)
            (map (fun x => x * 0)
               (op_of cat_distance (cat_rows xtypes Xm) (cat_rows xtypes Xm) p
                ++ op_of (num_distance (ranges_of xtypes Xm))
                     (normal_rows xtypes Xm) (normal_rows xtypes Xm) p)))
  = length xtypes.
Proof.
  intros H1 H2.
  rewrite scatter_length, length_map, length_app, cat_part_length,
    num_part_length by assumption.
  unfold not_cat_of. rewrite count_split. apply length_map.
Qed.

(** A categorical column: 0 where the two levels are equal, 1 elsewhere. *)
Lemma categorical_entry i i' j :
  (i < nrows Xm)%nat -> (i' < nrows Xm)%nat ->
  nth j (map is_cat xtypes) false = true ->
  nth j (distance_row xtypes Xm (i, i')) 0
  = if Req_dec_T (nth j (row Xm i) 0) (nth j (row Xm i') 0) then 0 else 1.
Proof.
  intros Hi Hi' Hj.
  assert (Hjl : (j < length xtypes)%nat).
  { destruct (Nat.lt_ge_cases j (length (map is_cat xtypes))) as [L|L];
      [now rewrite length_map in L|].
    rewrite nth_overflow in Hj by exact L. discriminate. }
  pose proof (rank_lt_count _ _ Hj) as Hr.
  unfold distance_row.
  rewrite scatter_hit;
    [|exact Hj|rewrite base_length; auto|rewrite cat_part_length; auto].
  unfold op_of, cat_distance. cbn [fst snd].
  rewrite !cat_row by assumption.
  rewrite (nth_map2 _ _ _ 0 0 0)
    by (rewrite select_length; rewrite ?row_length, ?length_map; auto).
  rewrite !select_hit by (rewrite ?row_length; auto).
  reflexivity.
Qed.

(** A continuous column: the two values divided by the column maximum,
    the absolute difference divided by the range. *)
Lemma continuous_entry i i' j :
  (i < nrows Xm)%nat -> (i' < nrows Xm)%nat -> (j < length xtypes)%nat ->
  nth j (map is_cat xtypes) false = false ->
  let M := max_of (column j (rows Xm)) in
  nth j (distance_row xtypes Xm (i, i')) 0
  = divide_range
      (Rabs (divide_where (nth j (row Xm i) 0) M
             - divide_where (nth j (row Xm i') 0) M))
      (range_of (column j (rows Xm))).
Proof.
  intros Hi Hi' Hjl Hj M.
  assert (Hj' : nth j (map is_cat xtypes) true = false).
  { rewrite (nth_indep _ true false) by now rewrite length_map. exact Hj. }
  pose proof (nth_negb _ _ Hj') as Hn. fold (not_cat_of xtypes) in Hn.
  pose proof (rank_lt_count _ _ Hn) as Hr.
  assert (Hmask : length (not_cat_of xtypes) = length xtypes)
    by (unfold not_cat_of; now rewrite !length_map).
  assert (Hsel : forall k, (k < nrows Xm)%nat ->
            length (select (not_cat_of xtypes) (row Xm k))
            = count (not_cat_of xtypes)).
  { intros k Hk. apply select_length. rewrite row_length; auto. }
  unfold distance_row.
  rewrite scatter_keep by exact Hj'.
  rewrite scatter_hit;
    [|exact Hn
     |rewrite length_map, length_app, cat_part_length, num_part_length;
      auto; unfold not_cat_of; rewrite count_split, length_map; exact Hjl
     |rewrite num_part_length; auto].
  unfold op_of, num_distance, row_sub. cbn [fst snd].
  rewrite !normal_row by assumption.
  rewrite (nth_map2 _ _ _ 0 (Finite 0) 0);
    [|rewrite length_map, !map2_length, !Hsel, maxes_length; auto; lia
     |rewrite ranges_length; exact Hr].
  rewrite (nth_map_in Rabs _ 0 0)
    by (rewrite !map2_length, !Hsel, maxes_length; auto; lia).
  rewrite (nth_map2 _ _ _ 0 0 0)
    by (rewrite !map2_length, !Hsel, maxes_length; auto; lia).
  rewrite !(nth_map2 _ _ _ 0 0 0)
    by (rewrite ?Hsel, ?maxes_length; auto).
  rewrite !select_hit by (rewrite ?row_length; auto).
  rewrite max_entry, range_entry by exact Hn.
  reflexivity.
Qed.

End Entries.

(** *** The value on a continuous column *)

Lemma divide_where_ne a b : b <> 0 -> divide_where a b = a / b.
Proof. intros H. unfold divide_where. now destruct (Req_dec_T b 0). Qed.

Lemma min_le_max l : min_of l <= max_of l.
Proof.
  unfold min_of, max_of. destruct (cast l) as [|x c] eqn:E; [simpl; lra|].
  pose proof (@col_extrema (x :: c) x (or_introl eq_refl)). lra.
Qed.

(** The sign of the range that the loop stores. *)
Definition range_sign (P : R -> Prop) (rng : xfloat) : Prop :=
  match rng with
  | Finite r => P r
  | Infinite => True
  end.

Lemma range_nonneg l : 0 < max_of l -> range_sign (fun r => 0 <= r) (range_of l).
Proof.
  intros HM. unfold range_of.
  destruct (Req_dec_T (max_of l) 0) as [E|_]; [lra|].
  pose proof (min_le_max l) as Hm.
  assert (Hq : min_of l / max_of l <= 1).
  { apply (Rmult_le_reg_r (max_of l)); [exact HM|].
    unfold Rdiv. rewrite Rmult_assoc, Rinv_l by lra. lra. }
  unfold round32. destruct (Rle_dec _ _); [exact I|].
  cbn [one_minus range_sign]. pose proof (round_value_le_1 Hq). lra.
Qed.

Lemma range_nonpos l : max_of l < 0 -> range_sign (fun r => r <= 0) (range_of l).
Proof.
  intros HM. unfold range_of.
  destruct (Req_dec_T (max_of l) 0) as [E|_]; [lra|].
  pose proof (min_le_max l) as Hm.
  assert (Hq : 1 <= min_of l / max_of l).
  { replace (min_of l / max_of l) with (- min_of l / - max_of l)
      by (field; lra).
    apply (Rmult_le_reg_r (- max_of l)); [lra|].
    unfold Rdiv. rewrite Rmult_assoc, Rinv_l by lra. lra. }
  unfold round32. destruct (Rle_dec _ _); [exact I|].
  cbn [one_minus range_sign]. pose proof (round_value_ge_1 Hq). lra.
Qed.

Lemma divide_range_nonneg a rng :
  0 <= a -> range_sign (fun r => 0 <= r) rng -> 0 <= divide_range a rng.
Proof.
  intros Ha. destruct rng as [r|]; cbn [range_sign divide_range]; [|lra].
  intros Hr. unfold divide_where. destruct (Req_dec_T r 0); [lra|].
  apply Rmult_le_pos; [exact Ha|]. left. apply Rinv_0_lt_compat. lra.
Qed.

Lemma divide_range_nonpos a rng :
  0 <= a -> range_sign (fun r => r <= 0) rng -> divide_range a rng <= 0.
Proof.
  intros Ha. destruct rng as [r|]; cbn [range_sign divide_range]; [|lra].
  intros Hr. unfold divide_where. destruct (Req_dec_T r 0); [lra|].
  assert (H : 0 < / - r) by (apply Rinv_0_lt_compat; lra).
  replace (a / r) with (- (a * / - r)) by (field; lra).
  pose proof (Rmult_le_pos _ _ Ha (Rlt_le _ _ H)). lra.
Qed.

(** The entry of a continuous column, from the two values, the float32
    maximum [M] of the column and the stored range. *)
Definition continuous_distance (l : list R) (a b : R) : R :=
  divide_range (Rabs (divide_where a (max_of l) - divide_where b (max_of l)))
               (range_of l).

Lemma continuous_closed l a b r :
  max_of l <> 0 -> range_of l = Finite r -> r <> 0 ->
  continuous_distance l a b = Rabs (a - b) / (Rabs (max_of l) * r).
Proof.
  intros HM Hr Hr0. unfold continuous_distance. rewrite Hr.
  cbn [divide_range]. rewrite !divide_where_ne by assumption.
  replace (a / max_of l - b / max_of l) with ((a - b) / max_of l)
    by (field; exact HM).
  unfold Rdiv at 2. rewrite Rabs_mult, Rabs_inv.
  field. split; [exact Hr0|]. now apply Rabs_no_R0.
Qed.

Lemma continuous_facts l a b :
  (forall r, max_of l <> 0 -> range_of l = Finite r -> r <> 0 ->
             continuous_distance l a b
             = Rabs (a - b) / (Rabs (max_of l) * r))
  /\ (0 < max_of l -> 0 <= continuous_distance l a b)
  /\ (max_of l < 0 -> continuous_distance l a b <= 0)
  /\ (degenerate l -> continuous_distance l a b = 0).
Proof.
  split; [intros r; apply continuous_closed|]. split; [|split].
  - intros HM. apply divide_range_nonneg; [apply Rabs_pos|].
    now apply range_nonneg.
  - intros HM. apply divide_range_nonpos; [apply Rabs_pos|].
    now apply range_nonpos.
  - intros Hd. unfold continuous_distance.
    rewrite (degenerate_range Hd). apply divide_range_zero.
Qed.

(** Gower distances in self mode, when no continuous entry overflows in
    float32.  There is one row per pair [i < i'], in the order of [ij].
    On a categorical column the entry is 0 where the two points have the
    same level and 1 elsewhere.  On a continuous column it is
    [|a / M - b / M|] divided by the stored range, where [M] is the
    largest entry of the column in float32 and the range is
    [1 - min / M] with the quotient in float32: [|a - b| / (|M| * r)]
    for a range [r] that is finite and not zero.  The entry is not
    negative where [M > 0], not positive where [M < 0], and 0 on a
    column whose maximum is 0 or that is constant. *)
Theorem gower_self_distances (h : heap) (X : loc) (xtypes : list xtype)
    (Xm : matrix) :
  nth_error h X = Some Xm ->
  length xtypes = ncols Xm ->
  wf_matrix Xm ->
  rows Xm <> [] ->
  finite32 xtypes Xm ->
  exists D X_cont h',
    gower_componentwise_distances h X None xtypes
    = Ok (GSelf D (upper_pairs (nrows Xm)) X_cont, h')
    /\ length D = (nrows Xm * (nrows Xm - 1) / 2)%nat
    /\ forall p i i' j,
         nth_error (upper_pairs (nrows Xm)) p = Some (i, i') ->
         (j < ncols Xm)%nat ->
         let a := nth j (row Xm i) 0 in
         let b := nth j (row Xm i') 0 in
         let e := nth j (nth p D []) 0 in
         let col := column j (rows Xm) in
         let M := max_of col in
         if nth j (map is_cat xtypes) false
         then e = (if Req_dec_T a b then 0 else 1)
         else e = divide_range (Rabs (divide_where a M - divide_where b M))
                               (range_of col)
              /\ (forall r, M <> 0 -> range_of col = Finite r -> r <> 0 ->
                            e = Rabs (a - b) / (Rabs M * r))
              /\ (0 < M -> 0 <= e)
              /\ (M < 0 -> e <= 0)
              /\ (degenerate col -> e = 0).
Proof.
  intros HX Hlen Hwf Hrows Hfin.
  destruct (@gower_self_result h X xtypes Xm HX Hlen Hrows Hfin)
    as (h' & Hrun & _).
  do 3 eexists. split; [exact Hrun|]. split.
  - now rewrite length_map, upper_pairs_length.
  - intros p i i' j Hp Hj a b e col M.
    assert (Hin : In (i, i') (upper_pairs (nrows Xm)))
      by (eapply nth_error_In; exact Hp).
    apply upper_pairs_In in Hin.
    assert (Hi : (i < nrows Xm)%nat) by lia.
    assert (Hi' : (i' < nrows Xm)%nat) by lia.
    assert (Hrow : nth p (map (distance_row xtypes Xm)
                            (upper_pairs (nrows Xm))) []
                   = distance_row xtypes Xm (i, i')).
    { apply nth_error_nth. now apply map_nth_error. }
    subst e. rewrite Hrow.
    destruct (nth j (map is_cat xtypes) false) eqn:Hc.
    + now apply categorical_entry.
    + rewrite (@continuous_entry xtypes Xm Hwf Hlen i i' j Hi Hi')
        by (auto; lia).
      fold a b col M. split; [reflexivity|].
      apply (continuous_facts col a b).
Qed.

Definition three_points : matrix := mk_matrix 2 [[1; 0]; [3; 1]; [2; 0]].

Lemma three_points_finite : finite32 [FLOAT; ENUM 2] three_points.
Proof.
  unfold finite32. cbn.
  repeat constructor; apply in_range_le_4; rewrite Rabs_pos_eq; lra.
Qed.

(** The first column of [three_points]: its maximum 3 is a float32, and
    [1 / 3] is not, so that the stored range is not [2 / 3]. *)
Lemma three_points_normalizer :
  max_of (column 0 (rows three_points)) = 3
  /\ range_of (column 0 (rows three_points))
     = Finite (1 - 11184811 / 33554432).
Proof.
  assert (Hmax : max_of (column 0 (rows three_points)) = 3).
  { unfold max_of, cast. cbn [three_points rows column map nth].
    rewrite round_value_1, round_value_2, round_value_3.
    cbn [col_max fold_left]. rewrite (Rmax_right 1 3), (Rmax_left 3 2); lra. }
  assert (Hmin : min_of (column 0 (rows three_points)) = 1).
  { unfold min_of, cast. cbn [three_points rows column map nth].
    rewrite round_value_1, round_value_2, round_value_3.
    cbn [col_min fold_left]. rewrite (Rmin_left 1 3), (Rmin_left 1 2); lra. }
  split; [exact Hmax|]. unfold range_of. rewrite Hmax, Hmin.
  destruct (Req_dec_T 3 0); [lra|].
  rewrite round32_in_range
    by (apply in_range_le_4; rewrite Rabs_pos_eq; lra).
  now rewrite round_value_third.
Qed.

(** On [three_points] the first pair is at the two ends of the first
    column, and its distance is above 1. *)
Lemma gower_self_distances_witness :
  exists D X_cont h',
    gower_componentwise_distances [three_points] 0%nat None [FLOAT; ENUM 2]
    = Ok (GSelf D (upper_pairs 3) X_cont, h')
    /\ length D = 3%nat
    /\ nth 0 (nth 0 D []) 0 = 67108864 / 67108863.
Proof.
  destruct (@gower_self_distances [three_points] 0%nat [FLOAT; ENUM 2]
              three_points)
    as (D & X_cont & h' & Hrun & HD & Hent).
  - reflexivity.
  - reflexivity.
  - repeat constructor.
  - discriminate.
  - exact three_points_finite.
  - exists D, X_cont, h'. split; [exact Hrun|]. split; [exact HD|].
    destruct three_points_normalizer as [Hmax Hrng].
    destruct (Hent 0%nat 0%nat 1%nat 0%nat eq_refl ltac:(cbn; lia))
      as (_ & Hclosed & _).
    rewrite (Hclosed (1 - 11184811 / 33554432));
      [|rewrite Hmax; lra|exact Hrng|lra].
    rewrite Hmax. cbn [three_points rows row nth].
    rewrite (Rabs_left (1 - 3)), (Rabs_pos_eq 3) by lra. field.
Defined.

(** A column of two numbers that float32 does not tell apart,
    [2 ^ 24] and [2 ^ 24 + 1], has the range 0: its distances are 0. *)
Lemma float32_merges_neighbours :
  range_of [16777216; 16777217] = Finite 0.
Proof.
  assert (H24 : round_value 16777216 = 16777216).
  { replace 16777216 with (powerRZ 2 24) by (simpl; lra).
    apply round_value_pow2. lia. }
  unfold range_of, max_of, min_of, cast. cbn [map].
  rewrite H24, round_value_tie. cbn [col_max col_min fold_left].
  rewrite Rmax_left, Rmin_left by lra.
  destruct (Req_dec_T 16777216 0); [lra|].
  replace (16777216 / 16777216) with 1 by field.
  rewrite round32_1. cbn [one_minus]. f_equal. ring.
Qed.

(** *** Cross mode *)

(** A row of [X_norma] or [Y_norma]: the continuous entries divided by
    the column maxima of [y]. *)
Definition normalize_row (xtypes : list xtype) (Ym : matrix) (r : list R)
    : list R :=
  scatter (not_cat_of xtypes)
          (map2 divide_where (select (not_cat_of xtypes) r)
                (maxes_of xtypes Ym))
          r.

(** The row of [D] for two normalized rows. *)
Definition cross_row (xtypes : list xtype) (Ym : matrix) (x y : list R)
    : list R :=
  let r0 := map Rabs (row_sub x y) in
  let r1 := scatter (map is_cat xtypes)
                    (map (fun v => if Rlt_dec (1 / 2) v then 1 else 0)
                         (select (map is_cat xtypes) r0))
                    r0 in
  scatter (not_cat_of xtypes)
          (map2 divide_range (select (not_cat_of xtypes) r1)
                (ranges_of xtypes Ym))
          r1.

Lemma map2_map_l {A B C} (g : B -> A -> C) (a : A -> B) (l : list A) :
  map2 g (map a l) l = map (fun x => g (a x) x) l.
Proof. induction l; simpl; congruence. Qed.

Lemma flat_rows {A} (g : list R -> list R -> A) (Xr Yr : list (list R)) :
  flat_map (fun x => map (fun y => g x y) Yr) Xr
  = map (fun p => g (nth (fst p) Xr []) (nth (snd p) Yr []))
        (all_pairs (length Xr) (length Yr)).
Proof.
  unfold all_pairs. rewrite DifferencesFacts.map_flat_map.
  rewrite <- (DifferencesFacts.nth_seq_all Xr []) at 1.
  rewrite DifferencesFacts.flat_map_of_map. apply flat_map_ext. intros i.
  rewrite map_map. rewrite <- (DifferencesFacts.nth_seq_all Yr []) at 1.
  rewrite map_map. reflexivity.
Qed.

Lemma all_pairs_In n m i j : In (i, j) (all_pairs n m) -> (i < n /\ j < m)%nat.
Proof.
  unfold all_pairs. rewrite in_flat_map. intros (i' & Hi & Hin).
  apply in_map_iff in Hin as (j' & Heq & Hj).
  inversion Heq; subst. apply in_seq in Hi, Hj. lia.
Qed.

Lemma all_pairs_length n m : length (all_pairs n m) = (n * m)%nat.
Proof. now rewrite all_pairs_div_mod, length_map, length_seq. Qed.

Lemma gower_cross_result h X y xtypes Xm Ym :
  nth_error h X = Some Xm ->
  nth_error h y = Some Ym ->
  length xtypes = ncols Xm ->
  ncols Xm = ncols Ym ->
  rows Ym <> [] ->
  finite32 xtypes Ym ->
  exists h',
    gower_componentwise_distances h X (Some y) xtypes
    = Ok (GCross
            (map (fun p =>
                    cross_row xtypes Ym
                      (normalize_row xtypes Ym (row Xm (fst p)))
                      (normalize_row xtypes Ym (row Ym (snd p))))
                 (all_pairs (nrows Xm) (nrows Ym))), h').
Proof.
  intros HX HY Hlen Hcols Hrows Hfin. unfold gower_componentwise_distances.
  assert (Hy : (y < length h)%nat) by (apply nth_error_Some; congruence).
  unfold read at 1. rewrite HX. cbn [bind alloc].
  rewrite length_map. apply Nat.eqb_eq in Hlen as Hlenb. rewrite Hlenb.
  cbn [negb].
  rewrite (read_alloc_old h Xm y HY). cbn [bind].
  apply Nat.eqb_eq in Hcols as Hcolsb. rewrite Hcolsb. cbn [negb].
  fold (not_cat_of xtypes). fold (count (not_cat_of xtypes)).
  rewrite (normalizers_ok (or_introl Hrows) Hfin). cbn [bind].
  rewrite ranges_of_norm, maxes_of_norm.
  change (read (h ++ [Xm]) (length h)) with
    (read (snd (alloc h Xm)) (fst (alloc h Xm))).
  rewrite read_alloc. cbn [bind].
  rewrite read_write_other by (rewrite ?app_one_length; lia).
  rewrite (read_alloc_old h Xm y HY). cbn [bind].
  rewrite read_write_other
    by (rewrite ?write_length, ?app_one_length; rewrite ?app_one_length; lia).
  rewrite read_write_same by (rewrite ?app_one_length; lia). cbn [bind].
  rewrite read_write_same
    by (rewrite ?write_length, ?app_one_length; rewrite ?app_one_length; lia).
  cbn [bind rows].
  rewrite !map_app.
  rewrite !(@slice_left _ _ _ (nrows Xm)),
    !(@slice_right _ _ _ (nrows Xm) (nrows Ym))
    by (unfold nrows; now rewrite ?length_map).
  rewrite !map_map, !map2_map_l.
  rewrite (flat_rows (fun x y0 => map Rabs (row_sub x y0))).
  rewrite !map_map, !length_map.
  eexists. f_equal. f_equal. f_equal.
  apply map_ext_in. intros [i i'] Hin. apply all_pairs_In in Hin.
  cbn [fst snd]. unfold cross_row, normalize_row, row.
  rewrite !(nth_map_in _ _ [] []) by (unfold nrows in Hin; lia).
  reflexivity.
Qed.

Section CrossEntries.
Variables (xtypes : list xtype) (Ym : matrix).
Hypothesis Hwf : wf_matrix Ym.
Hypothesis Hlen : length xtypes = ncols Ym.

Lemma mask_length : length (not_cat_of xtypes) = length xtypes.
Proof. unfold not_cat_of. now rewrite !length_map. Qed.

Lemma not_cat_false j :
  nth j (map is_cat xtypes) false = true ->
  nth j (not_cat_of xtypes) true = false.
Proof.
  intros Hj. unfold not_cat_of.
  destruct (Nat.lt_ge_cases j (length (map is_cat xtypes))) as [L|L].
  - rewrite (nth_map_in negb _ false true L). now rewrite Hj.
  - rewrite nth_overflow in Hj by exact L. discriminate.
Qed.

Lemma normalize_length r : length (normalize_row xtypes Ym r) = length r.
Proof. apply scatter_length. Qed.

Lemma normalize_categorical r j :
  nth j (map is_cat xtypes) false = true ->
  nth j (normalize_row xtypes Ym r) 0 = nth j r 0.
Proof. intros Hj. apply scatter_keep. now apply not_cat_false. Qed.

Lemma normalize_continuous r j :
  length r = length xtypes -> (j < length xtypes)%nat ->
  nth j (map is_cat xtypes) false = false ->
  nth j (normalize_row xtypes Ym r) 0
  = divide_where (nth j r 0) (max_of (column j (rows Ym))).
Proof.
  intros Hr Hjl Hj.
  assert (Hj' : nth j (map is_cat xtypes) true = false).
  { rewrite (nth_indep _ true false) by now rewrite length_map. exact Hj. }
  pose proof (nth_negb _ _ Hj') as Hn. fold (not_cat_of xtypes) in Hn.
  pose proof (rank_lt_count _ _ Hn) as Hrk.
  assert (Hsel : length (select (not_cat_of xtypes) r)
                 = count (not_cat_of xtypes))
    by (apply select_length; now rewrite mask_length).
  unfold normalize_row.
  rewrite scatter_hit;
    [|exact Hn|lia|rewrite map2_length, Hsel, maxes_length; lia].
  rewrite (nth_map2 _ _ _ 0 0 0) by (rewrite ?Hsel, ?maxes_length; auto).
  rewrite select_hit by (auto; lia).
  now rewrite (@max_entry xtypes Ym Hwf Hlen j Hn).
Qed.

Lemma abs_diff_entry x y j :
  length x = length xtypes -> length y = length xtypes ->
  (j < length xtypes)%nat ->
  nth j (map Rabs (row_sub x y)) 0 = Rabs (nth j x 0 - nth j y 0).
Proof.
  intros Hx Hy Hj. unfold row_sub.
  rewrite (nth_map_in Rabs _ 0 0) by (rewrite map2_length; lia).
  now rewrite (nth_map2 _ _ _ 0 0 0) by lia.
Qed.

Lemma cross_categorical x y j :
  length x = length xtypes -> length y = length xtypes ->
  nth j (map is_cat xtypes) false = true ->
  nth j (cross_row xtypes Ym x y) 0
  = if Rlt_dec (1 / 2) (Rabs (nth j x 0 - nth j y 0)) then 1 else 0.
Proof.
  intros Hx Hy Hj.
  assert (Hjl : (j < length xtypes)%nat).
  { destruct (Nat.lt_ge_cases j (length (map is_cat xtypes))) as [L|L];
      [now rewrite length_map in L|].
    rewrite nth_overflow in Hj by exact L. discriminate. }
  pose proof (rank_lt_count _ _ Hj) as Hrk.
  assert (Hl0 : length (map Rabs (row_sub x y)) = length xtypes)
    by (unfold row_sub; rewrite length_map, map2_length; lia).
  assert (Hsel : length (select (map is_cat xtypes) (map Rabs (row_sub x y)))
                 = count (map is_cat xtypes))
    by (apply select_length; now rewrite Hl0, length_map).
  unfold cross_row.
  rewrite scatter_keep by now apply not_cat_false.
  rewrite scatter_hit; [|exact Hj|lia|rewrite length_map, Hsel; exact Hrk].
  rewrite (nth_map_in _ _ 0 0) by (rewrite Hsel; exact Hrk).
  rewrite select_hit by (auto; lia).
  now rewrite abs_diff_entry.
Qed.

Lemma cross_continuous x y j :
  length x = length xtypes -> length y = length xtypes ->
  (j < length xtypes)%nat ->
  nth j (map is_cat xtypes) false = false ->
  nth j (cross_row xtypes Ym x y) 0
  = divide_range (Rabs (nth j x 0 - nth j y 0))
                 (range_of (column j (rows Ym))).
Proof.
  intros Hx Hy Hjl Hj.
  assert (Hj' : nth j (map is_cat xtypes) true = false).
  { rewrite (nth_indep _ true false) by now rewrite length_map. exact Hj. }
  pose proof (nth_negb _ _ Hj') as Hn. fold (not_cat_of xtypes) in Hn.
  pose proof (rank_lt_count _ _ Hn) as Hrk.
  assert (Hl0 : length (map Rabs (row_sub x y)) = length xtypes)
    by (unfold row_sub; rewrite length_map, map2_length; lia).
  unfold cross_row.
  set (r1 := scatter (map is_cat xtypes) _ (map Rabs (row_sub x y))).
  assert (Hl1 : length r1 = length xtypes)
    by (unfold r1; now rewrite scatter_length).
  assert (Hsel : length (select (not_cat_of xtypes) r1)
                 = count (not_cat_of xtypes))
    by (apply select_length; now rewrite mask_length).
  rewrite scatter_hit;
    [|exact Hn|lia|rewrite length_map2, Hsel, ranges_length; lia].
  rewrite (nth_map2 _ _ _ 0 (Finite 0) 0)
    by (rewrite ?Hsel, ?ranges_length; auto).
  rewrite select_hit by (auto; lia).
  rewrite (@range_entry xtypes Ym Hwf Hlen j Hn).
  unfold r1. rewrite scatter_keep by exact Hj'.
  now rewrite abs_diff_entry.
Qed.

End CrossEntries.

(** Gower distances in cross mode, when no continuous entry of [y]
    overflows in float32: one row per pair [(i, i')] of a point of [X]
    and a point of [y], row-major.  The maxima and ranges are those of
    the columns of [y].  On a categorical column the entry is 1 where
    the two values differ by more than 1/2 and 0 elsewhere.  On a
    continuous column it is [|a / M - b / M|] divided by the stored
    range, as in self mode: not negative where [M > 0], not positive
    where [M < 0], and 0 on a column of [y] whose maximum is 0 or that
    is constant. *)
Theorem gower_cross_distances (h : heap) (X y : loc) (xtypes : list xtype)
    (Xm Ym : matrix) :
  nth_error h X = Some Xm ->
  nth_error h y = Some Ym ->
  length xtypes = ncols Xm ->
  ncols Xm = ncols Ym ->
  (0 < ncols Xm)%nat ->
  wf_matrix Xm -> wf_matrix Ym ->
  rows Ym <> [] ->
  finite32 xtypes Ym ->
  exists D h',
    gower_componentwise_distances h X (Some y) xtypes = Ok (GCross D, h')
    /\ length D = (nrows Xm * nrows Ym)%nat
    /\ forall p i i' j,
         nth_error (all_pairs (nrows Xm) (nrows Ym)) p = Some (i, i') ->
         (j < ncols Xm)%nat ->
         let a := nth j (row Xm i) 0 in
         let b := nth j (row Ym i') 0 in
         let e := nth j (nth p D []) 0 in
         let col := column j (rows Ym) in
         let M := max_of col in
         if nth j (map is_cat xtypes) false
         then e = (if Rlt_dec (1 / 2) (Rabs (a - b)) then 1 else 0)
         else e = divide_range (Rabs (divide_where a M - divide_where b M))
                               (range_of col)
              /\ (forall r, M <> 0 -> range_of col = Finite r -> r <> 0 ->
                            e = Rabs (a - b) / (Rabs M * r))
              /\ (0 < M -> 0 <= e)
              /\ (M < 0 -> e <= 0)
              /\ (degenerate col -> e = 0).
Proof.
  intros HX HY Hlen Hcols _ HwX HwY Hrows Hfin.
  destruct (@gower_cross_result h X y xtypes Xm Ym HX HY Hlen Hcols Hrows
              Hfin) as (h' & Hrun).
  assert (HlenY : length xtypes = ncols Ym) by congruence.
  do 2 eexists. split; [exact Hrun|]. split.
  - now rewrite length_map, all_pairs_length.
  - intros p i i' j Hp Hj a b e col M.
    assert (Hin : In (i, i') (all_pairs (nrows Xm) (nrows Ym)))
      by (eapply nth_error_In; exact Hp).
    apply all_pairs_In in Hin. destruct Hin as [Hi Hi'].
    assert (Hrow : nth p (map (fun q =>
                     cross_row xtypes Ym
                       (normalize_row xtypes Ym (row Xm (fst q)))
                       (normalize_row xtypes Ym (row Ym (snd q))))
                    (all_pairs (nrows Xm) (nrows Ym))) []
                   = cross_row xtypes Ym
                       (normalize_row xtypes Ym (row Xm i))
                       (normalize_row xtypes Ym (row Ym i'))).
    { apply nth_error_nth.
      now rewrite (map_nth_error _ _ _ Hp). }
    subst e. rewrite Hrow.
    assert (Hra : length (row Xm i) = length xtypes)
      by now apply row_length.
    assert (Hrb : length (row Ym i') = length xtypes)
      by now apply row_length.
    destruct (nth j (map is_cat xtypes) false) eqn:Hc.
    + rewrite cross_categorical by (rewrite ?normalize_length; auto).
      now rewrite !normalize_categorical.
    + rewrite (@cross_continuous xtypes Ym HwY HlenY)
        by (rewrite ?normalize_length; auto; lia).
      rewrite !(@normalize_continuous xtypes Ym HwY HlenY) by (auto; lia).
      fold a b col M. split; [reflexivity|].
      apply (continuous_facts col a b).
Qed.

Lemma gower_cross_distances_witness :
  exists D h',
    gower_componentwise_distances [three_points; three_points] 0%nat
      (Some 1%nat) [FLOAT; ENUM 2]
    = Ok (GCross D, h')
    /\ length D = 9%nat.
Proof.
  destruct (@gower_cross_distances [three_points; three_points] 0%nat 1%nat
              [FLOAT; ENUM 2] three_points three_points)
    as (D & h' & Hrun & HD & _).
  - reflexivity.
  - reflexivity.
  - reflexivity.
  - reflexivity.
  - cbn. lia.
  - repeat constructor.
  - repeat constructor.
  - discriminate.
  - exact three_points_finite.
  - exists D, h'. split; assumption.
Defined.

End GowerDistanceFacts.

(** ** componentwise_distance_PLS: the derivative mode is the derivative of
    the value mode *)

Module PLSDerivativeFacts.
Import Kernels KernelFacts Componentwise Composer LoopFacts PipelineFacts
       GradientFacts SumFacts SpatialFacts LayoutFacts LevelsFacts
       RegressionFacts PLSDerivative.
Local Open Scope R_scope.

(** The function whose powers or absolute values the branch takes. *)
Definition pls_power (corr : string) : R -> R :=
  if (corr =? "squar_exp")%string then (fun x => x ^ 2) else Rabs.

(** One row of what the value mode returns. *)
Definition pls_distance (corr : string) (coeff_pls : matrix) (drow : list R)
    : list R :=
  dot_row (map (pls_power corr) drow)
          (map (map (pls_power corr)) (rows coeff_pls)) (ncols coeff_pls).

Lemma pls_value fuel D corr coeff_pls :
  (nrows D / nb_limit + 1 < fuel)%nat ->
  ncols D = nrows coeff_pls ->
  componentwise_distance_PLS fuel D corr (ncols coeff_pls) coeff_pls
  = Ok (map (pls_distance corr coeff_pls) (rows D)).
Proof.
  intros Hf Hd.
  unfold componentwise_distance_PLS, componentwise_distance_PLS_loop.
  apply Nat.eqb_eq in Hd. rewrite Hd. unfold fits. rewrite Nat.eqb_refl.
  cbn [orb negb].
  rewrite value_loop_result by exact Hf. cbn [bind]. f_equal.
  apply map_ext. intros drow. unfold broadcast_to, pls_distance, dot_row.
  now rewrite length_map, length_seq, Nat.eqb_refl.
Qed.

Lemma pls_power_zero corr : pls_power corr 0 = 0.
Proof.
  unfold pls_power. destruct (_ =? _)%string; [ring|apply Rabs_R0].
Qed.

(** The entry [(j, l)] of the PLS coefficients. *)
Definition weight (coeff_pls : matrix) (j l : nat) : R :=
  nth l (nth j (rows coeff_pls) []) 0.

Lemma coef_of_result g n theta coeff_pls j :
  (n <= length theta)%nat -> (j < nrows coeff_pls)%nat ->
  (n <= length (nth j (rows coeff_pls) []))%nat ->
  coef_of g n theta coeff_pls j
  = Ok (rsum (map (fun l => nth l theta 0 * g (weight coeff_pls j l))
                  (seq 0 n))).
Proof.
  intros Ht Hj Hc. unfold coef_of.
  induction n as [|n IH]; [reflexivity|].
  rewrite seq_S, for_fold_last, IH by lia. cbn [bind Nat.add].
  rewrite (nth_error_nth' theta 0) by lia.
  rewrite (nth_error_nth' (rows coeff_pls) []) by exact Hj.
  rewrite (nth_error_nth' _ 0) by lia.
  rewrite map_app, rsum_app. cbn [map]. rewrite rsum_head.
  unfold weight. f_equal. cbn [rsum fold_right]. ring.
Qed.

Lemma map2_flip_column (f : R -> R) l (v : list R) (M : list (list R)) :
  map2 (fun x crow => x * nth l crow 0) v M
  = map2 Rmult (map (fun crow => nth l crow 0) M) v.
Proof.
  revert M. induction v as [|x v IH]; intros [|crow M];
    cbn [map map2]; try reflexivity.
  rewrite IH. f_equal. ring.
Qed.

Lemma map2_seq_right (g : R -> R -> R) (theta : list R) (G : nat -> R) s :
  map2 g theta (map G (seq s (length theta)))
  = map (fun l => g (nth (l - s) theta 0) (G l)) (seq s (length theta)).
Proof.
  revert s. induction theta as [|x theta IH]; intros s; [reflexivity|].
  cbn [length seq map map2]. rewrite Nat.sub_diag. cbn [nth]. f_equal.
  rewrite IH. apply map_ext_in. intros l Hl. apply in_seq in Hl.
  replace (l - s)%nat with (S (l - S s)) by lia. reflexivity.
Qed.

(** The theta-weighted distance, with one entry of the row set apart. *)
Lemma weighted_distance corr coeff_pls theta x j t :
  length theta = ncols coeff_pls -> (j < length x)%nat ->
  rsum (map2 Rmult theta (pls_distance corr coeff_pls (set_nth j t x)))
  = rsum (map (fun l =>
                 nth l theta 0
                 * (rsum (map2 Rmult
                            (map (fun crow => nth l crow 0)
                                 (map (map (pls_power corr)) (rows coeff_pls)))
                            (map (pls_power corr) (set_nth j 0 x)))
                    + pls_power corr (weight coeff_pls j l)
                      * pls_power corr t))
              (seq 0 (ncols coeff_pls))).
Proof.
  intros Ht Hj. unfold pls_distance, dot_row. rewrite <- Ht.
  rewrite map2_seq_right. f_equal. apply map_ext. intros l.
  rewrite Nat.sub_0_r. f_equal.
  rewrite (map2_flip_column (pls_power corr)).
  rewrite (rsum_move_entry _ _ _ _ (pls_power_zero corr) Hj). f_equal.
  f_equal. rewrite map_map. unfold weight.
  destruct (Nat.lt_ge_cases j (length (rows coeff_pls))) as [L|L].
  - rewrite (nth_map_in _ (rows coeff_pls) [] 0 L).
    destruct (Nat.lt_ge_cases l (length (nth j (rows coeff_pls) []))) as [K|K].
    + now rewrite (nth_map_in _ _ 0 0 K).
    + rewrite !nth_overflow by (rewrite ?length_map; exact K).
      now rewrite pls_power_zero.
  - rewrite !(nth_overflow _ _ L), nth_overflow by (rewrite length_map; exact L).
    destruct l; cbn [nth]; now rewrite pls_power_zero.
Qed.

Definition pls_slope (corr : string) (x : R) : R :=
  if (corr =? "squar_exp")%string then 2 * x else der_sign x.

Lemma pls_power_derivative corr x :
  (corr <> "squar_exp"%string -> x <> 0) ->
  derivable_pt_lim (pls_power corr) x (pls_slope corr x).
Proof.
  intros Hx. unfold pls_power, pls_slope.
  destruct (String.eqb_spec corr "squar_exp") as [E|E].
  - apply dlim_square.
  - apply dlim_abs. now apply Hx.
Qed.

Lemma rsum_scale {A} (f : A -> R) (k : R) l :
  rsum (map (fun a => f a * k) l) = rsum (map f l) * k.
Proof.
  induction l as [|a l IH]; [simpl; ring|].
  cbn [map]. rewrite !rsum_head, IH. ring.
Qed.

(** The sum that the inner loop accumulates in [coef]. *)
Definition coef_sum (corr : string) (theta : list R) (coeff_pls : matrix)
    (j : nat) : R :=
  rsum (map (fun l => nth l theta 0 * pls_power corr (weight coeff_pls j l))
            (seq 0 (ncols coeff_pls))).

Lemma weighted_derivative corr coeff_pls theta x j :
  length theta = ncols coeff_pls -> (j < length x)%nat ->
  (corr <> "squar_exp"%string -> nth j x 0 <> 0) ->
  derivable_pt_lim
    (fun t => rsum (map2 Rmult theta
                         (pls_distance corr coeff_pls (set_nth j t x))))
    (nth j x 0)
    (coef_sum corr theta coeff_pls j * pls_slope corr (nth j x 0)).
Proof.
  intros Ht Hj Hx. unfold coef_sum. rewrite <- rsum_scale.
  eapply dlim_ext;
    [intros t; symmetry; apply (@weighted_distance corr coeff_pls theta x j t Ht Hj)
    |reflexivity|].
  apply (@dlim_rsum nat
           (fun l t =>
              nth l theta 0
              * (rsum (map2 Rmult
                         (map (fun crow => nth l crow 0)
                              (map (map (pls_power corr)) (rows coeff_pls)))
                         (map (pls_power corr) (set_nth j 0 x)))
                 + pls_power corr (weight coeff_pls j l) * pls_power corr t))
           (fun l => nth l theta 0 * pls_power corr (weight coeff_pls j l)
                     * pls_slope corr (nth j x 0))).
  intros l _.
  eapply dlim_ext; [reflexivity| |].
  2:{ apply dlim_scal. apply dlim_plus; [apply dlim_const|].
      apply dlim_scal. apply pls_power_derivative. exact Hx. }
  ring.
Qed.

(** With [return_derivative=True] componentwise_distance_PLS returns, at
    [(i, j)], the derivative with respect to [D[i][j]] of the
    theta-weighted sum of row [i] of what it returns with
    [return_derivative=False]. *)
Theorem pls_derivative_is_derivative (theta : list R) (D coeff_pls : matrix)
    (corr : string) :
  wf_matrix D -> wf_matrix coeff_pls ->
  ncols D = nrows coeff_pls -> length theta = ncols coeff_pls ->
  (forall D' fuel,
      (nrows D' / nb_limit + 1 < fuel)%nat -> ncols D' = nrows coeff_pls ->
      componentwise_distance_PLS fuel D' corr (ncols coeff_pls) coeff_pls
      = Ok (map (pls_distance corr coeff_pls) (rows D')))
  /\ exists G,
      componentwise_distance_PLS_derivative D corr (ncols coeff_pls)
        coeff_pls (Some theta) = Ok G
      /\ forall i j,
           (i < nrows D)%nat -> (j < ncols D)%nat ->
           (corr <> "squar_exp"%string -> nth j (row D i) 0 <> 0) ->
           derivable_pt_lim
             (fun t => rsum (map2 Rmult theta
                               (pls_distance corr coeff_pls
                                  (set_nth j t (row D i)))))
             (nth j (row D i) 0) (nth j (nth i G []) 0).
Proof.
  intros HwD HwC Hd Ht. split.
  { intros D' fuel Hf Hd'. now apply pls_value. }
  assert (Hcoef : forall g j, (j < ncols D)%nat ->
             coef_of g (ncols coeff_pls) theta coeff_pls j
             = Ok (rsum (map (fun l => nth l theta 0
                                       * g (weight coeff_pls j l))
                             (seq 0 (ncols coeff_pls))))).
  { intros g j Hj. apply coef_of_result; [lia|lia|].
    unfold wf_matrix in HwC. rewrite Forall_forall in HwC.
    rewrite (HwC (nth j (rows coeff_pls) [])); [lia|].
    apply nth_In. unfold nrows in Hd. lia. }
  exists (map (fun drow =>
                 map (fun j => coef_sum corr theta coeff_pls j
                               * pls_slope corr (nth j drow 0))
                     (seq 0 (ncols D)))
              (rows D)).
  split.
  - unfold componentwise_distance_PLS_derivative.
    apply for_each_map. intros drow _.
    apply for_each_map. intros j Hj. apply in_seq in Hj.
    unfold coef_sum, pls_slope, pls_power.
    destruct (corr =? "squar_exp")%string.
    + rewrite Hcoef by lia. cbn [bind]. f_equal. ring.
    + rewrite Hcoef by lia. reflexivity.
  - intros i j Hi Hj Hx.
    rewrite (nth_map_in _ (rows D) [] [] Hi).
    rewrite (nth_map_seq _ 0 Hj).
    apply weighted_derivative; [exact Ht| |exact Hx].
    unfold wf_matrix in HwD. rewrite Forall_forall in HwD.
    unfold row. rewrite (HwD (nth i (rows D) [])); [exact Hj|].
    apply nth_In, Hi.
Qed.

Lemma pls_derivative_is_derivative_witness :
  exists G,
    componentwise_distance_PLS_derivative three_rows "abs_exp" 1
      (mk_matrix 1 [[-1]; [2]]) (Some [3]) = Ok G.
Proof.
  destruct (@pls_derivative_is_derivative [3] three_rows
              (mk_matrix 1 [[-1]; [2]]) "abs_exp")
    as (_ & G & HG & _).
  - repeat constructor.
  - repeat constructor.
  - reflexivity.
  - reflexivity.
  - exists G. exact HG.
Defined.

End PLSDerivativeFacts.
